(** * QSpringies: the simulation engine (entity store, force accumulator,
    integrators, contact resolution, frame pacer)

    A shallow embedding of [system.cpp], [phys.cpp] and [misc.cpp].
    C++ [double] is Rocq's primitive binary64 [float] (IEEE 754 semantics,
    NaN and infinities included), C++ [int] is [Z], [std::vector] is
    [list] indexed from 0.  Indexing a vector out of range is undefined
    behaviour in C++; here every such access is an error ([None]). *)

From Stdlib Require Import ZArith List Bool Lia.
From Stdlib Require Import Floats.
From stdpp Require Import base option list.

Set Warnings "-inexact-float".
Local Open Scope Z_scope.

(** ** Doubles *)

Module D.

(** C's implicit [int] to [double] conversion. *)
Definition of_int (z : Z) : float :=
  if Z.ltb z 0 then PrimFloat.opp (PrimFloat.of_uint63 (Uint63.of_Z (Z.opp z)))
  else PrimFloat.of_uint63 (Uint63.of_Z z).

(** C's [a != b] on doubles: true when unordered. *)
Definition neb (a b : float) : bool := negb (PrimFloat.eqb a b).

(** C's [a > b] and [a >= b]. *)
Definition gtb (a b : float) : bool := PrimFloat.ltb b a.
Definition geb (a b : float) : bool := PrimFloat.leb b a.

(** A double used as a condition ([if (msum)], [dx || dy]). *)
Definition truthy (a : float) : bool := neb a 0%float.

(** Classes of values, read off the IEEE representation. *)
Definition isNaN (a : float) : bool :=
  match Prim2SF a with S754_nan => true | _ => false end.

Definition finite (a : float) : bool :=
  match Prim2SF a with
  | S754_nan | S754_infinity _ => false
  | _ => true
  end.

Definition isZero (a : float) : bool :=
  match Prim2SF a with S754_zero _ => true | _ => false end.

(** Zero or NaN: the values no magnitude is below. *)
Definition zero_or_nan (a : float) : bool := isZero a || isNaN a.

End D.

(** ** Data model ([system.h], [state.h]) *)

Definition S_ALIVE : Z := 1.
Definition S_SELECTED : Z := 2.
Definition S_FIXED : Z := 4.
Definition S_TEMPFIXED : Z := 8.

(** [status & bit] used as a condition. *)
Definition has_bit (status bit : Z) : bool := negb (Z.eqb (Z.land status bit) 0).
(** [status |= bit] and [status &= ~bit]. *)
Definition set_bit (status bit : Z) : Z := Z.lor status bit.
Definition clear_bit (status bit : Z) : Z := Z.land status (Z.lnot bit).

(** Four doubles for one slot of "RK temporary space": the members
    [cur_x, cur_y, cur_vx, cur_vy], [old_*], [test_*] and [k1x, k1y, k1vx,
    k1vy] .. [k6*] of [struct Mass] are kept as one quadruple each. *)
Record Quad := mkQuad { qx : float; qy : float; qvx : float; qvy : float }.

Definition Quad0 : Quad := mkQuad 0 0 0 0.

Module Mass.

Record t := mk {
  x : float;
  y : float;
  vx : float;
  vy : float;
  ax : float;
  ay : float;
  mass : float;
  elastic : float;
  radius : Z;
  parents : list Z;
  status : Z;
  cur : Quad;
  old : Quad;
  test : Quad;
  k1 : Quad;
  k2 : Quad;
  k3 : Quad;
  k4 : Quad;
  k5 : Quad;
  k6 : Quad
}.

Definition set_x (v : float) (m : t) : t :=
  mk v (m.(y)) (m.(vx)) (m.(vy)) (m.(ax)) (m.(ay)) (m.(mass))
     (m.(elastic)) (m.(radius)) (m.(parents)) (m.(status)) (m.(cur))
     (m.(old)) (m.(test)) (m.(k1)) (m.(k2)) (m.(k3)) (m.(k4)) (m.(k5))
     (m.(k6)).

Definition set_y (v : float) (m : t) : t :=
  mk (m.(x)) v (m.(vx)) (m.(vy)) (m.(ax)) (m.(ay)) (m.(mass))
     (m.(elastic)) (m.(radius)) (m.(parents)) (m.(status)) (m.(cur))
     (m.(old)) (m.(test)) (m.(k1)) (m.(k2)) (m.(k3)) (m.(k4)) (m.(k5))
     (m.(k6)).

Definition set_vx (v : float) (m : t) : t :=
  mk (m.(x)) (m.(y)) v (m.(vy)) (m.(ax)) (m.(ay)) (m.(mass)) (m.(elastic))
     (m.(radius)) (m.(parents)) (m.(status)) (m.(cur)) (m.(old))
     (m.(test)) (m.(k1)) (m.(k2)) (m.(k3)) (m.(k4)) (m.(k5)) (m.(k6)).

Definition set_vy (v : float) (m : t) : t :=
  mk (m.(x)) (m.(y)) (m.(vx)) v (m.(ax)) (m.(ay)) (m.(mass)) (m.(elastic))
     (m.(radius)) (m.(parents)) (m.(status)) (m.(cur)) (m.(old))
     (m.(test)) (m.(k1)) (m.(k2)) (m.(k3)) (m.(k4)) (m.(k5)) (m.(k6)).

Definition set_ax (v : float) (m : t) : t :=
  mk (m.(x)) (m.(y)) (m.(vx)) (m.(vy)) v (m.(ay)) (m.(mass)) (m.(elastic))
     (m.(radius)) (m.(parents)) (m.(status)) (m.(cur)) (m.(old))
     (m.(test)) (m.(k1)) (m.(k2)) (m.(k3)) (m.(k4)) (m.(k5)) (m.(k6)).

Definition set_ay (v : float) (m : t) : t :=
  mk (m.(x)) (m.(y)) (m.(vx)) (m.(vy)) (m.(ax)) v (m.(mass)) (m.(elastic))
     (m.(radius)) (m.(parents)) (m.(status)) (m.(cur)) (m.(old))
     (m.(test)) (m.(k1)) (m.(k2)) (m.(k3)) (m.(k4)) (m.(k5)) (m.(k6)).

Definition set_parents (v : list Z) (m : t) : t :=
  mk (m.(x)) (m.(y)) (m.(vx)) (m.(vy)) (m.(ax)) (m.(ay)) (m.(mass))
     (m.(elastic)) (m.(radius)) v (m.(status)) (m.(cur)) (m.(old))
     (m.(test)) (m.(k1)) (m.(k2)) (m.(k3)) (m.(k4)) (m.(k5)) (m.(k6)).

Definition set_status (v : Z) (m : t) : t :=
  mk (m.(x)) (m.(y)) (m.(vx)) (m.(vy)) (m.(ax)) (m.(ay)) (m.(mass))
     (m.(elastic)) (m.(radius)) (m.(parents)) v (m.(cur)) (m.(old))
     (m.(test)) (m.(k1)) (m.(k2)) (m.(k3)) (m.(k4)) (m.(k5)) (m.(k6)).

Definition set_cur (v : Quad) (m : t) : t :=
  mk (m.(x)) (m.(y)) (m.(vx)) (m.(vy)) (m.(ax)) (m.(ay)) (m.(mass))
     (m.(elastic)) (m.(radius)) (m.(parents)) (m.(status)) v (m.(old))
     (m.(test)) (m.(k1)) (m.(k2)) (m.(k3)) (m.(k4)) (m.(k5)) (m.(k6)).

Definition set_old (v : Quad) (m : t) : t :=
  mk (m.(x)) (m.(y)) (m.(vx)) (m.(vy)) (m.(ax)) (m.(ay)) (m.(mass))
     (m.(elastic)) (m.(radius)) (m.(parents)) (m.(status)) (m.(cur)) v
     (m.(test)) (m.(k1)) (m.(k2)) (m.(k3)) (m.(k4)) (m.(k5)) (m.(k6)).

Definition set_test (v : Quad) (m : t) : t :=
  mk (m.(x)) (m.(y)) (m.(vx)) (m.(vy)) (m.(ax)) (m.(ay)) (m.(mass))
     (m.(elastic)) (m.(radius)) (m.(parents)) (m.(status)) (m.(cur))
     (m.(old)) v (m.(k1)) (m.(k2)) (m.(k3)) (m.(k4)) (m.(k5)) (m.(k6)).

Definition set_k1 (v : Quad) (m : t) : t :=
  mk (m.(x)) (m.(y)) (m.(vx)) (m.(vy)) (m.(ax)) (m.(ay)) (m.(mass))
     (m.(elastic)) (m.(radius)) (m.(parents)) (m.(status)) (m.(cur))
     (m.(old)) (m.(test)) v (m.(k2)) (m.(k3)) (m.(k4)) (m.(k5)) (m.(k6)).

Definition set_k2 (v : Quad) (m : t) : t :=
  mk (m.(x)) (m.(y)) (m.(vx)) (m.(vy)) (m.(ax)) (m.(ay)) (m.(mass))
     (m.(elastic)) (m.(radius)) (m.(parents)) (m.(status)) (m.(cur))
     (m.(old)) (m.(test)) (m.(k1)) v (m.(k3)) (m.(k4)) (m.(k5)) (m.(k6)).

Definition set_k3 (v : Quad) (m : t) : t :=
  mk (m.(x)) (m.(y)) (m.(vx)) (m.(vy)) (m.(ax)) (m.(ay)) (m.(mass))
     (m.(elastic)) (m.(radius)) (m.(parents)) (m.(status)) (m.(cur))
     (m.(old)) (m.(test)) (m.(k1)) (m.(k2)) v (m.(k4)) (m.(k5)) (m.(k6)).

Definition set_k4 (v : Quad) (m : t) : t :=
  mk (m.(x)) (m.(y)) (m.(vx)) (m.(vy)) (m.(ax)) (m.(ay)) (m.(mass))
     (m.(elastic)) (m.(radius)) (m.(parents)) (m.(status)) (m.(cur))
     (m.(old)) (m.(test)) (m.(k1)) (m.(k2)) (m.(k3)) v (m.(k5)) (m.(k6)).

Definition set_k5 (v : Quad) (m : t) : t :=
  mk (m.(x)) (m.(y)) (m.(vx)) (m.(vy)) (m.(ax)) (m.(ay)) (m.(mass))
     (m.(elastic)) (m.(radius)) (m.(parents)) (m.(status)) (m.(cur))
     (m.(old)) (m.(test)) (m.(k1)) (m.(k2)) (m.(k3)) (m.(k4)) v (m.(k6)).

Definition set_k6 (v : Quad) (m : t) : t :=
  mk (m.(x)) (m.(y)) (m.(vx)) (m.(vy)) (m.(ax)) (m.(ay)) (m.(mass))
     (m.(elastic)) (m.(radius)) (m.(parents)) (m.(status)) (m.(cur))
     (m.(old)) (m.(test)) (m.(k1)) (m.(k2)) (m.(k3)) (m.(k4)) (m.(k5)) v.

(** [Mass()]: every member the constructor names, [status(S_ALIVE)]; the
    RK temporary space is left uninitialised by the constructor and is
    zero here. *)
Definition new : t :=
  mk 0 0 0 0 0 0 0 0 0 [] S_ALIVE Quad0 Quad0 Quad0 Quad0 Quad0 Quad0 Quad0 Quad0 Quad0.

Definition cur_x m := qx (cur m).
Definition cur_y m := qy (cur m).
Definition cur_vx m := qvx (cur m).
Definition cur_vy m := qvy (cur m).
Definition old_x m := qx (old m).
Definition old_y m := qy (old m).
Definition old_vx m := qvx (old m).
Definition old_vy m := qvy (old m).

(** The status accessors of [struct Mass]. *)
Definition isAlive (m : t) : bool := has_bit (status m) S_ALIVE.
Definition isSelected (m : t) : bool := has_bit (status m) S_SELECTED.
Definition isFixed (m : t) : bool := has_bit (status m) S_FIXED.
Definition setSelected (b : bool) (m : t) : t :=
  set_status (if b then set_bit (status m) S_SELECTED
              else clear_bit (status m) S_SELECTED) m.

(** [(m.status & S_ALIVE) && !(m.status & S_FIXED)], the test of every
    loop of [phys.cpp]. *)
Definition free (m : t) : bool := isAlive m && negb (isFixed m).

End Mass.

Abbreviation Mass := Mass.t.

Module Spring.

Record t := mk {
  ks : float; kd : float; restlen : float;
  m1 : Z; m2 : Z;
  status : Z
}.

Definition set_m1 (v : Z) (s : t) : t := mk s.(ks) s.(kd) s.(restlen) v s.(m2) s.(status).
Definition set_m2 (v : Z) (s : t) : t := mk s.(ks) s.(kd) s.(restlen) s.(m1) v s.(status).
Definition set_status (v : Z) (s : t) : t := mk s.(ks) s.(kd) s.(restlen) s.(m1) s.(m2) v.

(** [Spring()]. *)
Definition new : t := mk 0 0 0 0 0 S_ALIVE.

Definition isAlive (s : t) : bool := has_bit (status s) S_ALIVE.
Definition isSelected (s : t) : bool := has_bit (status s) S_SELECTED.
Definition setSelected (b : bool) (s : t) : t :=
  set_status (if b then set_bit (status s) S_SELECTED
              else clear_bit (status s) S_SELECTED) s.

End Spring.

Abbreviation Spring := Spring.t.

(** The four body forces ([FR_GRAV] .. [FR_WALL]); an array indexed by
    them is a function. *)
Inductive Force := FR_GRAV | FR_CMASS | FR_PTATTRACT | FR_WALL.

Module State.

Record t := mk {
  cur_mass : float; cur_rest : float;
  cur_ks : float; cur_kd : float;
  fix_mass : bool; show_spring : bool;
  center_id : Z;
  force_enabled : Force -> bool;
  cur_grav_val : Force -> float;
  cur_misc_val : Force -> float;
  cur_visc : float; cur_stick : float;
  cur_dt : float; cur_prec : float;
  adaptive_step : bool; grid_snap : bool;
  cur_gsnap : float;
  w_top : bool; w_left : bool; w_right : bool; w_bottom : bool;
  collide : bool
}.

Definition set_cur_mass (v : float) (s : t) : t :=
  mk v s.(cur_rest) s.(cur_ks) s.(cur_kd) s.(fix_mass) s.(show_spring)
     s.(center_id) s.(force_enabled) s.(cur_grav_val) s.(cur_misc_val)
     s.(cur_visc) s.(cur_stick) s.(cur_dt) s.(cur_prec) s.(adaptive_step)
     s.(grid_snap) s.(cur_gsnap) s.(w_top) s.(w_left) s.(w_right)
     s.(w_bottom) s.(collide).

Definition set_cur_rest (v : float) (s : t) : t :=
  mk s.(cur_mass) v s.(cur_ks) s.(cur_kd) s.(fix_mass) s.(show_spring)
     s.(center_id) s.(force_enabled) s.(cur_grav_val) s.(cur_misc_val)
     s.(cur_visc) s.(cur_stick) s.(cur_dt) s.(cur_prec) s.(adaptive_step)
     s.(grid_snap) s.(cur_gsnap) s.(w_top) s.(w_left) s.(w_right)
     s.(w_bottom) s.(collide).

Definition set_cur_ks (v : float) (s : t) : t :=
  mk s.(cur_mass) s.(cur_rest) v s.(cur_kd) s.(fix_mass) s.(show_spring)
     s.(center_id) s.(force_enabled) s.(cur_grav_val) s.(cur_misc_val)
     s.(cur_visc) s.(cur_stick) s.(cur_dt) s.(cur_prec) s.(adaptive_step)
     s.(grid_snap) s.(cur_gsnap) s.(w_top) s.(w_left) s.(w_right)
     s.(w_bottom) s.(collide).

Definition set_cur_kd (v : float) (s : t) : t :=
  mk s.(cur_mass) s.(cur_rest) s.(cur_ks) v s.(fix_mass) s.(show_spring)
     s.(center_id) s.(force_enabled) s.(cur_grav_val) s.(cur_misc_val)
     s.(cur_visc) s.(cur_stick) s.(cur_dt) s.(cur_prec) s.(adaptive_step)
     s.(grid_snap) s.(cur_gsnap) s.(w_top) s.(w_left) s.(w_right)
     s.(w_bottom) s.(collide).

Definition set_fix_mass (v : bool) (s : t) : t :=
  mk s.(cur_mass) s.(cur_rest) s.(cur_ks) s.(cur_kd) v s.(show_spring)
     s.(center_id) s.(force_enabled) s.(cur_grav_val) s.(cur_misc_val)
     s.(cur_visc) s.(cur_stick) s.(cur_dt) s.(cur_prec) s.(adaptive_step)
     s.(grid_snap) s.(cur_gsnap) s.(w_top) s.(w_left) s.(w_right)
     s.(w_bottom) s.(collide).

Definition set_center_id (v : Z) (s : t) : t :=
  mk s.(cur_mass) s.(cur_rest) s.(cur_ks) s.(cur_kd) s.(fix_mass)
     s.(show_spring) v s.(force_enabled) s.(cur_grav_val) s.(cur_misc_val)
     s.(cur_visc) s.(cur_stick) s.(cur_dt) s.(cur_prec) s.(adaptive_step)
     s.(grid_snap) s.(cur_gsnap) s.(w_top) s.(w_left) s.(w_right)
     s.(w_bottom) s.(collide).

Definition set_cur_dt (v : float) (s : t) : t :=
  mk s.(cur_mass) s.(cur_rest) s.(cur_ks) s.(cur_kd) s.(fix_mass)
     s.(show_spring) s.(center_id) s.(force_enabled) s.(cur_grav_val)
     s.(cur_misc_val) s.(cur_visc) s.(cur_stick) v s.(cur_prec)
     s.(adaptive_step) s.(grid_snap) s.(cur_gsnap) s.(w_top) s.(w_left)
     s.(w_right) s.(w_bottom) s.(collide).

(** [State::reset()]. *)
Definition reset : t :=
  mk 1 1 1 1 false true (-1)
     (fun _ => false)
     (fun f => match f with
               | FR_GRAV => 10 | FR_CMASS => 5
               | FR_PTATTRACT => 10 | FR_WALL => 10000 end)%float
     (fun f => match f with
               | FR_GRAV => 0 | FR_CMASS => 2
               | FR_PTATTRACT => 0 | FR_WALL => 1 end)%float
     0 0 0.025 1 false false 20 true true true true false.

End State.

Abbreviation State := State.t.

(** [class System]: the entity store and the simulation parameters. *)
Record System := mkSystem {
  state_ : State;
  masses_ : list Mass;
  springs_ : list Spring;
  fakeMass_ : Z;
  fakeSpring_ : Z
}.

Definition set_state (v : State) (s : System) : System :=
  mkSystem v s.(masses_) s.(springs_) s.(fakeMass_) s.(fakeSpring_).
Definition set_masses (v : list Mass) (s : System) : System :=
  mkSystem s.(state_) v s.(springs_) s.(fakeMass_) s.(fakeSpring_).
Definition set_springs (v : list Spring) (s : System) : System :=
  mkSystem s.(state_) s.(masses_) v s.(fakeMass_) s.(fakeSpring_).

(** ** Vector access *)

(** [v[i]] for an [int] index: an error outside [0 .. size-1]. *)
Definition at_ {A} (v : list A) (i : Z) : option A :=
  if Z.ltb i 0 then None else v !! Z.to_nat i.

(** [v[i] = f (v[i])]. *)
Definition modify {A} (v : list A) (i : Z) (f : A -> A) : option (list A) :=
  a ← at_ v i; Some (<[Z.to_nat i := f a]> v).

Definition massCount (s : System) : Z := Z.of_nat (length s.(masses_)).
Definition springCount (s : System) : Z := Z.of_nat (length s.(springs_)).
Definition getMass (s : System) (i : Z) : option Mass := at_ s.(masses_) i.
Definition getSpring (s : System) (i : Z) : option Spring := at_ s.(springs_) i.

Definition modMass (i : Z) (f : Mass -> Mass) (s : System) : option System :=
  ms ← modify s.(masses_) i f; Some (set_masses ms s).
Definition modSpring (i : Z) (f : Spring -> Spring) (s : System) : option System :=
  ss ← modify s.(springs_) i f; Some (set_springs ss s).

(** A [for] loop over the elements of [l] whose body may fail. *)
Fixpoint for_each {A S} (body : A -> S -> option S) (l : list A) (s : S) : option S :=
  match l with
  | [] => Some s
  | a :: l => s' ← body a s; for_each body l s'
  end.

(** [for (i = 0; i < n; i++)]. *)
Definition for_upto {S} (n : nat) (body : Z -> S -> option S) (s : S) : option S :=
  for_each body (map Z.of_nat (seq 0 n)) s.

(** ** Entity store ([system.cpp]) *)

(** [createMass] / [createSpring]: [resize(num + 1)] appends one
    default-constructed entity; the result is its index. *)
Definition createMass (s : System) : Z * System :=
  (massCount s, set_masses (s.(masses_) ++ [Mass.new]) s).

Definition createSpring (s : System) : Z * System :=
  (springCount s, set_springs (s.(springs_) ++ [Spring.new]) s).

Definition addMassParent (which parent : Z) (s : System) : option System :=
  modMass which (fun m => Mass.set_parents (Mass.parents m ++ [parent]) m) s.

(** [std::find] followed by [erase]: the first occurrence goes. *)
Fixpoint erase_first (p : Z) (l : list Z) : list Z :=
  match l with
  | [] => []
  | q :: l => if Z.eqb q p then l else q :: erase_first p l
  end.

Definition deleteMassParent (which parent : Z) (s : System) : option System :=
  mass ← getMass s which;
  if Mass.isAlive mass then
    modMass which (fun m => Mass.set_parents (erase_first parent (Mass.parents m)) m) s
  else Some s.

Definition deleteSpring (which : Z) (s : System) : option System :=
  spring ← getSpring s which;
  if Spring.isAlive spring then
    s ← modSpring which (Spring.set_status 0) s;
    s ← deleteMassParent (Spring.m1 spring) which s;
    deleteMassParent (Spring.m2 spring) which s
  else Some s.

(** The range-[for] walks [masses_[which].parents] in place.  The mass is
    dead by then, so [deleteMassParent] never erases from that vector
    (lemma [deleteSpring_keeps_dead_parents]) and the walk sees the list
    as it was on entry. *)
Definition deleteMass (which : Z) (s : System) : option System :=
  mass ← getMass s which;
  s ← (if Mass.isAlive mass then
         s ← modMass which (Mass.set_status 0) s;
         for_each deleteSpring (Mass.parents mass) s
       else Some s);
  Some (if Z.eqb which (State.center_id s.(state_))
        then set_state (State.set_center_id (-1) s.(state_)) s
        else s).

(** *** [evalSelection] *)

(** The locals of the mass loop; [found == false] is [None], where the
    others are not yet assigned. *)
Record MassSel := mkMassSel {
  sel_mass : float; mass_same : bool;
  sel_elas : float; elas_same : bool;
  sel_fix : bool; fix_same : bool
}.

Definition evalSel_mass (acc : option MassSel) (m : Mass) : option MassSel :=
  if Mass.isSelected m then
    match acc with
    | Some a =>
        Some (mkMassSel
          (sel_mass a)
          (if mass_same a && D.neb (Mass.mass m) (sel_mass a) then false else mass_same a)
          (sel_elas a)
          (if elas_same a && D.neb (Mass.elastic m) (sel_elas a) then false else elas_same a)
          (sel_fix a)
          (if fix_same a && Mass.isFixed m then false else fix_same a))
    | None =>
        Some (mkMassSel (Mass.mass m) true (Mass.elastic m) true (Mass.isFixed m) true)
    end
  else acc.

Record SpringSel := mkSpringSel {
  sel_ks : float; ks_same : bool;
  sel_kd : float; kd_same : bool
}.

(** The body tests [ks] twice and [kd] never, as the source does. *)
Definition evalSel_spring (acc : option SpringSel) (sp : Spring) : option SpringSel :=
  if Spring.isSelected sp then
    match acc with
    | Some a =>
        let ks_same1 :=
          if ks_same a && D.neb (Spring.ks sp) (sel_ks a) then false else ks_same a in
        let ks_same2 :=
          if ks_same1 && D.neb (Spring.ks sp) (sel_ks a) then false else ks_same1 in
        Some (mkSpringSel (sel_ks a) ks_same2 (sel_kd a) (kd_same a))
    | None =>
        Some (mkSpringSel (Spring.ks sp) true (Spring.kd sp) true)
    end
  else acc.

(** One [if (same && sel != state_.field) { state_.field = sel; changed = true; }]. *)
Definition sync (same : bool) (differs : bool) (set : State -> State)
    (st : State * bool) : State * bool :=
  if same && differs then (set (fst st), true) else st.

Definition evalSelection (s : System) : bool * System :=
  let st0 := (s.(state_), false) in
  let st1 :=
    match fold_left evalSel_mass s.(masses_) None with
    | Some a =>
        let st := sync (mass_same a) (D.neb (sel_mass a) (State.cur_mass (fst st0)))
                    (State.set_cur_mass (sel_mass a)) st0 in
        let st := sync (elas_same a) (D.neb (sel_elas a) (State.cur_rest (fst st)))
                    (State.set_cur_rest (sel_elas a)) st in
        sync (fix_same a) (negb (Bool.eqb (sel_fix a) (State.fix_mass (fst st))))
          (State.set_fix_mass (sel_fix a)) st
    | None => st0
    end in
  let st2 :=
    match fold_left evalSel_spring s.(springs_) None with
    | Some a =>
        let st := sync (ks_same a) (D.neb (sel_ks a) (State.cur_ks (fst st1)))
                    (State.set_cur_ks (sel_ks a)) st1 in
        sync (kd_same a) (D.neb (sel_kd a) (State.cur_kd (fst st)))
          (State.set_cur_kd (sel_kd a)) st
    | None => st1
    end in
  (snd st2, set_state (fst st2) s).

(** *** [duplicateSelected] *)

(** The mass pass, [for (i = 0; i < massCount(); i++)]: the bound grows
    with every copy appended, so the loop is driven by fuel; the copies
    are unselected, and [dup_masses_fuel] shows that the fuel
    [duplicateSelected] passes is always enough. *)
Fixpoint dup_masses (fuel i : nat) (s : System) (mapfrom mapto : list Z)
    : option (System * list Z * list Z) :=
  match s.(masses_) !! i with
  | None => Some (s, mapfrom, mapto)
  | Some m =>
      match fuel with
      | O => None
      | S fuel =>
          if Mass.isSelected m then
            let '(which, s) := createMass s in
            s ← modMass which (fun _ => m) s;
            s ← modMass which (Mass.setSelected false) s;
            s ← modMass which (Mass.set_parents []) s;
            dup_masses fuel (S i) s (mapfrom ++ [Z.of_nat i]) (mapto ++ [which])
          else dup_masses fuel (S i) s mapfrom mapto
      end
  end.

(** The inner loop of the spring pass,
    [for (j = 0; (!m1done || !m2done) && j < num_map; j++)], over the
    entries [(mapfrom[j], mapto[j])]. *)
Fixpoint dup_remap (which : Z) (tbl : list (Z * Z)) (m1done m2done : bool)
    (s : System) : option (bool * bool * System) :=
  match tbl with
  | [] => Some (m1done, m2done, s)
  | (from, to) :: tbl =>
      if m1done && m2done then Some (m1done, m2done, s) else
      sp ← getSpring s which;
      '(m1done, s) ←
        (if negb m1done && Z.eqb (Spring.m1 sp) from then
           s ← modSpring which (Spring.set_m1 to) s;
           s ← addMassParent to which s;
           Some (true, s)
         else Some (m1done, s));
      sp ← getSpring s which;
      '(m2done, s) ←
        (if negb m2done && Z.eqb (Spring.m2 sp) from then
           s ← modSpring which (Spring.set_m2 to) s;
           s ← addMassParent to which s;
           Some (true, s)
         else Some (m2done, s));
      dup_remap which tbl m1done m2done s
  end.

(** The body of the spring pass for the original spring [i]. *)
Definition dup_spring (mapfrom mapto : list Z) (i : Z) (s : System) : option System :=
  sp ← getSpring s i;
  if Spring.isSelected sp then
    let '(which, s) := createSpring s in
    s ← modSpring which (fun _ => sp) s;
    s ← modSpring which (Spring.setSelected false) s;
    '(m1done, m2done, s) ← dup_remap which (combine mapfrom mapto) false false s;
    if negb m1done && negb m2done then deleteSpring which s else Some s
  else Some s.

Definition duplicateSelected (s : System) : option System :=
  let spring_start := length s.(springs_) in
  '(s, mapfrom, mapto) ← dup_masses (2 * length s.(masses_)) 0 s [] [];
  for_upto spring_start (dup_spring mapfrom mapto) s.

(** ** [misc.cpp] *)

(** C's [/] on [int] truncates toward zero.  The arithmetic is that of
    [int] as long as no operation overflows, which is undefined in C++:
    that is for [2 * rad] and [25 + 2 * rad] within the [int]s, as for
    every radius [massRadius] returns (1 to 64). *)
Definition sphereSize (rad : Z) : Z :=
  let rad := Z.quot (25 + 2 * rad) 2 in
  let rad := if Z.ltb rad 15 then 15 else rad in
  let size := if Z.leb 30 (rad * 2) then Z.quot (rad * 2 - 30) 10 else 0 in
  if Z.ltb 4 size then 4 else size.

Definition sphereRadius (size : Z) : Z := Z.quot (size * 10 + 30) 2.

Definition screenRadius (radius : Z) : Z := sphereRadius (sphereSize radius).

Definition NAIL_SIZE : Z := 4.

(** ** Physics ([phys.cpp]) *)

Definition DT_MIN : float := 0.0001.
Definition DT_MAX : float := 0.5.
Definition DEF_TSTEP : float := 0.025.
Definition STICK_MAG : float := 1.0.
Definition M_PI : float := 3.14159265358979323846.

(** What [phys.cpp] takes from outside the repository or from a header
    that is not in the source tree: the functions of [<math.h>] other than
    [sqrt] and [fabs] (which are the IEEE operations [PrimFloat.sqrt] and
    [PrimFloat.abs]), and the macros [COORD_DX], [COORD_DY]. *)
Record Libm := mkLibm {
  c_sin : float -> float;
  c_cos : float -> float;
  c_exp : float -> float;
  c_log : float -> float;
  c_pow : float -> float -> float;
  COORD_DX : float -> float;
  COORD_DY : float -> float
}.

(** Every mass with its index. *)
Definition indexed {A} (l : list A) : list (Z * A) :=
  combine (map Z.of_nat (seq 0 (length l))) l.

(** The running sums of the centre-of-mass loop. *)
Record CMass := mkCMass {
  msum : float; mixix : float; mixiy : float; mivix : float; miviy : float
}.

Section Physics.

Variable M : Libm.
(** [Physics::width_] and [Physics::height_]. *)
Variables width_ height_ : Z.

Local Open Scope float_scope.

(** *** [accumulateAccel] *)

(** The centre: the live centre mass, or the middle of the window; a
    dead centre mass resets [center_id]. *)
Definition accel_center (s : System) : option (float * float * System) :=
  let mst := s.(state_) in
  let center_x := D.of_int width_ / 2.0 in
  let center_y := D.of_int height_ / 2.0 in
  if Z.leb 0 (State.center_id mst) then
    mass ← getMass s (State.center_id mst);
    if has_bit (Mass.status mass) S_ALIVE then
      Some (Mass.x mass, Mass.y mass, s)
    else Some (center_x, center_y, set_state (State.set_center_id (-1)%Z mst) s)
  else Some (center_x, center_y, s).

Definition accel_gravity (mst : State) : float * float :=
  if State.force_enabled mst FR_GRAV then
    let gval := State.cur_grav_val mst FR_GRAV in
    let gmisc := State.cur_misc_val mst FR_GRAV in
    (COORD_DX M (gval * c_sin M (gmisc * M_PI / 180.0)),
     COORD_DY M (gval * c_cos M (gmisc * M_PI / 180.0)))
  else (0, 0).

Definition cmass_add (center_id : Z) (acc : CMass) (im : Z * Mass) : CMass :=
  let '(i, m) := im in
  if negb (Z.eqb i center_id) && Mass.free m then
    mkCMass (msum acc + Mass.mass m)
            (mixix acc + Mass.mass m * Mass.x m)
            (mixiy acc + Mass.mass m * Mass.y m)
            (mivix acc + Mass.mass m * Mass.vx m)
            (miviy acc + Mass.mass m * Mass.vy m)
  else acc.

(** "Keep center of mass in the middle force": [(ogx, ogy)]. *)
Definition accel_cmass (center_x center_y : float) (s : System) : float * float :=
  let mst := s.(state_) in
  if State.force_enabled mst FR_CMASS then
    let gval := State.cur_grav_val mst FR_CMASS in
    let gmisc := State.cur_misc_val mst FR_CMASS in
    let c := fold_left (cmass_add (State.center_id mst)) (indexed s.(masses_))
               (mkCMass 0 0 0 0 0) in
    if D.truthy (msum c) then
      let mixix := mixix c / msum c in
      let mixiy := mixiy c / msum c in
      let mivix := mivix c / msum c in
      let miviy := miviy c / msum c in
      let mixix := mixix - center_x in
      let mixiy := mixiy - center_y in
      (0 - (gval * mixix + gmisc * mivix) / msum c,
       0 - (gval * mixiy + gmisc * miviy) / msum c)
    else (0, 0)
  else (0, 0).

(** "Apply Gravity, CM and air drag to all masses". *)
Definition accel_body (mst : State) (gx gy ogx ogy : float) (im : Z * Mass) : Mass :=
  let '(i, m) := im in
  if Mass.free m then
    if negb (Z.eqb i (State.center_id mst)) then
      Mass.set_ay (gy + ogy - State.cur_visc mst * Mass.vy m)
        (Mass.set_ax (gx + ogx - State.cur_visc mst * Mass.vx m) m)
    else
      Mass.set_ay (gy - State.cur_visc mst * Mass.vy m)
        (Mass.set_ax (gx - State.cur_visc mst * Mass.vx m) m)
  else m.

(** "Do point attraction force". *)
Definition accel_ptattract (mst : State) (center_x center_y center_rad : float)
    (m : Mass) : Mass :=
  if Mass.free m then
    let gval := State.cur_grav_val mst FR_PTATTRACT in
    let gmisc := State.cur_misc_val mst FR_PTATTRACT in
    let dx := center_x - Mass.x m in
    let dy := center_y - Mass.y m in
    let mag := sqrt (dx * dx + dy * dy) in
    let near := mag <? D.of_int (Mass.radius m) + center_rad in
    let dx := if near then dx * (mag / (D.of_int (Mass.radius m) + center_rad)) else dx in
    let dy := if near then dy * (mag / (D.of_int (Mass.radius m) + center_rad)) else dy in
    let mag := if near then D.of_int (Mass.radius m) + center_rad else mag in
    let fmag := gval / c_pow M mag gmisc in
    Mass.set_ay (Mass.ay m + fmag * dy / mag)
      (Mass.set_ax (Mass.ax m + fmag * dx / mag) m)
  else m.

(** One wall of the wall force:
    [if (wall && (dist = d) >= 0) { if (dist < 1) dist = 1; dist = pow(dist, gmisc); ... }]
    gives [Some (gval / dist)] when the branch is taken. *)
Definition wall_term (wall : bool) (d gval gmisc : float) : option float :=
  if wall && D.geb d 0 then
    let dist := if d <? 1 then 1 else d in
    let dist := c_pow M dist gmisc in
    Some (gval / dist)
  else None.

(** "Wall attract/repel force". *)
Definition accel_wall (mst : State) (m : Mass) : Mass :=
  let rad := screenRadius (Mass.radius m) in
  if Mass.free m then
    let gval := - State.cur_grav_val mst FR_WALL in
    let gmisc := State.cur_misc_val mst FR_WALL in
    let dax := 0 in
    let day := 0 in
    let dax := match wall_term (State.w_left mst) (Mass.x m - D.of_int rad) gval gmisc with
               | Some t => dax - t | None => dax end in
    let dax := match wall_term (State.w_right mst)
                       (D.of_int (width_ - rad) - Mass.x m) gval gmisc with
               | Some t => dax + t | None => dax end in
    let day := match wall_term (State.w_top mst)
                       (D.of_int (height_ - rad) - Mass.y m) gval gmisc with
               | Some t => day + t | None => day end in
    let day := match wall_term (State.w_bottom mst) (Mass.y m - D.of_int rad) gval gmisc with
               | Some t => day - t | None => day end in
    Mass.set_ay (Mass.ay m + day) (Mass.set_ax (Mass.ax m + dax) m)
  else m.

(** "Spring compression/damping effects on masses", one spring.  [m1] and
    [m2] are references into [masses_]: the four updates are made in
    place, one after the other. *)
Definition accel_spring (i : Z) (s : System) : option System :=
  sp ← getSpring s i;
  if has_bit (Spring.status sp) S_ALIVE then
    m1 ← getMass s (Spring.m1 sp);
    m2 ← getMass s (Spring.m2 sp);
    let dx := Mass.x m1 - Mass.x m2 in
    let dy := Mass.y m1 - Mass.y m2 in
    if D.truthy dx || D.truthy dy then
      let mag := sqrt (dx * dx + dy * dy) in
      let force := Spring.ks sp * (Spring.restlen sp - mag) in
      let force :=
        if D.truthy (Spring.kd sp) then
          let damp := ((Mass.vx m1 - Mass.vx m2) * dx + (Mass.vy m1 - Mass.vy m2) * dy) / mag in
          force - Spring.kd sp * damp
        else force in
      let force := force / mag in
      let forcex := force * dx in
      let forcey := force * dy in
      let mass1 := Mass.mass m1 in
      let mass2 := Mass.mass m2 in
      s ← modMass (Spring.m1 sp) (fun m => Mass.set_ax (Mass.ax m + forcex / mass1) m) s;
      s ← modMass (Spring.m1 sp) (fun m => Mass.set_ay (Mass.ay m + forcey / mass1) m) s;
      s ← modMass (Spring.m2 sp) (fun m => Mass.set_ax (Mass.ax m - forcex / mass2) m) s;
      modMass (Spring.m2 sp) (fun m => Mass.set_ay (Mass.ay m - forcey / mass2) m) s
    else Some s
  else Some s.

Definition accumulateAccel (s : System) : option System :=
  '(center_x, center_y, s) ← accel_center s;
  let center_rad := 1.0 in
  let mst := s.(state_) in
  let '(gx, gy) := accel_gravity mst in
  let '(ogx, ogy) := accel_cmass center_x center_y s in
  let s := set_masses (map (accel_body mst gx gy ogx ogy) (indexed s.(masses_))) s in
  let s := if State.force_enabled mst FR_PTATTRACT
           then set_masses (map (accel_ptattract mst center_x center_y center_rad) s.(masses_)) s
           else s in
  let s := if State.force_enabled mst FR_WALL
           then set_masses (map (accel_wall mst) s.(masses_)) s
           else s in
  for_upto (length s.(springs_)) accel_spring s.

End Physics.

(** *** The integrators *)

(** The position and velocity of a mass as one quadruple, and back. *)
Definition pv (m : Mass) : Quad := mkQuad (Mass.x m) (Mass.y m) (Mass.vx m) (Mass.vy m).

Definition set_pv (q : Quad) (m : Mass) : Mass :=
  Mass.set_vy (qvy q) (Mass.set_vx (qvx q) (Mass.set_y (qy q) (Mass.set_x (qx q) m))).

(** The four assignments of a stage are one formula in [x], [y], [vx] and
    [vy]; [f] receives the component. *)
Definition qcomp (f : (Quad -> float) -> float) : Quad :=
  mkQuad (f qx) (f qy) (f qvx) (f qvy).

(** [k?x = vx * h; k?y = vy * h; k?vx = ax * h; k?vy = ay * h]. *)
Definition slope (h : float) (m : Mass) : Quad :=
  mkQuad (Mass.vx m * h) (Mass.vy m * h) (Mass.ax m * h) (Mass.ay m * h).

(** A loop over all masses whose body, guarded by the free test, touches
    the mass at hand only. *)
Definition on_free (f : Mass -> Mass) (s : System) : System :=
  set_masses (map (fun m => if Mass.free m then f m else m) s.(masses_)) s.

Section Integrators.

Variable M : Libm.
Variables width_ height_ : Z.

Local Open Scope float_scope.
Local Abbreviation accumulate := (accumulateAccel M width_ height_).

(** **** [rungeKutta] *)

Definition rk4_k1 (h : float) (m : Mass) : Mass :=
  let m := Mass.set_cur (pv m) m in
  let m := Mass.set_k1 (slope h m) m in
  set_pv (qcomp (fun c => c (Mass.cur m) + c (Mass.k1 m) / 2)) m.

Definition rk4_k2 (h : float) (m : Mass) : Mass :=
  let m := Mass.set_k2 (slope h m) m in
  set_pv (qcomp (fun c => c (Mass.cur m) + c (Mass.k2 m) / 2)) m.

Definition rk4_k3 (h : float) (m : Mass) : Mass :=
  let m := Mass.set_k3 (slope h m) m in
  set_pv (qcomp (fun c => c (Mass.cur m) + c (Mass.k3 m))) m.

Definition rk4_k4 (h : float) (m : Mass) : Mass :=
  Mass.set_k4 (slope h m) m.

Definition rk4_next (m : Mass) : Quad :=
  qcomp (fun c => c (Mass.cur m)
                  + (c (Mass.k1 m) / 2.0 + c (Mass.k2 m) + c (Mass.k3 m)
                     + c (Mass.k4 m) / 2.0) / 3.0).

Definition rk4_final (testloc : bool) (m : Mass) : Mass :=
  if testloc then Mass.set_test (rk4_next m) m else set_pv (rk4_next m) m.

Definition rungeKutta (h : float) (testloc : bool) (s : System) : option System :=
  s ← accumulate s;
  let s := on_free (rk4_k1 h) s in
  s ← accumulate s;
  let s := on_free (rk4_k2 h) s in
  s ← accumulate s;
  let s := on_free (rk4_k3 h) s in
  s ← accumulate s;
  let s := on_free (rk4_k4 h) s in
  Some (on_free (rk4_final testloc) s).

(** **** [adaptiveRungeKutta] *)

Definition rkf_k1 (h : float) (m : Mass) : Mass :=
  let m := Mass.set_cur (pv m) m in
  let m := Mass.set_k1 (slope h m) m in
  set_pv (qcomp (fun c => c (Mass.cur m) + 0.2 * c (Mass.k1 m))) m.

Definition rkf_k2 (h : float) (m : Mass) : Mass :=
  let m := Mass.set_k2 (slope h m) m in
  set_pv (qcomp (fun c => c (Mass.cur m) + (3.0 / 40.0) * c (Mass.k1 m)
                          + (9.0 / 40.0) * c (Mass.k2 m))) m.

Definition rkf_k3 (h : float) (m : Mass) : Mass :=
  let m := Mass.set_k3 (slope h m) m in
  set_pv (qcomp (fun c => c (Mass.cur m) + 0.3 * c (Mass.k1 m)
                          + (-0.9) * c (Mass.k2 m) + 1.2 * c (Mass.k3 m))) m.

Definition rkf_k4 (h : float) (m : Mass) : Mass :=
  let m := Mass.set_k4 (slope h m) m in
  set_pv (qcomp (fun c => c (Mass.cur m) + (-11.0 / 54.0) * c (Mass.k1 m)
                          + 2.5 * c (Mass.k2 m)
                          + (-70.0 / 27.0) * c (Mass.k3 m)
                          + (35.0 / 27.0) * c (Mass.k4 m))) m.

Definition rkf_k5 (h : float) (m : Mass) : Mass :=
  let m := Mass.set_k5 (slope h m) m in
  set_pv (qcomp (fun c => c (Mass.cur m) + (1631.0 / 55926.0) * c (Mass.k1 m)
                          + (175.0 / 512.0) * c (Mass.k2 m)
                          + (575.0 / 13824.0) * c (Mass.k3 m)
                          + (44275.0 / 110592.0) * c (Mass.k4 m)
                          + (253.0 / 4096.0) * c (Mass.k5 m))) m.

Definition rkf_k6 (h : float) (m : Mass) : Mass :=
  Mass.set_k6 (slope h m) m.

(** [errx], [erry], [errvx], [errvy] and their sum of magnitudes. *)
Definition rkf_err (m : Mass) : float :=
  let e := qcomp (fun c =>
               ((37.0 / 378.0) - (2825.0 / 27648.0)) * c (Mass.k1 m)
               + ((250.0 / 621.0) - (18575.0 / 48384.0)) * c (Mass.k3 m)
               + ((125.0 / 594.0) - (13525.0 / 55296.0)) * c (Mass.k4 m)
               + (-277.0 / 14336.0) * c (Mass.k5 m)
               + ((512.0 / 1771.0) - 0.25) * c (Mass.k6 m)) in
  abs (qx e) + abs (qy e) + abs (qvx e) + abs (qvy e).

(** "Find error", then the "fudgy scale factor". *)
Definition rkf_maxerr (s : System) : float :=
  let maxerr :=
    fold_left (fun maxerr m =>
                 if Mass.free m then
                   if D.gtb (rkf_err m) maxerr then rkf_err m else maxerr
                 else maxerr)
              s.(masses_) 0.00001 in
  maxerr / State.cur_prec s.(state_).

Definition rkf_next (m : Mass) : Mass :=
  set_pv (qcomp (fun c => c (Mass.cur m) + (37.0 / 378.0) * c (Mass.k1 m)
                          + (250.0 / 621.0) * c (Mass.k3 m)
                          + (125.0 / 594.0) * c (Mass.k4 m)
                          + (512.0 / 1771.0) * c (Mass.k6 m))) m.

(** The rollback of a rejected step. *)
Definition rkf_rollback (m : Mass) : Mass := set_pv (Mass.old m) m.

Definition scale_dt (f : float) (s : System) : System :=
  set_state (State.set_cur_dt (State.cur_dt s.(state_) * f) s.(state_)) s.

(** From [restart:] to the end of the k6 loop: the clamp of [cur_dt] and
    the six stages. *)
Definition rkf_clamp (s : System) : System :=
  let mst := s.(state_) in
  let mst := if D.gtb (State.cur_dt mst) DT_MAX then State.set_cur_dt DT_MAX mst else mst in
  let mst := if State.cur_dt mst <? DT_MIN then State.set_cur_dt DT_MIN mst else mst in
  set_state mst s.

Definition rkf_stages (s : System) : option System :=
  let s := rkf_clamp s in
  let h := State.cur_dt s.(state_) in
  s ← accumulate s;
  let s := on_free (rkf_k1 h) s in
  s ← accumulate s;
  let s := on_free (rkf_k2 h) s in
  s ← accumulate s;
  let s := on_free (rkf_k3 h) s in
  s ← accumulate s;
  let s := on_free (rkf_k4 h) s in
  s ← accumulate s;
  let s := on_free (rkf_k5 h) s in
  s ← accumulate s;
  Some (on_free (rkf_k6 h) s).

(** One pass from [restart:] on: the step is committed ("Find next
    position"), or the masses are rolled back, [cur_dt] is shrunk and
    control goes back to [restart:]. *)
Inductive Attempt := Accepted (s : System) | Rejected (s : System).

Definition rkf_decide (s : System) : Attempt :=
  let maxerr := rkf_maxerr s in
  if maxerr <? 1.0 then
    Accepted (on_free rkf_next (scale_dt (0.9 * c_exp M (- c_log M maxerr / 8.0)) s))
  else if D.gtb (State.cur_dt s.(state_)) DT_MIN then
    Rejected (scale_dt (0.9 * c_exp M (- c_log M maxerr / 4.0)) (on_free rkf_rollback s))
  else Accepted (on_free rkf_next s).

Definition rkf_attempt (s : System) : option Attempt :=
  s ← rkf_stages s; Some (rkf_decide s).

(** [goto restart] is a loop; [fuel] bounds the number of passes. *)
Fixpoint adaptiveRungeKutta (fuel : nat) (s : System) : option System :=
  match fuel with
  | O => None
  | S fuel =>
      a ← rkf_attempt s;
      match a with
      | Accepted s => Some s
      | Rejected s => adaptiveRungeKutta fuel s
      end
  end.

End Integrators.

(** *** [advance] *)

(** The two function-level [static] variables of [advance]. *)
Record Pacer := mkPacer { num_since : Z; time_elapsed : float }.

Definition Pacer0 : Pacer := mkPacer 0 0.

Section Advance.

Variable M : Libm.
Variables width_ height_ : Z.

Local Open Scope float_scope.

(** "Save initial values". *)
Definition snapshot (m : Mass) : Mass := Mass.set_old (pv m) m.

Definition any_spring (s : System) : bool :=
  existsb (fun sp => has_bit (Spring.status sp) S_ALIVE) s.(springs_).

(** The snapshot and the choice of integrator. *)
Definition integrate (fuel : nat) (s : System) : option System :=
  let s := on_free snapshot s in
  if State.adaptive_step s.(state_) then
    if any_spring s then adaptiveRungeKutta M width_ height_ fuel s
    else
      let s := set_state (State.set_cur_dt DEF_TSTEP s.(state_)) s in
      rungeKutta M width_ height_ DEF_TSTEP false s
  else rungeKutta M width_ height_ (State.cur_dt s.(state_)) false s.

(** "Delete exploded objects": the test. *)
Definition exploded (m : Mass) : bool :=
  D.neb (Mass.ax m - Mass.ax m) 0.0 || D.neb (Mass.ay m - Mass.ay m) 0.0
  || D.neb (Mass.x m - Mass.x m) 0.0 || D.neb (Mass.y m - Mass.y m) 0.0.

(** [m.vx = m.vy = 0; m.x = m.old_x; m.y = m.old_y;] *)
Definition pin (m : Mass) : Mass :=
  let m := Mass.set_vy 0 m in
  let m := Mass.set_vx 0 m in
  let m := Mass.set_x (Mass.old_x m) m in
  Mass.set_y (Mass.old_y m) m.

(** "Check if stuck to a wall": whether one of the two [continue]s is
    reached. *)
Definition stuck (mst : State) (stick_mag : float) (m : Mass) : bool :=
  let rad := D.of_int (screenRadius (Mass.radius m)) in
  if (Mass.old_vx m =? 0.0) && (Mass.old_vy m =? 0.0) then
    if (State.w_left mst && (abs (Mass.old_x m - rad) <? 0.5))
       || (State.w_right mst && (abs (Mass.old_x m - D.of_int width_ + rad) <? 0.5))
    then abs (Mass.vx m) <? stick_mag / Mass.mass m
    else if (State.w_bottom mst && (abs (Mass.old_y m - rad) <? 0.5))
            || (State.w_top mst && (abs (Mass.old_y m - D.of_int height_ + rad) <? 0.5))
    then abs (Mass.vy m) <? stick_mag / Mass.mass m
    else false
  else false.

(** "Bounce off left or right wall". *)
Definition bounce_x (mst : State) (m : Mass) : Mass :=
  let rad := screenRadius (Mass.radius m) in
  if State.w_left mst && (Mass.x m <? D.of_int rad) && D.geb (Mass.old_x m) (D.of_int rad) then
    let m := Mass.set_x (D.of_int rad) m in
    if Mass.vx m <? 0 then
      let m := Mass.set_vx (- Mass.vx m * Mass.elastic m) m in
      let m := Mass.set_vy (Mass.vy m * Mass.elastic m) m in
      if D.gtb (Mass.vx m) 0 then
        let m := Mass.set_vx (Mass.vx m - STICK_MAG * State.cur_stick mst / Mass.mass m) m in
        if Mass.vx m <? 0 then Mass.set_vx 0 (Mass.set_vy 0 m) else m
      else m
    else m
  else if State.w_right mst && D.gtb (Mass.x m) (D.of_int (width_ - rad))
          && (Mass.old_x m <=? D.of_int (width_ - rad)) then
    let m := Mass.set_x (D.of_int (width_ - rad)) m in
    if D.gtb (Mass.vx m) 0 then
      let m := Mass.set_vx (- Mass.vx m * Mass.elastic m) m in
      let m := Mass.set_vy (Mass.vy m * Mass.elastic m) m in
      if Mass.vx m <? 0 then
        let m := Mass.set_vx (Mass.vx m + STICK_MAG * State.cur_stick mst / Mass.mass m) m in
        if D.gtb (Mass.vx m) 0 then Mass.set_vx 0 (Mass.set_vy 0 m) else m
      else m
    else m
  else m.

(** "Stick to top or bottom wall". *)
Definition bounce_y (mst : State) (m : Mass) : Mass :=
  let rad := screenRadius (Mass.radius m) in
  if State.w_bottom mst && (Mass.y m <? D.of_int rad) && D.geb (Mass.old_y m) (D.of_int rad) then
    let m := Mass.set_y (D.of_int rad) m in
    if Mass.vy m <? 0 then
      let m := Mass.set_vy (- Mass.vy m * Mass.elastic m) m in
      let m := Mass.set_vx (Mass.vx m * Mass.elastic m) m in
      if D.gtb (Mass.vy m) 0 then
        let m := Mass.set_vy (Mass.vy m - STICK_MAG * State.cur_stick mst / Mass.mass m) m in
        if Mass.vy m <? 0 then Mass.set_vx 0 (Mass.set_vy 0 m) else m
      else m
    else m
  else if State.w_top mst && D.gtb (Mass.y m) (D.of_int (height_ - rad))
          && (Mass.old_y m <=? D.of_int (height_ - rad)) then
    let m := Mass.set_y (D.of_int (height_ - rad)) m in
    if D.gtb (Mass.vy m) 0 then
      let m := Mass.set_vy (- Mass.vy m * Mass.elastic m) m in
      let m := Mass.set_vx (Mass.vx m * Mass.elastic m) m in
      if Mass.vy m <? 0 then
        let m := Mass.set_vy (Mass.vy m + STICK_MAG * State.cur_stick mst / Mass.mass m) m in
        if D.gtb (Mass.vy m) 0 then Mass.set_vx 0 (Mass.set_vy 0 m) else m
      else m
    else m
  else m.

(** The body of the "crappy wall code" loop for mass [i]. *)
Definition wall_body (stick_mag : float) (i : Z) (s : System) : option System :=
  m ← getMass s i;
  if Mass.free m then
    if exploded m then deleteMass i s
    else if stuck s.(state_) stick_mag m then modMass i pin s
    else modMass i (fun m => bounce_y s.(state_) (bounce_x s.(state_) m)) s
  else Some s.

Definition walls (s : System) : option System :=
  let stick_mag := STICK_MAG * State.cur_dt s.(state_) * State.cur_stick s.(state_) in
  for_upto (length s.(masses_)) (wall_body stick_mag) s.

(** "Oblique impact": the radius used for a mass. *)
Definition collide_radius (m : Mass) : float :=
  if has_bit (Mass.status m) S_FIXED then D.of_int NAIL_SIZE else D.of_int (Mass.radius m).

(** The new [vx] of one participant: [own] and [other] are the two
    velocities on entry, [ratio] the participant's ratio. *)
Definition collide_vx (ownvx ownvy othervx othervy ratio dx dy dxq dyq sumxyq : float)
    : float :=
  (ownvx - (ownvx - othervx) * ratio) * (dxq / sumxyq)
  + ownvx * (dyq / sumxyq)
  - (ownvy - othervy) * ratio * (dx * dy / sumxyq).

(** [ratio] for the participant [own]; [m1] and [m2] are the pair in the
    order of the loops. *)
Definition collide_ratio (m1 m2 own other : Mass) : float :=
  if has_bit (Mass.status other) S_FIXED then
    1 + (Mass.elastic m1 + Mass.elastic m2) / 2
  else
    (1 + (Mass.elastic m1 + Mass.elastic m2) / 2)
    / (1 + Mass.mass own / Mass.mass other).

(** The body of the inner loop for the pair [(i, j)]; [m1radius], [m1x]
    and [m1y] were read before the inner loop started. *)
Definition collide_pair (i : Z) (m1radius m1x m1y : float) (j : Z) (s : System)
    : option System :=
  m1 ← getMass s i;
  m2 ← getMass s j;
  if has_bit (Mass.status m2) S_ALIVE then
    let m2radius := collide_radius m2 in
    let dx := Mass.x m2 - m1x in
    let dy := Mass.y m2 - m1y in
    let dxq := dx * dx in
    let dyq := dy * dy in
    let sumxyq := dxq + dyq in
    let mag := sqrt sumxyq in
    if mag <? m1radius + m2radius then
      let m1vx := Mass.vx m1 in
      let m1vy := Mass.vy m1 in
      let m2vx := Mass.vx m2 in
      let m2vy := Mass.vy m2 in
      if D.gtb ((m1vx - m2vx) * dx) 0 || D.gtb ((m1vy - m2vy) * dy) 0 then
        let dx := if dx =? 0 then 1e-10 else dx in
        s ← (if negb (has_bit (Mass.status m1) S_FIXED) then
               let ratio := collide_ratio m1 m2 m1 m2 in
               let vx' := collide_vx m1vx m1vy m2vx m2vy ratio dx dy dxq dyq sumxyq in
               modMass i (fun m => Mass.set_vy ((vx' - m1vx) * (dy / dx) + m1vy)
                                     (Mass.set_vx vx' m)) s
             else Some s);
        (if negb (has_bit (Mass.status m2) S_FIXED) then
           let ratio := collide_ratio m1 m2 m2 m1 in
           let vx' := collide_vx m2vx m2vy m1vx m1vy ratio dx dy dxq dyq sumxyq in
           modMass j (fun m => Mass.set_vy ((vx' - m2vx) * (dy / dx) + m2vy)
                                 (Mass.set_vx vx' m)) s
         else Some s)
      else Some s
    else Some s
  else Some s.

(** The body of the outer loop for mass [i]. *)
Definition collide_from (n : nat) (i : nat) (s : System) : option System :=
  m1 ← getMass s (Z.of_nat i);
  if has_bit (Mass.status m1) S_ALIVE then
    for_each (collide_pair (Z.of_nat i) (collide_radius m1) (Mass.x m1) (Mass.y m1))
      (map Z.of_nat (seq (S i) (n - S i))) s
  else Some s.

Definition collisions (s : System) : option System :=
  if State.collide s.(state_) then
    let n := length s.(masses_) in
    for_each (collide_from n) (seq 0 n) s
  else Some s.

(** The frame pacer at the end of [advance]. *)
Definition pace (cur_dt : float) (p : Pacer) : bool * Pacer :=
  let time_elapsed := time_elapsed p + cur_dt in
  if D.gtb time_elapsed 0.05 then
    (true, mkPacer 0 (time_elapsed - 0.05))
  else
    let num_since := (num_since p + 1)%Z in
    if Z.ltb 8 num_since then (true, mkPacer 0 time_elapsed)
    else (false, mkPacer num_since time_elapsed).

Definition advance (fuel : nat) (s : System) (p : Pacer) : option (bool * System * Pacer) :=
  s ← integrate fuel s;
  s ← walls s;
  s ← collisions s;
  let '(due, p) := pace (State.cur_dt s.(state_)) p in
  Some (due, s, p).

End Advance.

(** ** The rest of the entity store ([system.cpp]) *)

Definition set_fakeMass (v : Z) (s : System) : System :=
  mkSystem s.(state_) s.(masses_) s.(springs_) v s.(fakeSpring_).
Definition set_fakeSpring (v : Z) (s : System) : System :=
  mkSystem s.(state_) s.(masses_) s.(springs_) s.(fakeMass_) v.

(** [initObjects]: the fake mass and the fake spring. *)
Definition initObjects (s : System) : option System :=
  let '(which, s) := createMass s in
  let s := set_fakeMass which s in
  s ← modMass s.(fakeMass_) (Mass.set_status S_FIXED) s;
  let '(which, s) := createSpring s in
  let s := set_fakeSpring which s in
  s ← modSpring s.(fakeSpring_) (Spring.set_status 0) s;
  s ← addMassParent s.(fakeMass_) s.(fakeSpring_) s;
  modSpring s.(fakeSpring_) (Spring.set_m1 s.(fakeMass_)) s.

(** [moveFakeMass]. *)
Definition moveFakeMass (mx my : Z) (s : System) : option System :=
  s ← modMass s.(fakeMass_) (Mass.set_x (D.of_int mx)) s;
  modMass s.(fakeMass_) (Mass.set_y (D.of_int my)) s.

(** [deleteSelected]: both bounds are read before their loop. *)
Definition deleteSelected (s : System) : option System :=
  s ← for_upto (length s.(masses_))
        (fun i s => m ← getMass s i;
                    if Mass.isSelected m then deleteMass i s else Some s) s;
  for_upto (length s.(springs_))
    (fun i s => sp ← getSpring s i;
                if Spring.isSelected sp then deleteSpring i s else Some s) s.

(** [deleteAll]. *)
Definition deleteAll (s : System) : System :=
  let s := set_masses [] s in
  let s := set_springs [] s in
  set_state (State.set_center_id (-1) s.(state_)) s.

(** [reconnectMasses]: every spring, dead or alive, is entered in the
    parent lists of its two end points. *)
Definition reconnectMasses (s : System) : option System :=
  let s := set_masses (map (Mass.set_parents []) s.(masses_)) s in
  for_upto (length s.(springs_))
    (fun i s =>
       sp ← getSpring s i;
       s ← addMassParent (Spring.m1 sp) i s;
       sp ← getSpring s i;
       addMassParent (Spring.m2 sp) i s) s.

(** [anythingSelected]. *)
Definition anythingSelected (s : System) : bool :=
  existsb Mass.isSelected s.(masses_) || existsb Spring.isSelected s.(springs_).

(** [unselectAll] and [selectAll]. *)
Definition unselectAll (s : System) : System :=
  let s := set_masses
             (map (fun m => if Mass.isSelected m then Mass.setSelected false m else m)
                  s.(masses_)) s in
  set_springs
    (map (fun sp => if Spring.isSelected sp then Spring.setSelected false sp else sp)
         s.(springs_)) s.

Definition selectAll (s : System) : System :=
  let s := set_masses
             (map (fun m => if Mass.isAlive m then Mass.setSelected true m else m)
                  s.(masses_)) s in
  set_springs
    (map (fun sp => if Spring.isAlive sp then Spring.setSelected true sp else sp)
         s.(springs_)) s.

(** [setCenter]: [cent], and whether the function has returned from
    inside the loop. *)
Definition setCenter_step (acc : Z * bool) (im : Z * Mass) : Z * bool :=
  let '(cent, returned) := acc in
  let '(i, m) := im in
  if returned then acc
  else if Mass.isSelected m then
    if negb (Z.eqb cent (-1)) then (cent, true) else (i, false)
  else acc.

Definition setCenter (s : System) : System :=
  let '(cent, returned) := fold_left setCenter_step (indexed s.(masses_)) (-1, false) in
  if returned then s
  else set_state (State.set_center_id cent s.(state_)) s.

(** [System::reset]. *)
Definition reset (s : System) : option System :=
  let s := deleteAll s in
  s ← initObjects s;
  Some (set_state State.reset s).

(** *** [nearestObject] *)

Definition MPROXIMITY : float := 8.0.
Definition SPROXIMITY : float := 8.0.
(** [DBL_MAX] of [<float.h>]. *)
Definition DBL_MAX : float := 0x1.fffffffffffffp+1023.

(** [square] of [misc.h]. *)
Definition square (x : float) : float := x * x.

(** [std::min] and [std::max] on doubles: the first argument unless the
    comparison holds. *)
Definition std_min (a b : float) : float := if (b <? a)%float then b else a.
Definition std_max (a b : float) : float := if (a <? b)%float then b else a.

Section Nearest.

(** [hypot] of [<math.h>]. *)
Variable c_hypot : float -> float -> float.

Local Open Scope float_scope.

(** "Find closest mass": [min_dist], [min_rating] and [closest]. *)
Definition nearest_mass (x y : Z) (acc : float * float * Z) (im : Z * Mass)
    : float * float * Z :=
  let '(min_dist, min_rating, closest) := acc in
  let '(i, m) := im in
  if Mass.isAlive m then
    let radius := screenRadius (Mass.radius m) in
    let dist := square (Mass.x m - D.of_int x) + square (Mass.y m - D.of_int y)
                - square (D.of_int radius) in
    if dist <? min_dist then
      let rating := square (Mass.x m - D.of_int x) + square (Mass.y m - D.of_int y) in
      if rating <? min_rating then (dist, rating, i) else acc
    else acc
  else acc.

(** "Find closest spring": [min_dist], [closest] and [*is_mass]. *)
Definition nearest_spring (x y : Z) (s : System) (i : Z) (acc : float * Z * bool)
    : option (float * Z * bool) :=
  let '(min_dist, closest, is_mass) := acc in
  sp ← getSpring s i;
  if Spring.isAlive sp then
    m1 ← getMass s (Spring.m1 sp);
    m2 ← getMass s (Spring.m2 sp);
    let x1 := Mass.x m1 in
    let y1 := Mass.y m1 in
    let x2 := Mass.x m2 in
    let y2 := Mass.y m2 in
    if D.gtb (D.of_int x) (std_min x1 x2 - SPROXIMITY)
       && (D.of_int x <? std_max x1 x2 + SPROXIMITY)
       && D.gtb (D.of_int y) (std_min y1 y2 - SPROXIMITY)
       && (D.of_int y <? std_max y1 y2 + SPROXIMITY)
    then
      let a1 := y2 - y1 in
      let b1 := x1 - x2 in
      let c1 := y1 * x2 - y2 * x1 in
      let dAB := c_hypot a1 b1 in
      let d := (D.of_int x * a1 + D.of_int y * b1 + c1) / dAB in
      let dist := abs d in
      if dist <? min_dist then Some (dist, i, false) else Some acc
    else Some acc
  else Some acc.

(** The result and the value left in [*is_mass]. *)
Definition nearestObject (x y : Z) (is_mass : bool) (s : System) : option (Z * bool) :=
  let masses_only := is_mass in
  let min_dist := MPROXIMITY * MPROXIMITY in
  let min_dist := if masses_only then min_dist * 36 else min_dist in
  let '(_, _, closest) :=
    fold_left (nearest_mass x y) (indexed s.(masses_)) (min_dist, DBL_MAX, (-1)%Z) in
  if negb (Z.eqb closest (-1)) then Some (closest, true)
  else if masses_only then Some ((-1)%Z, true)
  else
    '(_, closest, is_mass) ←
      for_upto (length s.(springs_)) (nearest_spring x y s) (SPROXIMITY, closest, true);
    Some (closest, is_mass).

End Nearest.


(** ** Vocabulary of the statements *)

(** A sequence of calls of [advance], seen from the pacer: the simulated
    time [cur_dt] of each call in, the answers and the final statics out. *)
Definition run_pace (dts : list float) (p : Pacer) : list bool * Pacer :=
  fold_left (fun '(bs, p) dt => let '(b, p') := pace dt p in (bs ++ [b], p'))
            dts ([], p).

(** How many answers were [false] since the last [true]. *)
Fixpoint leading_false (bs : list bool) : nat :=
  match bs with
  | false :: bs => S (leading_false bs)
  | _ => O
  end.

Definition trailing_false (bs : list bool) : nat := leading_false (rev bs).

(** The sentence "when the accumulated time exceeds 0.05 the accumulator is
    reset", read as: it is zero after such a call. *)
Definition accumulator_is_reset : Prop :=
  forall dt p, D.gtb (time_elapsed p + dt) 0.05 = true ->
               time_elapsed (snd (pace dt p)) = 0%float.

(** [v'] has the entities of [v] at the same indices, each related to its
    former self by [R]. *)
Definition pointwise {A} (R : Z -> A -> A -> Prop) (v v' : list A) : Prop :=
  length v' = length v
  /\ forall j a, at_ v j = Some a -> exists a', at_ v' j = Some a' /\ R j a a'.

(** The same mass up to its status and its parent list. *)
Definition same_mass_but_links (m m' : Mass) : Prop :=
  Mass.set_parents (Mass.parents m) (Mass.set_status (Mass.status m) m') = m.

(** The same spring up to its status. *)
Definition same_spring_but_status (sp sp' : Spring) : Prop :=
  Spring.set_status (Spring.status sp) sp' = sp.

(** The spring [p] exists, and if it is alive its two end points are in
    range: what [deleteSpring p] needs to stay within the vectors. *)
Definition spring_in_range (s : System) (p : Z) : bool :=
  match getSpring s p with
  | Some sp =>
      if Spring.isAlive sp then
        bool_decide (is_Some (getMass s (Spring.m1 sp)))
        && bool_decide (is_Some (getMass s (Spring.m2 sp)))
      else true
  | None => false
  end.

(** The same for every spring in the parent list of [m]. *)
Definition parents_in_range (s : System) (m : Mass) : bool :=
  forallb (spring_in_range s) (Mass.parents m).

(** What the mass pass of [duplicateSelected] makes of a selected mass. *)
Definition mass_copy (m : Mass) : Mass :=
  Mass.set_parents [] (Mass.setSelected false m).

(** The indices, counted from [i], of the elements of [l] that satisfy
    [p]. *)
Fixpoint indices_from {A} (p : A -> bool) (i : nat) (l : list A) : list Z :=
  match l with
  | [] => []
  | a :: l =>
      if p a then Z.of_nat i :: indices_from p (S i) l
      else indices_from p (S i) l
  end.

(** The indices of the selected masses and of the selected springs. *)
Definition selected_from (i : nat) (l : list Mass) : list Z :=
  indices_from Mass.isSelected i l.
Definition selected_masses (s : System) : list Z := selected_from 0 (masses_ s).
Definition selected_springs (s : System) : list Z :=
  indices_from Spring.isSelected 0 (springs_ s).

(** [n, n+1, .., n+c-1]. *)
Definition new_indices (n c : nat) : list Z := map Z.of_nat (seq n c).

(** Whether the mass at index [i] exists and is selected. *)
Definition mass_selected (s : System) (i : Z) : bool :=
  match getMass s i with Some m => Mass.isSelected m | None => false end.

(** The first entry of the from-to table for [x]. *)
Fixpoint assoc (tbl : list (Z * Z)) (x : Z) : option Z :=
  match tbl with
  | [] => None
  | (from, to) :: tbl => if Z.eqb x from then Some to else assoc tbl x
  end.

(** An end point after remapping: unchanged when it is done already or has
    no entry. *)
Definition remap_end (done : bool) (tbl : list (Z * Z)) (x : Z) : Z :=
  if done then x else default x (assoc tbl x).

Definition remapped (m1done m2done : bool) (tbl : list (Z * Z)) (c : Spring) : Spring :=
  Spring.set_m2 (remap_end m2done tbl (Spring.m2 c))
    (Spring.set_m1 (remap_end m1done tbl (Spring.m1 c)) c).

(** The masses that get the new spring as a parent, in the order in which
    the inner loop reaches them. *)
Fixpoint remap_targets (m1done m2done : bool) (tbl : list (Z * Z)) (m1 m2 : Z) : list Z :=
  match tbl with
  | [] => []
  | (from, to) :: tbl =>
      if m1done && m2done then [] else
      let hit1 := negb m1done && Z.eqb m1 from in
      let hit2 := negb m2done && Z.eqb m2 from in
      (if hit1 then [to] else []) ++ (if hit2 then [to] else [])
      ++ remap_targets (m1done || hit1) (m2done || hit2) tbl m1 m2
  end.

(** [masses_[to].parents.push_back(which)] on a vector known to hold
    [to]. *)
Definition add_parent (which : Z) (ms : list Mass) (to : Z) : list Mass :=
  match at_ ms to with
  | Some m => <[Z.to_nat to := Mass.set_parents (Mass.parents m ++ [which]) m]> ms
  | None => ms
  end.

(** The copy [duplicateSelected] appends for a selected spring: selection
    cleared, end points remapped, and status 0 when neither end point has
    an entry in the table. *)
Definition spring_copy (tbl : list (Z * Z)) (sp : Spring) : Spring :=
  let c := remapped false false tbl (Spring.setSelected false sp) in
  if bool_decide (is_Some (assoc tbl (Spring.m1 sp)))
     || bool_decide (is_Some (assoc tbl (Spring.m2 sp)))
  then c
  else if Spring.isAlive c then Spring.set_status 0 c else c.

(** The from-to table of [duplicateSelected] on [s]. *)
Definition dup_table (s : System) : list (Z * Z) :=
  combine (selected_from 0 (masses_ s))
          (new_indices (length (masses_ s))
             (length (List.filter Mass.isSelected (masses_ s)))).

(** The copy of a selected mass once the spring pass has linked it to the
    new spring [K]. *)
Definition mass_dup (K : Z) (m : Mass) : Mass :=
  Mass.set_parents [K] (Mass.setSelected false m).

(** The sentence "the two new masses are copies with selection cleared and
    empty parent lists", read on the result of [duplicateSelected] for two
    selected masses and one selected spring between them. *)
Definition copies_have_no_parents : Prop :=
  forall s s' a b k ma mb sp,
    selected_masses s = [a; b] -> getMass s a = Some ma -> getMass s b = Some mb ->
    selected_springs s = [k] -> getSpring s k = Some sp ->
    Spring.m1 sp = a -> Spring.m2 sp = b ->
    duplicateSelected s = Some s' ->
    forall j m, massCount s <= j -> getMass s' j = Some m -> Mass.parents m = [].

(** The masses the centre-of-mass force moves: free, and not the centre
    mass. *)
Definition moving_masses (center_id : Z) (ms : list Mass) : list Mass :=
  map snd (List.filter (fun im => negb (Z.eqb (fst im) center_id) && Mass.free (snd im))
                       (indexed ms)).

(** Their total mass, and the mass-weighted sum of a coordinate. *)
Definition total_mass (l : list Mass) : float :=
  fold_left (fun acc m => acc + Mass.mass m)%float l 0%float.

Definition weighted_sum (f : Mass -> float) (l : list Mass) : float :=
  fold_left (fun acc m => acc + Mass.mass m * f m)%float l 0%float.

(** The centre-of-mass force with nothing else acting: no gravity, no
    drag, no point attraction, no wall force, no live spring. *)
Definition cmass_alone (s : System) : bool :=
  State.force_enabled (state_ s) FR_CMASS
  && negb (State.force_enabled (state_ s) FR_GRAV)
  && negb (State.force_enabled (state_ s) FR_PTATTRACT)
  && negb (State.force_enabled (state_ s) FR_WALL)
  && (State.cur_visc (state_ s) =? 0)%float
  && negb (existsb (fun sp => has_bit (Spring.status sp) S_ALIVE) (springs_ s)).

(** The sentence "both terms are divided by the moving mass's own mass, so
    the resulting force on a mass is independent of that mass's own mass",
    read as: with the centre-of-mass force alone, two moving masses at the
    same place with the same velocity feel the same force [mass * ax]. *)
Definition cmass_force_mass_independent : Prop :=
  forall M width_ height_ s s' i j mi mj mi' mj',
    cmass_alone s = true ->
    accumulateAccel M width_ height_ s = Some s' ->
    getMass s i = Some mi -> getMass s j = Some mj ->
    Mass.free mi = true -> Mass.free mj = true ->
    i <> State.center_id (state_ s) -> j <> State.center_id (state_ s) ->
    pv mi = pv mj ->
    getMass s' i = Some mi' -> getMass s' j = Some mj' ->
    (Mass.mass mi * Mass.ax mi')%float = (Mass.mass mj * Mass.ax mj')%float.

(** What the force accumulator may do to a mass: assign [ax] and [ay]. *)
Definition accelerated (m m' : Mass) : Prop :=
  exists ax ay, m' = Mass.set_ay ay (Mass.set_ax ax m).

(** What a guarded loop body does to a mass. *)
Definition stepped (f : Mass -> Mass) (m m' : Mass) : Prop :=
  m' = if Mass.free m then f m else m.

(** One relation after the other. *)
Definition and_then (R1 R2 : Mass -> Mass -> Prop) (m m'' : Mass) : Prop :=
  exists m', R1 m m' /\ R2 m' m''.

(** The parameters are the same up to [center_id]. *)
Definition same_but_center (st st' : State) : Prop :=
  st' = State.set_center_id (State.center_id st') st.

(** A stage of an integrator: the accumulator, then the loop of the
    stage. *)
Definition stage (f : Mass -> Mass) : Mass -> Mass -> Prop :=
  and_then accelerated (stepped f).

(** The whole of [rungeKutta h testloc] and of the six stages of
    [adaptiveRungeKutta], seen from one mass. *)
Definition rk4_trace (h : float) (testloc : bool) : Mass -> Mass -> Prop :=
  and_then (stage (rk4_k1 h))
    (and_then (stage (rk4_k2 h))
       (and_then (stage (rk4_k3 h))
          (and_then (stage (rk4_k4 h)) (stepped (rk4_final testloc))))).

Definition rkf_trace (h : float) : Mass -> Mass -> Prop :=
  and_then (stage (rkf_k1 h))
    (and_then (stage (rkf_k2 h))
       (and_then (stage (rkf_k3 h))
          (and_then (stage (rkf_k4 h))
             (and_then (stage (rkf_k5 h)) (stage (rkf_k6 h)))))).

(** What the integrators never touch in a mass: its status, its snapshot
    [old_*], its mass, elasticity, radius and parent list. *)
Definition kept (m m' : Mass) : Prop :=
  Mass.status m' = Mass.status m /\ Mass.old m' = Mass.old m
  /\ Mass.mass m' = Mass.mass m /\ Mass.elastic m' = Mass.elastic m
  /\ Mass.radius m' = Mass.radius m /\ Mass.parents m' = Mass.parents m.

(** The sentence "a step is never accepted when maxerr >= 1.0 unless cur_dt
    is already at DT_MIN", read on one pass of [adaptiveRungeKutta]. *)
Definition accepted_only_at_dt_min : Prop :=
  forall M width_ height_ s s1 s',
    rkf_stages M width_ height_ s = Some s1 ->
    D.geb (rkf_maxerr s1) 1.0 = true ->
    rkf_attempt M width_ height_ s = Some (Accepted s') ->
    State.cur_dt (state_ s1) = DT_MIN.

(** What [advance] owes a FIXED mass: its status, position and velocity
    stay. *)
Definition anchored (m m' : Mass) : Prop :=
  Mass.isFixed m = true -> Mass.status m' = Mass.status m /\ pv m' = pv m.

(** The stick threshold of [advance]: [stick_mag] of the system. *)
Definition stick_mag_of (s : System) : float :=
  (STICK_MAG * State.cur_dt (state_ s) * State.cur_stick (state_ s))%float.

(** Within 0.5 of an enabled left or right wall, and of an enabled bottom
    or top wall, before the step. *)
Definition near_wall_x (width_ : Z) (mst : State) (m : Mass) : bool :=
  let rad := D.of_int (screenRadius (Mass.radius m)) in
  (State.w_left mst && (abs (Mass.old_x m - rad) <? 0.5)%float)
  || (State.w_right mst && (abs (Mass.old_x m - D.of_int width_ + rad) <? 0.5)%float).

Definition near_wall_y (height_ : Z) (mst : State) (m : Mass) : bool :=
  let rad := D.of_int (screenRadius (Mass.radius m)) in
  (State.w_bottom mst && (abs (Mass.old_y m - rad) <? 0.5)%float)
  || (State.w_top mst && (abs (Mass.old_y m - D.of_int height_ + rad) <? 0.5)%float).

(** The stick sentence for the bottom wall, read on one call of
    [advance]: [s] is the state the integrator hands to the wall code and
    [s'] the state returned.  A free mass that was at rest within 0.5 of
    the enabled bottom wall and whose new [vy] is below the threshold in
    magnitude is put back at its snapshot with zero velocity. *)
Definition pinned_at_bottom_wall : Prop :=
  forall M width_ height_ fuel s0 p s due s' p' i m,
    integrate M width_ height_ fuel s0 = Some s ->
    advance M width_ height_ fuel s0 p = Some (due, s', p') ->
    getMass s i = Some m -> Mass.free m = true ->
    (Mass.old_vx m =? 0)%float = true -> (Mass.old_vy m =? 0)%float = true ->
    State.w_bottom (state_ s) = true ->
    (abs (Mass.old_y m - D.of_int (screenRadius (Mass.radius m))) <? 0.5)%float = true ->
    (abs (Mass.vy m) <? stick_mag_of s / Mass.mass m)%float = true ->
    exists m', getMass s' i = Some m'
      /\ Mass.x m' = Mass.old_x m /\ Mass.y m' = Mass.old_y m
      /\ Mass.vx m' = 0%float /\ Mass.vy m' = 0%float.

(** The sentence "every free mass whose post-step position, velocity, or
    acceleration is NaN is deleted", read on one call of [advance]: [s1]
    is the state after the integration step, [s'] the state returned. *)
Definition nan_position (m : Mass) : bool := D.isNaN (Mass.x m) || D.isNaN (Mass.y m).
Definition nan_velocity (m : Mass) : bool := D.isNaN (Mass.vx m) || D.isNaN (Mass.vy m).
Definition nan_acceleration (m : Mass) : bool := D.isNaN (Mass.ax m) || D.isNaN (Mass.ay m).

Definition nan_masses_deleted : Prop :=
  forall M width_ height_ fuel s p s1 due s' p' i m,
    integrate M width_ height_ fuel s = Some s1 ->
    advance M width_ height_ fuel s p = Some (due, s', p') ->
    getMass s1 i = Some m -> Mass.free m = true ->
    nan_position m || nan_velocity m || nan_acceleration m = true ->
    exists m', getMass s' i = Some m' /\ Mass.isAlive m' = false.

(** Position and acceleration are numbers: neither NaN nor infinite. *)
Definition on_scale (m : Mass) : bool :=
  D.finite (Mass.x m) && D.finite (Mass.y m)
  && D.finite (Mass.ax m) && D.finite (Mass.ay m).

(** What [deleteMassParent] and [deleteSpring] may do to a mass: edit the
    parent list of a live mass. *)
Definition unlinked (j : Z) (m m' : Mass) : Prop :=
  m' = Mass.set_parents (Mass.parents m') m
  /\ (Mass.isAlive m = false -> m' = m).

(** The spring [p] after [deleteSpring p]: its status is 0 if it was
    alive. *)
Definition killed (sp : Spring) : Spring :=
  if Spring.isAlive sp then Spring.set_status 0 sp else sp.

(** The springs after the cascade over the list [l]. *)
Definition cascade (l : list Z) (k : Z) (sp sp' : Spring) : Prop :=
  sp' = if decide (elem_of k l) then killed sp else sp.

(** The state in which a selected spring leaves the inner loop. *)
Definition after_remap (tbl : list (Z * Z)) (sp : Spring) (s : System) : System :=
  let c := Spring.setSelected false sp in
  set_masses
    (fold_left (add_parent (springCount s))
       (remap_targets false false tbl (Spring.m1 c) (Spring.m2 c)) (masses_ s))
    (set_springs (springs_ s ++ [remapped false false tbl c]) s).

(** ** Vocabulary of the properties of the store *)

(** An index into [masses_], into [springs_]. *)
Definition has_mass (s : System) (i : Z) : bool := Z.leb 0 i && Z.ltb i (massCount s).
Definition has_spring (s : System) (p : Z) : bool := Z.leb 0 p && Z.ltb p (springCount s).

(** The indices the code follows without a test are in range: the end
    points of every live spring, the parent entries of every live mass,
    [center_id] when it is not negative, [fakeMass_] and [fakeSpring_]. *)
Definition well_formed (s : System) : bool :=
  forallb (fun sp => negb (Spring.isAlive sp)
                     || (has_mass s (Spring.m1 sp) && has_mass s (Spring.m2 sp)))
          (springs_ s)
  && forallb (fun m => negb (Mass.isAlive m) || forallb (has_spring s) (Mass.parents m))
             (masses_ s)
  && Z.ltb (State.center_id (state_ s)) (massCount s)
  && has_mass s (fakeMass_ s) && has_spring s (fakeSpring_ s).

(** The system [reset] builds. *)
Definition initial : System :=
  mkSystem State.reset
    [Mass.set_parents [0] (Mass.set_status S_FIXED Mass.new)]
    [Spring.set_status 0 Spring.new] 0 0.

(** The parent entries [reconnectMasses] gives the mass [k] for the
    springs from index [i] on. *)
Fixpoint links_from (k : Z) (i : nat) (l : list Spring) : list Z :=
  match l with
  | [] => []
  | sp :: l =>
      (if Z.eqb (Spring.m1 sp) k then [Z.of_nat i] else [])
      ++ (if Z.eqb (Spring.m2 sp) k then [Z.of_nat i] else [])
      ++ links_from k (S i) l
  end.

(** The same mass, the same spring, up to the SELECTED bit of the
    status. *)
Definition mass_but_selected (m m' : Mass) : Prop :=
  m' = Mass.set_status (Mass.status m') m
  /\ clear_bit (Mass.status m') S_SELECTED = clear_bit (Mass.status m) S_SELECTED.

Definition spring_but_selected (sp sp' : Spring) : Prop :=
  sp' = Spring.set_status (Spring.status sp') sp
  /\ clear_bit (Spring.status sp') S_SELECTED = clear_bit (Spring.status sp) S_SELECTED.

(** What deleting does to a mass that stays in place: entries leave its
    parent list.  [mass_waned_to st] also sets its status to [st]. *)
Definition mass_pruned (m m' : Mass) : Prop :=
  m' = Mass.set_parents (Mass.parents m') m
  /\ incl (Mass.parents m') (Mass.parents m).

Definition mass_waned_to (st : Z) (m m' : Mass) : Prop :=
  mass_pruned (Mass.set_status st m) m'.

(** A spring as it was, or deleted. *)
Definition spring_waned (sp sp' : Spring) : Prop :=
  sp' = sp \/ sp' = Spring.set_status 0 sp.

(** What deleting and simulating may do to the links of the store: a
    status is kept or becomes 0, parent entries may go, end points stay,
    [center_id] is kept or becomes -1. *)
Definition mass_fades (m m' : Mass) : Prop :=
  (Mass.status m' = Mass.status m \/ Mass.status m' = 0)
  /\ incl (Mass.parents m') (Mass.parents m).

Definition spring_fades (sp sp' : Spring) : Prop :=
  (Spring.status sp' = Spring.status sp \/ Spring.status sp' = 0)
  /\ Spring.m1 sp' = Spring.m1 sp /\ Spring.m2 sp' = Spring.m2 sp.

Definition fades (s s' : System) : Prop :=
  pointwise (fun _ => mass_fades) (masses_ s) (masses_ s')
  /\ pointwise (fun _ => spring_fades) (springs_ s) (springs_ s')
  /\ (State.center_id (state_ s') = State.center_id (state_ s)
      \/ State.center_id (state_ s') = -1)
  /\ fakeMass_ s' = fakeMass_ s /\ fakeSpring_ s' = fakeSpring_ s.

(** [well_formed], spelt out. *)
Definition links_in_range (s : System) : Prop :=
  (forall k sp, getSpring s k = Some sp -> Spring.isAlive sp = true ->
     has_mass s (Spring.m1 sp) = true /\ has_mass s (Spring.m2 sp) = true)
  /\ (forall i m, getMass s i = Some m -> Mass.isAlive m = true ->
        forall p, In p (Mass.parents m) -> has_spring s p = true)
  /\ State.center_id (state_ s) < massCount s
  /\ has_mass s (fakeMass_ s) = true /\ has_spring s (fakeSpring_ s) = true.

(** Everything of the system but the two vectors is the same. *)
Definition rest_kept (s s' : System) : Prop :=
  state_ s' = state_ s /\ fakeMass_ s' = fakeMass_ s /\ fakeSpring_ s' = fakeSpring_ s.

(** The parameters as they were, or with [center_id] set to -1. *)
Definition center_cleared (st st' : State) : Prop :=
  st' = st \/ st' = State.set_center_id (-1) st.

(** [k <= j < k + n]. *)
Definition in_run (k n : nat) (j : Z) : bool :=
  Z.leb (Z.of_nat k) j && Z.ltb j (Z.of_nat (k + n)).

(** The two loop bodies of [deleteSelected]. *)
Definition deleteSelected_mass (i : Z) (s : System) : option System :=
  m ← getMass s i; if Mass.isSelected m then deleteMass i s else Some s.

Definition deleteSelected_spring (i : Z) (s : System) : option System :=
  sp ← getSpring s i; if Spring.isSelected sp then deleteSpring i s else Some s.

(** The body of the spring loop of [reconnectMasses]. *)
Definition reconnect_spring (i : Z) (s : System) : option System :=
  sp ← getSpring s i;
  s ← addMassParent (Spring.m1 sp) i s;
  sp ← getSpring s i;
  addMassParent (Spring.m2 sp) i s.

(** Every spring, dead or alive, has its end points in [masses_]. *)
Definition ends_in_range (s : System) : Prop :=
  forall i sp, getSpring s i = Some sp ->
    has_mass s (Spring.m1 sp) = true /\ has_mass s (Spring.m2 sp) = true.

(** The masses with their parent lists rebuilt from the springs. *)
Definition relinked (s : System) : list Mass :=
  map (fun im => Mass.set_parents (links_from (fst im) 0 (springs_ s)) (snd im))
      (indexed (masses_ s)).

(** [n] passes of the adaptive integrator from [restart:] on, every one
    of them rejected: the state in which the next pass would start. *)
Fixpoint rejected_run (M : Libm) (width_ height_ : Z) (n : nat) (s : System)
    : option System :=
  match n with
  | O => Some s
  | S n =>
      match rkf_attempt M width_ height_ s with
      | Some (Rejected s1) => rejected_run M width_ height_ n s1
      | _ => None
      end
  end.

(** The centre is no mass, or a live one. *)
Definition center_alive (s : System) : Prop :=
  State.center_id (state_ s) < 0
  \/ exists m, getMass s (State.center_id (state_ s)) = Some m /\ Mass.isAlive m = true.

(** What contact resolution may do to a mass: assign [vx] and [vy]. *)
Definition deflected (m m' : Mass) : Prop :=
  m' = Mass.set_vy (Mass.vy m') (Mass.set_vx (Mass.vx m') m).

(** The system with the accelerations of its free masses replaced: [a]
    gives the pair for each index. *)
Definition with_accel (a : Z -> float * float) (s : System) : System :=
  set_masses
    (map (fun im => if Mass.free (snd im)
                    then Mass.set_ay (snd (a (fst im)))
                           (Mass.set_ax (fst (a (fst im))) (snd im))
                    else snd im)
         (indexed (masses_ s))) s.

(** What contact resolution does to a mass: it deflects free masses
    only. *)
Definition collided (m m' : Mass) : Prop :=
  deflected m m' /\ (Mass.free m = false -> m' = m).

(** What a call of [advance] carries over in a mass: its mass, elasticity
    and radius and the snapshot [old_*] taken at the start of the call;
    its status is kept or becomes 0, and its parent list may lose
    entries. *)
Definition mass_carried (m m' : Mass) : Prop :=
  Mass.mass m' = Mass.mass m /\ Mass.elastic m' = Mass.elastic m
  /\ Mass.radius m' = Mass.radius m /\ Mass.old m' = Mass.old m
  /\ (Mass.status m' = Mass.status m \/ Mass.status m' = 0)
  /\ incl (Mass.parents m') (Mass.parents m).

(** The parameters are the same up to [cur_dt] and [center_id]. *)
Definition params_kept (st st' : State) : Prop :=
  st' = State.set_cur_dt (State.cur_dt st') (State.set_center_id (State.center_id st') st).

(** A mass as [advance] finds it, with the snapshot taken if it is
    free. *)
Definition snapped (m : Mass) : Mass := if Mass.free m then snapshot m else m.

(** The walls that are switched on hold a ball of screen radius [rad]:
    if ([x0], [y0]) satisfied the test the wall code makes on the old
    position ([old_x >= rad], [old_x <= width_ - rad], and so on), then
    ([x], [y]) does not fail the test it makes on the new one
    ([x < rad], [x > width_ - rad], and so on). *)
Definition contained (width_ height_ : Z) (mst : State) (rad : Z)
    (x0 y0 x y : float) : Prop :=
  (State.w_left mst = true -> D.geb x0 (D.of_int rad) = true ->
     (x <? D.of_int rad)%float = false)
  /\ (State.w_right mst = true -> (x0 <=? D.of_int (width_ - rad))%float = true ->
     D.gtb x (D.of_int (width_ - rad)) = false)
  /\ (State.w_bottom mst = true -> D.geb y0 (D.of_int rad) = true ->
     (y <? D.of_int rad)%float = false)
  /\ (State.w_top mst = true -> (y0 <=? D.of_int (height_ - rad))%float = true ->
     D.gtb y (D.of_int (height_ - rad)) = false).

(** The sign of a double, on its IEEE form: [nonneg] is [0 <= x],
    [not_neg] is [!(x < 0)] and [not_pos] is [!(x > 0)]; the last two
    hold of NaN. *)
Definition nonneg (x : spec_float) : bool :=
  match x with
  | S754_zero _ => true
  | S754_infinity s | S754_finite s _ _ => negb s
  | S754_nan => false
  end.

Definition not_neg (x : spec_float) : bool :=
  match x with
  | S754_zero _ | S754_nan => true
  | S754_infinity s | S754_finite s _ _ => negb s
  end.

Definition not_pos (x : spec_float) : bool :=
  match x with
  | S754_zero _ | S754_nan => true
  | S754_infinity s | S754_finite s _ _ => s
  end.

(** The tests of the wall code of [advance] on a mass: which of the
    four bounce branches it takes. *)
Definition hits_left (mst : State) (m : Mass) : bool :=
  let rad := screenRadius (Mass.radius m) in
  State.w_left mst && (Mass.x m <? D.of_int rad)%float && D.geb (Mass.old_x m) (D.of_int rad).

Definition hits_right (width_ : Z) (mst : State) (m : Mass) : bool :=
  let rad := screenRadius (Mass.radius m) in
  State.w_right mst && D.gtb (Mass.x m) (D.of_int (width_ - rad))
  && (Mass.old_x m <=? D.of_int (width_ - rad))%float.

Definition hits_bottom (mst : State) (m : Mass) : bool :=
  let rad := screenRadius (Mass.radius m) in
  State.w_bottom mst && (Mass.y m <? D.of_int rad)%float && D.geb (Mass.old_y m) (D.of_int rad).

Definition hits_top (height_ : Z) (mst : State) (m : Mass) : bool :=
  let rad := screenRadius (Mass.radius m) in
  State.w_top mst && D.gtb (Mass.y m) (D.of_int (height_ - rad))
  && (Mass.old_y m <=? D.of_int (height_ - rad))%float.

(** The values of a C++ [int]; an operation on [int]s is the operation
    on integers as long as its result is one of them. *)
Definition INT_MIN : Z := - 2 ^ 31.
Definition INT_MAX : Z := 2 ^ 31 - 1.
Definition fits_int (z : Z) : Prop := INT_MIN <= z <= INT_MAX.

(** The spring [q] is in the vector and not alive. *)
Definition spring_dead (s : System) (q : Z) : Prop :=
  exists sp, getSpring s q = Some sp /\ Spring.isAlive sp = false.

(** The centre point of [accumulateAccel]: the position of the centre
    mass when [center_id] is not negative and that mass is alive, else
    the middle of the window. *)
Definition center_point (width_ height_ : Z) (s : System) : float * float :=
  let middle := (D.of_int width_ / 2.0, D.of_int height_ / 2.0)%float in
  if Z.leb 0 (State.center_id (state_ s)) then
    match getMass s (State.center_id (state_ s)) with
    | Some c => if Mass.isAlive c then (Mass.x c, Mass.y c) else middle
    | None => middle
    end
  else middle.

(** The centre mass the loops of [accumulateAccel] compare with:
    [center_id], or -1 once a dead centre mass has been found. *)
Definition live_center (s : System) : Z :=
  let c := State.center_id (state_ s) in
  if Z.leb 0 c then
    match getMass s c with
    | Some m => if Mass.isAlive m then c else -1
    | None => c
    end
  else c.

(** The terms the later loops of [accumulateAccel] add to the
    acceleration of a free mass: point attraction towards
    ([center_x], [center_y]) with [center_rad = 1.0], and the wall
    force. *)
Definition ptattract_pull (M : Libm) (mst : State) (center_x center_y : float)
    (m : Mass) : float * float :=
  (let center_rad := 1.0 in
   let gval := State.cur_grav_val mst FR_PTATTRACT in
   let gmisc := State.cur_misc_val mst FR_PTATTRACT in
   let dx := center_x - Mass.x m in
   let dy := center_y - Mass.y m in
   let mag := sqrt (dx * dx + dy * dy) in
   let near := mag <? D.of_int (Mass.radius m) + center_rad in
   let dx := if near then dx * (mag / (D.of_int (Mass.radius m) + center_rad)) else dx in
   let dy := if near then dy * (mag / (D.of_int (Mass.radius m) + center_rad)) else dy in
   let mag := if near then D.of_int (Mass.radius m) + center_rad else mag in
   let fmag := gval / c_pow M mag gmisc in
   (fmag * dx / mag, fmag * dy / mag))%float.

Definition wall_pull (M : Libm) (width_ height_ : Z) (mst : State) (m : Mass)
    : float * float :=
  (let rad := screenRadius (Mass.radius m) in
   let gval := - State.cur_grav_val mst FR_WALL in
   let gmisc := State.cur_misc_val mst FR_WALL in
   let dax := 0 in
   let day := 0 in
   let dax := match wall_term M (State.w_left mst) (Mass.x m - D.of_int rad) gval gmisc with
              | Some t => dax - t | None => dax end in
   let dax := match wall_term M (State.w_right mst)
                      (D.of_int (width_ - rad) - Mass.x m) gval gmisc with
              | Some t => dax + t | None => dax end in
   let day := match wall_term M (State.w_top mst)
                      (D.of_int (height_ - rad) - Mass.y m) gval gmisc with
              | Some t => day + t | None => day end in
   let day := match wall_term M (State.w_bottom mst) (Mass.y m - D.of_int rad) gval gmisc with
              | Some t => day - t | None => day end in
   (dax, day))%float.

(** The force of the spring [sp] as the spring loop of
    [accumulateAccel] computes it from the positions and velocities in
    [ms]: [(forcex, forcey, mass1, mass2)], or nothing for a dead spring
    or one whose end points coincide. *)
Definition spring_pull (ms : list Mass) (sp : Spring)
    : option (float * float * float * float) :=
  (if has_bit (Spring.status sp) S_ALIVE then
     match at_ ms (Spring.m1 sp), at_ ms (Spring.m2 sp) with
     | Some m1, Some m2 =>
         let dx := Mass.x m1 - Mass.x m2 in
         let dy := Mass.y m1 - Mass.y m2 in
         if D.truthy dx || D.truthy dy then
           let mag := sqrt (dx * dx + dy * dy) in
           let force := Spring.ks sp * (Spring.restlen sp - mag) in
           let force :=
             if D.truthy (Spring.kd sp) then
               let damp := ((Mass.vx m1 - Mass.vx m2) * dx
                            + (Mass.vy m1 - Mass.vy m2) * dy) / mag in
               force - Spring.kd sp * damp
             else force in
           let force := force / mag in
           Some (force * dx, force * dy, Mass.mass m1, Mass.mass m2)
         else None
     | _, _ => None
     end
   else None)%float.

(** What the spring [sp] adds to the acceleration [(ax, ay)] of the mass
    [i]: [+ force / mass1] if [i] is its first end point, then
    [- force / mass2] if [i] is its second. *)
Definition spring_adds (ms : list Mass) (i : Z) (a : float * float) (sp : Spring)
    : float * float :=
  (match spring_pull ms sp with
   | Some (fx, fy, mass1, mass2) =>
       let a := if Z.eqb i (Spring.m1 sp) then (fst a + fx / mass1, snd a + fy / mass1)
                else a in
       if Z.eqb i (Spring.m2 sp) then (fst a - fx / mass2, snd a - fy / mass2) else a
   | None => a
   end)%float.

(** The mass [m] with the acceleration [(ax, ay)]. *)
Definition with_acc (a : float * float) (m : Mass) : Mass :=
  Mass.set_ay (snd a) (Mass.set_ax (fst a) m).


(** ** Concrete scenes *)

Module Scene.

(** A [<math.h>] stand-in for running the model: the scenes below reach
    these functions only through [cur_dt], whose value they do not rely
    on.  [COORD_DY] flips the axis, as [deltaY] of [misc.h] does. *)
Definition libm : Libm :=
  mkLibm (fun a => a) (fun a => a) (fun a => a) (fun a => a) (fun a _ => a)
         (fun a => a) (fun a => PrimFloat.opp a).

(** A mass of radius 1 (screen radius 15) and elasticity 1. *)
Definition mass_at (x y vx vy mass : float) (status : Z) (parents : list Z) : Mass :=
  Mass.mk x y vx vy 0 0 mass 1 1 parents status
          Quad0 Quad0 Quad0 Quad0 Quad0 Quad0 Quad0 Quad0 Quad0.

(** What [initObjects] leaves at index 0 of each container. *)
Definition fakeMass : Mass := Mass.set_parents [0] (Mass.set_status S_FIXED Mass.new).
Definition fakeSpring : Spring := Spring.set_status 0 Spring.new.

Definition ALIVE_SELECTED : Z := 3.

(** Two masses at the same place, joined by a live spring. *)
Definition coincident : System :=
  mkSystem State.reset
    [fakeMass; mass_at 100 100 0 0 1 S_ALIVE [1]; mass_at 100 100 3 (-2) 2 S_ALIVE [1]]
    [fakeSpring; Spring.mk 1 1 50 1 2 S_ALIVE] 0 0.

(** The pacer after two calls with the default step 0.025. *)
Definition two_calls : Pacer := snd (run_pace [0.025; 0.025]%float Pacer0).

(** Two selected springs with the same [ks] and different [kd]. *)
Definition two_kd : System :=
  mkSystem State.reset
    [fakeMass; mass_at 100 100 0 0 1 S_ALIVE [1; 2]; mass_at 200 100 0 0 1 S_ALIVE [1; 2]]
    [fakeSpring; Spring.mk 1 3 50 1 2 ALIVE_SELECTED; Spring.mk 1 7 50 1 2 ALIVE_SELECTED]
    0 0.

(** Two selected masses, the first fixed and the second not. *)
Definition two_fix : System :=
  mkSystem State.reset
    [fakeMass; mass_at 100 100 0 0 1 (ALIVE_SELECTED + S_FIXED) [];
     mass_at 200 100 0 0 1 ALIVE_SELECTED []]
    [fakeSpring] 0 0.

(** Two selected masses, both fixed. *)
Definition both_fix : System :=
  mkSystem State.reset
    [fakeMass; mass_at 100 100 0 0 1 (ALIVE_SELECTED + S_FIXED) [];
     mass_at 200 100 0 0 1 (ALIVE_SELECTED + S_FIXED) []]
    [fakeSpring] 0 0.

(** Three masses joined in a triangle; mass 1 has the springs 1 and 2. *)
Definition triangle : System :=
  mkSystem State.reset
    [fakeMass; mass_at 100 100 0 0 1 S_ALIVE [1; 2]; mass_at 200 100 0 0 1 S_ALIVE [1; 3];
     mass_at 150 200 0 0 1 S_ALIVE [2; 3]]
    [fakeSpring; Spring.mk 1 1 100 1 2 S_ALIVE; Spring.mk 1 1 100 1 3 S_ALIVE;
     Spring.mk 1 1 100 2 3 S_ALIVE]
    0 0.

(** Two selected masses and the selected spring between them. *)
Definition pair_a : Mass := mass_at 100 100 0 0 1 ALIVE_SELECTED [1].
Definition pair_b : Mass := mass_at 200 100 5 0 2 ALIVE_SELECTED [1].
Definition pair_spring : Spring := Spring.mk 7 3 50 1 2 ALIVE_SELECTED.
Definition pair : System :=
  mkSystem State.reset [fakeMass; pair_a; pair_b] [fakeSpring; pair_spring] 0 0.

(** A selected spring between two masses that are not selected. *)
Definition dangling : System :=
  mkSystem State.reset
    [fakeMass; mass_at 100 100 0 0 1 S_ALIVE [1]; mass_at 200 100 0 0 1 S_ALIVE [1]]
    [fakeSpring; pair_spring] 0 0.

(** The parameters with the centre-of-mass force alone switched on
    (magnitude 5, damping 2). *)
Definition cmass_state : State :=
  State.mk 1 1 1 1 false true (-1)
    (fun f => match f with FR_CMASS => true | _ => false end)
    (State.cur_grav_val State.reset) (State.cur_misc_val State.reset)
    0 0 0.025 1 false false 20 true true true true false.

(** Two free masses of mass 1 and 3 at the same place, at rest, 100 to
    the left of the middle of a 400 x 400 window. *)
Definition unequal : System :=
  mkSystem cmass_state
    [fakeMass; mass_at 100 200 0 0 1 S_ALIVE []; mass_at 100 200 0 0 3 S_ALIVE []]
    [fakeSpring] 0 0.

(** Adaptive stepping with the given step and precision. *)
Definition adaptive_state (dt prec : float) : State :=
  State.mk 1 1 1 1 false true (-1)
    (State.force_enabled State.reset)
    (State.cur_grav_val State.reset) (State.cur_misc_val State.reset)
    0 0 dt prec true false 20 true true true true false.

(** Two masses 100 apart on a spring of rest length 50. *)
Definition stretched (st : State) : System :=
  mkSystem st
    [fakeMass; mass_at 100 100 0 0 1 S_ALIVE [1]; mass_at 200 100 0 0 1 S_ALIVE [1]]
    [fakeSpring; Spring.mk 1 0 50 1 2 S_ALIVE] 0 0.

(** The step size is NaN and the precision target tiny. *)
Definition nan_step : System := stretched (adaptive_state nan 0.000001).

(** A stiff spring, a large step and a tight precision target: the first
    pass is rejected. *)
Definition too_coarse : System :=
  mkSystem (adaptive_state 0.5 0.001)
    [fakeMass; mass_at 100 100 0 0 1 S_ALIVE [1]; mass_at 200 100 0 0 1 S_ALIVE [1]]
    [fakeSpring; Spring.mk 100 0 50 1 2 S_ALIVE] 0 0.

(** A FIXED mass with a velocity, tied by a stretched spring to a free
    mass that overlaps it; gravity, walls and collisions are on. *)
Definition anchor : System :=
  mkSystem
    (State.mk 1 1 1 1 false true (-1)
       (fun f => match f with FR_GRAV => true | _ => false end)
       (State.cur_grav_val State.reset) (State.cur_misc_val State.reset)
       0 0 0.025 1 false false 20 true true true true true)
    [fakeMass; mass_at 100 100 7 0 1 (S_ALIVE + S_FIXED) [1];
     mass_at 101 100 (-3) 0 1 S_ALIVE [1]]
    [fakeSpring; Spring.mk 1 0 50 1 2 S_ALIVE] 0 0.

(** The default parameters with stickiness 1. *)
Definition sticky_state : State :=
  State.mk 1 1 1 1 false true (-1)
    (State.force_enabled State.reset)
    (State.cur_grav_val State.reset) (State.cur_misc_val State.reset)
    0 1 0.025 1 false false 20 true true true true false.

(** A free mass at rest in the bottom-left corner (screen radius 15),
    pulled along the bottom wall by a spring to a FIXED mass. *)
Definition corner : System :=
  mkSystem sticky_state
    [fakeMass; mass_at 15 15 0 0 1 S_ALIVE [1];
     mass_at 115 15 0 0 1 (S_ALIVE + S_FIXED) [1]]
    [fakeSpring; Spring.mk 1 0 0 1 2 S_ALIVE] 0 0.

(** The same mass on the bottom wall away from the corner, pulled
    sideways. *)
Definition on_floor : System :=
  mkSystem sticky_state
    [fakeMass; mass_at 100 15 0 0 1 S_ALIVE [1];
     mass_at 200 15 0 0 1 (S_ALIVE + S_FIXED) [1]]
    [fakeSpring; Spring.mk 1 0 0 1 2 S_ALIVE] 0 0.

(** No forces but viscous drag, fixed step [dt]; walls on, collisions
    off. *)
Definition viscous (visc dt : float) : State :=
  State.mk 1 1 1 1 false true (-1)
    (State.force_enabled State.reset)
    (State.cur_grav_val State.reset) (State.cur_misc_val State.reset)
    visc 0 dt 1 false false 20 true true true true false.

(** One free mass with a velocity near the top of the double range, in
    a thick medium, stepped by 1.5. *)
Definition runaway : System :=
  mkSystem (viscous 1.5 1.5)
    [fakeMass; mass_at 100 100 6.1e307 0 1 S_ALIVE []] [fakeSpring] 0 0.

(** One free mass with an infinite velocity, and a slow one. *)
Definition burst : System :=
  mkSystem (viscous 0 0.025)
    [fakeMass; mass_at 100 100 infinity 0 1 S_ALIVE [];
     mass_at 200 100 1 0 1 S_ALIVE []] [fakeSpring] 0 0.

End Scene.

(** ** More scenes *)

Module Sample.

(** Three masses joined in a triangle by three springs; mass 2 and
    spring 3 are selected, and mass 2 is the centre. *)
Definition mesh : System :=
  mkSystem (State.set_center_id 2 State.reset)
    [Scene.fakeMass;
     Scene.mass_at 100 100 0 0 1 S_ALIVE [1; 3];
     Scene.mass_at 200 100 0 0 1 Scene.ALIVE_SELECTED [1; 2];
     Scene.mass_at 150 180 0 0 1 S_ALIVE [2; 3]]
    [Scene.fakeSpring;
     Spring.mk 1 0 100 1 2 S_ALIVE;
     Spring.mk 1 0 100 2 3 S_ALIVE;
     Spring.mk 1 0 100 1 3 Scene.ALIVE_SELECTED] 0 0.

(** One free mass 20 from the left wall, thrown at it. *)
Definition thrown : System :=
  mkSystem (Scene.viscous 0 0.025)
    [Scene.fakeMass; Scene.mass_at 20 100 (-2000) 0 1 S_ALIVE []] [Scene.fakeSpring] 0 0.

(** A free mass with an infinite velocity, tied by a spring to a slow
    one. *)
Definition tethered : System :=
  mkSystem (Scene.viscous 0 0.025)
    [Scene.fakeMass; Scene.mass_at 100 100 infinity 0 1 S_ALIVE [1];
     Scene.mass_at 200 100 1 0 1 S_ALIVE [1]]
    [Scene.fakeSpring; Spring.mk 1 0 100 1 2 S_ALIVE] 0 0.

End Sample.


(** * Properties *)

(** ** Doubles: what the IEEE specification gives *)

Example of_int_neg : D.of_int (-3) = (-3)%float.
Proof. reflexivity. Qed.

Section Doubles.

Local Open Scope float_scope.

(** A value that is not finite fails the self-difference test. *)
Lemma neb_sub_self a : D.finite a = false -> D.neb (a - a) 0 = true.
Proof.
  unfold D.finite, D.neb. intros H.
  rewrite FloatAxioms.eqb_spec, sub_spec.
  destruct (Prim2SF a) as [s| s| |s m e]; try discriminate; try reflexivity.
  destruct s; reflexivity.
Qed.

Lemma isNaN_not_finite a : D.isNaN a = true -> D.finite a = false.
Proof. unfold D.isNaN, D.finite. destruct (Prim2SF a); congruence. Qed.

Ltac by_class a b :=
  destruct (Prim2SF a) as [[]|[]| |[] ? ?], (Prim2SF b) as [[]|[]| |[] ? ?];
  cbn; try discriminate; try (intros; split; reflexivity).

(** An operand that is not finite makes the result not finite. *)
Lemma finite_add a b : D.finite (a + b) = true -> D.finite a = true /\ D.finite b = true.
Proof. unfold D.finite. rewrite add_spec. by_class a b. Qed.

Lemma finite_sub a b : D.finite (a - b) = true -> D.finite a = true /\ D.finite b = true.
Proof. unfold D.finite. rewrite sub_spec. by_class a b. Qed.

Lemma finite_mul a b : D.finite (a * b) = true -> D.finite a = true /\ D.finite b = true.
Proof. unfold D.finite. rewrite mul_spec. by_class a b. Qed.

Lemma finite_div_l a b : D.finite (a / b) = true -> D.finite a = true.
Proof.
  unfold D.finite. rewrite div_spec.
  destruct (Prim2SF a) as [[]|[]| |[] ? ?], (Prim2SF b) as [[]|[]| |[] ? ?];
    cbn; try discriminate; reflexivity.
Qed.

Lemma eqb_zero a : (a =? 0) = true -> D.isZero a = true.
Proof.
  rewrite FloatAxioms.eqb_spec. unfold D.isZero.
  change (Prim2SF 0) with (S754_zero false).
  destruct (Prim2SF a) as [[]|[]| |[] ? ?]; cbn; congruence.
Qed.

Lemma zero_or_nan_mul_r a b : D.isZero b = true -> D.zero_or_nan (a * b) = true.
Proof.
  unfold D.zero_or_nan, D.isZero, D.isNaN. rewrite mul_spec.
  destruct (Prim2SF a) as [[]|[]| |[] ? ?], (Prim2SF b) as [[]|[]| |[] ? ?];
    cbn; congruence.
Qed.

Lemma zero_or_nan_div_l a b : D.zero_or_nan a = true -> D.zero_or_nan (a / b) = true.
Proof.
  unfold D.zero_or_nan, D.isZero, D.isNaN. rewrite div_spec.
  destruct (Prim2SF a) as [[]|[]| |[] ? ?], (Prim2SF b) as [[]|[]| |[] ? ?];
    cbn; congruence.
Qed.

Lemma abs_ltb_zero_or_nan v t : D.zero_or_nan t = true -> (abs v <? t) = false.
Proof.
  unfold D.zero_or_nan, D.isZero, D.isNaN. rewrite ltb_spec, abs_spec.
  destruct (Prim2SF v) as [[]|[]| |[] ? ?], (Prim2SF t) as [[]|[]| |[] ? ?];
    cbn; congruence.
Qed.

(** Two finite non-zero values neither of which is below the other are
    the same value. *)
Lemma SFltb_finite_eq s1 m1 e1 s2 m2 e2 :
  SFltb (S754_finite s1 m1 e1) (S754_finite s2 m2 e2) = false ->
  SFltb (S754_finite s2 m2 e2) (S754_finite s1 m1 e1) = false ->
  S754_finite s1 m1 e1 = S754_finite s2 m2 e2.
Proof.
  unfold SFltb, SFcompare.
  change (Pos.compare_cont Eq m1 m2) with (Pos.compare m1 m2).
  change (Pos.compare_cont Eq m2 m1) with (Pos.compare m2 m1).
  rewrite (Pos.compare_antisym m1 m2), (Z.compare_antisym e1 e2).
  destruct s1, s2, (Z.compare_spec e1 e2), (Pos.compare_spec m1 m2);
    cbn; intros; try discriminate; subst; reflexivity.
Qed.

(** Neither below nor above a non-zero finite bound: at the bound, or
    NaN. *)
Lemma at_bound a b s m e :
  Prim2SF b = S754_finite s m e ->
  (a <? b) = false -> D.gtb a b = false ->
  a = b \/ D.isNaN a = true.
Proof.
  unfold D.gtb, D.isNaN. rewrite !ltb_spec. intros Hb Hlt Hgt.
  rewrite Hb in Hlt, Hgt.
  destruct (Prim2SF a) as [[]|[]| |sa ma ea] eqn:Ha; try (right; reflexivity);
    try (destruct s; cbn in Hlt, Hgt; discriminate).
  left. apply Prim2SF_inj. rewrite Ha, Hb.
  apply SFltb_finite_eq; assumption.
Qed.

Lemma SFcompare_antisym x y :
  SFcompare y x = option_map CompOpp (SFcompare x y).
Proof.
  destruct x as [[]|[]| |s1 m1 e1], y as [[]|[]| |s2 m2 e2]; try reflexivity;
    try (destruct s1; reflexivity); try (destruct s2; reflexivity).
  unfold SFcompare.
  change (Pos.compare_cont Eq m1 m2) with (Pos.compare m1 m2).
  change (Pos.compare_cont Eq m2 m1) with (Pos.compare m2 m1).
  rewrite (Pos.compare_antisym m1 m2), (Z.compare_antisym e1 e2).
  destruct s1, s2, (Z.compare e1 e2), (Pos.compare m1 m2); reflexivity.
Qed.

(** [a >= b] excludes [a < b]. *)
Lemma geb_not_ltb a b : D.geb a b = true -> (a <? b) = false.
Proof.
  unfold D.geb. rewrite leb_spec, ltb_spec. unfold SFleb, SFltb.
  rewrite (SFcompare_antisym (Prim2SF a) (Prim2SF b)).
  destruct (SFcompare (Prim2SF a) (Prim2SF b)) as [[]|]; cbn; congruence.
Qed.

(** The order of the doubles: [<] is irreflexive and [<=] transitive,
    also at the infinities and at NaN. *)
Lemma SFcompare_refl x : SFcompare x x = None \/ SFcompare x x = Some Eq.
Proof.
  destruct x as [[]|[]| |[] m e]; cbn; auto;
    rewrite Z.compare_refl; change (Pos.compare_cont Eq m m) with (Pos.compare m m);
    rewrite Pos.compare_refl; auto.
Qed.

Lemma ltb_irrefl a : (a <? a) = false.
Proof.
  rewrite ltb_spec. unfold SFltb.
  destruct (SFcompare_refl (Prim2SF a)) as [-> | ->]; reflexivity.
Qed.

Lemma SFleb_trans x y z : SFleb x y = true -> SFleb y z = true -> SFleb x z = true.
Proof.
  unfold SFleb.
  destruct x as [[]|[]| |s1 m1 e1], y as [[]|[]| |s2 m2 e2], z as [[]|[]| |s3 m3 e3];
    cbn; try congruence; try reflexivity;
    try (destruct s1; cbn; congruence); try (destruct s2; cbn; congruence);
    try (destruct s3; cbn; congruence);
    try (destruct s1, s2; cbn; congruence); try (destruct s2, s3; cbn; congruence);
    try (destruct s1, s3; cbn; congruence).
  change (Pos.compare_cont Eq m1 m2) with (Pos.compare m1 m2).
  change (Pos.compare_cont Eq m2 m3) with (Pos.compare m2 m3).
  change (Pos.compare_cont Eq m1 m3) with (Pos.compare m1 m3).
  destruct s1, s2, s3; try congruence; try reflexivity;
    destruct (Z.compare_spec e1 e2), (Z.compare_spec e2 e3), (Z.compare_spec e1 e3);
    try lia; try congruence; try reflexivity;
    destruct (Pos.compare_spec m1 m2), (Pos.compare_spec m2 m3), (Pos.compare_spec m1 m3);
    cbn; try lia; try congruence; try reflexivity.
Qed.

Lemma leb_trans a b c : (a <=? b) = true -> (b <=? c) = true -> (a <=? c) = true.
Proof. rewrite !leb_spec. apply SFleb_trans. Qed.

Lemma SFleb_zero x : SFleb (S754_zero false) x = nonneg x.
Proof. destruct x as [[]|[]| |[] m e]; reflexivity. Qed.

Lemma SFltb_zero x : SFltb x (S754_zero false) = negb (not_neg x).
Proof. destruct x as [[]|[]| |[] m e]; reflexivity. Qed.

Lemma SFltb_zero_l x : SFltb (S754_zero false) x = negb (not_pos x).
Proof. destruct x as [[]|[]| |[] m e]; reflexivity. Qed.

(** Rounding keeps the sign it is given. *)
Lemma round_aux_sign sx mx ex lx :
  match binary_round_aux prec emax sx mx ex lx with
  | S754_zero s | S754_infinity s | S754_finite s _ _ => s = sx
  | S754_nan => True
  end.
Proof.
  unfold binary_round_aux.
  destruct (shr_fexp _ _ _ _ _) as [mrs' e'].
  destruct (shr_fexp _ _ _ _ _) as [mrs'' e''].
  destruct (shr_m mrs''); auto. destruct (_ <=? _)%Z; reflexivity.
Qed.

Lemma SFmul_not_neg x y :
  not_neg x = true -> nonneg y = true -> not_neg (SFmul prec emax x y) = true.
Proof.
  destruct x as [[]|[]| |[] m1 e1], y as [[]|[]| |[] m2 e2]; cbn;
    try discriminate; try reflexivity.
  intros _ _.
  pose proof (round_aux_sign false (Z.pos (m1 * m2)) (e1 + e2) SpecFloat.loc_Exact) as H.
  destruct (binary_round_aux _ _ _ _ _ _); cbn; try reflexivity; now rewrite H.
Qed.

Lemma SFmul_not_pos x y :
  not_pos x = true -> nonneg y = true -> not_pos (SFmul prec emax x y) = true.
Proof.
  destruct x as [[]|[]| |[] m1 e1], y as [[]|[]| |[] m2 e2]; cbn;
    try discriminate; try reflexivity.
  intros _ _.
  pose proof (round_aux_sign true (Z.pos (m1 * m2)) (e1 + e2) SpecFloat.loc_Exact) as H.
  destruct (binary_round_aux _ _ _ _ _ _); cbn; try reflexivity; now rewrite H.
Qed.

(** A value that is not negative, times one that is at least 0, is not
    negative; and the same with "not positive". *)
Lemma mul_not_neg a b : (a <? 0) = false -> (0 <=? b) = true -> (a * b <? 0) = false.
Proof.
  rewrite leb_spec, !ltb_spec, mul_spec.
  change (Prim2SF 0) with (S754_zero false). rewrite SFleb_zero, !SFltb_zero.
  intros Ha Hb. apply negb_false_iff in Ha. now rewrite SFmul_not_neg.
Qed.

Lemma mul_not_pos a b : (0 <? a) = false -> (0 <=? b) = true -> (0 <? a * b) = false.
Proof.
  rewrite leb_spec, !ltb_spec, mul_spec.
  change (Prim2SF 0) with (S754_zero false). rewrite SFleb_zero, !SFltb_zero_l.
  intros Ha Hb. apply negb_false_iff in Ha. now rewrite SFmul_not_pos.
Qed.

Lemma opp_not_neg a : (a <? 0) = true -> (- a <? 0) = false.
Proof.
  rewrite !ltb_spec, opp_spec.
  change (Prim2SF 0) with (S754_zero false). rewrite !SFltb_zero.
  destruct (Prim2SF a) as [[]|[]| |[] m e]; cbn; congruence.
Qed.

Lemma opp_not_pos a : (0 <? a) = true -> (0 <? - a) = false.
Proof.
  rewrite !ltb_spec, opp_spec.
  change (Prim2SF 0) with (S754_zero false). rewrite !SFltb_zero_l.
  destruct (Prim2SF a) as [[]|[]| |[] m e]; cbn; congruence.
Qed.

(** A number minus itself compares equal to 0. *)
Lemma SFsub_self x :
  match x with
  | S754_nan | S754_infinity _ => True
  | _ => SFeqb (SFsub prec emax x x) (S754_zero false) = true
  end.
Proof.
  destruct x as [s|s| |s m e]; try exact I.
  - destruct s; reflexivity.
  - unfold SFsub. rewrite Z.min_id, Z.sub_diag. reflexivity.
Qed.

Lemma sub_self_finite a : D.finite a = true -> D.neb (a - a) 0 = false.
Proof.
  unfold D.finite, D.neb. intros H.
  rewrite FloatAxioms.eqb_spec, sub_spec.
  change (Prim2SF 0) with (S754_zero false).
  pose proof (SFsub_self (Prim2SF a)) as Hs.
  destruct (Prim2SF a) as [s|s| |s m e]; try discriminate;
    apply negb_false_iff; exact Hs.
Qed.

End Doubles.

(** ** Vectors *)

Section Vectors.

Context {A : Type}.
Implicit Types (v : list A) (i j : Z).

Lemma at_Some v i a : at_ v i = Some a <-> 0 <= i /\ v !! Z.to_nat i = Some a.
Proof.
  unfold at_. destruct (Z.ltb_spec i 0); split.
  - discriminate.
  - intros [? _]. lia.
  - intros H'. split; [lia | assumption].
  - intros [_ H']. assumption.
Qed.

Lemma at_is_Some v i : is_Some (at_ v i) <-> 0 <= i < Z.of_nat (length v).
Proof.
  unfold at_. destruct (Z.ltb_spec i 0).
  - split; [intros [? ?]; discriminate | lia].
  - rewrite lookup_lt_is_Some. split; intros; lia.
Qed.

Lemma at_of_nat v (n : nat) : at_ v (Z.of_nat n) = v !! n.
Proof.
  unfold at_. destruct (Z.ltb_spec (Z.of_nat n) 0); [lia|]. now rewrite Nat2Z.id.
Qed.

Lemma modify_Some v i f a :
  at_ v i = Some a -> modify v i f = Some (<[Z.to_nat i := f a]> v).
Proof. intros H. unfold modify. now rewrite H. Qed.

Lemma modify_inv v i f v' :
  modify v i f = Some v' ->
  exists a, at_ v i = Some a /\ v' = <[Z.to_nat i := f a]> v.
Proof.
  unfold modify. destruct (at_ v i) as [a|]; [|discriminate].
  cbn. intros [= <-]. eauto.
Qed.

Lemma modify_length v i f v' : modify v i f = Some v' -> length v' = length v.
Proof. intros (a & _ & ->)%modify_inv. apply length_insert. Qed.

Lemma at_insert v i j a b :
  at_ v i = Some a ->
  at_ (<[Z.to_nat i := b]> v) j = if Z.eqb j i then Some b else at_ v j.
Proof.
  intros [Hi Ha]%at_Some. unfold at_.
  destruct (Z.eqb_spec j i) as [->|Hne].
  - destruct (Z.ltb_spec i 0); [lia|].
    apply list_lookup_insert_eq. eapply lookup_lt_Some, Ha.
  - destruct (Z.ltb_spec j 0); [reflexivity|].
    apply list_lookup_insert_ne. lia.
Qed.

Lemma at_modify v i f v' j :
  modify v i f = Some v' ->
  at_ v' j = if Z.eqb j i then f <$> at_ v j else at_ v j.
Proof.
  intros (a & Ha & ->)%modify_inv. rewrite (at_insert _ _ _ _ _ Ha).
  destruct (Z.eqb_spec j i) as [->|]; [now rewrite Ha | reflexivity].
Qed.

End Vectors.

Lemma for_each_app {A S} (body : A -> S -> option S) l1 l2 s :
  for_each body (l1 ++ l2) s = s' ← for_each body l1 s; for_each body l2 s'.
Proof.
  revert s. induction l1 as [|a l1 IH]; intros s; cbn.
  - reflexivity.
  - destruct (body a s) as [s1|]; cbn; [apply IH | reflexivity].
Qed.

(** A property kept by every iteration is kept by the loop. *)
Lemma for_each_inv {A S} (P : S -> Prop) (body : A -> S -> option S) l s s' :
  (forall a s s', body a s = Some s' -> P s -> P s') ->
  for_each body l s = Some s' -> P s -> P s'.
Proof.
  intros Hbody. revert s. induction l as [|a l IH]; intros s; cbn.
  - intros [= <-]. auto.
  - destruct (body a s) as [s1|] eqn:E; cbn; [|discriminate].
    intros H HP. eapply IH; eauto.
Qed.

(** The same, when the iterations need only keep it for the elements of
    the list. *)
Lemma for_each_inv_in {A S} (P : S -> Prop) (body : A -> S -> option S) l s s' :
  (forall a s s', In a l -> body a s = Some s' -> P s -> P s') ->
  for_each body l s = Some s' -> P s -> P s'.
Proof.
  revert s. induction l as [|a l IH]; intros s Hbody; cbn.
  - intros [= <-]. auto.
  - destruct (body a s) as [s1|] eqn:E; cbn; [|discriminate].
    intros H HP. eapply IH; [| exact H |].
    + intros b t t' Hb. apply Hbody. now right.
    + eapply Hbody; [now left | exact E | exact HP].
Qed.

Section Pointwise.

Context {A : Type}.
Implicit Types (R : Z -> A -> A -> Prop) (v : list A).

Lemma pointwise_refl R v : (forall j a, R j a a) -> pointwise R v v.
Proof. intros H. split; [reflexivity | eauto]. Qed.

Lemma pointwise_trans R1 R2 R3 v1 v2 v3 :
  (forall j a b c, R1 j a b -> R2 j b c -> R3 j a c) ->
  pointwise R1 v1 v2 -> pointwise R2 v2 v3 -> pointwise R3 v1 v3.
Proof.
  intros H [L1 H1] [L2 H2]. split; [congruence|].
  intros j a Ha. destruct (H1 j a Ha) as (b & Hb & Rab).
  destruct (H2 j b Hb) as (c & Hc & Rbc). eauto.
Qed.

Lemma pointwise_weaken R1 R2 v v' :
  (forall j a b, R1 j a b -> R2 j a b) -> pointwise R1 v v' -> pointwise R2 v v'.
Proof.
  intros H [L H1]. split; [assumption|].
  intros j a Ha. destruct (H1 j a Ha) as (b & Hb & Rab). eauto.
Qed.

Lemma pointwise_modify R v i f v' :
  modify v i f = Some v' ->
  (forall a, at_ v i = Some a -> R i a (f a)) -> (forall j a, R j a a) ->
  pointwise R v v'.
Proof.
  intros Hm Hf Hrefl. split; [eapply modify_length; eassumption|].
  intros j a Ha. rewrite (at_modify _ _ _ _ j Hm), Ha.
  destruct (Z.eqb_spec j i) as [->|]; cbn; eauto.
Qed.

Lemma pointwise_map R v f :
  (forall j a, at_ v j = Some a -> R j a (f a)) -> pointwise R v (map f v).
Proof.
  intros H. split; [apply length_map|].
  intros j a Ha. exists (f a). split; [|auto].
  apply at_Some in Ha as [Hj Ha]. apply at_Some. split; [assumption|].
  rewrite list_lookup_fmap, Ha. reflexivity.
Qed.

Lemma pointwise_at R v v' j a' :
  pointwise R v v' -> at_ v' j = Some a' -> exists a, at_ v j = Some a /\ R j a a'.
Proof.
  intros [L H] Ha'.
  assert (Hs : is_Some (at_ v j)).
  { apply at_is_Some. rewrite <- L. apply at_is_Some. eauto. }
  destruct Hs as [a Ha]. destruct (H j a Ha) as (b & Hb & Rab).
  exists a. split; [assumption|]. congruence.
Qed.

End Pointwise.

Lemma indexed_from_lookup {A} (l : list A) : forall k i,
  combine (map Z.of_nat (seq k (length l))) l !! i
  = (fun a => (Z.of_nat (k + i), a)) <$> l !! i.
Proof.
  induction l as [|a l IH]; intros k [|i]; cbn; try reflexivity.
  - now rewrite Nat.add_0_r.
  - rewrite IH. now replace (S k + i)%nat with (k + S i)%nat by lia.
Qed.

Lemma indexed_lookup {A} (l : list A) i :
  indexed l !! i = (fun a => (Z.of_nat i, a)) <$> l !! i.
Proof. apply indexed_from_lookup. Qed.

Lemma indexed_length {A} (l : list A) : length (indexed l) = length l.
Proof.
  unfold indexed. rewrite length_combine, length_map, length_seq. lia.
Qed.

(** A loop over all masses whose body sees the index and touches the
    mass at hand only. *)
Lemma at_map_indexed {A B} (f : Z * A -> B) (l : list A) i :
  at_ (map f (indexed l)) i = (fun a => f (i, a)) <$> at_ l i.
Proof.
  unfold at_. destruct (Z.ltb_spec i 0); [reflexivity|].
  rewrite list_lookup_fmap, indexed_lookup.
  destruct (l !! Z.to_nat i); cbn; [|reflexivity].
  now rewrite Z2Nat.id by lia.
Qed.

Lemma at_map {A B} (f : A -> B) (l : list A) i : at_ (map f l) i = f <$> at_ l i.
Proof.
  unfold at_. destruct (Z.ltb_spec i 0); [reflexivity|]. apply list_lookup_fmap.
Qed.

(** ** Entity store *)

Lemma modMass_inv i f s s' :
  modMass i f s = Some s' ->
  exists m, getMass s i = Some m
    /\ s' = set_masses (<[Z.to_nat i := f m]> (masses_ s)) s.
Proof.
  unfold modMass, getMass. destruct (modify _ _ _) as [ms|] eqn:E; [|discriminate].
  cbn. intros [= <-]. apply modify_inv in E as (m & Hm & ->). eauto.
Qed.

Lemma modMass_Some i f s m :
  getMass s i = Some m ->
  modMass i f s = Some (set_masses (<[Z.to_nat i := f m]> (masses_ s)) s).
Proof. intros H. unfold modMass. now rewrite (modify_Some _ _ _ _ H). Qed.

Lemma modSpring_Some i f s sp :
  getSpring s i = Some sp ->
  modSpring i f s = Some (set_springs (<[Z.to_nat i := f sp]> (springs_ s)) s).
Proof. intros H. unfold modSpring. now rewrite (modify_Some _ _ _ _ H). Qed.

Lemma unlinked_refl j m : unlinked j m m.
Proof. split; [now destruct m | reflexivity]. Qed.

Lemma unlinked_trans j a b c : unlinked j a b -> unlinked j b c -> unlinked j a c.
Proof.
  intros [H1 D1] [H2 D2]. split.
  - rewrite H2 at 1. rewrite H1 at 1. reflexivity.
  - intros Ha. rewrite D2, D1; auto. rewrite (D1 Ha). assumption.
Qed.

Lemma deleteMassParent_spec which parent s :
  is_Some (getMass s which) ->
  exists s', deleteMassParent which parent s = Some s'
    /\ state_ s' = state_ s /\ springs_ s' = springs_ s
    /\ pointwise unlinked (masses_ s) (masses_ s').
Proof.
  intros [m Hm]. unfold deleteMassParent. rewrite Hm. cbn.
  destruct (Mass.isAlive m) eqn:Ha.
  - rewrite (modMass_Some _ _ _ _ Hm). eexists. split; [reflexivity|].
    cbn. repeat split; try reflexivity.
    + apply length_insert.
    + intros j a Hj. unfold getMass in Hm. rewrite (at_insert _ _ _ _ _ Hm).
      destruct (Z.eqb_spec j which) as [->|].
      * assert (a = m) by congruence. subst a.
        eexists. split; [reflexivity|]. split; [reflexivity|]. congruence.
      * exists a. split; [assumption | apply unlinked_refl].
  - exists s. repeat split; try reflexivity.
    intros j a Hj. exists a. split; [assumption | apply unlinked_refl].
Qed.

Lemma killed_dead sp : Spring.isAlive (killed sp) = false.
Proof. unfold killed. destruct (Spring.isAlive sp) eqn:E; [reflexivity | assumption]. Qed.

Lemma killed_idem sp : killed (killed sp) = killed sp.
Proof. unfold killed at 1. now rewrite killed_dead. Qed.

Lemma deleteSpring_spec p s sp :
  getSpring s p = Some sp ->
  (Spring.isAlive sp = true ->
   is_Some (getMass s (Spring.m1 sp)) /\ is_Some (getMass s (Spring.m2 sp))) ->
  exists s', deleteSpring p s = Some s'
    /\ state_ s' = state_ s
    /\ springs_ s' = <[Z.to_nat p := killed sp]> (springs_ s)
    /\ pointwise unlinked (masses_ s) (masses_ s').
Proof.
  intros Hsp Hends. unfold deleteSpring. rewrite Hsp. cbn. unfold killed.
  destruct (Spring.isAlive sp) eqn:Ha.
  - destruct (Hends eq_refl) as [H1 H2].
    rewrite (modSpring_Some _ _ _ _ Hsp). cbn.
    set (s1 := set_springs _ s).
    destruct (deleteMassParent_spec (Spring.m1 sp) p s1 H1) as (s2 & E2 & St2 & Sp2 & M2).
    rewrite E2. cbn.
    assert (H2' : is_Some (getMass s2 (Spring.m2 sp))).
    { apply at_is_Some. destruct M2 as [L _]. rewrite L. apply at_is_Some, H2. }
    destruct (deleteMassParent_spec (Spring.m2 sp) p s2 H2') as (s3 & E3 & St3 & Sp3 & M3).
    rewrite E3. exists s3. split; [reflexivity|].
    split; [rewrite St3, St2; reflexivity|].
    split; [rewrite Sp3, Sp2; reflexivity|].
    eapply pointwise_trans; [apply unlinked_trans | exact M2 | exact M3].
  - exists s. repeat split; try reflexivity.
    + apply at_Some in Hsp as [_ Hsp]. symmetry. apply list_insert_id, Hsp.
    + intros j a Hj. exists a. split; [assumption | apply unlinked_refl].
Qed.

Lemma delete_springs_spec l s :
  (forall p, elem_of p l -> exists sp, getSpring s p = Some sp
     /\ (Spring.isAlive sp = true ->
         is_Some (getMass s (Spring.m1 sp)) /\ is_Some (getMass s (Spring.m2 sp)))) ->
  exists s', for_each deleteSpring l s = Some s'
    /\ state_ s' = state_ s
    /\ pointwise (cascade l) (springs_ s) (springs_ s')
    /\ pointwise unlinked (masses_ s) (masses_ s').
Proof.
  revert s. induction l as [|p l IH]; intros s Hl.
  - exists s. cbn. repeat split; try reflexivity.
    + intros j a Hj. exists a. split; [assumption|]. unfold cascade.
      destruct (decide _) as [H%elem_of_nil|]; [destruct H | reflexivity].
    + intros j a Hj. exists a. split; [assumption | apply unlinked_refl].
  - destruct (Hl p (list_elem_of_here p l)) as (sp & Hsp & Hends).
    destruct (deleteSpring_spec p s sp Hsp Hends) as (s1 & E1 & St1 & Sp1 & M1).
    cbn. rewrite E1. cbn.
    assert (Hl1 : forall q, elem_of q l -> exists sq, getSpring s1 q = Some sq
       /\ (Spring.isAlive sq = true ->
           is_Some (getMass s1 (Spring.m1 sq)) /\ is_Some (getMass s1 (Spring.m2 sq)))).
    { intros q Hq. destruct (Hl q (list_elem_of_further _ p _ Hq)) as (sq & Hsq & Hq').
      unfold getSpring in *. rewrite Sp1, (at_insert _ _ _ _ _ Hsp).
      assert (Hlen : forall i, is_Some (getMass s i) -> is_Some (getMass s1 i)).
      { intros i Hi. apply at_is_Some. destruct M1 as [L _]. rewrite L.
        apply at_is_Some, Hi. }
      destruct (Z.eqb_spec q p) as [->|].
      - eexists. split; [reflexivity|]. rewrite killed_dead. discriminate.
      - exists sq. split; [assumption|]. intros Ha. destruct (Hq' Ha). auto. }
    destruct (IH s1 Hl1) as (s2 & E2 & St2 & Sp2 & M2).
    exists s2. split; [assumption|]. split; [congruence|]. split.
    + destruct Sp2 as [L2 P2]. split.
      { rewrite L2, Sp1. apply length_insert. }
      intros j a Hj.
      assert (Hj1 : at_ (springs_ s1) j = Some (if Z.eqb j p then killed sp else a)).
      { rewrite Sp1, (at_insert _ _ _ _ _ Hsp).
        destruct (Z.eqb_spec j p); [reflexivity | assumption]. }
      destruct (P2 j _ Hj1) as (c & Hc & Rc). exists c. split; [assumption|].
      unfold cascade in *. rewrite Rc.
      destruct (Z.eqb_spec j p) as [->|Hne].
      * unfold getSpring in Hsp. assert (a = sp) by congruence. subst a.
        destruct (decide (elem_of p l)), (decide (elem_of p (p :: l))) as [|n'];
          rewrite ?killed_idem; try reflexivity; exfalso; apply n'; left.
      * destruct (decide (elem_of j l)) as [i|n],
                 (decide (elem_of j (p :: l))) as [i'|n']; try reflexivity.
        -- exfalso. apply n'. now right.
        -- exfalso. apply elem_of_cons in i' as [?|?]; [congruence | contradiction].
    + eapply pointwise_trans; [apply unlinked_trans | exact M1 | exact M2].
Qed.

Lemma spring_in_range_spec s p :
  spring_in_range s p = true ->
  exists sp, getSpring s p = Some sp
    /\ (Spring.isAlive sp = true ->
        is_Some (getMass s (Spring.m1 sp)) /\ is_Some (getMass s (Spring.m2 sp))).
Proof.
  unfold spring_in_range. destruct (getSpring s p) as [sp|]; [|discriminate].
  intros H. exists sp. split; [reflexivity|]. intros Ha. rewrite Ha in H.
  apply andb_prop in H as [H1 H2]. split; eapply bool_decide_eq_true_1; eassumption.
Qed.

Lemma parents_in_range_spec s m p :
  parents_in_range s m = true -> elem_of p (Mass.parents m) ->
  exists sp, getSpring s p = Some sp
    /\ (Spring.isAlive sp = true ->
        is_Some (getMass s (Spring.m1 sp)) /\ is_Some (getMass s (Spring.m2 sp))).
Proof.
  unfold parents_in_range. rewrite forallb_forall. intros H Hp.
  apply spring_in_range_spec, H, list_elem_of_In, Hp.
Qed.

(** While [deleteMass] walks the parent list of the mass it has just
    marked dead, that list does not change. *)
Lemma deleteSpring_keeps_dead_parents p s s' which m :
  deleteSpring p s = Some s' ->
  getMass s which = Some m -> Mass.isAlive m = false ->
  getMass s' which = Some m.
Proof.
  intros E Hm Hd. unfold deleteSpring in E.
  destruct (getSpring s p) as [sp|] eqn:Hsp; [|discriminate]. cbn in E.
  destruct (Spring.isAlive sp) eqn:Ha; [|now inversion E; subst].
  rewrite (modSpring_Some _ _ _ _ Hsp) in E. cbn in E.
  set (s1 := set_springs _ s) in E.
  destruct (deleteMassParent (Spring.m1 sp) p s1) as [s2|] eqn:E2; [|discriminate].
  cbn in E.
  assert (Hkeep : forall t t' w, deleteMassParent w p t = Some t' ->
            getMass t which = Some m -> getMass t' which = Some m).
  { intros t t' w Et Ht. unfold deleteMassParent in Et.
    destruct (getMass t w) as [mw|] eqn:Hw; [|discriminate]. cbn in Et.
    destruct (Mass.isAlive mw) eqn:Hwa; [|now inversion Et; subst].
    rewrite (modMass_Some _ _ _ _ Hw) in Et. inversion Et; subst t'.
    unfold getMass in *. cbn. rewrite (at_insert _ _ _ _ _ Hw).
    destruct (Z.eqb_spec which w) as [->|]; [congruence | assumption]. }
  eapply Hkeep; [exact E|]. eapply Hkeep; [exact E2|]. exact Hm.
Qed.

(** C3.  Deleting a live mass whose parent list is in range succeeds.
    Afterwards every entity is at the index it had, the same up to status
    and parent lists; the mass itself is dead and no other mass changes
    liveness; every spring of its parent list is dead and no other spring
    changes status.  In particular, when the parent list is [p; q], a
    spring that was alive is dead afterwards exactly when it is [p] or
    [q]. *)
Theorem deleteMass_cascade (s : System) (which : Z) (m : Mass) :
  getMass s which = Some m ->
  Mass.isAlive m = true ->
  parents_in_range s m = true ->
  exists s', deleteMass which s = Some s'
    /\ pointwise (fun j a a' =>
                    same_mass_but_links a a'
                    /\ Mass.isAlive a' = (if Z.eqb j which then false else Mass.isAlive a))
                 (masses_ s) (masses_ s')
    /\ pointwise (fun k sp sp' =>
                    same_spring_but_status sp sp'
                    /\ Spring.isAlive sp'
                       = (if decide (elem_of k (Mass.parents m)) then false
                          else Spring.isAlive sp))
                 (springs_ s) (springs_ s')
    /\ (forall p q, Mass.parents m = [p; q] ->
        forall k sp sp', getSpring s k = Some sp -> getSpring s' k = Some sp' ->
          Spring.isAlive sp = true ->
          (Spring.isAlive sp' = false <-> k = p \/ k = q)).
Proof.
  intros Hm Halive Hrange.
  unfold deleteMass. rewrite Hm. cbn. rewrite Halive.
  rewrite (modMass_Some _ _ _ _ Hm). cbn.
  set (s1 := set_masses _ s).
  assert (Hrange1 : forall p, elem_of p (Mass.parents m) ->
            exists sp, getSpring s1 p = Some sp
              /\ (Spring.isAlive sp = true ->
                  is_Some (getMass s1 (Spring.m1 sp)) /\ is_Some (getMass s1 (Spring.m2 sp)))).
  { intros p Hp. destruct (parents_in_range_spec s m p Hrange Hp) as (sp & Hsp & Hends).
    exists sp. split; [exact Hsp|]. intros Ha. destruct (Hends Ha) as [H1 H2].
    unfold getMass, s1. cbn. split; apply at_is_Some; rewrite length_insert;
      apply at_is_Some; assumption. }
  destruct (delete_springs_spec (Mass.parents m) s1 Hrange1)
    as (s2 & E2 & St2 & Sp2 & M2).
  rewrite E2. cbn.
  set (s3 := if Z.eqb which _ then _ else s2).
  assert (Hm3 : masses_ s3 = masses_ s2) by (unfold s3; destruct (Z.eqb _ _); reflexivity).
  assert (Hs3 : springs_ s3 = springs_ s2) by (unfold s3; destruct (Z.eqb _ _); reflexivity).
  assert (Hsprings : pointwise (fun k sp sp' =>
                    same_spring_but_status sp sp'
                    /\ Spring.isAlive sp'
                       = (if decide (elem_of k (Mass.parents m)) then false
                          else Spring.isAlive sp))
                 (springs_ s) (springs_ s3)).
  { rewrite Hs3. eapply pointwise_weaken; [|exact Sp2].
    intros k sp sp' ->. unfold cascade, same_spring_but_status.
    destruct (decide _).
    - split; [|apply killed_dead]. unfold killed.
      destruct (Spring.isAlive sp); now destruct sp.
    - split; [now destruct sp | reflexivity]. }
  exists s3. split; [reflexivity|]. split; [|split; [exact Hsprings|]].
  - rewrite Hm3. destruct M2 as [L2 P2]. split.
    { rewrite L2. unfold s1. cbn. apply length_insert. }
    intros j a Hj.
    assert (Hj1 : at_ (masses_ s1) j
                  = Some (if Z.eqb j which then Mass.set_status 0 m else a)).
    { unfold s1. cbn. unfold getMass in Hm. rewrite (at_insert _ _ _ _ _ Hm).
      destruct (Z.eqb_spec j which); [reflexivity | assumption]. }
    destruct (P2 j _ Hj1) as (c & Hc & Hl & Hd). exists c. split; [assumption|].
    destruct (Z.eqb_spec j which) as [->|Hne].
    + unfold getMass in Hm. assert (a = m) by congruence. subst a.
      rewrite (Hd eq_refl). split; [|reflexivity].
      unfold same_mass_but_links. now destruct m.
    + rewrite Hl. split; [|reflexivity].
      unfold same_mass_but_links. now destruct a.
  - intros p q Hpq k sp sp' Hk Hk' Ha.
    destruct Hsprings as [_ P]. destruct (P k sp Hk) as (c & Hc & _ & Hal).
    unfold getSpring in Hk'. assert (c = sp') by congruence. subst c.
    rewrite Hal, Hpq. destruct (decide (elem_of k [p; q])) as [i|n].
    + split; [intros _|reflexivity].
      apply elem_of_cons in i as [?|i]; [now left|].
      apply elem_of_cons in i as [?|i]; [now right|].
      now apply elem_of_nil in i.
    + rewrite Ha. split; [discriminate|]. intros [Hk1 | Hk1]; subst k; exfalso; apply n.
      * left.
      * right. left.
Qed.

Lemma deleteMass_cascade_witness :
  exists s', deleteMass 1 Scene.triangle = Some s'
    /\ (forall k sp sp', getSpring Scene.triangle k = Some sp -> getSpring s' k = Some sp' ->
          Spring.isAlive sp = true ->
          (Spring.isAlive sp' = false <-> k = 1 \/ k = 2)).
Proof.
  destruct (deleteMass_cascade Scene.triangle 1
              (Scene.mass_at 100 100 0 0 1 S_ALIVE [1; 2]))
    as (s' & E & _ & _ & H); [reflexivity | reflexivity | reflexivity|].
  exists s'. split; [exact E | exact (H 1 2 eq_refl)].
Defined.

(** *** [duplicateSelected]: the mass pass *)

Lemma mass_copy_unselected m : Mass.isSelected (mass_copy m) = false.
Proof.
  unfold mass_copy, Mass.isSelected, Mass.setSelected, has_bit, clear_bit. cbn.
  rewrite <- Z.land_assoc. change (Z.land (Z.lnot S_SELECTED) S_SELECTED) with 0.
  now rewrite Z.land_0_r.
Qed.

(** Once only unselected masses are left, the loop runs to the end of the
    vector and changes nothing. *)
Lemma dup_masses_skip fuel i s mapfrom mapto :
  (forall j m, (i <= j)%nat -> masses_ s !! j = Some m -> Mass.isSelected m = false) ->
  (length (masses_ s) - i <= fuel)%nat ->
  dup_masses fuel i s mapfrom mapto = Some (s, mapfrom, mapto).
Proof.
  revert i. induction fuel as [|fuel IH]; intros i Hsel Hfuel.
  - cbn. destruct (masses_ s !! i) eqn:E; [|reflexivity].
    apply lookup_lt_Some in E. lia.
  - cbn. destruct (masses_ s !! i) as [m|] eqn:E; [|reflexivity].
    rewrite (Hsel i m (le_n _) E). apply IH.
    + intros j m' Hj. apply Hsel. lia.
    + lia.
Qed.

(** The three assignments to the fresh slot. *)
Lemma dup_mass_slot s m :
  (let '(which, s1) := createMass s in
   s2 ← modMass which (fun _ => m) s1;
   s3 ← modMass which (Mass.setSelected false) s2;
   modMass which (Mass.set_parents []) s3)
  = Some (set_masses (masses_ s ++ [mass_copy m]) s).
Proof.
  unfold createMass, massCount, modMass, modify, at_. cbn.
  destruct (Z.ltb_spec (Z.of_nat (length (masses_ s))) 0); [lia|].
  rewrite Nat2Z.id.
  rewrite list_lookup_middle by reflexivity. cbn.
  replace (<[length (masses_ s):=m]> (masses_ s ++ [Mass.new]))
    with (masses_ s ++ [m])
    by (rewrite insert_app_r_alt, Nat.sub_diag by lia; reflexivity).
  rewrite list_lookup_middle by reflexivity. cbn.
  replace (<[length (masses_ s):=Mass.setSelected false m]> (masses_ s ++ [m]))
    with (masses_ s ++ [Mass.setSelected false m])
    by (rewrite insert_app_r_alt, Nat.sub_diag by lia; reflexivity).
  rewrite list_lookup_middle by reflexivity. cbn.
  rewrite insert_app_r_alt, Nat.sub_diag by lia. reflexivity.
Qed.

Lemma dup_masses_spec rest : forall pre copies fuel s mapfrom mapto,
  masses_ s = pre ++ rest ++ copies ->
  Forall (fun m => Mass.isSelected m = false) copies ->
  (2 * length rest + length copies <= fuel)%nat ->
  dup_masses fuel (length pre) s mapfrom mapto
  = Some (set_masses (masses_ s ++ map mass_copy (List.filter Mass.isSelected rest)) s,
          mapfrom ++ selected_from (length pre) rest,
          mapto ++ new_indices (length (masses_ s))
                     (length (List.filter Mass.isSelected rest))).
Proof.
  induction rest as [|m rest IH]; intros pre copies fuel s mapfrom mapto Hs Hc Hfuel.
  - cbn. rewrite !app_nil_r. cbn in Hs.
    replace (set_masses (masses_ s) s) with s by now destruct s.
    apply dup_masses_skip.
    + intros j m Hj Hm. rewrite Hs, lookup_app_r in Hm by assumption.
      rewrite Forall_forall in Hc. eapply Hc, list_elem_of_lookup_2, Hm.
    + rewrite Hs, length_app. cbn in Hfuel. lia.
  - destruct fuel as [|fuel]; [cbn in Hfuel; lia|].
    assert (Hlk : masses_ s !! length pre = Some m)
      by (rewrite Hs; apply list_lookup_middle; reflexivity).
    cbn [dup_masses]. rewrite Hlk.
    unfold selected_from. cbn [List.filter indices_from].
    destruct (Mass.isSelected m) eqn:Hsel.
    + pose proof (dup_mass_slot s m) as Hslot.
      destruct (createMass s) as [which s1] eqn:Ecreate.
      assert (Hwhich : which = Z.of_nat (length (masses_ s)))
        by (unfold createMass in Ecreate; now inversion Ecreate).
      destruct (modMass which (fun _ => m) s1) as [s2|]; [|discriminate]. cbn in Hslot |- *.
      destruct (modMass which (Mass.setSelected false) s2) as [s3|]; [|discriminate].
      cbn in Hslot |- *.
      rewrite Hslot. cbn.
      set (s4 := set_masses _ s).
      specialize (IH (pre ++ [m]) (copies ++ [mass_copy m]) fuel s4
                     (mapfrom ++ [Z.of_nat (length pre)]) (mapto ++ [which])).
      replace (length (pre ++ [m])) with (S (length pre)) in IH
        by (rewrite length_app; cbn; lia).
      rewrite IH.
      * unfold s4. cbn. f_equal. f_equal; [f_equal|].
        -- destruct s; unfold set_masses; cbn. f_equal.
           rewrite <- app_assoc. reflexivity.
        -- rewrite <- app_assoc. reflexivity.
        -- rewrite <- app_assoc. cbn. rewrite Hwhich, length_app. cbn.
           unfold new_indices. cbn. rewrite Nat.add_1_r. reflexivity.
      * unfold s4. cbn. rewrite Hs, <- !app_assoc. reflexivity.
      * apply Forall_app. split; [assumption|].
        constructor; [apply mass_copy_unselected | constructor].
      * rewrite length_app. cbn in Hfuel |- *. lia.
    + specialize (IH (pre ++ [m]) copies fuel s mapfrom mapto).
      replace (length (pre ++ [m])) with (S (length pre)) in IH
        by (rewrite length_app; cbn; lia).
      rewrite IH.
      * reflexivity.
      * rewrite Hs, <- !app_assoc. reflexivity.
      * assumption.
      * cbn in Hfuel. lia.
Qed.

(** The fuel [duplicateSelected] gives the mass pass is enough. *)
Lemma dup_masses_fuel s :
  dup_masses (2 * length (masses_ s)) 0 s [] []
  = Some (set_masses (masses_ s ++ map mass_copy (List.filter Mass.isSelected (masses_ s))) s,
          selected_from 0 (masses_ s),
          new_indices (length (masses_ s)) (length (List.filter Mass.isSelected (masses_ s)))).
Proof.
  apply (dup_masses_spec (masses_ s) [] [] _ s [] []).
  - now rewrite app_nil_r.
  - constructor.
  - cbn. lia.
Qed.

(** *** [duplicateSelected]: the spring pass *)

Lemma addMassParent_Some to which s m :
  getMass s to = Some m ->
  addMassParent to which s = Some (set_masses (add_parent which (masses_ s) to) s).
Proof.
  intros H. unfold addMassParent. rewrite (modMass_Some _ _ _ _ H).
  unfold add_parent. unfold getMass in H. now rewrite H.
Qed.

Lemma add_parent_length which ms to : length (add_parent which ms to) = length ms.
Proof. unfold add_parent. destruct (at_ ms to); [apply length_insert | reflexivity]. Qed.

Lemma add_parents_length which tos ms :
  length (fold_left (add_parent which) tos ms) = length ms.
Proof.
  revert ms. induction tos as [|to tos IH]; intros ms; cbn; [reflexivity|].
  now rewrite IH, add_parent_length.
Qed.

Lemma remap_end_step d from to tbl x :
  remap_end (d || (negb d && Z.eqb x from)) tbl (if negb d && Z.eqb x from then to else x)
  = remap_end d ((from, to) :: tbl) x.
Proof.
  unfold remap_end. cbn [assoc]. destruct d; cbn; [reflexivity|].
  destruct (Z.eqb x from); reflexivity.
Qed.

Lemma remap_flag_step d from to tbl x :
  d || (negb d && Z.eqb x from)
  || bool_decide (is_Some (assoc tbl (if negb d && Z.eqb x from then to else x)))
  = d || bool_decide (is_Some (assoc ((from, to) :: tbl) x)).
Proof.
  cbn [assoc]. destruct d; cbn; [reflexivity|].
  destruct (Z.eqb x from); cbn; [|reflexivity].
  first [reflexivity | symmetry; apply bool_decide_eq_true_2; eauto].
Qed.

(** An end point that is done plays no part in what follows. *)
Lemma remap_targets_done1 d2 tbl x x' y :
  remap_targets true d2 tbl x y = remap_targets true d2 tbl x' y.
Proof.
  revert d2. induction tbl as [|[from to] tbl IH]; intros d2; cbn; [reflexivity|].
  destruct d2; [reflexivity|]. cbn. now rewrite IH.
Qed.

Lemma remap_targets_done2 d1 tbl x y y' :
  remap_targets d1 true tbl x y = remap_targets d1 true tbl x y'.
Proof.
  revert d1. induction tbl as [|[from to] tbl IH]; intros d1; cbn; [reflexivity|].
  destruct d1; [reflexivity|]. cbn. rewrite ?orb_true_r. now rewrite IH.
Qed.

Lemma remap_targets_step d1 d2 from to tbl x y :
  remap_targets (d1 || (negb d1 && Z.eqb x from)) (d2 || (negb d2 && Z.eqb y from)) tbl
    (if negb d1 && Z.eqb x from then to else x)
    (if negb d2 && Z.eqb y from then to else y)
  = remap_targets (d1 || (negb d1 && Z.eqb x from)) (d2 || (negb d2 && Z.eqb y from)) tbl x y.
Proof.
  destruct d1, d2; cbn; try reflexivity.
  - destruct (Z.eqb y from); cbn; [apply remap_targets_done2 | reflexivity].
  - destruct (Z.eqb x from); cbn; [apply remap_targets_done1 | reflexivity].
  - destruct (Z.eqb x from), (Z.eqb y from); cbn; try reflexivity.
    + rewrite (remap_targets_done1 _ _ to x). apply remap_targets_done2.
    + apply remap_targets_done1.
    + apply remap_targets_done2.
Qed.

(** The inner loop, as one equation. *)
Lemma dup_remap_exact which tbl : forall m1done m2done s c,
  getSpring s which = Some c ->
  (forall from to, In (from, to) tbl -> is_Some (getMass s to)) ->
  dup_remap which tbl m1done m2done s
  = Some (m1done || bool_decide (is_Some (assoc tbl (Spring.m1 c))),
          m2done || bool_decide (is_Some (assoc tbl (Spring.m2 c))),
          set_masses
            (fold_left (add_parent which)
               (remap_targets m1done m2done tbl (Spring.m1 c) (Spring.m2 c))
               (masses_ s))
            (set_springs (<[Z.to_nat which := remapped m1done m2done tbl c]> (springs_ s)) s)).
Proof.
  induction tbl as [|[from to] tbl IH]; intros m1done m2done s c Hc Hto.
  - cbn. rewrite !orb_false_r. unfold remapped, remap_end. cbn.
    assert (E : Spring.set_m2 (if m2done then Spring.m2 c else Spring.m2 c)
                  (Spring.set_m1 (if m1done then Spring.m1 c else Spring.m1 c) c) = c)
      by (destruct m1done, m2done, c; reflexivity).
    rewrite E. apply at_Some in Hc as [_ Hc]. rewrite (list_insert_id _ _ _ Hc).
    now destruct s.
  - cbn [dup_remap remap_targets].
    destruct (m1done && m2done) eqn:Hdone.
    { apply andb_prop in Hdone as [-> ->]. cbn.
      unfold remapped, remap_end. cbn.
      replace (Spring.set_m2 (Spring.m2 c) (Spring.set_m1 (Spring.m1 c) c)) with c
        by now destruct c.
      apply at_Some in Hc as [_ Hc]. rewrite (list_insert_id _ _ _ Hc).
      now destruct s. }
    rewrite Hc. cbn [mbind option_bind].
    destruct (Hto from to (or_introl eq_refl)) as [mto Hmto].
    set (hit1 := negb m1done && Z.eqb (Spring.m1 c) from).
    set (c1 := if hit1 then Spring.set_m1 to c else c).
    set (s1 := if hit1
               then set_masses (add_parent which (masses_ s) to)
                      (set_springs (<[Z.to_nat which := c1]> (springs_ s)) s)
               else s).
    assert (Hc1 : getSpring s1 which = Some c1).
    { unfold s1, c1. destruct hit1; [|assumption].
      unfold getSpring in *. cbn. rewrite (at_insert _ _ _ _ _ Hc), Z.eqb_refl. reflexivity. }
    assert (Hlen1 : length (masses_ s1) = length (masses_ s)).
    { unfold s1. destruct hit1; [|reflexivity]. cbn. apply add_parent_length. }
    assert (E1 : (if hit1
                  then s0 ← modSpring which (Spring.set_m1 to) s;
                       s2 ← addMassParent to which s0; Some (true, s2)
                  else Some (m1done, s)) = Some (m1done || hit1, s1)).
    { unfold s1, c1. destruct hit1.
      - rewrite (modSpring_Some _ _ _ _ Hc). cbn [mbind option_bind].
        erewrite addMassParent_Some by exact Hmto. cbn. now rewrite orb_true_r.
      - now rewrite orb_false_r. }
    rewrite E1. cbn [mbind option_bind]. rewrite Hc1. cbn [mbind option_bind].
    assert (Hm2 : Spring.m2 c1 = Spring.m2 c) by (unfold c1; now destruct hit1).
    rewrite Hm2.
    set (hit2 := negb m2done && Z.eqb (Spring.m2 c) from).
    set (c2 := if hit2 then Spring.set_m2 to c1 else c1).
    set (s2 := if hit2
               then set_masses (add_parent which (masses_ s1) to)
                      (set_springs (<[Z.to_nat which := c2]> (springs_ s1)) s1)
               else s1).
    assert (Hmto1 : is_Some (getMass s1 to)).
    { apply at_is_Some. rewrite Hlen1. apply at_is_Some. eauto. }
    destruct Hmto1 as [mto1 Hmto1].
    assert (E2 : (if hit2
                  then s0 ← modSpring which (Spring.set_m2 to) s1;
                       s3 ← addMassParent to which s0; Some (true, s3)
                  else Some (m2done, s1)) = Some (m2done || hit2, s2)).
    { unfold s2, c2. destruct hit2.
      - rewrite (modSpring_Some _ _ _ _ Hc1). cbn [mbind option_bind].
        erewrite addMassParent_Some by exact Hmto1. cbn. now rewrite orb_true_r.
      - now rewrite orb_false_r. }
    rewrite E2. cbn [mbind option_bind].
    assert (Hc2 : getSpring s2 which = Some c2).
    { unfold s2, c2. destruct hit2; [|assumption].
      unfold getSpring in *. cbn. rewrite (at_insert _ _ _ _ _ Hc1), Z.eqb_refl. reflexivity. }
    assert (Hlen2 : length (masses_ s2) = length (masses_ s)).
    { unfold s2. destruct hit2; [|assumption]. cbn. now rewrite add_parent_length. }
    rewrite (IH _ _ s2 c2 Hc2).
    2:{ intros f t Hin. apply at_is_Some. rewrite Hlen2. apply at_is_Some.
        apply (Hto f t). now right. }
    assert (Hm1c2 : Spring.m1 c2 = if hit1 then to else Spring.m1 c)
      by (unfold c2, c1; destruct hit1, hit2; reflexivity).
    assert (Hm2c2 : Spring.m2 c2 = if hit2 then to else Spring.m2 c)
      by (unfold c2, c1; destruct hit1, hit2; reflexivity).
    rewrite Hm1c2, Hm2c2. unfold hit1 at 1 2, hit2 at 1 2.
    rewrite !remap_flag_step.
    assert (Hr : remapped (m1done || hit1) (m2done || hit2) tbl c2
                 = remapped m1done m2done ((from, to) :: tbl) c).
    { unfold remapped. rewrite Hm1c2, Hm2c2. unfold hit1, hit2.
      rewrite !remap_end_step. fold hit1 hit2.
      unfold c2, c1. destruct hit1, hit2, c; reflexivity. }
    rewrite Hr.
    assert (Ht : remap_targets (m1done || hit1) (m2done || hit2) tbl
                   (if hit1 then to else Spring.m1 c) (if hit2 then to else Spring.m2 c)
                 = remap_targets (m1done || hit1) (m2done || hit2) tbl
                     (Spring.m1 c) (Spring.m2 c))
      by apply remap_targets_step.
    rewrite Ht. rewrite !fold_left_app.
    f_equal. f_equal.
    unfold s2, s1. destruct hit1, hit2, s; cbn; rewrite ?list_insert_insert_eq; reflexivity.
Qed.

Lemma deleteMassParent_inv which parent s s' :
  deleteMassParent which parent s = Some s' ->
  is_Some (getMass s which) /\ length (masses_ s') = length (masses_ s).
Proof.
  intros E. unfold deleteMassParent in E.
  destruct (getMass s which) as [m|] eqn:Hm; [|discriminate]. cbn in E.
  split; [eauto|]. destruct (Mass.isAlive m).
  - rewrite (modMass_Some _ _ _ _ Hm) in E. inversion E; subst. cbn. apply length_insert.
  - now inversion E.
Qed.

Lemma deleteSpring_inv p s s' c :
  deleteSpring p s = Some s' -> getSpring s p = Some c ->
  state_ s' = state_ s
  /\ springs_ s' = <[Z.to_nat p := killed c]> (springs_ s)
  /\ pointwise unlinked (masses_ s) (masses_ s').
Proof.
  intros E Hc.
  assert (Hends : Spring.isAlive c = true ->
                  is_Some (getMass s (Spring.m1 c)) /\ is_Some (getMass s (Spring.m2 c))).
  { intros Ha. pose proof E as E0. unfold deleteSpring in E0. rewrite Hc in E0.
    cbn in E0. rewrite Ha in E0.
    rewrite (modSpring_Some _ _ _ _ Hc) in E0. cbn in E0.
    set (s1 := set_springs _ s) in E0.
    destruct (deleteMassParent (Spring.m1 c) p s1) as [s2|] eqn:E2; [|discriminate].
    cbn in E0.
    apply deleteMassParent_inv in E2 as [H1 L2].
    apply deleteMassParent_inv in E0 as [H2 _].
    split; [exact H1|].
    apply at_is_Some. change (masses_ s) with (masses_ s1). rewrite <- L2.
    apply at_is_Some. exact H2. }
  destruct (deleteSpring_spec p s c Hc Hends) as (s'' & E' & H).
  rewrite E in E'. inversion E'; subst. exact H.
Qed.

(** The three assignments to the fresh spring slot. *)
Lemma dup_spring_slot s sp :
  (let '(which, s1) := createSpring s in
   s2 ← modSpring which (fun _ => sp) s1;
   s3 ← modSpring which (Spring.setSelected false) s2;
   Some (which, s3))
  = Some (springCount s, set_springs (springs_ s ++ [Spring.setSelected false sp]) s).
Proof.
  unfold createSpring, springCount, modSpring, modify, at_. cbn.
  destruct (Z.ltb_spec (Z.of_nat (length (springs_ s))) 0); [lia|].
  rewrite Nat2Z.id.
  rewrite list_lookup_middle by reflexivity. cbn.
  replace (<[length (springs_ s):=sp]> (springs_ s ++ [Spring.new]))
    with (springs_ s ++ [sp])
    by (rewrite insert_app_r_alt, Nat.sub_diag by lia; reflexivity).
  rewrite list_lookup_middle by reflexivity. cbn.
  rewrite insert_app_r_alt, Nat.sub_diag by lia. reflexivity.
Qed.

Lemma dup_spring_unselected mapfrom mapto i s sp :
  getSpring s i = Some sp -> Spring.isSelected sp = false ->
  dup_spring mapfrom mapto i s = Some s.
Proof. intros H Hs. unfold dup_spring. rewrite H. cbn. now rewrite Hs. Qed.

Lemma dup_spring_selected mapfrom mapto i s sp :
  getSpring s i = Some sp -> Spring.isSelected sp = true ->
  (forall from to, In (from, to) (combine mapfrom mapto) -> is_Some (getMass s to)) ->
  dup_spring mapfrom mapto i s
  = if bool_decide (is_Some (assoc (combine mapfrom mapto) (Spring.m1 sp)))
       || bool_decide (is_Some (assoc (combine mapfrom mapto) (Spring.m2 sp)))
    then Some (after_remap (combine mapfrom mapto) sp s)
    else deleteSpring (springCount s) (after_remap (combine mapfrom mapto) sp s).
Proof.
  intros H Hs Hto. unfold dup_spring. rewrite H. cbn [mbind option_bind]. rewrite Hs.
  pose proof (dup_spring_slot s sp) as Hslot.
  destruct (createSpring s) as [which s1].
  destruct (modSpring which (fun _ => sp) s1) as [s2|]; [|discriminate].
  cbn [mbind option_bind] in Hslot |- *.
  destruct (modSpring which (Spring.setSelected false) s2) as [s3|]; [|discriminate].
  cbn [mbind option_bind] in Hslot |- *. inversion Hslot; subst which s3. clear Hslot.
  set (s3 := set_springs _ s).
  assert (Hc : getSpring s3 (springCount s) = Some (Spring.setSelected false sp)).
  { unfold getSpring, springCount, s3. cbn. rewrite at_of_nat.
    apply list_lookup_middle. reflexivity. }
  rewrite (dup_remap_exact _ _ _ _ s3 _ Hc) by exact Hto.
  cbn [mbind option_bind].
  change (Spring.m1 (Spring.setSelected false sp)) with (Spring.m1 sp).
  change (Spring.m2 (Spring.setSelected false sp)) with (Spring.m2 sp).
  assert (Hs3 : set_masses
                  (fold_left (add_parent (springCount s))
                     (remap_targets false false (combine mapfrom mapto)
                        (Spring.m1 sp) (Spring.m2 sp)) (masses_ s3))
                  (set_springs
                     (<[Z.to_nat (springCount s) :=
                          remapped false false (combine mapfrom mapto)
                            (Spring.setSelected false sp)]> (springs_ s3)) s3)
                = after_remap (combine mapfrom mapto) sp s).
  { unfold after_remap, s3, springCount. cbn. rewrite Nat2Z.id.
    rewrite insert_app_r_alt, Nat.sub_diag by lia. now destruct s. }
  rewrite Hs3.
  destruct (bool_decide _), (bool_decide _); reflexivity.
Qed.

Lemma assoc_None_targets tbl x y :
  assoc tbl x = None -> assoc tbl y = None ->
  remap_targets false false tbl x y = []
  /\ forall c, Spring.m1 c = x -> Spring.m2 c = y -> remapped false false tbl c = c.
Proof.
  intros Hx Hy. split.
  - induction tbl as [|[from to] tbl IH]; cbn in *; [reflexivity|].
    destruct (Z.eqb x from); [discriminate|]. destruct (Z.eqb y from); [discriminate|].
    cbn. auto.
  - intros c <- <-. unfold remapped, remap_end. rewrite Hx, Hy. now destruct c.
Qed.

(** What one iteration of the spring pass does to the springs. *)
Lemma dup_spring_springs mapfrom mapto i s s' sp :
  dup_spring mapfrom mapto i s = Some s' ->
  getSpring s i = Some sp ->
  (forall from to, In (from, to) (combine mapfrom mapto) -> is_Some (getMass s to)) ->
  springs_ s' = springs_ s
                ++ (if Spring.isSelected sp then [spring_copy (combine mapfrom mapto) sp]
                    else [])
  /\ length (masses_ s') = length (masses_ s)
  /\ state_ s' = state_ s.
Proof.
  intros E Hsp Hto. destruct (Spring.isSelected sp) eqn:Hsel.
  - rewrite (dup_spring_selected _ _ _ _ _ Hsp Hsel Hto) in E.
    unfold spring_copy. set (tbl := combine mapfrom mapto) in *.
    destruct (bool_decide (is_Some (assoc tbl (Spring.m1 sp)))
              || bool_decide (is_Some (assoc tbl (Spring.m2 sp)))) eqn:Hhit.
    + inversion E; subst s'. unfold after_remap. cbn.
      split; [reflexivity|]. split; [apply add_parents_length | reflexivity].
    + apply orb_false_elim in Hhit as [H1 H2].
      apply bool_decide_eq_false_1 in H1, H2.
      assert (N1 : assoc tbl (Spring.m1 sp) = None)
        by (destruct (assoc tbl (Spring.m1 sp)); [exfalso; apply H1; eauto | reflexivity]).
      assert (N2 : assoc tbl (Spring.m2 sp) = None)
        by (destruct (assoc tbl (Spring.m2 sp)); [exfalso; apply H2; eauto | reflexivity]).
      destruct (assoc_None_targets tbl _ _ N1 N2) as [Ht Hr].
      specialize (Hr (Spring.setSelected false sp) eq_refl eq_refl).
      unfold after_remap in E.
      change (Spring.m1 (Spring.setSelected false sp)) with (Spring.m1 sp) in E.
      change (Spring.m2 (Spring.setSelected false sp)) with (Spring.m2 sp) in E.
      rewrite Ht, Hr in E. cbn [fold_left] in E.
      set (s1 := set_masses _ _) in E.
      assert (Hc : getSpring s1 (springCount s) = Some (Spring.setSelected false sp)).
      { unfold getSpring, springCount, s1. cbn. rewrite at_of_nat.
        apply list_lookup_middle. reflexivity. }
      destruct (deleteSpring_inv _ _ _ _ E Hc) as (St & Sp & [L _]).
      rewrite Sp, Hr. unfold s1, springCount. cbn. rewrite Nat2Z.id.
      rewrite insert_app_r_alt, Nat.sub_diag by lia. cbn.
      split; [reflexivity|]. split; [exact L | exact St].
  - rewrite (dup_spring_unselected _ _ _ _ _ Hsp Hsel) in E. inversion E; subst.
    rewrite app_nil_r. auto.
Qed.

(** The spring pass: every selected spring gets its copy, in order, after
    the springs already there. *)
Lemma dup_springs_loop mapfrom mapto orig : forall len i s s',
  for_each (dup_spring mapfrom mapto) (map Z.of_nat (seq i len)) s = Some s' ->
  (exists ext, springs_ s = orig ++ ext) ->
  (i + len <= length orig)%nat ->
  (forall from to, In (from, to) (combine mapfrom mapto) -> is_Some (getMass s to)) ->
  springs_ s' = springs_ s
                ++ map (spring_copy (combine mapfrom mapto))
                     (List.filter Spring.isSelected (firstn len (skipn i orig)))
  /\ length (masses_ s') = length (masses_ s)
  /\ state_ s' = state_ s.
Proof.
  induction len as [|len IH]; intros i s s' E [ext Hext] Hlen Hto.
  - cbn in E. inversion E; subst. cbn. rewrite app_nil_r. auto.
  - cbn [seq map for_each] in E.
    destruct (dup_spring mapfrom mapto (Z.of_nat i) s) as [s1|] eqn:E1; [|discriminate].
    cbn [mbind option_bind] in E.
    assert (Hi : is_Some (orig !! i)) by (apply lookup_lt_is_Some; lia).
    destruct Hi as [sp Hsp].
    assert (Hget : getSpring s (Z.of_nat i) = Some sp).
    { unfold getSpring. rewrite at_of_nat, Hext. now apply lookup_app_l_Some. }
    destruct (dup_spring_springs _ _ _ _ _ _ E1 Hget Hto) as (Sp1 & L1 & St1).
    destruct (IH (S i) s1 s' E) as (Sp & L & St).
    + rewrite Sp1, Hext, <- app_assoc. eauto.
    + lia.
    + intros f t Hin. apply at_is_Some. rewrite L1. apply at_is_Some. eauto.
    + split; [|split; congruence].
      rewrite Sp, Sp1, <- app_assoc. f_equal.
      assert (Hskip : skipn i orig = sp :: skipn (S i) orig).
      { clear -Hsp. revert i Hsp. induction orig as [|a orig IHo]; intros [|i] H;
          try discriminate; cbn in *; [now inversion H | now apply IHo]. }
      rewrite Hskip. cbn [firstn List.filter].
      destruct (Spring.isSelected sp); reflexivity.
Qed.

(** *** Selected indices *)

Section Indices.

Context {A : Type} (p : A -> bool).

Lemma indices_from_elem z l : forall i,
  elem_of z (indices_from p i l) ->
  exists j a, z = Z.of_nat (i + j) /\ l !! j = Some a /\ p a = true.
Proof.
  induction l as [|x l IH]; intros i H; cbn in H.
  - now apply elem_of_nil in H.
  - destruct (p x) eqn:Hx.
    + apply elem_of_cons in H as [->|H].
      * exists 0%nat, x. rewrite Nat.add_0_r. auto.
      * destruct (IH _ H) as (j & a & -> & Hj & Ha). exists (S j), a.
        split; [f_equal; lia | auto].
    + destruct (IH _ H) as (j & a & -> & Hj & Ha). exists (S j), a.
      split; [f_equal; lia | auto].
Qed.

Lemma indices_from_complete l : forall i j a,
  l !! j = Some a -> p a = true -> elem_of (Z.of_nat (i + j)) (indices_from p i l).
Proof.
  induction l as [|x l IH]; intros i [|j] a Hj Ha; try discriminate; cbn in *.
  - inversion Hj; subst. rewrite Ha, Nat.add_0_r. left.
  - specialize (IH (S i) j a Hj Ha). replace (i + S j)%nat with (S i + j)%nat by lia.
    destruct (p x); [right|]; exact IH.
Qed.

Lemma indices_from_increasing l : forall i a b r,
  indices_from p i l = a :: b :: r -> a < b.
Proof.
  induction l as [|x l IH]; intros i a b r H; cbn in H; [discriminate|].
  destruct (p x); [|eauto].
  inversion H as [[Ha Hb]]. subst a.
  assert (Hin : elem_of b (indices_from p (S i) l)) by (rewrite Hb; left).
  apply indices_from_elem in Hin as (j & _ & -> & _). lia.
Qed.

Lemma indices_from_filter l : forall i,
  map (fun z => l !! (Z.to_nat z - i)%nat) (indices_from p i l)
  = map Some (List.filter p l).
Proof.
  induction l as [|x l IH]; intros i; cbn; [reflexivity|].
  assert (Hshift : map (fun z => (x :: l) !! (Z.to_nat z - i)%nat) (indices_from p (S i) l)
                   = map (fun z => l !! (Z.to_nat z - S i)%nat) (indices_from p (S i) l)).
  { apply map_ext_in. intros z Hz. apply list_elem_of_In in Hz.
    apply indices_from_elem in Hz as (j & _ & -> & _).
    rewrite Nat2Z.id. replace (S i + j - i)%nat with (S j) by lia.
    replace (S i + j - S i)%nat with j by lia. reflexivity. }
  destruct (p x); cbn; rewrite Hshift, IH; [|reflexivity].
  rewrite Nat2Z.id, Nat.sub_diag. reflexivity.
Qed.

(** Where the copy of the [k]-th element lands among the copies. *)
Lemma filter_lookup l k a :
  l !! k = Some a -> p a = true ->
  List.filter p l !! length (List.filter p (firstn k l)) = Some a.
Proof.
  revert k. induction l as [|x l IH]; intros [|k] H Ha; try discriminate; cbn in *.
  - inversion H; subst. now rewrite Ha.
  - destruct (p x); cbn; auto.
Qed.

End Indices.

Lemma assoc_not_from tbl x : ~ In x (map fst tbl) -> assoc tbl x = None.
Proof.
  induction tbl as [|[from to] tbl IH]; cbn; [reflexivity|].
  intros H. destruct (Z.eqb_spec x from) as [->|]; [exfalso; auto | apply IH; auto].
Qed.

(** An end point that is not a selected mass has no entry in the table. *)
Lemma dup_table_unselected s x : mass_selected s x = false -> assoc (dup_table s) x = None.
Proof.
  intros H. apply assoc_not_from. intros Hin.
  apply in_map_iff in Hin as ([from to] & <- & Hin). cbn in H.
  apply in_combine_l in Hin. apply list_elem_of_In in Hin.
  apply indices_from_elem in Hin as (j & a & -> & Hj & Ha). cbn in H.
  unfold mass_selected, getMass in H. rewrite at_of_nat, Hj in H. congruence.
Qed.

(** The entries of the table point at the copies. *)
Lemma dup_table_targets s from to :
  In (from, to) (dup_table s) ->
  (Z.of_nat (length (masses_ s)) <= to
   < Z.of_nat (length (masses_ s) + length (List.filter Mass.isSelected (masses_ s))))%Z.
Proof.
  intros H. apply in_combine_r in H. unfold new_indices in H.
  apply in_map_iff in H as (j & <- & Hj). apply in_seq in Hj. lia.
Qed.

(** The spring pass of [duplicateSelected], for any scene: the springs
    that were there stay, and every selected spring gets its copy. *)
Lemma duplicateSelected_springs s s' :
  duplicateSelected s = Some s' ->
  springs_ s' = springs_ s
                ++ map (spring_copy (dup_table s)) (List.filter Spring.isSelected (springs_ s))
  /\ length (masses_ s')
     = (length (masses_ s) + length (List.filter Mass.isSelected (masses_ s)))%nat
  /\ state_ s' = state_ s.
Proof.
  unfold duplicateSelected. rewrite dup_masses_fuel. cbn [mbind option_bind].
  unfold for_upto. intros E.
  set (s1 := set_masses _ s) in E.
  destruct (dup_springs_loop _ _ (springs_ s) _ _ _ _ E) as (Sp & L & St).
  - exists []. now rewrite app_nil_r.
  - lia.
  - intros from to Hin. apply dup_table_targets in Hin.
    apply at_is_Some. unfold s1. cbn. rewrite length_app, length_map. lia.
  - rewrite skipn_O, firstn_all in Sp. split; [exact Sp|].
    split; [|exact St]. rewrite L. unfold s1. cbn. now rewrite length_app, length_map.
Qed.

Lemma dup_springs_unselected_run mapfrom mapto : forall len i s,
  (forall j, (i <= j < i + len)%nat ->
     exists sp, springs_ s !! j = Some sp /\ Spring.isSelected sp = false) ->
  for_each (dup_spring mapfrom mapto) (map Z.of_nat (seq i len)) s = Some s.
Proof.
  induction len as [|len IH]; intros i s H; [reflexivity|].
  cbn [seq map for_each].
  destruct (H i) as (sp & Hsp & Hsel); [lia|].
  rewrite (dup_spring_unselected _ _ _ _ sp); [|unfold getSpring; now rewrite at_of_nat|exact Hsel].
  cbn. apply IH. intros j Hj. apply H. lia.
Qed.

(** C5, as the code has it.  (1) On a selection of exactly two masses [a],
    [b] and one spring [k] between them, [duplicateSelected] succeeds and
    leaves everything that was there as it was; it appends two masses, the
    copies of [a] and [b] with selection cleared and the new spring as their
    only parent, and one spring, the copy of [k] with selection cleared whose
    end points are the two new masses and whose [ks], [kd] and rest length are
    those of [k].  (2) In general, the copy of a selected spring neither of
    whose end points is a selected mass is in the vector, and it is dead. *)
Theorem duplicate_pair :
  (forall s a b k ma mb sp,
     selected_masses s = [a; b] -> getMass s a = Some ma -> getMass s b = Some mb ->
     selected_springs s = [k] -> getSpring s k = Some sp ->
     (Spring.m1 sp = a /\ Spring.m2 sp = b) \/ (Spring.m1 sp = b /\ Spring.m2 sp = a) ->
     let new x := if Z.eqb x a then massCount s else massCount s + 1 in
     duplicateSelected s
     = Some (mkSystem (state_ s)
               (masses_ s ++ [mass_dup (springCount s) ma; mass_dup (springCount s) mb])
               (springs_ s
                ++ [Spring.set_m2 (new (Spring.m2 sp))
                      (Spring.set_m1 (new (Spring.m1 sp)) (Spring.setSelected false sp))])
               (fakeMass_ s) (fakeSpring_ s)))
  /\ (forall s s' k sp,
        duplicateSelected s = Some s' ->
        getSpring s k = Some sp -> Spring.isSelected sp = true ->
        mass_selected s (Spring.m1 sp) = false ->
        mass_selected s (Spring.m2 sp) = false ->
        exists c,
          getSpring s' (springCount s
                        + Z.of_nat (length (List.filter Spring.isSelected
                                              (firstn (Z.to_nat k) (springs_ s)))))
          = Some c
          /\ Spring.isAlive c = false).
Proof.
  split.
  - intros s a b k ma mb sp Hsel Ha Hb Hsk Hsp Hends new.
    assert (Hab : a < b) by (eapply indices_from_increasing; exact Hsel).
    apply at_Some in Ha as [Ha0 Ha]. apply at_Some in Hb as [Hb0 Hb].
    assert (Hfilter : List.filter Mass.isSelected (masses_ s) = [ma; mb]).
    { pose proof (indices_from_filter Mass.isSelected (masses_ s) 0) as H.
      unfold selected_masses, selected_from in Hsel. rewrite Hsel in H. cbn in H.
      rewrite !Nat.sub_0_r, Ha, Hb in H.
      destruct (List.filter _ _) as [|x [|y [|? ?]]]; inversion H; reflexivity. }
    pose proof Hsp as Hspk. apply at_Some in Hspk as [Hk0 Hspk].
    assert (Hun : forall j sp', springs_ s !! j = Some sp' -> j <> Z.to_nat k ->
                                Spring.isSelected sp' = false).
    { intros j sp' Hj Hne. destruct (Spring.isSelected sp') eqn:E; [|reflexivity].
      pose proof (indices_from_complete Spring.isSelected _ 0 j sp' Hj E) as Hin.
      unfold selected_springs in Hsk. rewrite Hsk in Hin.
      apply list_elem_of_singleton in Hin. cbn in Hin. lia. }
    assert (Hksel : Spring.isSelected sp = true).
    { assert (Hin : elem_of k (selected_springs s)) by (rewrite Hsk; left).
      apply indices_from_elem in Hin as (j & sp' & -> & Hj & E). cbn in Hspk.
      rewrite Nat2Z.id in Hspk. congruence. }
    unfold duplicateSelected. rewrite dup_masses_fuel. cbn [mbind option_bind].
    rewrite Hfilter. unfold selected_masses in Hsel. rewrite Hsel.
    cbn [map length new_indices seq].
    set (n := length (masses_ s)). set (s1 := set_masses _ s).
    set (N := length (springs_ s)).
    assert (HkN : (Z.to_nat k < N)%nat) by (eapply lookup_lt_Some; exact Hspk).
    unfold for_upto.
    replace N with (Z.to_nat k + S (N - S (Z.to_nat k)))%nat by lia.
    rewrite seq_app, map_app, for_each_app. cbn [seq map].
    rewrite dup_springs_unselected_run.
    2:{ intros j Hj. assert (Hs : is_Some (springs_ s !! j))
          by (apply lookup_lt_is_Some; fold N; lia).
        destruct Hs as [sp' Hj']. exists sp'. split; [exact Hj'|].
        apply (Hun j sp' Hj'). lia. }
    cbn [mbind option_bind for_each]. rewrite Nat.add_0_l, Z2Nat.id by lia.
    rewrite (dup_spring_selected _ _ _ _ sp); [|exact Hsp|exact Hksel|].
    2:{ intros from to Hin. apply at_is_Some. unfold s1. cbn. rewrite length_app. cbn.
        fold n. cbn in Hin. destruct Hin as [H|[H|[]]]; inversion H; lia. }
    assert (Hba : Z.eqb b a = false) by (apply Z.eqb_neq; lia).
    assert (Hhit : bool_decide (is_Some (assoc (combine [a; b] [Z.of_nat n; Z.of_nat (S n)])
                                           (Spring.m1 sp)))
                   || bool_decide (is_Some (assoc (combine [a; b] [Z.of_nat n; Z.of_nat (S n)])
                                              (Spring.m2 sp))) = true).
    { apply orb_true_intro. left. apply bool_decide_eq_true_2. cbn.
      destruct Hends as [[-> _]|[-> _]]; rewrite ?Z.eqb_refl, ?Hba; eauto. }
    rewrite Hhit. cbn [mbind option_bind].
    set (s2 := after_remap _ sp s1).
    assert (Hs2 : s2 = mkSystem (state_ s)
               (masses_ s ++ [mass_dup (springCount s) ma; mass_dup (springCount s) mb])
               (springs_ s
                ++ [Spring.set_m2 (new (Spring.m2 sp))
                      (Spring.set_m1 (new (Spring.m1 sp)) (Spring.setSelected false sp))])
               (fakeMass_ s) (fakeSpring_ s)).
    { unfold s2, after_remap, remapped, remap_end, new, massCount.
      change (Spring.m1 (Spring.setSelected false sp)) with (Spring.m1 sp).
      change (Spring.m2 (Spring.setSelected false sp)) with (Spring.m2 sp).
      fold n.
      assert (Hn1 : at_ (masses_ s ++ [mass_copy ma; mass_copy mb]) (Z.of_nat n)
                    = Some (mass_copy ma)).
      { rewrite at_of_nat. apply list_lookup_middle. reflexivity. }
      assert (Hn2 : forall x, at_ (masses_ s ++ [x; mass_copy mb]) (Z.of_nat (S n))
                              = Some (mass_copy mb)).
      { intros x. rewrite at_of_nat.
        change (masses_ s ++ [x; mass_copy mb]) with (masses_ s ++ [x] ++ [mass_copy mb]).
        rewrite app_assoc. apply list_lookup_middle. rewrite length_app. cbn. lia. }
      assert (Htargets : fold_left (add_parent (springCount s1))
                (remap_targets false false (combine [a; b] [Z.of_nat n; Z.of_nat (S n)])
                   (Spring.m1 sp) (Spring.m2 sp)) (masses_ s1)
              = masses_ s ++ [mass_dup (springCount s) ma; mass_dup (springCount s) mb]).
      { assert (Ht : remap_targets false false (combine [a; b] [Z.of_nat n; Z.of_nat (S n)])
                       (Spring.m1 sp) (Spring.m2 sp) = [Z.of_nat n; Z.of_nat (S n)]).
        { cbn. destruct Hends as [[-> ->]|[-> ->]]; rewrite ?Z.eqb_refl, ?Hba; cbn;
            rewrite ?Z.eqb_refl, ?Hba; reflexivity. }
        rewrite Ht. unfold s1. cbn [fold_left masses_ set_masses map].
        unfold add_parent at 2. rewrite Hn1. rewrite Nat2Z.id.
        replace (<[n:=Mass.set_parents (Mass.parents (mass_copy ma) ++ [springCount (set_masses (masses_ s ++ [mass_copy ma; mass_copy mb]) s)]) (mass_copy ma)]>
                   (masses_ s ++ [mass_copy ma; mass_copy mb]))
          with (masses_ s ++ [mass_dup (springCount s) ma; mass_copy mb])
          by (unfold n; rewrite insert_app_r_alt, Nat.sub_diag by lia; reflexivity).
        unfold add_parent. rewrite Hn2. rewrite Nat2Z.id.
        unfold n. rewrite insert_app_r_alt by lia.
        replace (S (length (masses_ s)) - length (masses_ s))%nat with 1%nat by lia.
        reflexivity. }
      rewrite Htargets. unfold s1, set_masses, set_springs. cbn. f_equal. f_equal. f_equal.
      destruct Hends as [[-> ->]|[-> ->]]; cbn; rewrite ?Z.eqb_refl, ?Hba; cbn;
        rewrite ?Z.eqb_refl; f_equal; try (f_equal; lia); lia. }
    rewrite dup_springs_unselected_run; [now rewrite Hs2|].
    intros j Hj. assert (Hs : is_Some (springs_ s !! j))
      by (apply lookup_lt_is_Some; fold N; lia).
    destruct Hs as [sp' Hj']. exists sp'. split.
    + rewrite Hs2. cbn. now apply lookup_app_l_Some.
    + apply (Hun j sp' Hj'). lia.
  - intros s s' k sp E Hsp Hsel H1 H2.
    destruct (duplicateSelected_springs s s' E) as (Sp & _ & _).
    apply at_Some in Hsp as [Hk Hsp].
    pose proof (filter_lookup Spring.isSelected _ _ _ Hsp Hsel) as Hcopy.
    exists (spring_copy (dup_table s) sp). split.
    + unfold getSpring, springCount. rewrite <- Nat2Z.inj_add, at_of_nat, Sp.
      rewrite lookup_app_r by lia.
      replace (length (springs_ s) + _ - length (springs_ s))%nat
        with (length (List.filter Spring.isSelected (firstn (Z.to_nat k) (springs_ s))))
        by lia.
      rewrite list_lookup_fmap, Hcopy. reflexivity.
    + unfold spring_copy.
      rewrite (dup_table_unselected _ _ H1), (dup_table_unselected _ _ H2).
      rewrite !bool_decide_eq_false_2 by (intros [? ?]; discriminate). cbn [orb].
      apply killed_dead.
Qed.

Lemma duplicate_pair_witness :
  duplicateSelected Scene.pair
  = Some (mkSystem State.reset
            [Scene.fakeMass; Scene.pair_a; Scene.pair_b;
             mass_dup 2 Scene.pair_a; mass_dup 2 Scene.pair_b]
            [Scene.fakeSpring; Scene.pair_spring; Spring.mk 7 3 50 3 4 S_ALIVE] 0 0)
  /\ exists s' c, duplicateSelected Scene.dangling = Some s'
       /\ getSpring s' 2 = Some c /\ Spring.isAlive c = false.
Proof.
  split.
  - apply (proj1 duplicate_pair Scene.pair 1 2 1 Scene.pair_a Scene.pair_b Scene.pair_spring);
      try reflexivity.
    left. split; reflexivity.
  - destruct (duplicateSelected Scene.dangling) as [s'|] eqn:E;
      [|vm_compute in E; discriminate].
    destruct (proj2 duplicate_pair Scene.dangling s' 1 Scene.pair_spring E)
      as (c & Hc & Hd); try reflexivity.
    exists s', c. auto.
Defined.

(** C5 as stated does not hold: after [duplicateSelected] the parent list
    of a copy is not empty, it holds the new spring. *)
Lemma copies_have_a_parent : ~ copies_have_no_parents.
Proof.
  intros H.
  assert (E : duplicateSelected Scene.pair
              = Some (mkSystem State.reset
                        [Scene.fakeMass; Scene.pair_a; Scene.pair_b;
                         mass_dup 2 Scene.pair_a; mass_dup 2 Scene.pair_b]
                        [Scene.fakeSpring; Scene.pair_spring; Spring.mk 7 3 50 3 4 S_ALIVE]
                        0 0))
    by reflexivity.
  specialize (H Scene.pair _ 1 2 1 Scene.pair_a Scene.pair_b Scene.pair_spring
                eq_refl eq_refl eq_refl eq_refl eq_refl eq_refl eq_refl E
                3 (mass_dup 2 Scene.pair_a) ltac:(now vm_compute) eq_refl).
  discriminate H.
Qed.

(** C9 at its failing inputs.  Two selected springs that agree on [ks] and
    disagree on [kd] (3 and 7): [evalSelection] still copies the first
    [kd] into [cur_kd] and reports a change.  Of two selected masses the
    first fixed and the second not, it copies "fixed" into [fix_mass];
    when both are fixed it copies nothing. *)
Theorem evalSelection_slips :
  evalSelection Scene.two_kd
  = (true, set_state (State.set_cur_kd 3 State.reset) Scene.two_kd)
  /\ evalSelection Scene.two_fix
     = (true, set_state (State.set_fix_mass true State.reset) Scene.two_fix)
  /\ evalSelection Scene.both_fix = (false, Scene.both_fix).
Proof. repeat split; reflexivity. Qed.

(** ** Force accumulator *)

(** C8.  A live spring whose end points coincide ([dx == 0] and [dy == 0])
    is skipped by the force accumulator: its iteration of the spring loop
    returns the system as it found it, so no division by the length takes
    place and no acceleration changes. *)
Theorem zero_length_spring_skipped (s : System) (i : Z) (sp : Spring) (m1 m2 : Mass) :
  getSpring s i = Some sp ->
  has_bit (Spring.status sp) S_ALIVE = true ->
  getMass s (Spring.m1 sp) = Some m1 ->
  getMass s (Spring.m2 sp) = Some m2 ->
  (Mass.x m1 - Mass.x m2 =? 0)%float = true ->
  (Mass.y m1 - Mass.y m2 =? 0)%float = true ->
  accel_spring i s = Some s.
Proof.
  intros Hsp Halive Hm1 Hm2 Hdx Hdy.
  unfold accel_spring. rewrite Hsp. cbn. rewrite Halive, Hm1. cbn. rewrite Hm2. cbn.
  unfold D.truthy, D.neb. rewrite Hdx, Hdy. reflexivity.
Qed.

Lemma zero_length_spring_skipped_witness :
  accel_spring 1 Scene.coincident = Some Scene.coincident.
Proof.
  apply (zero_length_spring_skipped Scene.coincident 1
           (Spring.mk 1 1 50 1 2 S_ALIVE)
           (Scene.mass_at 100 100 0 0 1 S_ALIVE [1])
           (Scene.mass_at 100 100 3 (-2) 2 S_ALIVE [1]));
    reflexivity.
Defined.

(** ** Frame pacer *)

Lemma leading_false_app_true bs : leading_false (rev (bs ++ [true])) = O.
Proof. rewrite rev_app_distr. reflexivity. Qed.

Lemma leading_false_app_false bs :
  leading_false (rev (bs ++ [false])) = S (leading_false (rev bs)).
Proof. rewrite rev_app_distr. reflexivity. Qed.

Lemma run_pace_snoc dts dt p :
  run_pace (dts ++ [dt]) p =
  (fst (run_pace dts p) ++ [fst (pace dt (snd (run_pace dts p)))],
   snd (pace dt (snd (run_pace dts p)))).
Proof.
  unfold run_pace. rewrite fold_left_app. cbn.
  destruct (fold_left _ dts ([], p)) as [bs q]. cbn.
  destruct (pace dt q). reflexivity.
Qed.

(** The static [num_since] counts the answers [false] since the last
    [true], and never exceeds 8. *)
Lemma run_pace_num_since dts :
  num_since (snd (run_pace dts Pacer0))
  = Z.of_nat (trailing_false (fst (run_pace dts Pacer0)))
  /\ (trailing_false (fst (run_pace dts Pacer0)) <= 8)%nat.
Proof.
  induction dts as [|dt dts IH] using rev_ind.
  - cbn. split; [reflexivity | lia].
  - rewrite run_pace_snoc. cbn [fst snd].
    destruct (run_pace dts Pacer0) as [bs p]. cbn [fst snd] in *.
    destruct IH as [IH1 IH2]. unfold trailing_false in *.
    unfold pace.
    destruct (D.gtb (time_elapsed p + dt) 0.05); cbn [fst snd].
    + rewrite leading_false_app_true. cbn. split; [reflexivity | lia].
    + destruct (Z.ltb_spec 8 (num_since p + 1)); cbn [fst snd num_since].
      * rewrite leading_false_app_true. cbn. split; [reflexivity | lia].
      * rewrite leading_false_app_false. split; lia.
Qed.

(** C7, as the code has it.  After any sequence of earlier calls, a call of
    [advance] that returns answers [true] exactly when the accumulated time,
    [cur_dt] of this call included, exceeds 0.05 or the last 8 calls all
    answered [false].  When the time exceeds 0.05 the accumulator is not
    zeroed: 0.05 is taken off it and the excess is kept; otherwise it keeps
    the sum.  The count of [false] answers restarts on every [true]. *)
Theorem redraw_due (M : Libm) (width_ height_ : Z) (fuel : nat) (s : System)
    (dts : list float) (b : bool) (s' : System) (p' : Pacer) :
  advance M width_ height_ fuel s (snd (run_pace dts Pacer0)) = Some (b, s', p') ->
  let bs := fst (run_pace dts Pacer0) in
  let p := snd (run_pace dts Pacer0) in
  let te := (time_elapsed p + State.cur_dt (state_ s'))%float in
  (b = true <-> D.gtb te 0.05 = true \/ trailing_false bs = 8%nat)
  /\ time_elapsed p' = (if D.gtb te 0.05 then te - 0.05 else te)%float
  /\ num_since p' = (if b then 0 else num_since p + 1).
Proof.
  intros H bs p te. unfold advance in H.
  destruct (integrate _ _ _ _ _) as [s1|]; [|discriminate]. cbn in H.
  destruct (walls _ _ _) as [s2|]; [|discriminate]. cbn in H.
  destruct (collisions s2) as [s3|]; [|discriminate]. cbn in H.
  destruct (pace _ _) as [due q] eqn:Hp. inversion H; subst b s' p'. clear H.
  fold p in Hp. destruct (run_pace_num_since dts) as [Hn Hle].
  fold p in Hn. fold bs in Hn, Hle.
  unfold pace in Hp. fold te in Hp.
  destruct (D.gtb te 0.05).
  - inversion Hp; subst. cbn. split; [|split]; try reflexivity.
    split; auto.
  - destruct (Z.ltb_spec 8 (num_since p + 1)); inversion Hp; subst; cbn;
      (split; [|split]); try reflexivity.
    + split; [intros _; right; lia | reflexivity].
    + split; [discriminate | intros [?|?]; [discriminate | lia]].
Qed.

Lemma redraw_due_witness :
  exists b s' p',
    advance Scene.libm 400 400 1 Scene.coincident Scene.two_calls = Some (b, s', p')
    /\ (b = true <->
        D.gtb (time_elapsed Scene.two_calls + State.cur_dt (state_ s')) 0.05 = true
        \/ trailing_false (fst (run_pace [0.025; 0.025]%float Pacer0)) = 8%nat).
Proof.
  destruct (advance Scene.libm 400 400 1 Scene.coincident Scene.two_calls)
    as [[[b s'] p']|] eqn:E; [|vm_compute in E; discriminate].
  exists b, s', p'. split; [reflexivity|].
  exact (proj1 (redraw_due Scene.libm 400 400 1 Scene.coincident
                  [0.025; 0.025]%float b s' p' E)).
Defined.

(** C7 as stated does not hold: the accumulator is not reset.  A call with
    [cur_dt = 0.075] on fresh statics answers [true] and leaves about 0.025
    in the accumulator. *)
Lemma accumulator_not_reset : ~ accumulator_is_reset.
Proof.
  intros H. specialize (H 0.075%float Pacer0 eq_refl).
  assert (E : (time_elapsed (snd (pace 0.075 Pacer0)) =? 0)%float = true)
    by (rewrite H; reflexivity).
  vm_compute in E. discriminate.
Qed.

(** ** Centre-of-mass force *)

(** C6 as stated does not hold.  With the centre-of-mass force alone, two
    free masses of mass 1 and 3 at the same place both get the
    acceleration 125: the term is divided by the total mass 4, not by the
    mass's own mass, and the forces 1 * 125 and 3 * 125 differ. *)
Lemma cmass_force_depends_on_mass : ~ cmass_force_mass_independent.
Proof.
  intros H.
  destruct (accumulateAccel Scene.libm 400 400 Scene.unequal) as [s'|] eqn:E;
    [|vm_compute in E; discriminate].
  assert (H1 : getMass s' 1 = Some (Mass.set_ax 125 (Scene.mass_at 100 200 0 0 1 S_ALIVE [])))
    by (vm_compute in E; inversion E; reflexivity).
  assert (H2 : getMass s' 2 = Some (Mass.set_ax 125 (Scene.mass_at 100 200 0 0 3 S_ALIVE [])))
    by (vm_compute in E; inversion E; reflexivity).
  specialize (H Scene.libm 400 400 Scene.unequal s' 1 2 _ _ _ _
                eq_refl E eq_refl eq_refl eq_refl eq_refl
                ltac:(now vm_compute) ltac:(now vm_compute) eq_refl H1 H2).
  apply (f_equal (fun v => (v =? 125)%float)) in H. vm_compute in H. discriminate.
Qed.

Lemma accel_center_inv width_ height_ s cx cy s0 :
  accel_center width_ height_ s = Some (cx, cy, s0) ->
  masses_ s0 = masses_ s /\ springs_ s0 = springs_ s
  /\ (state_ s0 = state_ s \/ state_ s0 = State.set_center_id (-1) (state_ s)).
Proof.
  unfold accel_center. destruct (Z.leb 0 _).
  - destruct (getMass s _) as [m|]; [|discriminate]. cbn.
    destruct (has_bit _ _); intros [= <- <- <-]; cbn; auto.
  - intros [= <- <- <-]. auto.
Qed.

(** The five running sums are the sums over the moving masses. *)
Lemma cmass_fold center_id l : forall acc,
  let moving := map snd (List.filter
                  (fun im => negb (Z.eqb (fst im) center_id) && Mass.free (snd im)) l) in
  fold_left (cmass_add center_id) l acc
  = mkCMass (fold_left (fun a m => a + Mass.mass m)%float moving (msum acc))
            (fold_left (fun a m => a + Mass.mass m * Mass.x m)%float moving (mixix acc))
            (fold_left (fun a m => a + Mass.mass m * Mass.y m)%float moving (mixiy acc))
            (fold_left (fun a m => a + Mass.mass m * Mass.vx m)%float moving (mivix acc))
            (fold_left (fun a m => a + Mass.mass m * Mass.vy m)%float moving (miviy acc)).
Proof.
  induction l as [|[i m] l IH]; intros acc; cbn.
  - now destruct acc.
  - destruct (negb (Z.eqb i center_id) && Mass.free m); cbn; rewrite IH; reflexivity.
Qed.

(** With no live spring the spring loop changes nothing. *)
Lemma accel_springs_dead s :
  existsb (fun sp => has_bit (Spring.status sp) S_ALIVE) (springs_ s) = false ->
  for_upto (length (springs_ s)) accel_spring s = Some s.
Proof.
  intros H. unfold for_upto.
  assert (Hdead : forall i, (i < length (springs_ s))%nat ->
            accel_spring (Z.of_nat i) s = Some s).
  { intros i Hi. apply lookup_lt_is_Some in Hi as [sp Hsp].
    unfold accel_spring, getSpring. rewrite at_of_nat, Hsp. cbn.
    destruct (has_bit _ _) eqn:E; [|reflexivity].
    exfalso. assert (Hex : existsb (fun sp => has_bit (Spring.status sp) S_ALIVE)
                             (springs_ s) = true).
    { apply existsb_exists. exists sp. split; [|exact E].
      apply list_elem_of_In. eapply list_elem_of_lookup_2, Hsp. }
    congruence. }
  assert (Hn : forall n k, (k + n <= length (springs_ s))%nat ->
            for_each accel_spring (map Z.of_nat (seq k n)) s = Some s).
  { induction n as [|n IH]; intros k Hk; [reflexivity|].
    cbn. rewrite Hdead by lia. cbn. apply IH. lia. }
  apply Hn. lia.
Qed.

(** ** The accumulator and the stages, seen from one mass *)

Lemma accelerated_refl m : accelerated m m.
Proof. exists (Mass.ax m), (Mass.ay m). now destruct m. Qed.

Lemma accelerated_trans a b c : accelerated a b -> accelerated b c -> accelerated a c.
Proof.
  intros (x1 & y1 & ->) (x2 & y2 & ->). exists x2, y2. now destruct a.
Qed.

Lemma same_but_center_refl st : same_but_center st st.
Proof. unfold same_but_center. now destruct st. Qed.

Lemma same_but_center_trans a b c :
  same_but_center a b -> same_but_center b c -> same_but_center a c.
Proof.
  unfold same_but_center. intros H1 H2. rewrite H2 at 1. rewrite H1 at 1.
  now destruct a.
Qed.

Lemma same_but_center_dt a b : same_but_center a b -> State.cur_dt b = State.cur_dt a.
Proof. intros ->. reflexivity. Qed.

Lemma modMass_accelerated i f s s' :
  modMass i f s = Some s' -> (forall m, accelerated m (f m)) ->
  pointwise (fun _ => accelerated) (masses_ s) (masses_ s')
  /\ springs_ s' = springs_ s /\ state_ s' = state_ s.
Proof.
  intros E Hf. unfold modMass in E.
  destruct (modify (masses_ s) i f) as [ms|] eqn:Em; [|discriminate].
  inversion E; subst s'. cbn. split; [|auto].
  eapply pointwise_modify; [exact Em | auto | intros; apply accelerated_refl].
Qed.

Lemma accel_spring_frame i s s' :
  accel_spring i s = Some s' ->
  pointwise (fun _ => accelerated) (masses_ s) (masses_ s')
  /\ springs_ s' = springs_ s /\ state_ s' = state_ s.
Proof.
  assert (Hrefl : pointwise (fun _ => accelerated) (masses_ s) (masses_ s))
    by (apply pointwise_refl; intros; apply accelerated_refl).
  unfold accel_spring. destruct (getSpring s i) as [sp|]; [|discriminate]. cbn.
  destruct (has_bit _ _); [|intros [= <-]; auto].
  destruct (getMass s (Spring.m1 sp)) as [m1|]; [|discriminate]. cbn.
  destruct (getMass s (Spring.m2 sp)) as [m2|]; [|discriminate]. cbn.
  destruct (D.truthy _ || D.truthy _); [|intros [= <-]; auto].
  assert (Hx : forall v m, accelerated m (Mass.set_ax v m))
    by (intros v m; exists v, (Mass.ay m); now destruct m).
  assert (Hy : forall v m, accelerated m (Mass.set_ay v m))
    by (intros v m; exists (Mass.ax m), v; now destruct m).
  destruct (modMass _ _ s) as [s1|] eqn:E1; [|discriminate]. cbn.
  destruct (modMass _ _ s1) as [s2|] eqn:E2; [|discriminate]. cbn.
  destruct (modMass _ _ s2) as [s3|] eqn:E3; [|discriminate]. cbn.
  intros E4.
  apply modMass_accelerated in E1 as (P1 & S1 & T1); [|intros; first [apply Hx | apply Hy]].
  apply modMass_accelerated in E2 as (P2 & S2 & T2); [|intros; first [apply Hx | apply Hy]].
  apply modMass_accelerated in E3 as (P3 & S3 & T3); [|intros; first [apply Hx | apply Hy]].
  apply modMass_accelerated in E4 as (P4 & S4 & T4); [|intros; first [apply Hx | apply Hy]].
  split; [|split; congruence].
  pose proof (fun j : Z => accelerated_trans) as Ht.
  eapply pointwise_trans; [exact Ht | | exact P4].
  eapply pointwise_trans; [exact Ht | | exact P3].
  eapply pointwise_trans; [exact Ht | exact P1 | exact P2].
Qed.

Lemma accel_springs_frame n s s' :
  for_upto n accel_spring s = Some s' ->
  pointwise (fun _ => accelerated) (masses_ s) (masses_ s')
  /\ springs_ s' = springs_ s /\ state_ s' = state_ s.
Proof.
  unfold for_upto. generalize (map Z.of_nat (seq 0 n)). intros l E.
  eapply (for_each_inv (fun t => pointwise (fun _ => accelerated) (masses_ s) (masses_ t)
                                 /\ springs_ t = springs_ s /\ state_ t = state_ s));
    [|exact E|].
  - intros i t t' Hi (Pt & St & Tt).
    apply accel_spring_frame in Hi as (Pi & Si & Ti).
    split; [|split; congruence].
    eapply pointwise_trans; [exact (fun j : Z => accelerated_trans) | exact Pt | exact Pi].
  - split; [|auto]. apply pointwise_refl. intros; apply accelerated_refl.
Qed.

Lemma accel_body_frame mst gx gy ogx ogy ms :
  pointwise (fun _ => accelerated) ms (map (accel_body mst gx gy ogx ogy) (indexed ms)).
Proof.
  split.
  - now rewrite length_map, indexed_length.
  - intros j a Ha. rewrite at_map_indexed, Ha. cbn. eexists. split; [reflexivity|].
    unfold accel_body. destruct (Mass.free a); [|apply accelerated_refl].
    destruct (negb _); eexists _, _; reflexivity.
Qed.

Lemma accel_map_frame (f : Mass -> Mass) ms :
  (forall m, accelerated m (f m)) ->
  pointwise (fun _ => accelerated) ms (map f ms).
Proof. intros H. apply pointwise_map. auto. Qed.

Lemma accel_ptattract_accelerated M mst cx cy cr m :
  accelerated m (accel_ptattract M mst cx cy cr m).
Proof.
  unfold accel_ptattract. destruct (Mass.free m); [|apply accelerated_refl].
  eexists _, _; reflexivity.
Qed.

Lemma accel_wall_accelerated M width_ height_ mst m :
  accelerated m (accel_wall M width_ height_ mst m).
Proof.
  unfold accel_wall. destruct (Mass.free m); [|apply accelerated_refl].
  eexists _, _; reflexivity.
Qed.

Lemma accumulateAccel_frame M width_ height_ s s' :
  accumulateAccel M width_ height_ s = Some s' ->
  pointwise (fun _ => accelerated) (masses_ s) (masses_ s')
  /\ springs_ s' = springs_ s /\ same_but_center (state_ s) (state_ s').
Proof.
  unfold accumulateAccel.
  destruct (accel_center width_ height_ s) as [[[cx cy] s0]|] eqn:Hc; [|discriminate].
  cbn [mbind option_bind].
  destruct (accel_center_inv _ _ _ _ _ _ Hc) as (Hms & Hsp & Hst).
  destruct (accel_gravity M (state_ s0)) as [gx gy].
  destruct (accel_cmass cx cy s0) as [ogx ogy].
  pose proof (fun j : Z => accelerated_trans) as Ht.
  pose proof (accel_body_frame (state_ s0) gx gy ogx ogy (masses_ s0)) as P1.
  rewrite Hms in P1 at 1.
  assert (Hcenter : same_but_center (state_ s) (state_ s0)).
  { destruct Hst as [-> | ->]; [apply same_but_center_refl|].
    unfold same_but_center. now destruct (state_ s). }
  destruct (State.force_enabled (state_ s0) FR_PTATTRACT),
           (State.force_enabled (state_ s0) FR_WALL);
    cbn [set_masses masses_ springs_ state_]; intros E;
    apply accel_springs_frame in E as (P & S & T); cbn in P, S, T;
    (split; [|split; [congruence | rewrite T; exact Hcenter]]).
  - eapply pointwise_trans; [exact Ht | | exact P].
    eapply pointwise_trans; [exact Ht | | apply accel_map_frame, accel_wall_accelerated].
    eapply pointwise_trans; [exact Ht | exact P1
                            | apply accel_map_frame, accel_ptattract_accelerated].
  - eapply pointwise_trans; [exact Ht | | exact P].
    eapply pointwise_trans; [exact Ht | exact P1
                            | apply accel_map_frame, accel_ptattract_accelerated].
  - eapply pointwise_trans; [exact Ht | | exact P].
    eapply pointwise_trans; [exact Ht | exact P1
                            | apply accel_map_frame, accel_wall_accelerated].
  - eapply pointwise_trans; [exact Ht | exact P1 | exact P].
Qed.

Lemma on_free_stepped f s :
  pointwise (fun _ => stepped f) (masses_ s) (masses_ (on_free f s)).
Proof. unfold on_free. cbn. apply pointwise_map. intros j a _. reflexivity. Qed.

(** One stage: the accumulator, then the loop. *)
Lemma stage_frame M width_ height_ f s s1 :
  accumulateAccel M width_ height_ s = Some s1 ->
  pointwise (fun _ => stage f) (masses_ s) (masses_ (on_free f s1))
  /\ springs_ (on_free f s1) = springs_ s
  /\ same_but_center (state_ s) (state_ (on_free f s1)).
Proof.
  intros E. apply accumulateAccel_frame in E as (P & S & T).
  split; [|split; assumption].
  eapply pointwise_trans; [|exact P|apply on_free_stepped].
  intros j a b c Hab Hbc. exists b. split; assumption.
Qed.

Lemma pointwise_then (R1 R2 : Mass -> Mass -> Prop) a b c :
  pointwise (fun _ => R1) a b -> pointwise (fun _ => R2) b c ->
  pointwise (fun _ => and_then R1 R2) a c.
Proof.
  apply pointwise_trans. intros j x y z Hxy Hyz. exists y. split; assumption.
Qed.

Lemma rungeKutta_trace M width_ height_ h testloc s s' :
  rungeKutta M width_ height_ h testloc s = Some s' ->
  pointwise (fun _ => rk4_trace h testloc) (masses_ s) (masses_ s')
  /\ springs_ s' = springs_ s /\ same_but_center (state_ s) (state_ s').
Proof.
  unfold rungeKutta.
  destruct (accumulateAccel M width_ height_ s) as [a1|] eqn:E1; [|discriminate].
  cbn [mbind option_bind].
  destruct (accumulateAccel M width_ height_ (on_free (rk4_k1 h) a1)) as [a2|] eqn:E2;
    [|discriminate].
  cbn [mbind option_bind].
  destruct (accumulateAccel M width_ height_ (on_free (rk4_k2 h) a2)) as [a3|] eqn:E3;
    [|discriminate].
  cbn [mbind option_bind].
  destruct (accumulateAccel M width_ height_ (on_free (rk4_k3 h) a3)) as [a4|] eqn:E4;
    [|discriminate].
  cbn [mbind option_bind]. intros [= <-].
  destruct (stage_frame _ _ _ (rk4_k1 h) _ _ E1) as (P1 & S1 & T1).
  destruct (stage_frame _ _ _ (rk4_k2 h) _ _ E2) as (P2 & S2 & T2).
  destruct (stage_frame _ _ _ (rk4_k3 h) _ _ E3) as (P3 & S3 & T3).
  destruct (stage_frame _ _ _ (rk4_k4 h) _ _ E4) as (P4 & S4 & T4).
  pose proof (on_free_stepped (rk4_final testloc) (on_free (rk4_k4 h) a4)) as P5.
  split; [|split].
  - unfold rk4_trace.
    exact (pointwise_then _ _ _ _ _ P1
             (pointwise_then _ _ _ _ _ P2
                (pointwise_then _ _ _ _ _ P3 (pointwise_then _ _ _ _ _ P4 P5)))).
  - cbn in *. congruence.
  - cbn in *. eauto using same_but_center_trans.
Qed.

Lemma rkf_stages_trace M width_ height_ s s1 :
  rkf_stages M width_ height_ s = Some s1 ->
  pointwise (fun _ => rkf_trace (State.cur_dt (state_ (rkf_clamp s))))
            (masses_ s) (masses_ s1)
  /\ springs_ s1 = springs_ s
  /\ same_but_center (state_ (rkf_clamp s)) (state_ s1).
Proof.
  unfold rkf_stages. set (h := State.cur_dt (state_ (rkf_clamp s))).
  destruct (accumulateAccel M width_ height_ (rkf_clamp s)) as [a1|] eqn:E1; [|discriminate].
  cbn [mbind option_bind].
  destruct (accumulateAccel M width_ height_ (on_free (rkf_k1 h) a1)) as [a2|] eqn:E2;
    [|discriminate].
  cbn [mbind option_bind].
  destruct (accumulateAccel M width_ height_ (on_free (rkf_k2 h) a2)) as [a3|] eqn:E3;
    [|discriminate].
  cbn [mbind option_bind].
  destruct (accumulateAccel M width_ height_ (on_free (rkf_k3 h) a3)) as [a4|] eqn:E4;
    [|discriminate].
  cbn [mbind option_bind].
  destruct (accumulateAccel M width_ height_ (on_free (rkf_k4 h) a4)) as [a5|] eqn:E5;
    [|discriminate].
  cbn [mbind option_bind].
  destruct (accumulateAccel M width_ height_ (on_free (rkf_k5 h) a5)) as [a6|] eqn:E6;
    [|discriminate].
  cbn [mbind option_bind]. intros [= <-].
  destruct (stage_frame _ _ _ (rkf_k1 h) _ _ E1) as (P1 & S1 & T1).
  destruct (stage_frame _ _ _ (rkf_k2 h) _ _ E2) as (P2 & S2 & T2).
  destruct (stage_frame _ _ _ (rkf_k3 h) _ _ E3) as (P3 & S3 & T3).
  destruct (stage_frame _ _ _ (rkf_k4 h) _ _ E4) as (P4 & S4 & T4).
  destruct (stage_frame _ _ _ (rkf_k5 h) _ _ E5) as (P5 & S5 & T5).
  destruct (stage_frame _ _ _ (rkf_k6 h) _ _ E6) as (P6 & S6 & T6).
  split; [|split].
  - unfold rkf_trace.
    exact (pointwise_then _ _ _ _ _ P1
             (pointwise_then _ _ _ _ _ P2
                (pointwise_then _ _ _ _ _ P3
                   (pointwise_then _ _ _ _ _ P4 (pointwise_then _ _ _ _ _ P5 P6))))).
  - cbn in *. congruence.
  - cbn in *. eauto 10 using same_but_center_trans.
Qed.

(** *** What a trace keeps *)

Lemma kept_refl m : kept m m.
Proof. repeat split. Qed.

Lemma kept_trans a b c : kept a b -> kept b c -> kept a c.
Proof. unfold kept. intuition congruence. Qed.

Lemma accelerated_kept m m' : accelerated m m' -> kept m m'.
Proof. intros (ax & ay & ->). repeat split. Qed.

Lemma stepped_kept f m m' : (forall a, kept a (f a)) -> stepped f m m' -> kept m m'.
Proof. intros Hf ->. destruct (Mass.free m); [apply Hf | apply kept_refl]. Qed.

Lemma stage_kept f m m' : (forall a, kept a (f a)) -> stage f m m' -> kept m m'.
Proof.
  intros Hf (b & Hab & Hbc). eapply kept_trans;
    [apply accelerated_kept, Hab | eapply stepped_kept; eassumption].
Qed.

Lemma rkf_trace_kept h m m' : rkf_trace h m m' -> kept m m'.
Proof.
  intros (m1 & H1 & m2 & H2 & m3 & H3 & m4 & H4 & m5 & H5 & H6).
  apply stage_kept in H1, H2, H3, H4, H5, H6; try (intros a; repeat split).
  eauto 10 using kept_trans.
Qed.

Lemma rk4_trace_kept h testloc m m' : rk4_trace h testloc m m' -> kept m m'.
Proof.
  intros (m1 & H1 & m2 & H2 & m3 & H3 & m4 & H4 & H5).
  apply stage_kept in H1, H2, H3, H4; try (intros a; repeat split).
  apply stepped_kept in H5; [|intros a; destruct testloc; repeat split].
  eauto 10 using kept_trans.
Qed.

Lemma kept_free m m' : kept m m' -> Mass.free m' = Mass.free m.
Proof.
  intros (Hs & _). unfold Mass.free, Mass.isAlive, Mass.isFixed. now rewrite Hs.
Qed.

(** A mass that is not free passes through the integrators with at most
    its acceleration changed. *)
Lemma stage_not_free f m m' :
  Mass.free m = false -> stage f m m' -> accelerated m m' /\ Mass.free m' = false.
Proof.
  intros Hf (b & Hab & Hbc).
  assert (Hb : Mass.free b = false)
    by (rewrite (kept_free _ _ (accelerated_kept _ _ Hab)); exact Hf).
  unfold stepped in Hbc. rewrite Hb in Hbc. subst m'. auto.
Qed.

Lemma rkf_trace_not_free h m m' :
  Mass.free m = false -> rkf_trace h m m' -> accelerated m m'.
Proof.
  intros Hf (m1 & H1 & m2 & H2 & m3 & H3 & m4 & H4 & m5 & H5 & H6).
  apply stage_not_free in H1 as [A1 F1]; [|exact Hf].
  apply stage_not_free in H2 as [A2 F2]; [|exact F1].
  apply stage_not_free in H3 as [A3 F3]; [|exact F2].
  apply stage_not_free in H4 as [A4 F4]; [|exact F3].
  apply stage_not_free in H5 as [A5 F5]; [|exact F4].
  apply stage_not_free in H6 as [A6 F6]; [|exact F5].
  eauto 10 using accelerated_trans.
Qed.

Lemma rk4_trace_not_free h testloc m m' :
  Mass.free m = false -> rk4_trace h testloc m m' -> accelerated m m'.
Proof.
  intros Hf (m1 & H1 & m2 & H2 & m3 & H3 & m4 & H4 & H5).
  apply stage_not_free in H1 as [A1 F1]; [|exact Hf].
  apply stage_not_free in H2 as [A2 F2]; [|exact F1].
  apply stage_not_free in H3 as [A3 F3]; [|exact F2].
  apply stage_not_free in H4 as [A4 F4]; [|exact F3].
  unfold stepped in H5. rewrite F4 in H5. subst m'.
  eauto 10 using accelerated_trans.
Qed.

Lemma accelerated_pv m m' : accelerated m m' -> pv m' = pv m.
Proof. intros (ax & ay & ->). reflexivity. Qed.

(** ** The adaptive integrator *)

Lemma rkf_clamp_state s :
  masses_ (rkf_clamp s) = masses_ s /\ springs_ (rkf_clamp s) = springs_ s.
Proof. split; reflexivity. Qed.

(** After the clamp the step is not below [DT_MIN]. *)
Lemma rkf_clamp_not_below s :
  (State.cur_dt (state_ (rkf_clamp s)) <? DT_MIN)%float = false.
Proof.
  unfold rkf_clamp. cbn [state_ set_state].
  destruct (D.gtb (State.cur_dt (state_ s)) DT_MAX) eqn:Hmax.
  - change (State.cur_dt (State.set_cur_dt DT_MAX (state_ s))) with DT_MAX.
    change (DT_MAX <? DT_MIN)%float with false. reflexivity.
  - destruct (State.cur_dt (state_ s) <? DT_MIN)%float eqn:Hmin;
      [reflexivity | exact Hmin].
Qed.

(** C1, as the code has it.  Take a pass of [adaptiveRungeKutta] whose six
    stages ran and gave an error ratio [maxerr >= 1.0].  If [cur_dt] (as
    clamped) is above [DT_MIN] the step is not committed: every free mass
    gets its position and velocity back from the snapshot [old_*], which
    the pass has not touched, [cur_dt] is multiplied by
    [0.9 * exp(-log(maxerr) / 4)], and the integrator starts over from the
    result.  Otherwise the step is committed, and then [cur_dt] is
    [DT_MIN] - or NaN, which the clamp lets through and which is not above
    [DT_MIN] either. *)
Theorem adaptive_step_rejection (M : Libm) (width_ height_ : Z) (s s1 : System) :
  rkf_stages M width_ height_ s = Some s1 ->
  D.geb (rkf_maxerr s1) 1.0 = true ->
  let dt := State.cur_dt (state_ s1) in
  if D.gtb dt DT_MIN then
    exists s2,
      rkf_attempt M width_ height_ s = Some (Rejected s2)
      /\ (forall fuel, adaptiveRungeKutta M width_ height_ (S fuel) s
                       = adaptiveRungeKutta M width_ height_ fuel s2)
      /\ State.cur_dt (state_ s2)
         = (dt * (0.9 * c_exp M (- c_log M (rkf_maxerr s1) / 4.0)))%float
      /\ pointwise (fun _ m m2 =>
                      kept m m2
                      /\ (Mass.free m = true -> pv m2 = Mass.old m)
                      /\ (Mass.free m = false -> pv m2 = pv m))
                   (masses_ s) (masses_ s2)
  else
    rkf_attempt M width_ height_ s = Some (Accepted (on_free rkf_next s1))
    /\ (dt = DT_MIN \/ D.isNaN dt = true).
Proof.
  intros Hst Herr dt.
  pose proof (geb_not_ltb _ _ Herr) as Hlt.
  destruct (rkf_stages_trace _ _ _ _ _ Hst) as (P & _ & T).
  assert (Hattempt : rkf_attempt M width_ height_ s = Some (rkf_decide M s1))
    by (unfold rkf_attempt; now rewrite Hst).
  unfold rkf_decide in Hattempt. rewrite Hlt in Hattempt. fold dt in Hattempt.
  destruct (D.gtb dt DT_MIN) eqn:Hgt.
  - eexists. split; [exact Hattempt|]. split; [|split].
    + intros fuel. cbn [adaptiveRungeKutta]. rewrite Hattempt. reflexivity.
    + reflexivity.
    + cbn [masses_ scale_dt set_state on_free set_masses].
      eapply pointwise_trans; [|exact P|exact (on_free_stepped rkf_rollback s1)].
      cbn beta. intros j a b c Hab Hbc. unfold stepped in Hbc. subst c. pose proof (rkf_trace_kept _ _ _ Hab) as Hk.
      pose proof (kept_free _ _ Hk) as Hfree. destruct Hk as (St & Old & Hrest).
      unfold rkf_rollback. rewrite Hfree. destruct (Mass.free a) eqn:Hfa.
      * split; [|split; [intros _|discriminate]].
        -- repeat split; cbn; tauto.
        -- cbn. rewrite <- Old. now destruct (Mass.old b).
      * split; [repeat split; tauto|]. split; [discriminate|]. intros _.
        apply accelerated_pv. eapply rkf_trace_not_free; eassumption.
  - split; [exact Hattempt|].
    pose proof (rkf_clamp_not_below s) as Hnb.
    rewrite <- (same_but_center_dt _ _ T) in Hnb. fold dt in Hnb.
    eapply (at_bound dt DT_MIN); [reflexivity | exact Hnb | exact Hgt].
Qed.

Lemma adaptive_step_rejection_witness :
  exists s2,
    rkf_attempt Scene.libm 400 400 Scene.too_coarse = Some (Rejected s2)
    /\ (forall fuel, adaptiveRungeKutta Scene.libm 400 400 (S fuel) Scene.too_coarse
                     = adaptiveRungeKutta Scene.libm 400 400 fuel s2).
Proof.
  destruct (rkf_stages Scene.libm 400 400 Scene.too_coarse) as [s1|] eqn:E;
    [|vm_compute in E; discriminate].
  assert (Herr : D.geb (rkf_maxerr s1) 1.0 = true)
    by (vm_compute in E; injection E as <-; vm_compute; reflexivity).
  assert (Hgt : D.gtb (State.cur_dt (state_ s1)) DT_MIN = true)
    by (vm_compute in E; injection E as <-; vm_compute; reflexivity).
  pose proof (adaptive_step_rejection Scene.libm 400 400 Scene.too_coarse s1 E Herr) as H.
  cbv zeta in H. rewrite Hgt in H. destruct H as (s2 & H1 & H2 & _).
  exists s2. split; assumption.
Defined.

(** C1 as stated does not hold when [cur_dt] is NaN: the clamp leaves it,
    the error ratio is 0.00001 / 0.000001 = 10, [cur_dt > DT_MIN] is false
    and the step is committed with [cur_dt] not at [DT_MIN]. *)
Lemma accepted_with_nan_step : ~ accepted_only_at_dt_min.
Proof.
  intros H.
  destruct (rkf_stages Scene.libm 400 400 Scene.nan_step) as [s1|] eqn:E;
    [|vm_compute in E; discriminate].
  assert (Herr : D.geb (rkf_maxerr s1) 1.0 = true)
    by (vm_compute in E; injection E as <-; vm_compute; reflexivity).
  assert (Hgt : D.gtb (State.cur_dt (state_ s1)) DT_MIN = false)
    by (vm_compute in E; injection E as <-; vm_compute; reflexivity).
  pose proof (adaptive_step_rejection Scene.libm 400 400 Scene.nan_step s1 E Herr) as Ha.
  cbv zeta in Ha. rewrite Hgt in Ha. destruct Ha as [Ha _].
  specialize (H Scene.libm 400 400 Scene.nan_step s1 _ E Herr Ha).
  assert (Hne : (State.cur_dt (state_ s1) =? DT_MIN)%float = false)
    by (vm_compute in E; injection E as <-; vm_compute; reflexivity).
  rewrite H in Hne. clear -Hne. vm_compute in Hne. exact (Bool.diff_true_false Hne).
Qed.

(** ** FIXED masses *)

Lemma anchored_refl m : anchored m m.
Proof. intros _. auto. Qed.

Lemma anchored_trans a b c : anchored a b -> anchored b c -> anchored a c.
Proof.
  unfold anchored. intros H1 H2 Ha. destruct (H1 Ha) as [S1 P1].
  assert (Hb : Mass.isFixed b = true) by (unfold Mass.isFixed in *; now rewrite S1).
  destruct (H2 Hb) as [S2 P2]. split; congruence.
Qed.

Lemma fixed_not_free m : Mass.isFixed m = true -> Mass.free m = false.
Proof. unfold Mass.free. intros ->. apply andb_false_r. Qed.

Lemma stepped_anchored f m m' : stepped f m m' -> anchored m m'.
Proof.
  intros -> Hfix. rewrite (fixed_not_free _ Hfix). auto.
Qed.

Lemma accelerated_anchored m m' : accelerated m m' -> anchored m m'.
Proof. intros (ax & ay & ->) _. auto. Qed.

Lemma unlinked_anchored j m m' : unlinked j m m' -> anchored m m'.
Proof. intros [-> _] _. auto. Qed.

Lemma pointwise_anchored_trans a b c :
  pointwise (fun _ => anchored) a b -> pointwise (fun _ => anchored) b c ->
  pointwise (fun _ => anchored) a c.
Proof. apply pointwise_trans. intros j. apply anchored_trans. Qed.

Lemma pointwise_anchored_refl a : pointwise (fun _ => anchored) a a.
Proof. apply pointwise_refl. intros j. apply anchored_refl. Qed.

Lemma on_free_anchored f s :
  pointwise (fun _ => anchored) (masses_ s) (masses_ (on_free f s)).
Proof.
  eapply pointwise_weaken; [|apply on_free_stepped].
  intros j a b. apply stepped_anchored.
Qed.

Lemma rungeKutta_anchored M width_ height_ h testloc s s' :
  rungeKutta M width_ height_ h testloc s = Some s' ->
  pointwise (fun _ => anchored) (masses_ s) (masses_ s').
Proof.
  intros E. apply rungeKutta_trace in E as (P & _).
  eapply pointwise_weaken; [|exact P].
  intros j a b Hab Hfix. split.
  - apply rk4_trace_kept in Hab. apply Hab.
  - apply accelerated_pv. eapply rk4_trace_not_free; [|exact Hab].
    now apply fixed_not_free.
Qed.

Lemma rkf_stages_anchored M width_ height_ s s1 :
  rkf_stages M width_ height_ s = Some s1 ->
  pointwise (fun _ => anchored) (masses_ s) (masses_ s1).
Proof.
  intros E. apply rkf_stages_trace in E as (P & _).
  eapply pointwise_weaken; [|exact P].
  intros j a b Hab Hfix. split.
  - apply rkf_trace_kept in Hab. apply Hab.
  - apply accelerated_pv. eapply rkf_trace_not_free; [|exact Hab].
    now apply fixed_not_free.
Qed.

Lemma adaptiveRungeKutta_anchored M width_ height_ fuel : forall s s',
  adaptiveRungeKutta M width_ height_ fuel s = Some s' ->
  pointwise (fun _ => anchored) (masses_ s) (masses_ s').
Proof.
  induction fuel as [|fuel IH]; intros s s' E; [discriminate|].
  cbn [adaptiveRungeKutta] in E. unfold rkf_attempt in E.
  destruct (rkf_stages M width_ height_ s) as [s1|] eqn:E1; [|discriminate].
  cbn [mbind option_bind] in E.
  apply rkf_stages_anchored in E1. unfold rkf_decide in E.
  destruct (rkf_maxerr s1 <? 1)%float.
  - inversion E; subst s'. eapply pointwise_anchored_trans; [exact E1|].
    apply (on_free_anchored rkf_next (scale_dt _ s1)).
  - destruct (D.gtb _ _).
    + apply IH in E. eapply pointwise_anchored_trans; [exact E1|].
      eapply pointwise_anchored_trans; [|exact E].
      apply (on_free_anchored rkf_rollback s1).
    + inversion E; subst s'. eapply pointwise_anchored_trans; [exact E1|].
      apply (on_free_anchored rkf_next s1).
Qed.

Lemma integrate_anchored M width_ height_ fuel s s' :
  integrate M width_ height_ fuel s = Some s' ->
  pointwise (fun _ => anchored) (masses_ s) (masses_ s').
Proof.
  unfold integrate. intros E.
  eapply pointwise_anchored_trans; [apply (on_free_anchored snapshot s)|].
  destruct (State.adaptive_step _).
  - destruct (any_spring _).
    + eapply adaptiveRungeKutta_anchored, E.
    + apply rungeKutta_anchored in E. exact E.
  - eapply rungeKutta_anchored, E.
Qed.

Lemma modMass_anchored i f s s' :
  modMass i f s = Some s' ->
  (forall a, getMass s i = Some a -> anchored a (f a)) ->
  pointwise (fun _ => anchored) (masses_ s) (masses_ s').
Proof.
  unfold modMass. destruct (modify (masses_ s) i f) as [ms|] eqn:E; [|discriminate].
  intros [= <-] Hf. cbn.
  eapply pointwise_modify; [exact E | exact Hf | intros; apply anchored_refl].
Qed.

Lemma deleteSpring_masses p s s' :
  deleteSpring p s = Some s' -> pointwise unlinked (masses_ s) (masses_ s').
Proof.
  intros E. destruct (getSpring s p) as [c|] eqn:Hc.
  - now destruct (deleteSpring_inv _ _ _ _ E Hc) as (_ & _ & P).
  - unfold deleteSpring in E. rewrite Hc in E. discriminate.
Qed.

(** Deleting a mass that is not FIXED leaves the FIXED ones alone. *)
Lemma deleteMass_anchored which s s' m :
  deleteMass which s = Some s' ->
  getMass s which = Some m -> Mass.isFixed m = false ->
  pointwise (fun _ => anchored) (masses_ s) (masses_ s').
Proof.
  unfold deleteMass. intros E Hm Hfix. rewrite Hm in E. cbn [mbind option_bind] in E.
  assert (Hinner : forall t, (if Mass.isAlive m
                    then s0 ← modMass which (Mass.set_status 0) s;
                         for_each deleteSpring (Mass.parents m) s0
                    else Some s) = Some t ->
                   pointwise (fun _ => anchored) (masses_ s) (masses_ t)).
  { intros t Et. destruct (Mass.isAlive m).
    - destruct (modMass which (Mass.set_status 0) s) as [s0|] eqn:E0; [|discriminate].
      cbn [mbind option_bind] in Et.
      eapply pointwise_anchored_trans.
      + eapply modMass_anchored; [exact E0|]. intros a Ha Hf.
        unfold getMass in *. congruence.
      + eapply (for_each_inv (fun t => pointwise (fun _ => anchored) (masses_ s0) (masses_ t)));
          [|exact Et|apply pointwise_anchored_refl].
        intros p t1 t2 Hp Ht1. eapply pointwise_anchored_trans; [exact Ht1|].
        eapply pointwise_weaken; [|eapply deleteSpring_masses, Hp].
        apply unlinked_anchored.
    - inversion Et; subst. apply pointwise_anchored_refl. }
  destruct (if Mass.isAlive m then _ else _) as [t|] eqn:Et; [|discriminate].
  cbn [mbind option_bind] in E. inversion E; subst s'.
  destruct (Z.eqb _ _); cbn; apply Hinner; reflexivity.
Qed.

Lemma free_not_fixed m : Mass.free m = true -> Mass.isFixed m = false.
Proof.
  unfold Mass.free. intros H. apply andb_prop in H as [_ H].
  now apply negb_true_iff in H.
Qed.

Lemma wall_body_anchored width_ height_ stick_mag i s s' :
  wall_body width_ height_ stick_mag i s = Some s' ->
  pointwise (fun _ => anchored) (masses_ s) (masses_ s').
Proof.
  unfold wall_body. destruct (getMass s i) as [m|] eqn:Hm; [|discriminate].
  cbn [mbind option_bind]. destruct (Mass.free m) eqn:Hfree.
  - pose proof (free_not_fixed _ Hfree) as Hfix.
    assert (Hmod : forall f t, modMass i f s = Some t ->
              pointwise (fun _ => anchored) (masses_ s) (masses_ t)).
    { intros f t Et. eapply modMass_anchored; [exact Et|].
      intros a Ha Hf. congruence. }
    destruct (exploded m).
    + intros E. eapply deleteMass_anchored; eassumption.
    + destruct (stuck _ _ _ _ _); apply Hmod.
  - intros [= <-]. apply pointwise_anchored_refl.
Qed.

Lemma walls_anchored width_ height_ s s' :
  walls width_ height_ s = Some s' ->
  pointwise (fun _ => anchored) (masses_ s) (masses_ s').
Proof.
  unfold walls, for_upto. intros E.
  eapply (for_each_inv (fun t => pointwise (fun _ => anchored) (masses_ s) (masses_ t)));
    [|exact E|apply pointwise_anchored_refl].
  intros i t t' Hi Ht. eapply pointwise_anchored_trans; [exact Ht|].
  eapply wall_body_anchored, Hi.
Qed.

Lemma collide_pair_anchored i r x y j s s' :
  collide_pair i r x y j s = Some s' ->
  pointwise (fun _ => anchored) (masses_ s) (masses_ s').
Proof.
  unfold collide_pair.
  destruct (getMass s i) as [m1|] eqn:H1; [|discriminate]. cbn [mbind option_bind].
  destruct (getMass s j) as [m2|] eqn:H2; [|discriminate]. cbn [mbind option_bind].
  destruct (has_bit (Mass.status m2) S_ALIVE);
    [|intros [= <-]; apply pointwise_anchored_refl].
  destruct (_ <? _)%float; [|intros [= <-]; apply pointwise_anchored_refl].
  destruct (D.gtb _ _ || D.gtb _ _); [|intros [= <-]; apply pointwise_anchored_refl].
  destruct (has_bit (Mass.status m1) S_FIXED) eqn:F1; cbn [negb mbind option_bind].
  - destruct (has_bit (Mass.status m2) S_FIXED) eqn:F2; cbn [negb].
    + intros [= <-]. apply pointwise_anchored_refl.
    + intros E. eapply modMass_anchored; [exact E|].
      intros a Ha Hf. unfold Mass.isFixed in Hf. congruence.
  - destruct (modMass i _ s) as [t|] eqn:Et; [|discriminate]. cbn [mbind option_bind].
    assert (Pt : pointwise (fun _ => anchored) (masses_ s) (masses_ t)).
    { eapply modMass_anchored; [exact Et|].
      intros a Ha Hf. unfold Mass.isFixed in Hf. congruence. }
    destruct (has_bit (Mass.status m2) S_FIXED) eqn:F2; cbn [negb].
    + intros [= <-]. exact Pt.
    + intros E. eapply pointwise_anchored_trans; [exact Pt|].
      eapply modMass_anchored; [exact E|].
      intros a Ha Hf.
      (* the mass [j] in [t]: its status is that of [m2] *)
      apply modMass_inv in Et as (m1' & Hm1' & ->).
      unfold getMass in *. cbn in Ha. rewrite (at_insert _ _ _ _ _ Hm1') in Ha.
      destruct (Z.eqb_spec j i) as [->|].
      * inversion Ha; subst a. unfold Mass.isFixed in Hf. cbn in Hf.
        assert (m1' = m1) by congruence. subst. congruence.
      * unfold Mass.isFixed in Hf. congruence.
Qed.

Lemma collisions_anchored s s' :
  collisions s = Some s' ->
  pointwise (fun _ => anchored) (masses_ s) (masses_ s').
Proof.
  unfold collisions. destruct (State.collide _);
    [|intros [= <-]; apply pointwise_anchored_refl].
  intros E.
  eapply (for_each_inv (fun t => pointwise (fun _ => anchored) (masses_ s) (masses_ t)));
    [|exact E|apply pointwise_anchored_refl].
  intros i t t' Hi Ht. eapply pointwise_anchored_trans; [exact Ht|].
  unfold collide_from in Hi.
  destruct (getMass t (Z.of_nat i)) as [m1|]; [|discriminate]. cbn [mbind option_bind] in Hi.
  destruct (has_bit _ _); [|inversion Hi; subst; apply pointwise_anchored_refl].
  eapply (for_each_inv (fun u => pointwise (fun _ => anchored) (masses_ t) (masses_ u)));
    [|exact Hi|apply pointwise_anchored_refl].
  intros j u u' Hj Hu. eapply pointwise_anchored_trans; [exact Hu|].
  eapply collide_pair_anchored, Hj.
Qed.

(** C10.  A call of [advance] that returns leaves every mass whose status
    includes FIXED where it was: same index, same status, same position
    [(x, y)] and same velocity [(vx, vy)] - whatever forces, walls and
    collision flag are set. *)
Theorem fixed_mass_unmoved (M : Libm) (width_ height_ : Z) (fuel : nat)
    (s s' : System) (p p' : Pacer) (b : bool) :
  advance M width_ height_ fuel s p = Some (b, s', p') ->
  forall i m, getMass s i = Some m -> Mass.isFixed m = true ->
    exists m', getMass s' i = Some m'
      /\ Mass.status m' = Mass.status m
      /\ Mass.x m' = Mass.x m /\ Mass.y m' = Mass.y m
      /\ Mass.vx m' = Mass.vx m /\ Mass.vy m' = Mass.vy m.
Proof.
  unfold advance. intros E i m Hm Hfix.
  destruct (integrate M width_ height_ fuel s) as [s1|] eqn:E1; [|discriminate].
  cbn [mbind option_bind] in E.
  destruct (walls width_ height_ s1) as [s2|] eqn:E2; [|discriminate].
  cbn [mbind option_bind] in E.
  destruct (collisions s2) as [s3|] eqn:E3; [|discriminate].
  cbn [mbind option_bind] in E.
  destruct (pace _ _) as [due q]. inversion E; subst b s' p'. clear E.
  apply integrate_anchored in E1. apply walls_anchored in E2.
  apply collisions_anchored in E3.
  pose proof (pointwise_anchored_trans _ _ _ E1
                (pointwise_anchored_trans _ _ _ E2 E3)) as [_ P].
  destruct (P i m Hm) as (m' & Hm' & Ha). destruct (Ha Hfix) as [Hs Hpv].
  exists m'. split; [exact Hm'|]. split; [exact Hs|].
  unfold pv in Hpv. inversion Hpv. auto.
Qed.

Lemma fixed_mass_unmoved_witness :
  exists b s' p' m',
    advance Scene.libm 400 400 1 Scene.anchor Pacer0 = Some (b, s', p')
    /\ getMass s' 1 = Some m'
    /\ Mass.x m' = 100%float /\ Mass.vx m' = 7%float.
Proof.
  destruct (advance Scene.libm 400 400 1 Scene.anchor Pacer0) as [[[b s'] p']|] eqn:E;
    [|vm_compute in E; discriminate].
  destruct (fixed_mass_unmoved _ _ _ _ _ _ _ _ _ E 1
              (Scene.mass_at 100 100 7 0 1 (S_ALIVE + S_FIXED) [1]) eq_refl eq_refl)
    as (m' & Hm' & _ & Hx & _ & Hvx & _).
  exists b, s', p', m'. auto.
Defined.

(** ** Wall stick *)

(** With stickiness 0 the threshold is zero or NaN. *)
Lemma threshold_zero_or_nan s mass :
  (State.cur_stick (state_ s) =? 0)%float = true ->
  D.zero_or_nan (stick_mag_of s / mass) = true.
Proof.
  intros H. apply zero_or_nan_div_l. unfold stick_mag_of.
  apply zero_or_nan_mul_r, eqb_zero, H.
Qed.

(** C4 as stated does not hold in a corner.  A free mass at rest in the
    bottom-left corner, pulled along the bottom wall: it is within 0.5 of
    the enabled bottom wall and its new [vy] is 0, below the threshold
    0.025; but it is near the left wall too, only [vx = 2.4997...] is
    tested, and it is not pinned: [advance] returns it with that
    velocity. *)
Lemma corner_not_pinned : ~ pinned_at_bottom_wall.
Proof.
  intros H.
  destruct (integrate Scene.libm 400 400 1 Scene.corner) as [s|] eqn:E;
    [|vm_compute in E; discriminate].
  destruct (advance Scene.libm 400 400 1 Scene.corner Pacer0) as [[[due s'] p']|] eqn:Ea;
    [|vm_compute in Ea; discriminate].
  assert (Hm : exists m, getMass s 1 = Some m /\ Mass.free m = true
             /\ (Mass.old_vx m =? 0)%float = true /\ (Mass.old_vy m =? 0)%float = true
             /\ State.w_bottom (state_ s) = true
             /\ (abs (Mass.old_y m - D.of_int (screenRadius (Mass.radius m))) <? 0.5)%float
                = true
             /\ (abs (Mass.vy m) <? stick_mag_of s / Mass.mass m)%float = true).
  { vm_compute in E. injection E as <-. eexists. split; [reflexivity|].
    vm_compute. repeat split. }
  destruct Hm as (m & Hm & Hfree & Hvx & Hvy & Hb & Hnear & Hthr).
  destruct (H Scene.libm 400 400 1%nat Scene.corner Pacer0 s due s' p' 1 m E Ea Hm Hfree
              Hvx Hvy Hb Hnear Hthr) as (m' & Hm' & _ & _ & Hvx' & _).
  assert (Hne : exists m'', getMass s' 1 = Some m'' /\ (Mass.vx m'' =? 0)%float = false).
  { clear -Ea. vm_compute in Ea. injection Ea as _ <- _. eexists. split; reflexivity. }
  destruct Hne as (m'' & Hm'' & Hne).
  assert (m'' = m') by congruence. subst m''. rewrite Hvx' in Hne.
  clear -Hne. vm_compute in Hne. exact (Bool.diff_true_false Hne).
Qed.

(** ** Exploded masses *)

Lemma exploded_off_scale m : on_scale m = false -> exploded m = true.
Proof.
  unfold on_scale, exploded. intros H.
  apply andb_false_iff in H as [H|H]; [apply andb_false_iff in H as [H|H];
    [apply andb_false_iff in H as [H|H]|]|];
    rewrite (neb_sub_self _ H); cbn; now rewrite ?orb_true_r.
Qed.

Lemma modMass_pointwise (R : Z -> Mass -> Mass -> Prop) i f s s' :
  modMass i f s = Some s' ->
  (forall a, getMass s i = Some a -> R i a (f a)) -> (forall j a, R j a a) ->
  pointwise R (masses_ s) (masses_ s').
Proof.
  unfold modMass. destruct (modify (masses_ s) i f) as [ms|] eqn:E; [|discriminate].
  intros [= <-] Hf Hrefl. cbn. eapply pointwise_modify; eassumption.
Qed.

(** What [deleteMass] does to the masses: the status of the deleted one
    is cleared, and parent lists of live masses are edited. *)
Lemma deleteMass_masses which s s' m :
  deleteMass which s = Some s' ->
  getMass s which = Some m -> Mass.isAlive m = true ->
  pointwise (fun j a a' => unlinked j (if Z.eqb j which then Mass.set_status 0 a else a) a')
    (masses_ s) (masses_ s').
Proof.
  unfold deleteMass. intros E Hm Halive. rewrite Hm in E. cbn [mbind option_bind] in E.
  rewrite Halive in E.
  destruct (modMass which (Mass.set_status 0) s) as [s0|] eqn:E0; [|discriminate].
  cbn [mbind option_bind] in E.
  destruct (for_each deleteSpring (Mass.parents m) s0) as [t|] eqn:Et; [|discriminate].
  cbn [mbind option_bind] in E.
  assert (Pt : pointwise (fun j a a' =>
                 unlinked j (if Z.eqb j which then Mass.set_status 0 a else a) a')
                 (masses_ s) (masses_ t)).
  { assert (P0 : pointwise (fun j a b =>
                   b = if Z.eqb j which then Mass.set_status 0 a else a)
                   (masses_ s) (masses_ s0)).
    { apply modMass_inv in E0 as (a & Ha & ->). cbn. split.
      - apply length_insert.
      - intros j b Hb. unfold getMass in Ha. rewrite (at_insert _ _ _ _ _ Ha).
        destruct (Z.eqb_spec j which) as [->|].
        + exists (Mass.set_status 0 a). split; [reflexivity|]. congruence.
        + eauto. }
    eapply pointwise_trans with (R2 := unlinked); [|exact P0|].
    - intros j a b c -> H. exact H.
    - eapply (for_each_inv (fun t => pointwise unlinked (masses_ s0) (masses_ t)));
        [|exact Et|apply pointwise_refl; intros; apply unlinked_refl].
      intros p t1 t2 Hp Ht1.
      eapply pointwise_trans; [apply unlinked_trans | exact Ht1 |].
      eapply deleteSpring_masses, Hp. }
  inversion E; subst s'. destruct (Z.eqb _ _); exact Pt.
Qed.

Lemma unlinked_status j m m' : unlinked j m m' -> Mass.status m' = Mass.status m.
Proof. intros [H _]. rewrite H. reflexivity. Qed.

Lemma unlinked_free j m m' : unlinked j m m' -> Mass.free m' = Mass.free m.
Proof.
  intros H. unfold Mass.free, Mass.isAlive, Mass.isFixed.
  now rewrite (unlinked_status _ _ _ H).
Qed.

Lemma unlinked_exploded j m m' : unlinked j m m' -> exploded m' = exploded m.
Proof. intros [H _]. rewrite H. reflexivity. Qed.

(** One pass of the wall loop leaves the other masses alone, up to
    parent lists of live masses. *)
Lemma wall_body_others width_ height_ stick_mag j s s' k a :
  wall_body width_ height_ stick_mag j s = Some s' ->
  k <> j -> getMass s k = Some a ->
  exists a', getMass s' k = Some a' /\ unlinked k a a'.
Proof.
  unfold wall_body. destruct (getMass s j) as [m|] eqn:Hm; [|discriminate].
  cbn [mbind option_bind]. intros E Hk Ha.
  assert (Hmod : forall f t, modMass j f s = Some t ->
            exists a', getMass t k = Some a' /\ unlinked k a a').
  { intros f t (b & Hb & ->)%modMass_inv. exists a. split; [|apply unlinked_refl].
    unfold getMass in *. cbn. rewrite (at_insert _ _ _ _ _ Hb).
    destruct (Z.eqb_spec k j); [contradiction | assumption]. }
  destruct (Mass.free m) eqn:Hfree.
  - destruct (exploded m).
    + apply andb_prop in Hfree as [Halive _].
      destruct (deleteMass_masses _ _ _ _ E Hm Halive) as [_ P].
      destruct (P k a Ha) as (a' & Ha' & U). exists a'. split; [exact Ha'|].
      destruct (Z.eqb_spec k j); [contradiction | exact U].
    + destruct (stuck _ _ _ _ _); eapply Hmod; exact E.
  - inversion E; subst s'. exists a. split; [assumption | apply unlinked_refl].
Qed.

(** The pass for an exploded free mass clears its status. *)
Lemma wall_body_exploded width_ height_ stick_mag i s s' m :
  wall_body width_ height_ stick_mag i s = Some s' ->
  getMass s i = Some m -> Mass.free m = true -> exploded m = true ->
  exists m', getMass s' i = Some m' /\ Mass.status m' = 0.
Proof.
  unfold wall_body. intros E Hm Hfree Hex. rewrite Hm in E.
  cbn [mbind option_bind] in E. rewrite Hfree, Hex in E.
  apply andb_prop in Hfree as [Halive _].
  destruct (deleteMass_masses _ _ _ _ E Hm Halive) as [_ P].
  destruct (P i m Hm) as (m' & Hm' & U). exists m'. split; [exact Hm'|].
  rewrite Z.eqb_refl in U. now rewrite (unlinked_status _ _ _ U).
Qed.

Lemma unlinked_deleted j m m' : unlinked j m m' -> Mass.status m = 0 -> Mass.status m' = 0.
Proof. intros U H. now rewrite (unlinked_status _ _ _ U). Qed.

(** Contact resolution writes velocities only. *)
Lemma collide_pair_status i r x y j s s' :
  collide_pair i r x y j s = Some s' ->
  pointwise (fun _ a a' => Mass.status a' = Mass.status a) (masses_ s) (masses_ s').
Proof.
  assert (Hrefl : forall t, pointwise (fun _ a a' => Mass.status a' = Mass.status a)
                              (masses_ t) (masses_ t))
    by (intros t; apply pointwise_refl; reflexivity).
  assert (Hmod : forall k vx vy t t',
            modMass k (fun m => Mass.set_vy vy (Mass.set_vx vx m)) t = Some t' ->
            pointwise (fun _ a a' => Mass.status a' = Mass.status a)
              (masses_ t) (masses_ t')).
  { intros k vx vy t t' Et. eapply modMass_pointwise; [exact Et| |]; reflexivity. }
  unfold collide_pair.
  destruct (getMass s i) as [m1|]; [|discriminate]. cbn [mbind option_bind].
  destruct (getMass s j) as [m2|]; [|discriminate]. cbn [mbind option_bind].
  destruct (has_bit (Mass.status m2) S_ALIVE); [|intros [= <-]; apply Hrefl].
  destruct (_ <? _)%float; [|intros [= <-]; apply Hrefl].
  destruct (D.gtb _ _ || D.gtb _ _); [|intros [= <-]; apply Hrefl].
  destruct (has_bit (Mass.status m1) S_FIXED); cbn [negb mbind option_bind].
  - destruct (has_bit (Mass.status m2) S_FIXED); cbn [negb].
    + intros [= <-]. apply Hrefl.
    + apply Hmod.
  - destruct (modMass i _ s) as [t|] eqn:Et; [|discriminate]. cbn [mbind option_bind].
    apply Hmod in Et.
    destruct (has_bit (Mass.status m2) S_FIXED); cbn [negb].
    + intros [= <-]. exact Et.
    + intros E. apply Hmod in E.
      eapply pointwise_trans; [|exact Et|exact E]. cbn. intros; congruence.
Qed.

Lemma collisions_status s s' :
  collisions s = Some s' ->
  pointwise (fun _ a a' => Mass.status a' = Mass.status a) (masses_ s) (masses_ s').
Proof.
  assert (Hrefl : forall t, pointwise (fun _ a a' => Mass.status a' = Mass.status a)
                              (masses_ t) (masses_ t))
    by (intros t; apply pointwise_refl; reflexivity).
  assert (Htrans : forall v1 v2 v3,
            pointwise (fun (_ : Z) (a a' : Mass) => Mass.status a' = Mass.status a) v1 v2 ->
            pointwise (fun (_ : Z) (a a' : Mass) => Mass.status a' = Mass.status a) v2 v3 ->
            pointwise (fun (_ : Z) (a a' : Mass) => Mass.status a' = Mass.status a) v1 v3).
  { intros v1 v2 v3. apply pointwise_trans. cbn. intros; congruence. }
  unfold collisions. destruct (State.collide _); [|intros [= <-]; apply Hrefl].
  intros E.
  eapply (for_each_inv (fun t => pointwise (fun _ a a' => Mass.status a' = Mass.status a)
                                   (masses_ s) (masses_ t)));
    [|exact E|apply Hrefl].
  intros i t t' Hi Ht. eapply Htrans; [exact Ht|].
  unfold collide_from in Hi.
  destruct (getMass t (Z.of_nat i)) as [m1|]; [|discriminate]. cbn [mbind option_bind] in Hi.
  destruct (has_bit _ _); [|inversion Hi; subst; apply Hrefl].
  eapply (for_each_inv (fun u => pointwise (fun _ a a' => Mass.status a' = Mass.status a)
                                   (masses_ t) (masses_ u)));
    [|exact Hi|apply Hrefl].
  intros j u u' Hj Hu. eapply Htrans; [exact Hu|].
  eapply collide_pair_status, Hj.
Qed.

(** C2 as worded fails for the velocity: the mass of [Scene.runaway]
    leaves the integration step with a NaN velocity, a finite position
    and a finite acceleration, and is alive when [advance] returns. *)
Lemma nan_velocity_survives : ~ nan_masses_deleted.
Proof.
  intros H.
  destruct (integrate Scene.libm 400 400 1 Scene.runaway) as [s1|] eqn:E1;
    [|vm_compute in E1; discriminate].
  destruct (advance Scene.libm 400 400 1 Scene.runaway Pacer0) as [[[due s'] p']|] eqn:E;
    [|vm_compute in E; discriminate].
  assert (Hm : exists m, getMass s1 1 = Some m /\ Mass.free m = true
                 /\ nan_position m || nan_velocity m || nan_acceleration m = true).
  { clear E H. vm_compute in E1. injection E1 as <-. eexists. split; [reflexivity|].
    split; vm_compute; reflexivity. }
  destruct Hm as (m & Hm & Hfree & Hnan).
  destruct (H _ _ _ _ _ _ _ _ _ _ _ _ E1 E Hm Hfree Hnan) as (m' & Hm' & Hdead).
  clear - E Hm' Hdead. vm_compute in E. injection E as _ <- _.
  vm_compute in Hm'. injection Hm' as <-. vm_compute in Hdead. discriminate.
Qed.

(** * Further properties of the code *)

(** ** [misc.cpp] *)

(** X1: for every radius whose doubling and the sum [25 + 2 * rad] are
    [int]s, no operation of [sphereSize] and of [sphereRadius] leaves
    the [int]s, [sphereSize] stays within the five sphere images, and
    [screenRadius] is 15 plus 5 per size: between 15 and 35. *)
Theorem sphereSize_bounds (radius : Z) :
  fits_int (2 * radius) -> fits_int (25 + 2 * radius) ->
  (let rad := Z.quot (25 + 2 * radius) 2 in
   let rad := if Z.ltb rad 15 then 15 else rad in
   fits_int (rad * 2) /\ fits_int (rad * 2 - 30)
   /\ fits_int (sphereSize radius * 10 + 30))
  /\ 0 <= sphereSize radius <= 4
  /\ screenRadius radius = 15 + 5 * sphereSize radius
  /\ 15 <= screenRadius radius <= 35.
Proof.
  unfold fits_int, INT_MIN, INT_MAX. intros H2 H25.
  set (q := Z.quot (25 + 2 * radius) 2).
  set (r := if Z.ltb q 15 then 15 else q).
  assert (Hr : 15 <= r) by (unfold r; destruct (Z.ltb_spec q 15); lia).
  assert (Hr2 : r * 2 <= 2 ^ 31 - 1).
  { unfold r. destruct (Z.ltb_spec q 15); [lia|].
    assert (Hpos : 0 <= 25 + 2 * radius).
    { destruct (Z.le_gt_cases 0 (25 + 2 * radius)) as [Hp|Hn]; [exact Hp|].
      assert (q <= 0) by (unfold q; apply Z.quot_le_upper_bound; lia). lia. }
    assert (Hm : 2 * q <= 25 + 2 * radius) by (unfold q; apply Z.mul_quot_le; lia).
    lia. }
  assert (H : 0 <= sphereSize radius <= 4).
  { unfold sphereSize. fold q. fold r.
    destruct (Z.leb_spec 30 (r * 2)); [|lia].
    assert (0 <= Z.quot (r * 2 - 30) 10) by (apply Z.quot_pos; lia).
    destruct (Z.ltb_spec 4 (Z.quot (r * 2 - 30) 10)); lia. }
  assert (E : screenRadius radius = 15 + 5 * sphereSize radius).
  { unfold screenRadius, sphereRadius.
    replace (sphereSize radius * 10 + 30) with ((15 + 5 * sphereSize radius) * 2) by lia.
    apply Z.quot_mul. lia. }
  split; [cbn zeta; fold q; fold r; lia|].
  split; [exact H|]. split; [exact E|]. lia.
Qed.

Lemma sphereSize_bounds_witness :
  fits_int (2 * 1073741811) /\ 0 <= sphereSize 1073741811 <= 4.
Proof.
  assert (H2 : fits_int (2 * 1073741811)) by (unfold fits_int, INT_MIN, INT_MAX; lia).
  assert (H25 : fits_int (25 + 2 * 1073741811))
    by (unfold fits_int, INT_MIN, INT_MAX; lia).
  split; [exact H2|]. exact (proj1 (proj2 (sphereSize_bounds 1073741811 H2 H25))).
Defined.

(** ** Status bits *)

Lemma has_bit_clear st b : has_bit (clear_bit st b) b = false.
Proof.
  unfold has_bit, clear_bit. rewrite <- Z.land_assoc.
  rewrite (Z.land_comm (Z.lnot b)), Z.land_lnot_diag, Z.land_0_r. reflexivity.
Qed.

Lemma has_bit_set st b : b <> 0 -> has_bit (set_bit st b) b = true.
Proof.
  intros Hb. unfold has_bit, set_bit.
  replace (Z.land (Z.lor st b) b) with b; [now apply negb_true_iff, Z.eqb_neq|].
  apply Z.bits_inj'. intros n Hn.
  rewrite Z.land_spec, Z.lor_spec. now destruct (Z.testbit st n), (Z.testbit b n).
Qed.

Lemma clear_bit_idem st b : clear_bit (clear_bit st b) b = clear_bit st b.
Proof.
  unfold clear_bit. rewrite <- Z.land_assoc, Z.land_diag. reflexivity.
Qed.

Lemma clear_set_bit st b : clear_bit (set_bit st b) b = clear_bit st b.
Proof.
  unfold clear_bit, set_bit. apply Z.bits_inj'. intros n Hn.
  rewrite !Z.land_spec, Z.lor_spec, Z.lnot_spec by assumption.
  now destruct (Z.testbit st n), (Z.testbit b n).
Qed.

(** A bit of the status that [clear_bit _ S_SELECTED] keeps. *)
Lemma has_bit_other st st' b :
  Z.land b S_SELECTED = 0 ->
  clear_bit st' S_SELECTED = clear_bit st S_SELECTED ->
  has_bit st' b = has_bit st b.
Proof.
  intros Hb H. unfold has_bit. f_equal. f_equal.
  assert (E : forall x, Z.land x b = Z.land (clear_bit x S_SELECTED) b).
  { intros x. unfold clear_bit. apply Z.bits_inj'. intros n Hn.
    rewrite !Z.land_spec, Z.lnot_spec by assumption.
    assert (Hn2 : Z.testbit (Z.land b S_SELECTED) n = false) by (rewrite Hb; apply Z.bits_0).
    rewrite Z.land_spec in Hn2.
    destruct (Z.testbit x n), (Z.testbit b n), (Z.testbit S_SELECTED n);
      cbn in *; congruence. }
  rewrite (E st'), (E st), H. reflexivity.
Qed.

Lemma mass_but_selected_refl m : mass_but_selected m m.
Proof. split; [now destruct m | reflexivity]. Qed.

Lemma spring_but_selected_refl sp : spring_but_selected sp sp.
Proof. split; [now destruct sp | reflexivity]. Qed.

Lemma mass_setSelected b m : mass_but_selected m (Mass.setSelected b m).
Proof.
  split; [reflexivity|]. unfold Mass.setSelected. cbn.
  destruct b; [apply clear_set_bit | apply clear_bit_idem].
Qed.

Lemma spring_setSelected b sp : spring_but_selected sp (Spring.setSelected b sp).
Proof.
  split; [reflexivity|]. unfold Spring.setSelected. cbn.
  destruct b; [apply clear_set_bit | apply clear_bit_idem].
Qed.

Lemma mass_but_selected_alive m m' :
  mass_but_selected m m' ->
  Mass.isAlive m' = Mass.isAlive m /\ Mass.isFixed m' = Mass.isFixed m.
Proof.
  intros [_ H]. split.
  - apply (has_bit_other _ _ S_ALIVE eq_refl H).
  - apply (has_bit_other _ _ S_FIXED eq_refl H).
Qed.

Lemma spring_but_selected_alive sp sp' :
  spring_but_selected sp sp' -> Spring.isAlive sp' = Spring.isAlive sp.
Proof. intros [_ H]. apply (has_bit_other _ _ S_ALIVE eq_refl H). Qed.

Lemma existsb_map_false {A} (p : A -> bool) (f : A -> A) l :
  (forall a, p (f a) = false) -> existsb p (map f l) = false.
Proof.
  intros H. induction l as [|a l IH]; cbn; [reflexivity|]. now rewrite H, IH.
Qed.

(** ** Selection ([system.cpp]) *)

Lemma unselectAll_pointwise s :
  pointwise (fun _ => mass_but_selected) (masses_ s) (masses_ (unselectAll s))
  /\ pointwise (fun _ => spring_but_selected) (springs_ s) (springs_ (unselectAll s)).
Proof.
  split.
  - unfold unselectAll. cbn. apply pointwise_map. intros j m _.
    destruct (Mass.isSelected m);
      [apply mass_setSelected | apply mass_but_selected_refl].
  - unfold unselectAll. cbn. apply pointwise_map. intros j sp _.
    destruct (Spring.isSelected sp);
      [apply spring_setSelected | apply spring_but_selected_refl].
Qed.

Lemma selectAll_pointwise s :
  pointwise (fun _ m m' =>
               Mass.isSelected m' = Mass.isAlive m || Mass.isSelected m
               /\ mass_but_selected m m'
               /\ (Mass.isAlive m = false -> m' = m))
    (masses_ s) (masses_ (selectAll s))
  /\ pointwise (fun _ sp sp' =>
               Spring.isSelected sp' = Spring.isAlive sp || Spring.isSelected sp
               /\ spring_but_selected sp sp'
               /\ (Spring.isAlive sp = false -> sp' = sp))
    (springs_ s) (springs_ (selectAll s)).
Proof.
  split.
  - unfold selectAll. cbn. apply pointwise_map. intros j m _.
    destruct (Mass.isAlive m) eqn:E; cbn.
    + split; [|split; [apply mass_setSelected | discriminate]].
      now apply has_bit_set.
    + split; [reflexivity|]. split; [apply mass_but_selected_refl | reflexivity].
  - unfold selectAll. cbn. apply pointwise_map. intros j sp _.
    destruct (Spring.isAlive sp) eqn:E; cbn.
    + split; [|split; [apply spring_setSelected | discriminate]].
      now apply has_bit_set.
    + split; [reflexivity|]. split; [apply spring_but_selected_refl | reflexivity].
Qed.

(** X2: after [unselectAll] nothing is selected, and nothing but SELECTED
    bits has changed: every mass and spring is its former self up to that
    bit, so liveness and the FIXED flag stay; the parameters are
    untouched. *)
Theorem unselectAll_clears (s : System) :
  anythingSelected (unselectAll s) = false
  /\ pointwise (fun _ => mass_but_selected) (masses_ s) (masses_ (unselectAll s))
  /\ pointwise (fun _ => spring_but_selected) (springs_ s) (springs_ (unselectAll s))
  /\ state_ (unselectAll s) = state_ s.
Proof.
  split; [|split; [apply unselectAll_pointwise|split; [apply unselectAll_pointwise|]]].
  - unfold anythingSelected, unselectAll. cbn.
    rewrite !existsb_map_false; [reflexivity| |].
    + intros sp. destruct (Spring.isSelected sp) eqn:E; [|exact E].
      apply has_bit_clear.
    + intros m. destruct (Mass.isSelected m) eqn:E; [|exact E].
      apply has_bit_clear.
  - reflexivity.
Qed.

(** X3: after [selectAll] a mass or spring is selected exactly when it
    was alive or selected already; dead entities are left as they were,
    and nothing but SELECTED bits changes. *)
Theorem selectAll_selects_alive (s : System) :
  pointwise (fun _ m m' =>
               Mass.isSelected m' = Mass.isAlive m || Mass.isSelected m
               /\ mass_but_selected m m'
               /\ (Mass.isAlive m = false -> m' = m))
    (masses_ s) (masses_ (selectAll s))
  /\ pointwise (fun _ sp sp' =>
               Spring.isSelected sp' = Spring.isAlive sp || Spring.isSelected sp
               /\ spring_but_selected sp sp'
               /\ (Spring.isAlive sp = false -> sp' = sp))
    (springs_ s) (springs_ (selectAll s))
  /\ state_ (selectAll s) = state_ s.
Proof.
  split; [apply selectAll_pointwise|]. split; [apply selectAll_pointwise | reflexivity].
Qed.

(** [setCenter]: the loop from index [k] on. *)
Lemma setCenter_fold l : forall k cent returned,
  fold_left setCenter_step (combine (map Z.of_nat (seq k (length l))) l) (cent, returned)
  = if returned then (cent, true)
    else match indices_from Mass.isSelected k l with
         | [] => (cent, false)
         | i :: rest =>
             if Z.eqb cent (-1)
             then match rest with [] => (i, false) | _ => (i, true) end
             else (cent, true)
         end.
Proof.
  induction l as [|m l IH]; intros k cent returned; cbn [length seq map combine fold_left].
  - destruct returned; reflexivity.
  - destruct (setCenter_step (cent, returned) (Z.of_nat k, m)) as [c r] eqn:E.
    rewrite IH. cbn [indices_from]. unfold setCenter_step in E.
    destruct returned; [now inversion E|].
    destruct (Mass.isSelected m) eqn:Hsel; [|now inversion E].
    destruct (Z.eqb_spec cent (-1)) as [->|Hc]; cbn [negb] in E; inversion E; subst c r.
    + destruct (Z.eqb_spec (Z.of_nat k) (-1)) as [E'|_]; [lia|].
      destruct (indices_from Mass.isSelected (S k) l); reflexivity.
    + reflexivity.
Qed.

(** X4: [setCenter] makes the one selected mass the centre, clears the
    centre when no mass is selected, and changes nothing when two or more
    are selected. *)
Theorem setCenter_unique (s : System) :
  setCenter s = match selected_masses s with
                | [] => set_state (State.set_center_id (-1) (state_ s)) s
                | [i] => set_state (State.set_center_id i (state_ s)) s
                | _ => s
                end.
Proof.
  unfold setCenter, indexed, selected_masses, selected_from.
  rewrite setCenter_fold.
  destruct (indices_from Mass.isSelected 0 (masses_ s)) as [|i [|j rest]]; reflexivity.
Qed.

(** X5: [reset] forgets the system it is given: the result is always the
    same, the fake mass (FIXED, not ALIVE, linked to the fake spring) and
    the dead fake spring at index 0 with the default parameters; it is
    well formed and nothing in it is selected. *)
Theorem reset_initial (s : System) :
  reset s = Some initial
  /\ well_formed initial = true
  /\ anythingSelected initial = false.
Proof. repeat split. Qed.

(** [evalSelection]: the loops find nothing when nothing is selected. *)
Lemma evalSel_mass_none l :
  existsb Mass.isSelected l = false -> fold_left evalSel_mass l None = None.
Proof.
  induction l as [|m l IH]; cbn; [reflexivity|].
  intros [Hm Hl]%orb_false_iff. unfold evalSel_mass at 2. rewrite Hm. auto.
Qed.

Lemma evalSel_spring_none l :
  existsb Spring.isSelected l = false -> fold_left evalSel_spring l None = None.
Proof.
  induction l as [|m l IH]; cbn; [reflexivity|].
  intros [Hm Hl]%orb_false_iff. unfold evalSel_spring at 2. rewrite Hm. auto.
Qed.

Lemma sync_quiet same differs set st :
  snd (sync same differs set st) = false -> sync same differs set st = st /\ snd st = false.
Proof.
  unfold sync. destruct (same && differs); cbn; [discriminate | auto].
Qed.

Lemma sync_loud same differs set st :
  snd st = true -> snd (sync same differs set st) = true.
Proof. unfold sync. destruct (same && differs); cbn; auto. Qed.

(** X6: [evalSelection] writes parameters only, never a mass or a
    spring; when it answers [false] the system is exactly as before; and
    with nothing selected it answers [false]. *)
Theorem evalSelection_quiet (s : System) :
  (masses_ (snd (evalSelection s)) = masses_ s
   /\ springs_ (snd (evalSelection s)) = springs_ s)
  /\ (fst (evalSelection s) = false -> snd (evalSelection s) = s)
  /\ (anythingSelected s = false -> evalSelection s = (false, s)).
Proof.
  split; [split; reflexivity|]. split.
  - unfold evalSelection. cbn [fst snd].
    destruct (fold_left evalSel_spring (springs_ s) None) as [b|];
      destruct (fold_left evalSel_mass (masses_ s) None) as [a|]; intros H;
      repeat match type of H with
             | snd (sync _ _ _ _) = false =>
                 apply sync_quiet in H as [-> H]
             end; now destruct s.
  - unfold anythingSelected. intros [Hm Hs]%orb_false_iff.
    unfold evalSelection.
    rewrite (evalSel_mass_none _ Hm), (evalSel_spring_none _ Hs). now destruct s.
Qed.

(** ** Well-formed stores *)

Lemma has_mass_spec s i : has_mass s i = true <-> is_Some (getMass s i).
Proof.
  unfold has_mass, getMass, massCount. rewrite at_is_Some, andb_true_iff.
  rewrite Z.leb_le, Z.ltb_lt. reflexivity.
Qed.

Lemma has_spring_spec s p : has_spring s p = true <-> is_Some (getSpring s p).
Proof.
  unfold has_spring, getSpring, springCount. rewrite at_is_Some, andb_true_iff.
  rewrite Z.leb_le, Z.ltb_lt. reflexivity.
Qed.

Lemma at_In {A} (v : list A) i a : at_ v i = Some a -> In a v.
Proof. intros [_ H]%at_Some. apply list_elem_of_In. eapply list_elem_of_lookup_2, H. Qed.

Lemma In_at {A} (v : list A) a : In a v -> exists i, at_ v i = Some a.
Proof.
  intros H. apply list_elem_of_In, list_elem_of_lookup_1 in H as [n Hn].
  exists (Z.of_nat n). now rewrite at_of_nat.
Qed.

Lemma well_formed_spec s : well_formed s = true <-> links_in_range s.
Proof.
  unfold well_formed, links_in_range. rewrite !andb_true_iff, !forallb_forall, Z.ltb_lt.
  split.
  - intros ((((Hs & Hm) & Hc) & Hfm) & Hfs).
    split; [|split; [|split; [assumption | split; assumption]]].
    + intros k sp Hk Ha. specialize (Hs sp (at_In _ _ _ Hk)). rewrite Ha in Hs.
      cbn in Hs. now apply andb_prop in Hs.
    + intros i m Hi Ha p Hp. specialize (Hm m (at_In _ _ _ Hi)). rewrite Ha in Hm.
      cbn in Hm. rewrite forallb_forall in Hm. auto.
  - intros (Hs & Hm & Hc & Hfm & Hfs). repeat split; try assumption.
    + intros sp [k Hk]%In_at. destruct (Spring.isAlive sp) eqn:Ha; [|reflexivity].
      cbn. destruct (Hs k sp Hk Ha) as [-> ->]. reflexivity.
    + intros m [i Hi]%In_at. destruct (Mass.isAlive m) eqn:Ha; [|reflexivity].
      cbn. apply forallb_forall. intros p Hp. eapply Hm; eassumption.
Qed.

Lemma mass_fades_refl m : mass_fades m m.
Proof. split; [now left | apply incl_refl]. Qed.

Lemma spring_fades_refl sp : spring_fades sp sp.
Proof. split; [now left | split; reflexivity]. Qed.

Lemma mass_fades_trans a b c : mass_fades a b -> mass_fades b c -> mass_fades a c.
Proof.
  intros [S1 I1] [S2 I2]. split; [|eapply incl_tran; eassumption].
  destruct S2 as [S2|S2]; [rewrite S2; exact S1 | now right].
Qed.

Lemma spring_fades_trans a b c : spring_fades a b -> spring_fades b c -> spring_fades a c.
Proof.
  intros (S1 & A1 & B1) (S2 & A2 & B2). split; [|split; congruence].
  destruct S2 as [S2|S2]; [rewrite S2; exact S1 | now right].
Qed.

Lemma fades_refl s : fades s s.
Proof.
  split; [apply pointwise_refl; intros; apply mass_fades_refl|].
  split; [apply pointwise_refl; intros; apply spring_fades_refl|].
  split; [now left | split; reflexivity].
Qed.

Lemma fades_trans a b c : fades a b -> fades b c -> fades a c.
Proof.
  intros (M1 & S1 & C1 & F1 & G1) (M2 & S2 & C2 & F2 & G2).
  split; [eapply pointwise_trans; [|exact M1|exact M2]; intros j; apply mass_fades_trans|].
  split; [eapply pointwise_trans; [|exact S1|exact S2]; intros j; apply spring_fades_trans|].
  split; [|split; congruence].
  destruct C2 as [C2|C2]; [rewrite C2; exact C1 | now right].
Qed.

Lemma mass_fades_alive m m' :
  mass_fades m m' -> Mass.isAlive m' = true -> Mass.isAlive m = true.
Proof.
  intros [[S|S] _]; unfold Mass.isAlive; rewrite S; [auto | discriminate].
Qed.

Lemma spring_fades_alive sp sp' :
  spring_fades sp sp' -> Spring.isAlive sp' = true -> Spring.isAlive sp = true.
Proof.
  intros [[S|S] _]; unfold Spring.isAlive; rewrite S; [auto | discriminate].
Qed.

Lemma fades_counts s s' :
  fades s s' -> massCount s' = massCount s /\ springCount s' = springCount s.
Proof.
  intros ([Lm _] & [Ls _] & _). unfold massCount, springCount. now rewrite Lm, Ls.
Qed.

(** A well-formed store stays well formed under [fades]. *)
Lemma fades_well_formed s s' : well_formed s = true -> fades s s' -> well_formed s' = true.
Proof.
  rewrite !well_formed_spec. intros (Hs & Hm & Hc & Hfm & Hfs) F.
  destruct (fades_counts _ _ F) as [Cm Cs].
  destruct F as (Pm & Ps & C & Fm & Fs).
  assert (Em : forall i, has_mass s' i = has_mass s i)
    by (intros i; unfold has_mass; now rewrite Cm).
  assert (Es : forall i, has_spring s' i = has_spring s i)
    by (intros i; unfold has_spring; now rewrite Cs).
  split; [|split; [|split; [|split]]].
  - intros k sp' Hk Ha.
    destruct (pointwise_at _ _ _ _ _ Ps Hk) as (sp0 & Hk0 & F0).
    pose proof (spring_fades_alive _ _ F0 Ha) as Ha0.
    destruct F0 as (_ & E1 & E2). rewrite !Em, E1, E2. eapply Hs; eassumption.
  - intros i m' Hi Ha p Hp.
    destruct (pointwise_at _ _ _ _ _ Pm Hi) as (m0 & H0 & F0).
    rewrite Es. eapply Hm; [exact H0 | eapply mass_fades_alive; eassumption|].
    destruct F0 as [_ I]. apply I, Hp.
  - rewrite Cm. destruct C as [-> | ->]; [assumption|]. unfold massCount. lia.
  - now rewrite Em, Fm.
  - now rewrite Es, Fs.
Qed.

(** Selecting and unselecting keep a store well formed. *)
Lemma but_selected_well_formed s s' :
  pointwise (fun _ => mass_but_selected) (masses_ s) (masses_ s') ->
  pointwise (fun _ => spring_but_selected) (springs_ s) (springs_ s') ->
  rest_kept s s' ->
  well_formed s = true -> well_formed s' = true.
Proof.
  intros M S (K1 & K2 & K3). rewrite !well_formed_spec.
  intros (Hs & Hm & Hc & Hfm & Hfs).
  assert (Cm : massCount s' = massCount s)
    by (unfold massCount; destruct M as [L _]; now rewrite L).
  assert (Cs : springCount s' = springCount s)
    by (unfold springCount; destruct S as [L _]; now rewrite L).
  assert (Em : forall i, has_mass s' i = has_mass s i)
    by (intros i; unfold has_mass; now rewrite Cm).
  assert (Es : forall i, has_spring s' i = has_spring s i)
    by (intros i; unfold has_spring; now rewrite Cs).
  split; [|split; [|split; [|split]]].
  - intros k sp' Hk Ha.
    destruct (pointwise_at _ _ _ _ _ S Hk) as (sp0 & Hk0 & F0).
    pose proof (spring_but_selected_alive _ _ F0) as Ea.
    destruct F0 as [E _]. rewrite !Em, E. cbn.
    eapply Hs; [exact Hk0 | congruence].
  - intros i m' Hi Ha p Hp.
    destruct (pointwise_at _ _ _ _ _ M Hi) as (m0 & H0 & F0).
    destruct (mass_but_selected_alive _ _ F0) as [Ea _].
    destruct F0 as [E _]. rewrite Es. eapply Hm; [exact H0 | congruence|].
    rewrite E in Hp. exact Hp.
  - now rewrite Cm, K1.
  - now rewrite Em, K2.
  - now rewrite Es, K3.
Qed.

(** ** Deleting ([system.cpp]) *)

Lemma for_each_total {A S} (P : S -> Prop) (body : A -> S -> option S) l s :
  P s ->
  (forall a t, In a l -> P t -> exists t', body a t = Some t' /\ P t') ->
  exists s', for_each body l s = Some s' /\ P s'.
Proof.
  revert s. induction l as [|a l IH]; intros s HP Hbody; cbn.
  - eauto.
  - destruct (Hbody a s (or_introl eq_refl) HP) as (t & -> & HPt). cbn.
    apply IH; [exact HPt|]. intros b u Hb. apply Hbody. now right.
Qed.

Lemma pointwise_weaken_at {A} (R1 R2 : Z -> A -> A -> Prop) v v' :
  (forall j a b, at_ v j = Some a -> R1 j a b -> R2 j a b) ->
  pointwise R1 v v' -> pointwise R2 v v'.
Proof.
  intros H [L H1]. split; [assumption|].
  intros j a Ha. destruct (H1 j a Ha) as (b & Hb & Rab). eauto.
Qed.

Lemma pointwise_refl_at {A} (R : Z -> A -> A -> Prop) v :
  (forall j a, at_ v j = Some a -> R j a a) -> pointwise R v v.
Proof. intros H. split; [reflexivity | eauto]. Qed.

Lemma erase_first_incl p l : incl (erase_first p l) l.
Proof.
  induction l as [|q l IH]; cbn; [apply incl_refl|].
  destruct (Z.eqb q p); [apply incl_tl, incl_refl|].
  intros x [->|Hx]; [now left | right; now apply IH].
Qed.

Lemma mass_set_status_same m : Mass.set_status (Mass.status m) m = m.
Proof. now destruct m. Qed.

Lemma mass_pruned_refl m : mass_pruned m m.
Proof. split; [now destruct m | apply incl_refl]. Qed.

Lemma mass_pruned_trans a b c : mass_pruned a b -> mass_pruned b c -> mass_pruned a c.
Proof.
  intros [E1 I1] [E2 I2]. split; [|eapply incl_tran; eassumption].
  rewrite E2 at 1. rewrite E1 at 1. reflexivity.
Qed.

Lemma mass_pruned_status m m' : mass_pruned m m' -> Mass.status m' = Mass.status m.
Proof. intros [E _]. rewrite E. reflexivity. Qed.

Lemma mass_waned_to_status st m m' : mass_waned_to st m m' -> Mass.status m' = st.
Proof. intros H. now rewrite (mass_pruned_status _ _ H). Qed.

Lemma mass_pruned_waned m m' : mass_pruned m m' -> mass_waned_to (Mass.status m) m m'.
Proof. unfold mass_waned_to. now rewrite mass_set_status_same. Qed.

Lemma mass_waned_to_trans st1 st2 a b c :
  mass_waned_to st1 a b -> mass_waned_to st2 b c -> mass_waned_to st2 a c.
Proof.
  intros [E1 I1] [E2 I2]. split; [|eapply incl_tran; [exact I2 | exact I1]].
  rewrite E2 at 1. rewrite E1 at 1. reflexivity.
Qed.

Lemma mass_waned_to_fades st m m' :
  st = Mass.status m \/ st = 0 -> mass_waned_to st m m' -> mass_fades m m'.
Proof.
  intros Hst H. split; [|exact (proj2 H)].
  rewrite (mass_waned_to_status _ _ _ H). exact Hst.
Qed.

Lemma mass_pruned_fades m m' : mass_pruned m m' -> mass_fades m m'.
Proof.
  intros H. eapply mass_waned_to_fades; [|apply mass_pruned_waned, H]. now left.
Qed.

Lemma spring_waned_refl sp : spring_waned sp sp.
Proof. now left. Qed.

Lemma spring_waned_trans a b c : spring_waned a b -> spring_waned b c -> spring_waned a c.
Proof.
  intros [->| ->] [->| ->]; unfold spring_waned; [left|right|right|right]; reflexivity.
Qed.

Lemma spring_waned_killed sp : spring_waned sp (killed sp).
Proof. unfold killed. destruct (Spring.isAlive sp); [now right | now left]. Qed.

Lemma spring_waned_fades sp sp' : spring_waned sp sp' -> spring_fades sp sp'.
Proof.
  intros [->| ->]; [apply spring_fades_refl|]. split; [now right | split; reflexivity].
Qed.

Lemma spring_waned_dead sp sp' :
  spring_waned sp sp' -> Spring.isAlive sp = false -> Spring.isAlive sp' = false.
Proof. intros [->| ->]; auto. Qed.

Lemma rest_kept_refl s : rest_kept s s.
Proof. repeat split. Qed.

Lemma rest_kept_trans a b c : rest_kept a b -> rest_kept b c -> rest_kept a c.
Proof. unfold rest_kept. intuition congruence. Qed.

Lemma center_cleared_refl st : center_cleared st st.
Proof. now left. Qed.

Lemma center_cleared_trans a b c :
  center_cleared a b -> center_cleared b c -> center_cleared a c.
Proof.
  intros [->| ->] [->| ->]; unfold center_cleared; [left|right|right|right]; reflexivity.
Qed.

Lemma center_cleared_id st st' :
  center_cleared st st' ->
  State.center_id st' = State.center_id st \/ State.center_id st' = -1.
Proof. intros [->| ->]; auto. Qed.

Lemma pointwise_pruned_refl v : pointwise (fun _ => mass_pruned) v v.
Proof. apply pointwise_refl. intros; apply mass_pruned_refl. Qed.

Lemma pointwise_pruned_trans a b c :
  pointwise (fun _ => mass_pruned) a b -> pointwise (fun _ => mass_pruned) b c ->
  pointwise (fun _ => mass_pruned) a c.
Proof. apply pointwise_trans. intros j. apply mass_pruned_trans. Qed.

Lemma pointwise_waned_refl v : pointwise (fun _ => spring_waned) v v.
Proof. apply pointwise_refl. intros; apply spring_waned_refl. Qed.

Lemma pointwise_waned_trans a b c :
  pointwise (fun _ => spring_waned) a b -> pointwise (fun _ => spring_waned) b c ->
  pointwise (fun _ => spring_waned) a c.
Proof. apply pointwise_trans. intros j. apply spring_waned_trans. Qed.

Lemma deleteMassParent_pruned which parent s s' :
  deleteMassParent which parent s = Some s' ->
  pointwise (fun _ => mass_pruned) (masses_ s) (masses_ s')
  /\ springs_ s' = springs_ s /\ rest_kept s s'.
Proof.
  unfold deleteMassParent. destruct (getMass s which) as [m|]; [|discriminate].
  cbn [mbind option_bind]. destruct (Mass.isAlive m).
  - intros E. split.
    + eapply modMass_pointwise; [exact E| |intros; apply mass_pruned_refl].
      intros a _. split; [reflexivity | apply erase_first_incl].
    + apply modMass_inv in E as (a & _ & ->). repeat split.
  - intros [= <-]. split; [apply pointwise_pruned_refl|]. repeat split.
Qed.

Lemma deleteSpring_pruned p s s' :
  deleteSpring p s = Some s' ->
  pointwise (fun _ => mass_pruned) (masses_ s) (masses_ s')
  /\ pointwise (fun k sp sp' => sp' = if Z.eqb k p then killed sp else sp)
       (springs_ s) (springs_ s')
  /\ rest_kept s s'.
Proof.
  unfold deleteSpring. destruct (getSpring s p) as [c|] eqn:Hc; [|discriminate].
  cbn [mbind option_bind]. unfold killed. destruct (Spring.isAlive c) eqn:Ha.
  - rewrite (modSpring_Some _ _ _ _ Hc). cbn [mbind option_bind].
    set (s1 := set_springs _ s).
    destruct (deleteMassParent (Spring.m1 c) p s1) as [s2|] eqn:E2; [|discriminate].
    cbn [mbind option_bind]. intros E3.
    apply deleteMassParent_pruned in E2 as (M2 & S2 & K2).
    apply deleteMassParent_pruned in E3 as (M3 & S3 & K3).
    split; [eapply pointwise_pruned_trans; [exact M2 | exact M3]|]. split.
    + rewrite S3, S2. unfold s1. cbn. split; [apply length_insert|].
      intros k sp Hk. unfold getSpring in Hc. rewrite (at_insert _ _ _ _ _ Hc).
      destruct (Z.eqb_spec k p) as [->|].
      * exists (Spring.set_status 0 c). split; [reflexivity|].
        assert (sp = c) by congruence. subst sp. now rewrite Ha.
      * eauto.
    + eapply rest_kept_trans; [|exact K3]. eapply rest_kept_trans; [|exact K2].
      repeat split.
  - intros [= <-]. split; [apply pointwise_pruned_refl|]. split; [|apply rest_kept_refl].
    apply pointwise_refl_at. intros k sp Hk. destruct (Z.eqb_spec k p) as [->|]; [|reflexivity].
    unfold getSpring in Hc. assert (sp = c) by congruence. subst sp. now rewrite Ha.
Qed.

Lemma deleteSpring_waned p s s' :
  deleteSpring p s = Some s' ->
  pointwise (fun _ => mass_pruned) (masses_ s) (masses_ s')
  /\ pointwise (fun _ => spring_waned) (springs_ s) (springs_ s')
  /\ rest_kept s s'.
Proof.
  intros (M & S & K)%deleteSpring_pruned. split; [exact M|]. split; [|exact K].
  eapply pointwise_weaken; [|exact S]. intros k sp sp' ->.
  destruct (Z.eqb k p); [apply spring_waned_killed | apply spring_waned_refl].
Qed.

Lemma deleteSprings_waned l s s' :
  for_each deleteSpring l s = Some s' ->
  pointwise (fun _ => mass_pruned) (masses_ s) (masses_ s')
  /\ pointwise (fun _ => spring_waned) (springs_ s) (springs_ s')
  /\ rest_kept s s'.
Proof.
  intros E.
  eapply (for_each_inv (fun t =>
            pointwise (fun _ => mass_pruned) (masses_ s) (masses_ t)
            /\ pointwise (fun _ => spring_waned) (springs_ s) (springs_ t)
            /\ rest_kept s t)); [|exact E|].
  - intros p t t' (M & S & K)%deleteSpring_waned (M0 & S0 & K0).
    split; [eapply pointwise_pruned_trans; eassumption|].
    split; [eapply pointwise_waned_trans; eassumption|].
    eapply rest_kept_trans; eassumption.
  - split; [apply pointwise_pruned_refl|].
    split; [apply pointwise_waned_refl | apply rest_kept_refl].
Qed.

(** [deleteMass], seen from every mass and spring. *)
Lemma deleteMass_waned which s s' :
  deleteMass which s = Some s' ->
  pointwise (fun j m m' =>
               mass_waned_to (if Z.eqb j which && Mass.isAlive m then 0 else Mass.status m)
                             m m')
            (masses_ s) (masses_ s')
  /\ pointwise (fun _ => spring_waned) (springs_ s) (springs_ s')
  /\ state_ s' = (if Z.eqb which (State.center_id (state_ s))
                  then State.set_center_id (-1) (state_ s) else state_ s)
  /\ fakeMass_ s' = fakeMass_ s /\ fakeSpring_ s' = fakeSpring_ s.
Proof.
  unfold deleteMass. destruct (getMass s which) as [mw|] eqn:Hm; [|discriminate].
  cbn [mbind option_bind].
  assert (Hinner : forall t,
            (if Mass.isAlive mw
             then s0 ← modMass which (Mass.set_status 0) s;
                  for_each deleteSpring (Mass.parents mw) s0
             else Some s) = Some t ->
            pointwise (fun j m m' =>
               mass_waned_to (if Z.eqb j which && Mass.isAlive m then 0 else Mass.status m)
                             m m') (masses_ s) (masses_ t)
            /\ pointwise (fun _ => spring_waned) (springs_ s) (springs_ t)
            /\ rest_kept s t).
  { intros t Et. destruct (Mass.isAlive mw) eqn:Ha.
    - destruct (modMass which (Mass.set_status 0) s) as [s0|] eqn:E0; [|discriminate].
      cbn [mbind option_bind] in Et.
      apply deleteSprings_waned in Et as (M & S & K).
      apply modMass_inv in E0 as (a & Ha' & ->). cbn in M, S, K.
      assert (a = mw) by congruence. subst a.
      split; [|split; [exact S|]].
      + eapply pointwise_trans with
          (R1 := fun j m m1 => (m1 = if Z.eqb j which then Mass.set_status 0 m else m)
                               /\ (j = which -> m = mw));
          [| |exact M].
        * intros j m m1 m2 [-> Hj] P. unfold mass_waned_to.
          destruct (Z.eqb_spec j which) as [->|]; cbn [andb];
            [|now rewrite mass_set_status_same].
          rewrite (Hj eq_refl), Ha. rewrite (Hj eq_refl) in P. exact P.
        * split; [apply length_insert|]. intros j m Hj.
          unfold getMass in Hm. rewrite (at_insert _ _ _ _ _ Hm).
          destruct (Z.eqb_spec j which) as [->|].
          -- exists (Mass.set_status 0 mw). split; [reflexivity|].
             assert (m = mw) by congruence. subst m. split; auto.
          -- exists m. split; [assumption|]. split; [reflexivity | contradiction].
      + destruct K as (K1 & K2 & K3). repeat split; assumption.
    - inversion Et; subst t. split; [|split; [apply pointwise_waned_refl|apply rest_kept_refl]].
      apply pointwise_refl_at. intros j m Hj.
      destruct (Z.eqb_spec j which) as [->|]; cbn [andb];
        [|apply mass_pruned_waned, mass_pruned_refl].
      unfold getMass in Hm. assert (m = mw) by congruence. subst m. rewrite Ha.
      apply mass_pruned_waned, mass_pruned_refl. }
  destruct (if Mass.isAlive mw then _ else _) as [t|] eqn:Et; [|discriminate].
  cbn [mbind option_bind]. intros [= <-].
  destruct (Hinner t eq_refl) as (M & S & K1 & K2 & K3).
  rewrite K1. destruct (Z.eqb which (State.center_id (state_ s))); cbn; auto.
Qed.

Lemma pruned_waned_fades s s' :
  pointwise (fun _ => mass_pruned) (masses_ s) (masses_ s') ->
  pointwise (fun _ => spring_waned) (springs_ s) (springs_ s') ->
  rest_kept s s' -> fades s s'.
Proof.
  intros M S (K1 & K2 & K3).
  split; [eapply pointwise_weaken; [|exact M]; intros j; apply mass_pruned_fades|].
  split; [eapply pointwise_weaken; [|exact S]; intros j; apply spring_waned_fades|].
  rewrite K1. auto.
Qed.

Lemma deleteSpring_fades p s s' : deleteSpring p s = Some s' -> fades s s'.
Proof. intros (M & S & K)%deleteSpring_waned. now apply pruned_waned_fades. Qed.

Lemma deleteMass_fades which s s' : deleteMass which s = Some s' -> fades s s'.
Proof.
  intros (M & S & St & K2 & K3)%deleteMass_waned.
  split; [|split; [eapply pointwise_weaken; [|exact S]; intros j; apply spring_waned_fades|]].
  - eapply pointwise_weaken; [|exact M]. intros j m m'. apply mass_waned_to_fades.
    destruct (Z.eqb j which && Mass.isAlive m); auto.
  - rewrite St. destruct (Z.eqb which (State.center_id (state_ s))); cbn; auto.
Qed.

Lemma deleteSpring_total s p :
  well_formed s = true -> has_spring s p = true -> exists s', deleteSpring p s = Some s'.
Proof.
  intros Hwf Hp. apply has_spring_spec in Hp as [sp Hsp].
  apply well_formed_spec in Hwf as (Hs & _).
  destruct (deleteSpring_spec p s sp Hsp) as (s' & E & _); [|eauto].
  intros Ha. destruct (Hs p sp Hsp Ha) as [H1 H2].
  split; apply has_mass_spec; assumption.
Qed.

Lemma deleteMass_total s i :
  well_formed s = true -> has_mass s i = true -> exists s', deleteMass i s = Some s'.
Proof.
  intros Hwf Hi. apply has_mass_spec in Hi as [m Hm].
  unfold deleteMass. rewrite Hm. cbn [mbind option_bind].
  destruct (Mass.isAlive m) eqn:Ha; [|cbn; eauto].
  pose proof (modMass_Some i (Mass.set_status 0) s m Hm) as E0. rewrite E0.
  cbn [mbind option_bind]. set (s0 := set_masses _ s) in *.
  assert (F0 : fades s s0).
  { split; [|split; [apply pointwise_refl; intros; apply spring_fades_refl|]].
    - eapply modMass_pointwise; [exact E0| |intros; apply mass_fades_refl].
      intros a _. split; [now right | apply incl_refl].
    - split; [now left | split; reflexivity]. }
  destruct (for_each_total (fun t => fades s0 t) deleteSpring (Mass.parents m) s0)
    as (t & -> & _); [apply fades_refl| |cbn; eauto].
  intros p t Hp Ft.
  assert (Fst : fades s t) by (eapply fades_trans; eassumption).
  pose proof (fades_well_formed _ _ Hwf Fst) as Hwt.
  destruct (deleteSpring_total t p Hwt) as (t' & Et).
  - destruct (fades_counts _ _ Fst) as [_ Cs]. unfold has_spring. rewrite Cs.
    apply well_formed_spec in Hwf as (_ & Hpar & _). eapply Hpar; eassumption.
  - exists t'. split; [exact Et|]. eapply fades_trans; [exact Ft|].
    eapply deleteSpring_fades, Et.
Qed.

(** *** [deleteSelected] *)

Lemma in_run_0 k j : in_run k 0 j = false.
Proof.
  unfold in_run. destruct (Z.leb_spec (Z.of_nat k) j), (Z.ltb_spec j (Z.of_nat (k + 0)));
    cbn; try reflexivity; lia.
Qed.

Lemma in_run_step k n j :
  in_run k (S n) j = Z.eqb j (Z.of_nat k) || in_run (S k) n j.
Proof.
  unfold in_run.
  destruct (Z.leb_spec (Z.of_nat k) j), (Z.ltb_spec j (Z.of_nat (k + S n))),
    (Z.eqb_spec j (Z.of_nat k)), (Z.leb_spec (Z.of_nat (S k)) j),
    (Z.ltb_spec j (Z.of_nat (S k + n))); cbn; try reflexivity; lia.
Qed.

Lemma in_run_all {A} (v : list A) j a : at_ v j = Some a -> in_run 0 (length v) j = true.
Proof.
  intros H. assert (Hs : is_Some (at_ v j)) by eauto. apply at_is_Some in Hs.
  unfold in_run. destruct (Z.leb_spec (Z.of_nat 0) j), (Z.ltb_spec j (Z.of_nat (0 + length v)));
    cbn; try reflexivity; lia.
Qed.

Lemma deleteSelected_mass_step i t t1 :
  deleteSelected_mass i t = Some t1 ->
  pointwise (fun j m m1 =>
               mass_waned_to (if Z.eqb j i && Mass.isSelected m && Mass.isAlive m
                              then 0 else Mass.status m) m m1)
            (masses_ t) (masses_ t1)
  /\ pointwise (fun _ => spring_waned) (springs_ t) (springs_ t1)
  /\ center_cleared (state_ t) (state_ t1)
  /\ fakeMass_ t1 = fakeMass_ t /\ fakeSpring_ t1 = fakeSpring_ t.
Proof.
  unfold deleteSelected_mass. destruct (getMass t i) as [mi|] eqn:Hi; [|discriminate].
  cbn [mbind option_bind]. destruct (Mass.isSelected mi) eqn:Hsel.
  - intros (M & S & St & K2 & K3)%deleteMass_waned.
    split; [|split; [exact S|split; [|auto]]].
    + eapply pointwise_weaken_at; [|exact M]. intros j m m1 Hj. cbn beta.
      destruct (Z.eqb_spec j i) as [->|]; cbn [andb]; [|auto].
      unfold getMass in Hi. assert (m = mi) by congruence. subst m.
      now rewrite Hsel.
    + rewrite St. destruct (Z.eqb i (State.center_id (state_ t))); [now right | now left].
  - intros [= <-]. split; [|split; [apply pointwise_waned_refl|]].
    + apply pointwise_refl_at. intros j m Hj.
      destruct (Z.eqb_spec j i) as [->|]; cbn [andb];
        [|apply mass_pruned_waned, mass_pruned_refl].
      unfold getMass in Hi. assert (m = mi) by congruence. subst m. rewrite Hsel.
      apply mass_pruned_waned, mass_pruned_refl.
    + split; [apply center_cleared_refl | split; reflexivity].
Qed.

Lemma mass_waned_to_flags st m m' :
  mass_waned_to st m m' -> st = Mass.status m ->
  Mass.isSelected m' = Mass.isSelected m /\ Mass.isAlive m' = Mass.isAlive m.
Proof.
  intros H E. apply mass_waned_to_status in H.
  unfold Mass.isSelected, Mass.isAlive. now rewrite H, E.
Qed.

Lemma deleteSelected_masses_loop n : forall k t t',
  for_each deleteSelected_mass (map Z.of_nat (seq k n)) t = Some t' ->
  pointwise (fun j m m' =>
               mass_waned_to (if in_run k n j && Mass.isSelected m && Mass.isAlive m
                              then 0 else Mass.status m) m m')
            (masses_ t) (masses_ t')
  /\ pointwise (fun _ => spring_waned) (springs_ t) (springs_ t')
  /\ center_cleared (state_ t) (state_ t')
  /\ fakeMass_ t' = fakeMass_ t /\ fakeSpring_ t' = fakeSpring_ t.
Proof.
  induction n as [|n IH]; intros k t t'; cbn [seq map for_each].
  - intros [= <-]. split; [|split; [apply pointwise_waned_refl|]].
    + apply pointwise_refl. intros j m. rewrite in_run_0. cbn.
      apply mass_pruned_waned, mass_pruned_refl.
    + split; [apply center_cleared_refl | split; reflexivity].
  - destruct (deleteSelected_mass (Z.of_nat k) t) as [t1|] eqn:E1; [|discriminate].
    cbn [mbind option_bind]. intros E.
    apply deleteSelected_mass_step in E1 as (M1 & S1 & C1 & F1 & G1).
    apply IH in E as (M2 & S2 & C2 & F2 & G2).
    split; [|split; [eapply pointwise_waned_trans; eassumption|]].
    + eapply pointwise_trans; [|exact M1|exact M2].
      intros j a b c H1 H2. cbn beta in *. rewrite in_run_step.
      pose proof (mass_waned_to_trans _ _ _ _ _ H1 H2) as H3.
      destruct (Z.eqb_spec j (Z.of_nat k)) as [->|Hne].
      * cbn [andb orb] in *.
        replace (in_run (S k) n (Z.of_nat k)) with false in H3.
        -- cbn [andb] in H3. now rewrite (mass_waned_to_status _ _ _ H1) in H3.
        -- unfold in_run. destruct (Z.leb_spec (Z.of_nat (S k)) (Z.of_nat k)); [lia|reflexivity].
      * cbn [andb orb] in *.
        destruct (mass_waned_to_flags _ _ _ H1 eq_refl) as [Es Ea].
        rewrite Es, Ea, (mass_waned_to_status _ _ _ H1) in H3. exact H3.
    + split; [eapply center_cleared_trans; eassumption | split; congruence].
Qed.

Lemma deleteSelected_spring_step i t t1 :
  deleteSelected_spring i t = Some t1 ->
  pointwise (fun _ => mass_pruned) (masses_ t) (masses_ t1)
  /\ pointwise (fun j sp sp1 => sp1 = if Z.eqb j i && Spring.isSelected sp
                                      then killed sp else sp)
       (springs_ t) (springs_ t1)
  /\ rest_kept t t1.
Proof.
  unfold deleteSelected_spring. destruct (getSpring t i) as [c|] eqn:Hi; [|discriminate].
  cbn [mbind option_bind]. destruct (Spring.isSelected c) eqn:Hsel.
  - intros (M & S & K)%deleteSpring_pruned. split; [exact M|]. split; [|exact K].
    eapply pointwise_weaken_at; [|exact S]. intros j sp sp1 Hj ->.
    destruct (Z.eqb_spec j i) as [->|]; cbn [andb]; [|reflexivity].
    unfold getSpring in Hi. assert (sp = c) by congruence. subst sp. now rewrite Hsel.
  - intros [= <-]. split; [apply pointwise_pruned_refl|]. split; [|apply rest_kept_refl].
    apply pointwise_refl_at. intros j sp Hj.
    destruct (Z.eqb_spec j i) as [->|]; cbn [andb]; [|reflexivity].
    unfold getSpring in Hi. assert (sp = c) by congruence. subst sp. now rewrite Hsel.
Qed.

Lemma deleteSelected_springs_loop n : forall k t t',
  for_each deleteSelected_spring (map Z.of_nat (seq k n)) t = Some t' ->
  pointwise (fun _ => mass_pruned) (masses_ t) (masses_ t')
  /\ pointwise (fun j sp sp' => sp' = if in_run k n j && Spring.isSelected sp
                                      then killed sp else sp)
       (springs_ t) (springs_ t')
  /\ rest_kept t t'.
Proof.
  induction n as [|n IH]; intros k t t'; cbn [seq map for_each].
  - intros [= <-]. split; [apply pointwise_pruned_refl|]. split; [|apply rest_kept_refl].
    apply pointwise_refl. intros j sp. now rewrite in_run_0.
  - destruct (deleteSelected_spring (Z.of_nat k) t) as [t1|] eqn:E1; [|discriminate].
    cbn [mbind option_bind]. intros E.
    apply deleteSelected_spring_step in E1 as (M1 & S1 & K1).
    apply IH in E as (M2 & S2 & K2).
    split; [eapply pointwise_pruned_trans; eassumption|].
    split; [|eapply rest_kept_trans; eassumption].
    eapply pointwise_trans; [|exact S1|exact S2].
    intros j a b c -> ->. rewrite in_run_step.
    destruct (Z.eqb_spec j (Z.of_nat k)) as [->|Hne]; cbn [andb orb]; [|reflexivity].
    replace (in_run (S k) n (Z.of_nat k)) with false; [reflexivity|].
    unfold in_run. destruct (Z.leb_spec (Z.of_nat (S k)) (Z.of_nat k)); [lia|reflexivity].
Qed.

(** [deleteSelected], seen from every mass and spring. *)
Lemma deleteSelected_char s s' :
  deleteSelected s = Some s' ->
  pointwise (fun _ m m' =>
               mass_waned_to (if Mass.isSelected m && Mass.isAlive m then 0
                              else Mass.status m) m m')
            (masses_ s) (masses_ s')
  /\ pointwise (fun _ sp sp' =>
                  spring_waned sp sp'
                  /\ (Spring.isSelected sp = true -> Spring.isAlive sp' = false)
                  /\ (Spring.isAlive sp' = true -> Spring.isSelected sp' = false))
       (springs_ s) (springs_ s')
  /\ center_cleared (state_ s) (state_ s')
  /\ fakeMass_ s' = fakeMass_ s /\ fakeSpring_ s' = fakeSpring_ s.
Proof.
  unfold deleteSelected, for_upto.
  change (fun i s0 => m ← getMass s0 i; if Mass.isSelected m then deleteMass i s0 else Some s0)
    with deleteSelected_mass.
  change (fun i s0 => sp ← getSpring s0 i;
                      if Spring.isSelected sp then deleteSpring i s0 else Some s0)
    with deleteSelected_spring.
  destruct (for_each deleteSelected_mass _ s) as [t|] eqn:E1; [|discriminate].
  cbn [mbind option_bind]. intros E2.
  apply deleteSelected_masses_loop in E1 as (M1 & S1 & C1 & F1 & G1).
  apply deleteSelected_springs_loop in E2 as (M2 & S2 & (K1 & K2 & K3)).
  assert (M1' : pointwise (fun _ m m' =>
                   mass_waned_to (if Mass.isSelected m && Mass.isAlive m then 0
                                  else Mass.status m) m m') (masses_ s) (masses_ t)).
  { eapply pointwise_weaken_at; [|exact M1].
    intros j a b Hj H. cbn beta in *. now rewrite (in_run_all _ _ _ Hj) in H. }
  assert (S2' : pointwise (fun _ sp sp' =>
                   sp' = if Spring.isSelected sp then killed sp else sp)
                  (springs_ t) (springs_ s')).
  { eapply pointwise_weaken_at; [|exact S2].
    intros j b c Hj ->. now rewrite (in_run_all _ _ _ Hj). }
  clear M1 S2.
  split; [|split; [|split; [|split; congruence]]].
  - eapply pointwise_trans; [|exact M1'|exact M2].
    intros j a b c H1 H2. cbn beta in *.
    pose proof (mass_waned_to_trans _ _ _ _ _ H1 (mass_pruned_waned _ _ H2)) as H3.
    now rewrite (mass_waned_to_status _ _ _ H1) in H3.
  - eapply pointwise_trans; [|exact S1|exact S2'].
    intros j a b c H1 ->. cbn beta.
    destruct (Spring.isSelected b) eqn:Hb.
    + split; [eapply spring_waned_trans; [exact H1 | apply spring_waned_killed]|].
      rewrite killed_dead. split; [reflexivity | discriminate].
    + split; [exact H1|]. split; [|intros _; exact Hb].
      intros Ha. destruct H1 as [->| ->]; [congruence | reflexivity].
  - now rewrite K1.
Qed.

Lemma deleteSelected_total s :
  well_formed s = true -> exists s', deleteSelected s = Some s' /\ fades s s'.
Proof.
  intros Hwf. unfold deleteSelected, for_upto.
  change (fun i s0 => m ← getMass s0 i; if Mass.isSelected m then deleteMass i s0 else Some s0)
    with deleteSelected_mass.
  change (fun i s0 => sp ← getSpring s0 i;
                      if Spring.isSelected sp then deleteSpring i s0 else Some s0)
    with deleteSelected_spring.
  destruct (for_each_total (fun t => fades s t) deleteSelected_mass
              (map Z.of_nat (seq 0 (length (masses_ s)))) s)
    as (t & -> & Ft); [apply fades_refl| |].
  { intros i u Hi Fu. apply in_map_iff in Hi as (n & <- & Hn). apply in_seq in Hn.
    pose proof (fades_well_formed _ _ Hwf Fu) as Hwu.
    assert (Hu : has_mass u (Z.of_nat n) = true).
    { destruct (fades_counts _ _ Fu) as [Cm _]. unfold has_mass. rewrite Cm.
      unfold massCount.
      destruct (Z.leb_spec 0 (Z.of_nat n)), (Z.ltb_spec (Z.of_nat n) (Z.of_nat (length (masses_ s))));
        cbn; try reflexivity; lia. }
    unfold deleteSelected_mass.
    destruct (proj1 (has_mass_spec _ _) Hu) as [m Hm]. rewrite Hm. cbn [mbind option_bind].
    destruct (Mass.isSelected m).
    - destruct (deleteMass_total u _ Hwu Hu) as (u' & Eu). exists u'. split; [exact Eu|].
      eapply fades_trans; [exact Fu | eapply deleteMass_fades, Eu].
    - eauto. }
  cbn [mbind option_bind].
  apply (for_each_total (fun u => fades s u)); [exact Ft|].
  intros i u Hi Fu. apply in_map_iff in Hi as (n & <- & Hn). apply in_seq in Hn.
  pose proof (fades_well_formed _ _ Hwf Fu) as Hwu.
  assert (Hu : has_spring u (Z.of_nat n) = true).
  { destruct (fades_counts _ _ Fu) as [_ Cs]. destruct (fades_counts _ _ Ft) as [_ Ct].
    unfold has_spring. rewrite Cs, <- Ct. unfold springCount.
    destruct (Z.leb_spec 0 (Z.of_nat n)), (Z.ltb_spec (Z.of_nat n) (Z.of_nat (length (springs_ t))));
      cbn; try reflexivity; lia. }
  unfold deleteSelected_spring.
  destruct (proj1 (has_spring_spec _ _) Hu) as [sp Hsp]. rewrite Hsp. cbn [mbind option_bind].
  destruct (Spring.isSelected sp).
  - destruct (deleteSpring_total u _ Hwu Hu) as (u' & Eu). exists u'. split; [exact Eu|].
    eapply fades_trans; [exact Fu | eapply deleteSpring_fades, Eu].
  - eauto.
Qed.

(** X7: on a well-formed store [deleteMass] stays within the vectors and
    leaves the store well formed; afterwards the mass is not alive and is
    not the centre, every other mass has its status, and deleting the
    mass again changes nothing. *)
Theorem deleteMass_well_formed (s : System) (which : Z) :
  well_formed s = true -> has_mass s which = true ->
  exists s', deleteMass which s = Some s'
    /\ well_formed s' = true
    /\ (exists m', getMass s' which = Some m' /\ Mass.isAlive m' = false)
    /\ State.center_id (state_ s') <> which
    /\ (forall j m, j <> which -> getMass s j = Some m ->
          exists m', getMass s' j = Some m' /\ Mass.status m' = Mass.status m)
    /\ deleteMass which s' = Some s'.
Proof.
  intros Hwf Hi. destruct (deleteMass_total s which Hwf Hi) as (s' & E).
  exists s'. split; [exact E|].
  split; [eapply fades_well_formed; [exact Hwf | eapply deleteMass_fades, E]|].
  pose proof (deleteMass_waned _ _ _ E) as (M & S & St & K2 & K3).
  destruct (proj1 (has_mass_spec _ _) Hi) as [m Hm].
  destruct M as [L M]. destruct (M which m Hm) as (m' & Hm' & W).
  rewrite Z.eqb_refl in W. cbn [andb] in W.
  change (getMass s' which = Some m') in Hm'.
  assert (Hdead : Mass.isAlive m' = false).
  { unfold Mass.isAlive. rewrite (mass_waned_to_status _ _ _ W).
    destruct (Mass.isAlive m) eqn:Ha; [reflexivity | exact Ha]. }
  assert (Hc : State.center_id (state_ s') <> which).
  { rewrite St. destruct (Z.eqb_spec which (State.center_id (state_ s))) as [Heq|Hne]; cbn.
    - apply has_mass_spec, at_is_Some in Hi. lia.
    - congruence. }
  split; [eauto|]. split; [exact Hc|]. split.
  - intros j a Hj Ha. destruct (M j a Ha) as (a' & Ha' & Wa). exists a'.
    split; [exact Ha'|]. rewrite (mass_waned_to_status _ _ _ Wa).
    destruct (Z.eqb_spec j which); [contradiction | reflexivity].
  - unfold deleteMass. rewrite Hm'. cbn [mbind option_bind]. rewrite Hdead.
    cbn [mbind option_bind].
    destruct (Z.eqb_spec which (State.center_id (state_ s'))); [congruence | reflexivity].
Qed.

Lemma deleteMass_well_formed_witness :
  exists s', deleteMass 2 Sample.mesh = Some s'
    /\ well_formed s' = true
    /\ (exists m', getMass s' 2 = Some m' /\ Mass.isAlive m' = false)
    /\ State.center_id (state_ s') <> 2
    /\ (forall j m, j <> 2 -> getMass Sample.mesh j = Some m ->
          exists m', getMass s' j = Some m' /\ Mass.status m' = Mass.status m)
    /\ deleteMass 2 s' = Some s'.
Proof. exact (deleteMass_well_formed Sample.mesh 2 eq_refl eq_refl). Defined.

(** X8: on a well-formed store [deleteSelected] stays within the vectors
    and leaves the store well formed.  A mass is deleted exactly when it
    was alive and selected, and keeps its status otherwise; a selected
    spring is not alive afterwards; so no live mass or spring is selected
    any more.  Entities keep their indices and all their other fields;
    parent lists only lose entries. *)
Theorem deleteSelected_deletes (s : System) :
  well_formed s = true ->
  exists s', deleteSelected s = Some s'
    /\ well_formed s' = true
    /\ pointwise (fun _ m m' =>
                    mass_waned_to (if Mass.isSelected m && Mass.isAlive m then 0
                                   else Mass.status m) m m'
                    /\ (Mass.isAlive m' = true -> Mass.isSelected m' = false))
         (masses_ s) (masses_ s')
    /\ pointwise (fun _ sp sp' =>
                    spring_waned sp sp'
                    /\ (Spring.isSelected sp = true -> Spring.isAlive sp' = false)
                    /\ (Spring.isAlive sp' = true -> Spring.isSelected sp' = false))
         (springs_ s) (springs_ s').
Proof.
  intros Hwf. destruct (deleteSelected_total s Hwf) as (s' & E & F).
  exists s'. split; [exact E|]. split; [eapply fades_well_formed; eassumption|].
  destruct (deleteSelected_char _ _ E) as (M & S & _). split; [|exact S].
  eapply pointwise_weaken; [|exact M]. intros j m m' W. split; [exact W|].
  unfold Mass.isAlive, Mass.isSelected. rewrite (mass_waned_to_status _ _ _ W).
  fold (Mass.isSelected m) (Mass.isAlive m).
  destruct (Mass.isSelected m) eqn:Hs, (Mass.isAlive m) eqn:Ha; cbn [andb];
    unfold Mass.isAlive, Mass.isSelected in *; try congruence; discriminate.
Qed.

Lemma deleteSelected_deletes_witness :
  exists s', deleteSelected Sample.mesh = Some s'
    /\ well_formed s' = true
    /\ pointwise (fun _ m m' =>
                    mass_waned_to (if Mass.isSelected m && Mass.isAlive m then 0
                                   else Mass.status m) m m'
                    /\ (Mass.isAlive m' = true -> Mass.isSelected m' = false))
         (masses_ Sample.mesh) (masses_ s')
    /\ pointwise (fun _ sp sp' =>
                    spring_waned sp sp'
                    /\ (Spring.isSelected sp = true -> Spring.isAlive sp' = false)
                    /\ (Spring.isAlive sp' = true -> Spring.isSelected sp' = false))
         (springs_ Sample.mesh) (springs_ s').
Proof. exact (deleteSelected_deletes Sample.mesh eq_refl). Defined.

(** X9: [selectAll] followed by [deleteSelected] empties a well-formed
    store: the calls stay within the vectors and no mass and no spring is
    alive afterwards. *)
Theorem selectAll_deleteSelected (s : System) :
  well_formed s = true ->
  exists s', deleteSelected (selectAll s) = Some s'
    /\ well_formed s' = true
    /\ (forall i m', getMass s' i = Some m' -> Mass.isAlive m' = false)
    /\ (forall k sp', getSpring s' k = Some sp' -> Spring.isAlive sp' = false).
Proof.
  intros Hwf.
  destruct (selectAll_pointwise s) as [Pm Ps].
  assert (Hwf1 : well_formed (selectAll s) = true).
  { apply (but_selected_well_formed s (selectAll s)); [| |repeat split|exact Hwf].
    - eapply pointwise_weaken; [|exact Pm]. now intros j m m' (_ & H & _).
    - eapply pointwise_weaken; [|exact Ps]. now intros j m m' (_ & H & _). }
  destruct (deleteSelected_total _ Hwf1) as (s' & E & F).
  exists s'. split; [exact E|]. split; [eapply fades_well_formed; eassumption|].
  destruct (deleteSelected_char _ _ E) as (M & S & _). split.
  - intros i m' Hi.
    destruct (pointwise_at _ _ _ _ _ M Hi) as (m1 & H1 & W).
    destruct (pointwise_at _ _ _ _ _ Pm H1) as (m0 & H0 & Sel & B & _).
    destruct (mass_but_selected_alive _ _ B) as [Ea _].
    unfold Mass.isAlive at 1. rewrite (mass_waned_to_status _ _ _ W).
    rewrite Sel, Ea. destruct (Mass.isAlive m0) eqn:Ha0; cbn [andb orb]; [reflexivity|].
    rewrite andb_false_r. fold (Mass.isAlive m1). congruence.
  - intros k sp' Hk.
    destruct (pointwise_at _ _ _ _ _ S Hk) as (sp1 & H1 & W & Dead & _).
    destruct (pointwise_at _ _ _ _ _ Ps H1) as (sp0 & H0 & Sel & B & _).
    pose proof (spring_but_selected_alive _ _ B) as Ea.
    destruct (Spring.isAlive sp0) eqn:Ha0.
    + apply Dead. now rewrite Sel.
    + eapply spring_waned_dead; [exact W | congruence].
Qed.

Lemma selectAll_deleteSelected_witness :
  exists s', deleteSelected (selectAll Sample.mesh) = Some s'
    /\ well_formed s' = true
    /\ (forall i m', getMass s' i = Some m' -> Mass.isAlive m' = false)
    /\ (forall k sp', getSpring s' k = Some sp' -> Spring.isAlive sp' = false).
Proof. exact (selectAll_deleteSelected Sample.mesh eq_refl). Defined.

(** ** [reconnectMasses] *)

Lemma add_parent_lookup w ms to k :
  add_parent w ms to !! k
  = (fun m => if Z.eqb (Z.of_nat k) to
              then Mass.set_parents (Mass.parents m ++ [w]) m else m) <$> ms !! k.
Proof.
  unfold add_parent. destruct (at_ ms to) as [m|] eqn:E.
  - apply at_Some in E as [H0 E].
    destruct (Z.eqb_spec (Z.of_nat k) to) as [<-|Hne].
    + rewrite Nat2Z.id in *. rewrite list_lookup_insert_eq by (eapply lookup_lt_Some, E).
      now rewrite E.
    + rewrite list_lookup_insert_ne by lia. now destruct (ms !! k).
  - destruct (ms !! k) as [m|] eqn:Hk; cbn; [|reflexivity].
    destruct (Z.eqb_spec (Z.of_nat k) to) as [<-|Hne]; [|reflexivity].
    rewrite at_of_nat in E. congruence.
Qed.

Lemma map_indexed_lookup {A B} (f : Z * A -> B) (l : list A) k :
  map f (indexed l) !! k = (fun a => f (Z.of_nat k, a)) <$> l !! k.
Proof.
  rewrite list_lookup_fmap, indexed_lookup. now destruct (l !! k).
Qed.

Lemma set_masses_same s : set_masses (masses_ s) s = s.
Proof. now destruct s. Qed.

Lemma mass_set_parents_same m : Mass.set_parents (Mass.parents m) m = m.
Proof. now destruct m. Qed.

Lemma skipn_cons_lookup {A} (l : list A) j a :
  l !! j = Some a -> skipn j l = a :: skipn (S j) l.
Proof.
  revert j. induction l as [|b l IH]; intros [|j]; cbn; try discriminate.
  - now intros [= ->].
  - apply IH.
Qed.

Lemma reconnect_spring_Some i t sp m1 m2 :
  getSpring t i = Some sp ->
  getMass t (Spring.m1 sp) = Some m1 -> getMass t (Spring.m2 sp) = Some m2 ->
  reconnect_spring i t
  = Some (set_masses (add_parent i (add_parent i (masses_ t) (Spring.m1 sp)) (Spring.m2 sp)) t).
Proof.
  intros Hsp H1 H2. unfold reconnect_spring. rewrite Hsp. cbn [mbind option_bind].
  rewrite (addMassParent_Some _ _ _ _ H1). cbn [mbind option_bind].
  change (getSpring (set_masses _ t) i) with (getSpring t i). rewrite Hsp.
  cbn [mbind option_bind].
  assert (Hs : is_Some (getMass (set_masses (add_parent i (masses_ t) (Spring.m1 sp)) t)
                          (Spring.m2 sp))).
  { apply at_is_Some. cbn. rewrite add_parent_length. apply at_is_Some. eauto. }
  destruct Hs as [m2' H2']. now rewrite (addMassParent_Some _ _ _ _ H2').
Qed.

Lemma reconnect_loop n : forall j t,
  (j + n <= length (springs_ t))%nat ->
  (forall sp, In sp (firstn n (skipn j (springs_ t))) ->
     has_mass t (Spring.m1 sp) = true /\ has_mass t (Spring.m2 sp) = true) ->
  for_each reconnect_spring (map Z.of_nat (seq j n)) t
  = Some (set_masses
            (map (fun im => Mass.set_parents
                              (Mass.parents (snd im)
                               ++ links_from (fst im) j (firstn n (skipn j (springs_ t))))
                              (snd im))
                 (indexed (masses_ t))) t).
Proof.
  induction n as [|n IH]; intros j t Hlen Hin; cbn [seq map for_each firstn].
  - f_equal. rewrite <- (set_masses_same t) at 1. f_equal.
    apply list_eq. intros k. rewrite map_indexed_lookup.
    destruct (masses_ t !! k) as [m|]; cbn; [|reflexivity].
    now rewrite app_nil_r, mass_set_parents_same.
  - assert (Hj : is_Some (springs_ t !! j)) by (apply lookup_lt_is_Some; lia).
    destruct Hj as [sp Hj]. rewrite (skipn_cons_lookup _ _ _ Hj) in *.
    cbn [firstn] in *.
    destruct (Hin sp (or_introl eq_refl)) as [[m1 H1]%has_mass_spec [m2 H2]%has_mass_spec].
    assert (Hsp : getSpring t (Z.of_nat j) = Some sp)
      by (unfold getSpring; now rewrite at_of_nat).
    rewrite (reconnect_spring_Some _ _ _ _ _ Hsp H1 H2). cbn [mbind option_bind].
    set (ms2 := add_parent _ _ _).
    rewrite IH; cbn [springs_ masses_ set_masses]; [| lia |].
    + f_equal. unfold set_masses. cbn. f_equal.
      apply list_eq. intros k. rewrite !map_indexed_lookup. unfold ms2.
      rewrite !add_parent_lookup. destruct (masses_ t !! k) as [m|]; cbn; [|reflexivity].
      f_equal. cbn [links_from]. rewrite (Z.eqb_sym (Spring.m1 sp)), (Z.eqb_sym (Spring.m2 sp)).
      destruct (Z.eqb (Z.of_nat k) (Spring.m1 sp)), (Z.eqb (Z.of_nat k) (Spring.m2 sp));
        cbn; rewrite <- ?app_assoc; cbn; destruct m; reflexivity.
    + intros sp' Hsp'. unfold has_mass, massCount. cbn. unfold ms2.
      rewrite !add_parent_length. apply (Hin sp'). now right.
Qed.

(** If the loop comes through, the springs it visited have their end
    points in range. *)
Lemma reconnect_loop_inv n : forall j t t',
  (j + n <= length (springs_ t))%nat ->
  for_each reconnect_spring (map Z.of_nat (seq j n)) t = Some t' ->
  forall sp, In sp (firstn n (skipn j (springs_ t))) ->
    has_mass t (Spring.m1 sp) = true /\ has_mass t (Spring.m2 sp) = true.
Proof.
  induction n as [|n IH]; intros j t t' Hlen; cbn [seq map for_each firstn].
  - intros _ sp [].
  - assert (Hj : is_Some (springs_ t !! j)) by (apply lookup_lt_is_Some; lia).
    destruct Hj as [sp Hj]. rewrite (skipn_cons_lookup _ _ _ Hj). cbn [firstn].
    assert (Hsp : getSpring t (Z.of_nat j) = Some sp)
      by (unfold getSpring; now rewrite at_of_nat).
    destruct (reconnect_spring (Z.of_nat j) t) as [t1|] eqn:E1; [|discriminate].
    cbn [mbind option_bind]. intros E.
    pose proof E1 as E1'. unfold reconnect_spring in E1'. rewrite Hsp in E1'.
    cbn [mbind option_bind] in E1'.
    destruct (addMassParent (Spring.m1 sp) (Z.of_nat j) t) as [u|] eqn:Eu; [|discriminate].
    cbn [mbind option_bind] in E1'.
    unfold addMassParent in Eu. apply modMass_inv in Eu as (a1 & Ha1 & ->).
    change (getSpring (set_masses _ t) (Z.of_nat j)) with (getSpring t (Z.of_nat j)) in E1'.
    rewrite Hsp in E1'. cbn [mbind option_bind] in E1'.
    unfold addMassParent in E1'. apply modMass_inv in E1' as (a2 & Ha2 & ->).
    assert (H1 : has_mass t (Spring.m1 sp) = true) by (apply has_mass_spec; eauto).
    assert (H2 : has_mass t (Spring.m2 sp) = true).
    { apply has_mass_spec, at_is_Some.
      assert (Hs : is_Some (at_ (<[Z.to_nat (Spring.m1 sp) :=
                     Mass.set_parents (Mass.parents a1 ++ [Z.of_nat j]) a1]> (masses_ t))
                     (Spring.m2 sp))) by eauto.
      apply at_is_Some in Hs. now rewrite length_insert in Hs. }
    intros sp' [<-|Hsp']; [auto|].
    match type of E with
    | for_each _ _ ?u = _ =>
        assert (Hlen' : (S j + n <= length (springs_ u))%nat) by (cbn; lia);
        specialize (IH (S j) u t' Hlen' E sp' Hsp')
    end.
    unfold has_mass, massCount in *. cbn in IH. rewrite !length_insert in IH. exact IH.
Qed.

Lemma links_from_In k l : forall j i,
  In i (links_from k j l)
  <-> exists n sp, i = Z.of_nat (j + n) /\ l !! n = Some sp
                   /\ (Spring.m1 sp = k \/ Spring.m2 sp = k).
Proof.
  induction l as [|sp l IH]; intros j i; cbn [links_from].
  - split; [intros [] | intros (n & sp & _ & H & _); discriminate].
  - rewrite !in_app_iff, IH. split.
    + intros [H|[H|(n & sp' & -> & Hn & Hk)]].
      * destruct (Z.eqb_spec (Spring.m1 sp) k); [|destruct H].
        destruct H as [<-|[]]. exists 0%nat, sp. rewrite Nat.add_0_r. auto.
      * destruct (Z.eqb_spec (Spring.m2 sp) k); [|destruct H].
        destruct H as [<-|[]]. exists 0%nat, sp. rewrite Nat.add_0_r. auto.
      * exists (S n), sp'. split; [f_equal; lia | auto].
    + intros ([|n] & sp' & -> & Hn & Hk).
      * cbn in Hn. injection Hn as <-. rewrite Nat.add_0_r.
        destruct Hk as [Hk|Hk]; [left | right; left];
          rewrite Hk, Z.eqb_refl; now left.
      * right. right. exists n, sp'. split; [f_equal; lia | auto].
Qed.

(** X10: [reconnectMasses] stays within [masses_] exactly when every
    spring, dead or alive, has both end points in range.  It then
    replaces every parent list: mass [k] lists spring [i] exactly when
    [k] is an end point of [i] (in increasing order, twice when both end
    points are [k]); nothing else changes, and a second call changes
    nothing. *)
Theorem reconnectMasses_links (s : System) :
  (is_Some (reconnectMasses s) <-> ends_in_range s)
  /\ (forall s', reconnectMasses s = Some s' ->
        s' = set_masses (relinked s) s
        /\ reconnectMasses s' = Some s')
  /\ (forall k i, In i (links_from k 0 (springs_ s))
                  <-> exists sp, getSpring s i = Some sp
                                 /\ (Spring.m1 sp = k \/ Spring.m2 sp = k)).
Proof.
  assert (Hclosed : forall t, ends_in_range t ->
            reconnectMasses t = Some (set_masses (relinked t) t)).
  { intros t Hends. unfold reconnectMasses, for_upto.
    change (fun i s0 => sp ← getSpring s0 i;
                        s1 ← addMassParent (Spring.m1 sp) i s0;
                        sp0 ← getSpring s1 i; addMassParent (Spring.m2 sp0) i s1)
      with reconnect_spring.
    rewrite reconnect_loop; cbn [springs_ masses_ set_masses]; [|lia|].
    - f_equal. unfold set_masses, relinked. cbn. f_equal.
      rewrite skipn_O, firstn_all.
      apply list_eq. intros k. rewrite !map_indexed_lookup, list_lookup_fmap.
      destruct (masses_ t !! k) as [m|]; cbn; [|reflexivity]. now destruct m.
    - rewrite skipn_O, firstn_all. intros sp [i Hi]%In_at.
      unfold has_mass, massCount. cbn. rewrite length_map. apply (Hends i sp Hi). }
  split; [|split].
  - split; [|intros H; rewrite (Hclosed s H); eauto].
    intros [s' E] i sp Hi. unfold reconnectMasses, for_upto in E.
    change (fun i s0 => sp ← getSpring s0 i;
                        s1 ← addMassParent (Spring.m1 sp) i s0;
                        sp0 ← getSpring s1 i; addMassParent (Spring.m2 sp0) i s1)
      with reconnect_spring in E.
    eapply reconnect_loop_inv in E; cbn [springs_ set_masses]; [|lia|].
    + unfold has_mass, massCount in *. cbn in E. rewrite length_map in E. exact E.
    + cbn. rewrite skipn_O, firstn_all. eapply at_In, Hi.
  - intros s' E.
    assert (Hends : ends_in_range s).
    { unfold reconnectMasses, for_upto in E.
      change (fun i s0 => sp ← getSpring s0 i;
                          s1 ← addMassParent (Spring.m1 sp) i s0;
                          sp0 ← getSpring s1 i; addMassParent (Spring.m2 sp0) i s1)
        with reconnect_spring in E.
      intros i sp Hi.
      eapply reconnect_loop_inv in E; cbn [springs_ set_masses]; [|lia|].
      - unfold has_mass, massCount in *. cbn in E. rewrite length_map in E. exact E.
      - cbn. rewrite skipn_O, firstn_all. eapply at_In, Hi. }
    rewrite (Hclosed s Hends) in E. injection E as <-. split; [reflexivity|].
    rewrite Hclosed.
    + f_equal. change (set_masses ?x (set_masses ?y s)) with (set_masses x s).
      f_equal. unfold relinked at 1.
      change (springs_ (set_masses (relinked s) s)) with (springs_ s).
      change (masses_ (set_masses (relinked s) s)) with (relinked s).
      apply list_eq. intros k. rewrite map_indexed_lookup. unfold relinked.
      rewrite map_indexed_lookup. destruct (masses_ s !! k) as [m|]; reflexivity.
    + intros i sp Hi. unfold has_mass, massCount, relinked. cbn.
      rewrite length_map, indexed_length. apply (Hends i sp Hi).
  - intros k i. rewrite links_from_In. split.
    + intros (n & sp & -> & Hn & Hk). exists sp. split; [|exact Hk].
      unfold getSpring. now rewrite at_of_nat.
    + intros (sp & Hi & Hk). apply at_Some in Hi as [H0 Hi].
      exists (Z.to_nat i), sp. split; [cbn; lia | auto].
Qed.

(** ** [nearestObject] *)

Lemma nearest_mass_fold x y l : forall k acc,
  let c' := snd (fold_left (nearest_mass x y)
                   (combine (map Z.of_nat (seq k (length l))) l) acc) in
  c' = snd acc
  \/ exists n m, c' = Z.of_nat (k + n) /\ l !! n = Some m /\ Mass.isAlive m = true.
Proof.
  induction l as [|m l IH]; intros k acc; cbn [length seq map combine fold_left].
  - now left.
  - destruct (IH (S k) (nearest_mass x y acc (Z.of_nat k, m))) as [H|(n & a & H & Hn & Ha)].
    + cbn zeta in *. rewrite H. clear H IH.
      destruct acc as [[d r] c]. unfold nearest_mass.
      destruct (Mass.isAlive m) eqn:Hm; [|now left].
      destruct (_ <? d)%float; [|now left].
      destruct (_ <? r)%float; [|now left].
      right. exists 0%nat, m. rewrite Nat.add_0_r. auto.
    + right. exists (S n), a. cbn zeta in *. rewrite H. split; [f_equal; lia | auto].
Qed.

Lemma nearest_spring_inv c_hypot x y s i acc acc' :
  nearest_spring c_hypot x y s i acc = Some acc' ->
  acc' = acc
  \/ (snd acc' = false /\ snd (fst acc') = i
      /\ exists sp, getSpring s i = Some sp /\ Spring.isAlive sp = true).
Proof.
  destruct acc as [[d c] b]. unfold nearest_spring.
  destruct (getSpring s i) as [sp|] eqn:Hsp; [|discriminate]. cbn [mbind option_bind].
  destruct (Spring.isAlive sp) eqn:Ha; [|intros [= <-]; now left].
  destruct (getMass s (Spring.m1 sp)) as [m1|]; [|discriminate]. cbn [mbind option_bind].
  destruct (getMass s (Spring.m2 sp)) as [m2|]; [|discriminate]. cbn [mbind option_bind].
  destruct (_ && _ && _ && _); [|intros [= <-]; now left].
  destruct (_ <? d)%float; intros [= <-]; [|now left].
  right. cbn. eauto.
Qed.

Lemma nearest_spring_total c_hypot x y s i acc :
  well_formed s = true -> has_spring s i = true ->
  is_Some (nearest_spring c_hypot x y s i acc).
Proof.
  intros Hwf [sp Hsp]%has_spring_spec. destruct acc as [[d c] b]. unfold nearest_spring.
  rewrite Hsp. cbn [mbind option_bind].
  destruct (Spring.isAlive sp) eqn:Ha; [|eauto].
  apply well_formed_spec in Hwf as (Hs & _).
  destruct (Hs i sp Hsp Ha) as [[m1 ->]%has_mass_spec [m2 ->]%has_mass_spec].
  cbn [mbind option_bind].
  destruct (_ && _ && _ && _); [|eauto]. destruct (_ <? d)%float; eauto.
Qed.

(** X11: [nearestObject] never answers with a deleted object: the result
    is -1 (and [*is_mass] is left true), or the index of an ALIVE mass
    with [*is_mass] true, or, only when [*is_mass] was false on entry, the
    index of an ALIVE spring with [*is_mass] false.  When it is asked for
    masses only it reads no spring, and on a well-formed store the spring
    search stays within the vectors. *)
Theorem nearestObject_alive (c_hypot : float -> float -> float) (x y : Z)
    (is_mass : bool) (s : System) :
  (forall closest is_mass',
     nearestObject c_hypot x y is_mass s = Some (closest, is_mass') ->
     (closest = -1 /\ is_mass' = true)
     \/ (is_mass' = true
         /\ exists m, getMass s closest = Some m /\ Mass.isAlive m = true)
     \/ (is_mass' = false /\ is_mass = false
         /\ exists sp, getSpring s closest = Some sp /\ Spring.isAlive sp = true))
  /\ (is_mass = true \/ well_formed s = true ->
      is_Some (nearestObject c_hypot x y is_mass s)).
Proof.
  unfold nearestObject.
  set (start := (if is_mass then (MPROXIMITY * MPROXIMITY * 36)%float
                 else (MPROXIMITY * MPROXIMITY)%float, DBL_MAX, -1)).
  pose proof (nearest_mass_fold x y (masses_ s) 0 start) as Hfold.
  unfold indexed.
  destruct (fold_left (nearest_mass x y) _ start) as [[d r] c] eqn:Ef.
  cbn [snd] in Hfold. cbn zeta in Hfold.
  split.
  - intros closest out.
    destruct (Z.eqb_spec c (-1)) as [->|Hc]; cbn [negb].
    + destruct is_mass; [intros [= <- <-]; now left|].
      destruct (for_upto _ _ _) as [[[d' c'] b']|] eqn:El; [|discriminate].
      cbn [mbind option_bind]. intros [= <- <-].
      unfold for_upto in El.
      assert (H : (c' = -1 /\ b' = true)
                  \/ (b' = false
                      /\ exists sp, getSpring s c' = Some sp /\ Spring.isAlive sp = true)).
      { eapply (for_each_inv (fun acc =>
                  (snd (fst acc) = -1 /\ snd acc = true)
                  \/ (snd acc = false
                      /\ exists sp, getSpring s (snd (fst acc)) = Some sp
                                    /\ Spring.isAlive sp = true)) _ _ _ _ _ El).
        Unshelve.
        - now left.
        - intros i acc acc' [->|(Hb & Hi & sp & Hsp & Ha)]%nearest_spring_inv Hacc;
            [exact Hacc|].
          right. rewrite Hb, Hi. eauto. }
      destruct H as [[-> ->]|[-> H]]; [now left | right; right; auto].
    + intros [= <- <-]. right. left. split; [reflexivity|].
      destruct Hfold as [->|(n & m & -> & Hn & Ha)]; [contradiction|].
      exists m. split; [|exact Ha]. unfold getMass. now rewrite at_of_nat.
  - intros Hok. destruct (negb (Z.eqb c (-1))); [eauto|].
    destruct is_mass; [eauto|]. destruct Hok as [Hok|Hwf]; [discriminate|].
    destruct (for_each_total (fun _ => True) (nearest_spring c_hypot x y s)
                (map Z.of_nat (seq 0 (length (springs_ s))))
                (SPROXIMITY, c, true) I) as (acc & E & _).
    + intros i acc Hi _. apply in_map_iff in Hi as (n & <- & Hn). apply in_seq in Hn.
      destruct (nearest_spring_total c_hypot x y s (Z.of_nat n) acc Hwf) as [acc' E];
        [|eauto].
      unfold has_spring, springCount.
      destruct (Z.leb_spec 0 (Z.of_nat n)),
        (Z.ltb_spec (Z.of_nat n) (Z.of_nat (length (springs_ s))));
        cbn; try reflexivity; lia.
    + unfold for_upto. rewrite E. destruct acc as [[d' c'] b']. cbn. eauto.
Qed.

(** ** [duplicateSelected] on any selection *)

Lemma erase_first_absent p l : ~ In p l -> erase_first p l = l.
Proof.
  induction l as [|q l IH]; cbn; [reflexivity|]. intros H.
  destruct (Z.eqb_spec q p) as [->|_]; [exfalso; apply H; now left|].
  f_equal. apply IH. intros Hin. apply H. now right.
Qed.

Lemma set_springs_same s : set_springs (springs_ s) s = s.
Proof. now destruct s. Qed.

(** [deleteMassParent] for a spring that is not among the parents. *)
Lemma deleteMassParent_absent which p s :
  is_Some (getMass s which) ->
  (forall m, getMass s which = Some m -> Mass.isAlive m = true ->
             ~ In p (Mass.parents m)) ->
  deleteMassParent which p s = Some s.
Proof.
  intros [m Hm] H. unfold deleteMassParent. rewrite Hm. cbn [mbind option_bind].
  destruct (Mass.isAlive m) eqn:Ha; [|reflexivity].
  rewrite (modMass_Some _ _ _ _ Hm), (erase_first_absent _ _ (H m Hm Ha)).
  rewrite mass_set_parents_same.
  unfold getMass in Hm. apply at_Some in Hm as [_ Hm].
  rewrite (list_insert_id _ _ _ Hm). now rewrite set_masses_same.
Qed.

(** [deleteSpring] for a spring that no live mass has as a parent: the
    masses stay as they are. *)
Lemma deleteSpring_fresh p s c :
  getSpring s p = Some c ->
  (Spring.isAlive c = true ->
   is_Some (getMass s (Spring.m1 c)) /\ is_Some (getMass s (Spring.m2 c))) ->
  (forall j m, getMass s j = Some m -> Mass.isAlive m = true -> ~ In p (Mass.parents m)) ->
  deleteSpring p s = Some (set_springs (<[Z.to_nat p := killed c]> (springs_ s)) s).
Proof.
  intros Hc Hends Hfresh. unfold deleteSpring, killed. rewrite Hc. cbn [mbind option_bind].
  destruct (Spring.isAlive c) eqn:Ha.
  - destruct (Hends eq_refl) as [H1 H2].
    rewrite (modSpring_Some _ _ _ _ Hc). cbn [mbind option_bind].
    set (s1 := set_springs _ s).
    rewrite (deleteMassParent_absent (Spring.m1 c) p s1 H1) by (intros m; apply Hfresh).
    cbn [mbind option_bind].
    apply (deleteMassParent_absent (Spring.m2 c) p s1 H2). intros m. apply Hfresh.
  - unfold getSpring in Hc. apply at_Some in Hc as [_ Hc].
    rewrite (list_insert_id _ _ _ Hc). now rewrite set_springs_same.
Qed.

Lemma assoc_In tbl x to : assoc tbl x = Some to -> In (x, to) tbl.
Proof.
  induction tbl as [|[from t] tbl IH]; cbn; [discriminate|].
  destruct (Z.eqb_spec x from) as [->|_]; [intros [= ->]; now left | right; auto].
Qed.

Lemma remap_targets_In tbl to x y : forall d1 d2,
  In to (remap_targets d1 d2 tbl x y) -> exists from, In (from, to) tbl.
Proof.
  induction tbl as [|[from t] tbl IH]; intros d1 d2; cbn; [contradiction|].
  destruct (d1 && d2); [contradiction|].
  intros H. apply in_app_or in H as [H|H].
  { destruct (negb d1 && Z.eqb x from); [|contradiction].
    destruct H as [->|[]]. exists from. now left. }
  apply in_app_or in H as [H|H].
  { destruct (negb d2 && Z.eqb y from); [|contradiction].
    destruct H as [->|[]]. exists from. now left. }
  destruct (IH _ _ H) as [f Hf]. exists f. now right.
Qed.

(** The masses after the new spring [w] has been added as a parent at
    the indices [tos]. *)
Lemma add_parents_other w tos : forall ms k,
  ~ In (Z.of_nat k) tos -> fold_left (add_parent w) tos ms !! k = ms !! k.
Proof.
  induction tos as [|to tos IH]; intros ms k H; cbn [fold_left]; [reflexivity|].
  rewrite IH by (intros Hin; apply H; now right).
  rewrite add_parent_lookup. destruct (ms !! k); [|reflexivity]. cbn.
  destruct (Z.eqb_spec (Z.of_nat k) to) as [E|_]; [|reflexivity].
  exfalso. apply H. now left.
Qed.

Lemma add_parents_lookup w tos : forall ms k m',
  fold_left (add_parent w) tos ms !! k = Some m' ->
  exists m, ms !! k = Some m /\ m' = Mass.set_parents (Mass.parents m') m
    /\ forall p, In p (Mass.parents m') -> In p (Mass.parents m) \/ p = w.
Proof.
  induction tos as [|to tos IH]; intros ms k m'; cbn [fold_left].
  - intros H. exists m'. split; [exact H|]. split; [now destruct m' | auto].
  - intros H. apply IH in H as (m1 & H1 & E1 & P1).
    rewrite add_parent_lookup in H1. destruct (ms !! k) as [m|]; [|discriminate].
    cbn in H1. injection H1 as H1. exists m. split; [reflexivity|].
    destruct (Z.eqb (Z.of_nat k) to); subst m1.
    + split; [rewrite E1; reflexivity|]. intros p Hp.
      destruct (P1 p Hp) as [Hin| ->]; [|now right]. cbn in Hin.
      apply in_app_or in Hin as [Hin|[<-|[]]]; auto.
    + split; [exact E1 | exact P1].
Qed.

Lemma has_mass_length s t i :
  length (masses_ t) = length (masses_ s) -> has_mass t i = has_mass s i.
Proof. intros H. unfold has_mass, massCount. now rewrite H. Qed.

Lemma has_mass_mono s t i :
  (length (masses_ s) <= length (masses_ t))%nat -> has_mass s i = true -> has_mass t i = true.
Proof.
  unfold has_mass, massCount. rewrite !andb_true_iff, !Z.leb_le, !Z.ltb_lt. lia.
Qed.

Lemma has_spring_mono s t p :
  (length (springs_ s) <= length (springs_ t))%nat ->
  has_spring s p = true -> has_spring t p = true.
Proof.
  unfold has_spring, springCount. rewrite !andb_true_iff, !Z.leb_le, !Z.ltb_lt. lia.
Qed.

(** The mass pass keeps the store well formed. *)
Lemma mass_pass_well_formed s :
  well_formed s = true ->
  well_formed (set_masses (masses_ s ++ map mass_copy (List.filter Mass.isSelected (masses_ s)))
                 s) = true.
Proof.
  rewrite !well_formed_spec. intros (Hs & Hm & Hc & Hfm & Hfs).
  set (s1 := set_masses _ s).
  assert (L : (length (masses_ s) <= length (masses_ s1))%nat)
    by (unfold s1; cbn; rewrite length_app; lia).
  split; [|split; [|split; [|split]]].
  - intros k sp Hk Ha. destruct (Hs k sp Hk Ha) as [H1 H2].
    split; eapply has_mass_mono; eassumption.
  - intros i m Hi Ha p Hp. unfold getMass, s1 in Hi. cbn in Hi.
    apply at_Some in Hi as [Hi0 Hi]. apply lookup_app_Some in Hi as [Hi|[_ Hi]].
    + apply (Hm i m); [|exact Ha|exact Hp]. unfold getMass. apply at_Some. auto.
    + apply list_elem_of_lookup_2, list_elem_of_In, in_map_iff in Hi as (a & <- & _).
      destruct Hp.
  - unfold massCount in *. cbn [state_ s1 set_masses] in *.
    change (state_ s1) with (state_ s). lia.
  - eapply has_mass_mono; [exact L | exact Hfm].
  - exact Hfs.
Qed.

(** A selected spring leaves the inner loop in a well-formed store. *)
Lemma after_remap_well_formed tbl sp t i :
  well_formed t = true -> getSpring t i = Some sp ->
  (forall from to, In (from, to) tbl -> has_mass t to = true) ->
  well_formed (after_remap tbl sp t) = true.
Proof.
  rewrite !well_formed_spec. intros (Hs & Hm & Hc & Hfm & Hfs) Hsp Hto.
  set (u := after_remap tbl sp t).
  assert (Lm : length (masses_ u) = length (masses_ t))
    by (unfold u, after_remap; cbn; apply add_parents_length).
  assert (Ls : length (springs_ u) = S (length (springs_ t)))
    by (unfold u, after_remap; cbn; rewrite length_app; cbn; lia).
  assert (Hmass : forall j, has_mass u j = has_mass t j)
    by (intros j; apply has_mass_length, Lm).
  assert (Hspring : forall p, has_spring t p = true -> has_spring u p = true)
    by (intros p; apply has_spring_mono; lia).
  assert (Hnew : has_spring u (springCount t) = true).
  { unfold has_spring, springCount. rewrite Ls.
    apply andb_true_iff. rewrite Z.leb_le, Z.ltb_lt. lia. }
  split; [|split; [|split; [|split]]].
  - intros k c Hk Ha. rewrite !Hmass.
    unfold getSpring, u, after_remap in Hk. cbn in Hk.
    apply at_Some in Hk as [Hk0 Hk]. apply lookup_app_Some in Hk as [Hk|[_ Hk]].
    + apply (Hs k c); [|exact Ha]. unfold getSpring. apply at_Some. auto.
    + apply list_elem_of_lookup_2, list_elem_of_singleton in Hk. subst c.
      assert (Ha' : Spring.isAlive sp = true).
      { rewrite <- (spring_but_selected_alive _ _ (spring_setSelected false sp)). exact Ha. }
      destruct (Hs i sp Hsp Ha') as [H1 H2].
      unfold remapped, remap_end. cbn.
      change (Spring.m1 (Spring.setSelected false sp)) with (Spring.m1 sp).
      change (Spring.m2 (Spring.setSelected false sp)) with (Spring.m2 sp).
      split.
      * destruct (assoc tbl (Spring.m1 sp)) as [to|] eqn:E; cbn; [|exact H1].
        eapply Hto, assoc_In, E.
      * destruct (assoc tbl (Spring.m2 sp)) as [to|] eqn:E; cbn; [|exact H2].
        eapply Hto, assoc_In, E.
  - intros j m' Hj Ha p Hp. unfold getMass, u, after_remap in Hj. cbn in Hj.
    apply at_Some in Hj as [Hj0 Hj].
    apply add_parents_lookup in Hj as (m & Hm0 & E & P).
    destruct (P p Hp) as [Hin| ->]; [|exact Hnew].
    apply Hspring. apply (Hm j m); [unfold getMass; apply at_Some; auto| |exact Hin].
    rewrite E in Ha. exact Ha.
  - unfold massCount. rewrite Lm. exact Hc.
  - rewrite Hmass. exact Hfm.
  - apply Hspring. exact Hfs.
Qed.

(** One pass of the spring loop of [duplicateSelected] returns, keeps
    the store well formed and the masses that were there on entry of
    [duplicateSelected] as they are, and appends to the springs. *)
Lemma dup_spring_safe (s t : System) (i : Z) (sp : Spring) :
  well_formed t = true ->
  length (masses_ t)
  = (length (masses_ s) + length (List.filter Mass.isSelected (masses_ s)))%nat ->
  getSpring t i = Some sp ->
  exists t' ext, dup_spring (selected_from 0 (masses_ s))
                   (new_indices (length (masses_ s))
                      (length (List.filter Mass.isSelected (masses_ s)))) i t = Some t'
    /\ well_formed t' = true
    /\ length (masses_ t') = length (masses_ t)
    /\ (forall j, (j < length (masses_ s))%nat -> masses_ t' !! j = masses_ t !! j)
    /\ (forall j m', masses_ t' !! j = Some m' ->
          exists m, masses_ t !! j = Some m /\ Mass.status m' = Mass.status m)
    /\ springs_ t' = springs_ t ++ ext
    /\ rest_kept t t'.
Proof.
  intros Hwf Hlen Hsp. set (tbl := dup_table s).
  assert (Hto : forall from to, In (from, to) tbl -> has_mass t to = true).
  { intros from to Hin. apply dup_table_targets in Hin.
    unfold has_mass, massCount. rewrite Hlen.
    apply andb_true_iff. rewrite Z.leb_le, Z.ltb_lt. lia. }
  assert (Hto' : forall from to, In (from, to) tbl -> is_Some (getMass t to))
    by (intros from to Hin; eapply has_mass_spec, Hto, Hin).
  destruct (Spring.isSelected sp) eqn:Hsel.
  2:{ exists t, [].
      rewrite (dup_spring_unselected _ _ _ _ _ Hsp Hsel), app_nil_r.
      repeat split; eauto. }
  rewrite (dup_spring_selected _ _ _ _ _ Hsp Hsel Hto').
  change (combine _ _) with tbl.
  pose proof (after_remap_well_formed tbl sp t i Hwf Hsp Hto) as Hwfu.
  destruct (bool_decide (is_Some (assoc tbl (Spring.m1 sp)))
            || bool_decide (is_Some (assoc tbl (Spring.m2 sp)))) eqn:Hhit.
  - eexists _, _. split; [reflexivity|]. split; [exact Hwfu|].
    unfold after_remap. cbn. split; [apply add_parents_length|].
    split; [|split; [|split; [reflexivity | repeat split]]].
    + intros j Hj. apply add_parents_other. intros Hin.
      apply remap_targets_In in Hin as [from Hin]. apply dup_table_targets in Hin. lia.
    + intros j m' (m & Hm & E & _)%add_parents_lookup. exists m.
      split; [exact Hm | now rewrite E].
  - apply orb_false_elim in Hhit as [H1 H2].
    apply bool_decide_eq_false_1 in H1, H2.
    assert (N1 : assoc tbl (Spring.m1 sp) = None)
      by (destruct (assoc tbl (Spring.m1 sp)); [exfalso; apply H1; eauto | reflexivity]).
    assert (N2 : assoc tbl (Spring.m2 sp) = None)
      by (destruct (assoc tbl (Spring.m2 sp)); [exfalso; apply H2; eauto | reflexivity]).
    destruct (assoc_None_targets tbl _ _ N1 N2) as [Ht Hr].
    specialize (Hr (Spring.setSelected false sp) eq_refl eq_refl).
    set (c := Spring.setSelected false sp) in *.
    set (u := after_remap tbl sp t) in *.
    assert (Hu : u = set_springs (springs_ t ++ [c]) t).
    { unfold u, after_remap. fold c.
      change (Spring.m1 c) with (Spring.m1 sp). change (Spring.m2 c) with (Spring.m2 sp).
      rewrite Ht, Hr. cbn [fold_left].
      apply (set_masses_same (set_springs (springs_ t ++ [c]) t)). }
    assert (Hc : getSpring u (springCount t) = Some c).
    { rewrite Hu. unfold getSpring, springCount. cbn. rewrite at_of_nat.
      apply list_lookup_middle. reflexivity. }
    pose proof Hwfu as Hlinks. apply well_formed_spec in Hlinks as (Hs & _).
    pose proof Hwf as Hlinkt. apply well_formed_spec in Hlinkt as (_ & Hm & _).
    assert (E : deleteSpring (springCount t) u
                = Some (set_springs (<[Z.to_nat (springCount t) := killed c]> (springs_ u)) u)).
    { apply deleteSpring_fresh; [exact Hc| |].
      - intros Ha. destruct (Hs _ _ Hc Ha) as [A B]. split; apply has_mass_spec; assumption.
      - intros j m Hj Ha Hin. rewrite Hu in Hj.
        specialize (Hm j m Hj Ha _ Hin). unfold has_spring in Hm.
        apply andb_prop in Hm as [_ Hm]. apply Z.ltb_lt in Hm. lia. }
    eexists _, [killed c]. split; [exact E|].
    split; [eapply fades_well_formed; [exact Hwfu | eapply deleteSpring_fades, E]|].
    rewrite Hu. cbn. unfold springCount. rewrite Nat2Z.id.
    rewrite insert_app_r_alt, Nat.sub_diag by lia. cbn.
    repeat split; eauto.
Qed.

(** X20: [duplicateSelected] on any selection.  On a well-formed store
    the call returns, for every choice of selected masses and springs.
    The masses and the springs that were there are exactly as they
    were, at their indices; one mass is appended for each selected mass
    and one spring for each selected spring, and none of these is
    selected, so that the selection is what it was; the parameters and
    the two placeholder indices are kept; and the store is well formed
    again, so that every index the simulation follows is in range. *)
Theorem duplicateSelected_safe (s : System) :
  well_formed s = true ->
  exists s', duplicateSelected s = Some s'
    /\ well_formed s' = true
    /\ massCount s'
       = massCount s + Z.of_nat (length (List.filter Mass.isSelected (masses_ s)))
    /\ springCount s'
       = springCount s + Z.of_nat (length (List.filter Spring.isSelected (springs_ s)))
    /\ (forall j m, getMass s j = Some m -> getMass s' j = Some m)
    /\ (forall k sp, getSpring s k = Some sp -> getSpring s' k = Some sp)
    /\ (forall j m, massCount s <= j -> getMass s' j = Some m -> Mass.isSelected m = false)
    /\ (forall k sp, springCount s <= k -> getSpring s' k = Some sp ->
          Spring.isSelected sp = false)
    /\ rest_kept s s'.
Proof.
  intros Hwf.
  set (n1 := (length (masses_ s) + length (List.filter Mass.isSelected (masses_ s)))%nat).
  set (s1 := set_masses (masses_ s ++ map mass_copy (List.filter Mass.isSelected (masses_ s)))
               s).
  destruct (for_each_total
              (fun t => well_formed t = true /\ length (masses_ t) = n1
                        /\ (forall j, (j < length (masses_ s))%nat ->
                                      masses_ t !! j = masses_ s !! j)
                        /\ (forall j m, (length (masses_ s) <= j)%nat ->
                                        masses_ t !! j = Some m -> Mass.isSelected m = false)
                        /\ (exists ext, springs_ t = springs_ s ++ ext)
                        /\ rest_kept s t)
              (dup_spring (selected_from 0 (masses_ s))
                 (new_indices (length (masses_ s))
                    (length (List.filter Mass.isSelected (masses_ s)))))
              (map Z.of_nat (seq 0 (length (springs_ s)))) s1)
    as (s' & E & Hwf' & Hlen & Hms & Hnew & [ext Hext] & Hrest).
  - split; [apply mass_pass_well_formed, Hwf|].
    split; [unfold s1, n1; cbn; now rewrite length_app, length_map|].
    split; [intros j Hj; unfold s1; cbn; now apply lookup_app_l|].
    split; [|split; [exists []; unfold s1; cbn; now rewrite app_nil_r | repeat split]].
    intros j m Hj Hm. unfold s1 in Hm. cbn in Hm.
    apply lookup_app_Some in Hm as [Hm|[_ Hm]];
      [apply lookup_lt_Some in Hm; lia|].
    apply list_elem_of_lookup_2, list_elem_of_In, in_map_iff in Hm as (a & <- & _).
    apply has_bit_clear.
  - intros a t Ha (Hwft & Hlt & Hmt & Hnt & [ext Hext] & Hrt).
    apply in_map_iff in Ha as (i & <- & Hi). apply in_seq in Hi.
    assert (Hsp : is_Some (springs_ s !! i)) by (apply lookup_lt_is_Some; lia).
    destruct Hsp as [sp Hsp].
    assert (Hget : getSpring t (Z.of_nat i) = Some sp).
    { unfold getSpring. rewrite at_of_nat, Hext. now apply lookup_app_l_Some. }
    destruct (dup_spring_safe s t (Z.of_nat i) sp Hwft Hlt Hget)
      as (t' & ext' & Et & Hwft' & Hlt' & Hmt' & Hst' & Hext' & Hrt').
    exists t'. split; [exact Et|]. split; [exact Hwft'|].
    split; [congruence|].
    split; [intros j Hj; rewrite Hmt' by exact Hj; now apply Hmt|].
    split.
    { intros j m' Hj (m & Hm & Est)%Hst'. unfold Mass.isSelected. rewrite Est.
      apply (Hnt j m Hj Hm). }
    split; [exists (ext ++ ext'); rewrite Hext', Hext; now rewrite app_assoc|].
    destruct Hrt as (A & B & C), Hrt' as (A' & B' & C'). repeat split; congruence.
  - assert (Ed : duplicateSelected s = Some s').
    { unfold duplicateSelected. rewrite dup_masses_fuel. cbn [mbind option_bind].
      exact E. }
    destruct (duplicateSelected_springs s s' Ed) as (Sp & L & _).
    exists s'. split; [exact Ed|]. split; [exact Hwf'|].
    split; [unfold massCount; rewrite L; lia|].
    split; [unfold springCount; rewrite Sp, length_app, length_map; lia|].
    split; [|split; [|split; [|split; [|exact Hrest]]]].
    + intros j m Hj. unfold getMass in *. apply at_Some in Hj as [Hj0 Hj].
      apply at_Some. split; [exact Hj0|]. rewrite Hms; [exact Hj|].
      eapply lookup_lt_Some, Hj.
    + intros k sp Hk. unfold getSpring in *. apply at_Some in Hk as [Hk0 Hk].
      apply at_Some. split; [exact Hk0|]. rewrite Hext. now apply lookup_app_l_Some.
    + intros j m Hj Hm. unfold getMass, massCount in *. apply at_Some in Hm as [Hj0 Hm].
      apply (Hnew (Z.to_nat j) m); [lia | exact Hm].
    + intros k sp Hk Hsp. unfold getSpring, springCount in *.
      apply at_Some in Hsp as [Hk0 Hsp]. rewrite Sp in Hsp.
      apply lookup_app_Some in Hsp as [Hsp|[_ Hsp]];
        [apply lookup_lt_Some in Hsp; lia|].
      apply list_elem_of_lookup_2, list_elem_of_In, in_map_iff in Hsp as (a & <- & _).
      unfold spring_copy. cbn zeta.
      repeat match goal with |- context [if ?c then _ else _] => destruct c end;
        try apply has_bit_clear; reflexivity.
Qed.

Lemma duplicateSelected_safe_witness :
  exists s', duplicateSelected Sample.mesh = Some s'
    /\ well_formed s' = true /\ massCount s' = 5 /\ springCount s' = 5.
Proof.
  destruct (duplicateSelected_safe Sample.mesh eq_refl) as (s' & E & W & M & S & _).
  exists s'. split; [exact E|]. split; [exact W|]. split; [exact M | exact S].
Defined.


(** ** The simulation on a well-formed store ([phys.cpp]) *)

Lemma kept_fades m m' : kept m m' -> mass_fades m m'.
Proof.
  intros (S & _ & _ & _ & _ & P). split; [now left | rewrite P; apply incl_refl].
Qed.

Lemma modMass_rest i f s s' :
  modMass i f s = Some s' ->
  springs_ s' = springs_ s /\ rest_kept s s'
  /\ length (masses_ s') = length (masses_ s).
Proof.
  intros (m & _ & ->)%modMass_inv. cbn. rewrite length_insert. repeat split.
Qed.

Lemma modMass_kept_fades i f s s' :
  modMass i f s = Some s' -> (forall a, kept a (f a)) -> fades s s'.
Proof.
  intros E Hf. destruct (modMass_rest _ _ _ _ E) as (S & (K1 & K2 & K3) & _).
  split; [|split; [rewrite S; apply pointwise_refl; intros; apply spring_fades_refl|]].
  - eapply modMass_pointwise; [exact E| |intros; apply mass_fades_refl].
    intros a _. apply kept_fades, Hf.
  - rewrite K1. auto.
Qed.

Lemma modMass_total i f s :
  has_mass s i = true -> exists s', modMass i f s = Some s'.
Proof. intros [m Hm]%has_mass_spec. rewrite (modMass_Some _ _ _ _ Hm). eauto. Qed.

Lemma accel_spring_rest i s s' :
  accel_spring i s = Some s' ->
  rest_kept s s' /\ length (masses_ s') = length (masses_ s).
Proof.
  unfold accel_spring. destruct (getSpring s i) as [sp|]; [|discriminate].
  cbn [mbind option_bind].
  destruct (has_bit _ _); [|intros [= <-]; split; [apply rest_kept_refl | reflexivity]].
  destruct (getMass s (Spring.m1 sp)) as [m1|]; [|discriminate]. cbn [mbind option_bind].
  destruct (getMass s (Spring.m2 sp)) as [m2|]; [|discriminate]. cbn [mbind option_bind].
  destruct (D.truthy _ || D.truthy _);
    [|intros [= <-]; split; [apply rest_kept_refl | reflexivity]].
  destruct (modMass _ _ s) as [s1|] eqn:E1; [|discriminate]. cbn [mbind option_bind].
  destruct (modMass _ _ s1) as [s2|] eqn:E2; [|discriminate]. cbn [mbind option_bind].
  destruct (modMass _ _ s2) as [s3|] eqn:E3; [|discriminate]. cbn [mbind option_bind].
  intros E4.
  apply modMass_rest in E1 as (_ & K1 & L1). apply modMass_rest in E2 as (_ & K2 & L2).
  apply modMass_rest in E3 as (_ & K3 & L3). apply modMass_rest in E4 as (_ & K4 & L4).
  split; [|congruence].
  eapply rest_kept_trans; [|exact K4]. eapply rest_kept_trans; [|exact K3].
  eapply rest_kept_trans; eassumption.
Qed.

Lemma accel_spring_total i s :
  has_spring s i = true ->
  (forall sp, getSpring s i = Some sp -> Spring.isAlive sp = true ->
     has_mass s (Spring.m1 sp) = true /\ has_mass s (Spring.m2 sp) = true) ->
  exists s', accel_spring i s = Some s'.
Proof.
  intros [sp Hsp]%has_spring_spec Hends. unfold accel_spring. rewrite Hsp.
  cbn [mbind option_bind]. fold (Spring.isAlive sp).
  destruct (Spring.isAlive sp) eqn:Ha; [|eauto].
  destruct (Hends sp Hsp Ha) as [H1 H2].
  destruct (proj1 (has_mass_spec _ _) H1) as [m1 Hm1].
  destruct (proj1 (has_mass_spec _ _) H2) as [m2 Hm2].
  rewrite Hm1, Hm2. cbn [mbind option_bind].
  destruct (D.truthy _ || D.truthy _); [|eauto].
  assert (Hstep : forall k f t, length (masses_ t) = length (masses_ s) ->
            has_mass s k = true ->
            exists t', modMass k f t = Some t' /\ length (masses_ t') = length (masses_ s)).
  { intros k f t L Hk. destruct (modMass_total k f t) as (t' & E).
    - unfold has_mass, massCount in *. now rewrite L.
    - exists t'. split; [exact E|]. apply modMass_rest in E as (_ & _ & L'). congruence. }
  match goal with
  | |- context [modMass ?k ?f s] =>
      destruct (Hstep k f s eq_refl H1) as (s1 & -> & L1)
  end.
  cbn [mbind option_bind].
  match goal with
  | |- context [modMass ?k ?f s1] =>
      destruct (Hstep k f s1 L1 H1) as (s2 & -> & L2)
  end.
  cbn [mbind option_bind].
  match goal with
  | |- context [modMass ?k ?f s2] =>
      destruct (Hstep k f s2 L2 H2) as (s3 & -> & L3)
  end.
  cbn [mbind option_bind].
  match goal with
  | |- context [modMass ?k ?f s3] =>
      destruct (Hstep k f s3 L3 H2) as (s4 & -> & L4)
  end.
  eauto.
Qed.

Lemma accel_springs_rest n s s' :
  for_upto n accel_spring s = Some s' ->
  rest_kept s s' /\ length (masses_ s') = length (masses_ s).
Proof.
  unfold for_upto. intros E.
  eapply (for_each_inv (fun t => rest_kept s t /\ length (masses_ t) = length (masses_ s)));
    [|exact E|split; [apply rest_kept_refl | reflexivity]].
  intros i t t' (K & L)%accel_spring_rest (K0 & L0).
  split; [eapply rest_kept_trans; eassumption | congruence].
Qed.

Lemma accel_center_total width_ height_ s :
  State.center_id (state_ s) < massCount s ->
  exists cx cy s0, accel_center width_ height_ s = Some (cx, cy, s0).
Proof.
  intros Hc. unfold accel_center.
  destruct (Z.leb_spec 0 (State.center_id (state_ s))); [|eauto].
  destruct (proj1 (has_mass_spec s (State.center_id (state_ s)))) as [m Hm].
  - unfold has_mass.
    destruct (Z.leb_spec 0 (State.center_id (state_ s))),
      (Z.ltb_spec (State.center_id (state_ s)) (massCount s)); cbn; try reflexivity; lia.
  - rewrite Hm. cbn [mbind option_bind]. destruct (has_bit _ _); eauto.
Qed.

(** What the accumulator does to the rest of the system. *)
Lemma accumulateAccel_rest M width_ height_ s s' :
  accumulateAccel M width_ height_ s = Some s' ->
  center_cleared (state_ s) (state_ s')
  /\ fakeMass_ s' = fakeMass_ s /\ fakeSpring_ s' = fakeSpring_ s.
Proof.
  unfold accumulateAccel.
  destruct (accel_center width_ height_ s) as [[[cx cy] s0]|] eqn:Hc; [|discriminate].
  cbn [mbind option_bind].
  assert (H0 : center_cleared (state_ s) (state_ s0)
               /\ fakeMass_ s0 = fakeMass_ s /\ fakeSpring_ s0 = fakeSpring_ s).
  { unfold accel_center in Hc. destruct (Z.leb 0 _).
    - destruct (getMass s _) as [m|]; [|discriminate]. cbn in Hc.
      destruct (has_bit _ _); inversion Hc; subst; cbn;
        (split; [first [now left | now right] | split; reflexivity]).
    - inversion Hc; subst. split; [now left | split; reflexivity]. }
  destruct H0 as (C0 & F0 & G0).
  destruct (accel_gravity M (state_ s0)) as [gx gy].
  destruct (accel_cmass cx cy s0) as [ogx ogy].
  intros E. apply accel_springs_rest in E as ((K1 & K2 & K3) & _).
  destruct (State.force_enabled (state_ s0) FR_PTATTRACT),
           (State.force_enabled (state_ s0) FR_WALL);
    cbn [set_masses masses_ springs_ state_ fakeMass_ fakeSpring_] in K1, K2, K3;
    (split; [rewrite K1; exact C0 | split; congruence]).
Qed.

Lemma accelerated_fades m m' : accelerated m m' -> mass_fades m m'.
Proof. intros H. apply kept_fades, accelerated_kept, H. Qed.

Lemma accumulateAccel_fades M width_ height_ s s' :
  accumulateAccel M width_ height_ s = Some s' -> fades s s'.
Proof.
  intros E. destruct (accumulateAccel_frame _ _ _ _ _ E) as (P & S & _).
  destruct (accumulateAccel_rest _ _ _ _ _ E) as (C & F & G).
  split; [eapply pointwise_weaken; [|exact P]; intros j; apply accelerated_fades|].
  split; [rewrite S; apply pointwise_refl; intros; apply spring_fades_refl|].
  split; [apply center_cleared_id, C | split; assumption].
Qed.

Lemma accumulateAccel_total M width_ height_ s :
  well_formed s = true -> exists s', accumulateAccel M width_ height_ s = Some s'.
Proof.
  intros Hwf. pose proof Hwf as Hwf0.
  apply well_formed_spec in Hwf as (Hs & _ & Hc & _).
  unfold accumulateAccel.
  destruct (accel_center_total width_ height_ s Hc) as (cx & cy & s0 & E0). rewrite E0.
  cbn [mbind option_bind].
  destruct (accel_center_inv _ _ _ _ _ _ E0) as (Hms & Hsp & _).
  destruct (accel_gravity M (state_ s0)) as [gx gy].
  destruct (accel_cmass cx cy s0) as [ogx ogy].
  set (s1 := set_masses (map _ (indexed (masses_ s0))) s0).
  set (s2 := if State.force_enabled (state_ s0) FR_PTATTRACT then _ else s1).
  set (s3 := if State.force_enabled (state_ s0) FR_WALL then _ else s2).
  assert (L3 : length (masses_ s3) = length (masses_ s) /\ springs_ s3 = springs_ s).
  { unfold s3, s2, s1.
    destruct (State.force_enabled (state_ s0) FR_PTATTRACT),
             (State.force_enabled (state_ s0) FR_WALL);
      cbn [set_masses masses_ springs_]; rewrite ?length_map, ?indexed_length, Hms, Hsp;
      split; reflexivity. }
  destruct L3 as [L3 S3]. clearbody s3. unfold for_upto.
  destruct (for_each_total
              (fun t => length (masses_ t) = length (masses_ s) /\ springs_ t = springs_ s)
              accel_spring (map Z.of_nat (seq 0 (length (springs_ s3)))) s3)
    as (t & E & _); [split; assumption| |eauto].
  intros i t Hi [Lt St]. apply in_map_iff in Hi as (n & <- & Hn). apply in_seq in Hn.
  rewrite S3 in Hn.
  assert (Em : forall k, has_mass t k = has_mass s k)
    by (intros k; unfold has_mass, massCount; now rewrite Lt).
  destruct (accel_spring_total (Z.of_nat n) t) as (t' & Et).
  - unfold has_spring, springCount. rewrite St.
    destruct (Z.leb_spec 0 (Z.of_nat n)),
      (Z.ltb_spec (Z.of_nat n) (Z.of_nat (length (springs_ s))));
      cbn; try reflexivity; lia.
  - intros sp Hsp' Ha. rewrite !Em. unfold getSpring in Hsp'. rewrite St in Hsp'.
    exact (Hs _ sp Hsp' Ha).
  - exists t'. split; [exact Et|]. split.
    + apply accel_spring_rest in Et as (_ & L). congruence.
    + apply accel_spring_frame in Et as (_ & S & _). congruence.
Qed.

Lemma accumulateAccel_safe M width_ height_ s :
  well_formed s = true ->
  exists s', accumulateAccel M width_ height_ s = Some s'
             /\ fades s s' /\ well_formed s' = true.
Proof.
  intros Hwf. destruct (accumulateAccel_total M width_ height_ s Hwf) as (s' & E).
  exists s'. split; [exact E|].
  pose proof (accumulateAccel_fades _ _ _ _ _ E) as F.
  split; [exact F | eapply fades_well_formed; eassumption].
Qed.

Lemma on_free_fades f s : (forall a, kept a (f a)) -> fades s (on_free f s).
Proof.
  intros Hf. split; [|split; [apply pointwise_refl; intros; apply spring_fades_refl|]].
  - unfold on_free. cbn. apply pointwise_map. intros j a _.
    destruct (Mass.free a); [apply kept_fades, Hf | apply mass_fades_refl].
  - split; [now left | split; reflexivity].
Qed.

Lemma rk4_kept h testloc :
  (forall a, kept a (rk4_k1 h a)) /\ (forall a, kept a (rk4_k2 h a))
  /\ (forall a, kept a (rk4_k3 h a)) /\ (forall a, kept a (rk4_k4 h a))
  /\ (forall a, kept a (rk4_final testloc a)).
Proof.
  repeat split; try reflexivity; unfold rk4_final; destruct testloc; reflexivity.
Qed.

Lemma rkf_kept h :
  (forall a, kept a (rkf_k1 h a)) /\ (forall a, kept a (rkf_k2 h a))
  /\ (forall a, kept a (rkf_k3 h a)) /\ (forall a, kept a (rkf_k4 h a))
  /\ (forall a, kept a (rkf_k5 h a)) /\ (forall a, kept a (rkf_k6 h a))
  /\ (forall a, kept a (rkf_next a)).
Proof. repeat split. Qed.

(** One stage of an integrator on a well-formed store. *)
Lemma stage_safe M width_ height_ f s0 s :
  (forall a, kept a (f a)) ->
  well_formed s0 = true -> fades s0 s ->
  exists s1, accumulateAccel M width_ height_ s = Some s1
             /\ fades s0 (on_free f s1).
Proof.
  intros Hf Hwf F.
  destruct (accumulateAccel_safe M width_ height_ s (fades_well_formed _ _ Hwf F))
    as (s1 & E & F1 & _).
  exists s1. split; [exact E|].
  eapply fades_trans; [exact F|]. eapply fades_trans; [exact F1|].
  apply on_free_fades, Hf.
Qed.

Lemma rungeKutta_safe M width_ height_ h testloc s0 s :
  well_formed s0 = true -> fades s0 s ->
  exists s', rungeKutta M width_ height_ h testloc s = Some s' /\ fades s0 s'.
Proof.
  intros Hwf F. destruct (rk4_kept h testloc) as (K1 & K2 & K3 & K4 & K5).
  unfold rungeKutta.
  destruct (stage_safe M width_ height_ _ s0 s K1 Hwf F) as (s1 & -> & F1).
  cbn [mbind option_bind].
  destruct (stage_safe M width_ height_ _ s0 _ K2 Hwf F1) as (s2 & -> & F2).
  cbn [mbind option_bind].
  destruct (stage_safe M width_ height_ _ s0 _ K3 Hwf F2) as (s3 & -> & F3).
  cbn [mbind option_bind].
  destruct (stage_safe M width_ height_ _ s0 _ K4 Hwf F3) as (s4 & -> & F4).
  cbn [mbind option_bind].
  eexists. split; [reflexivity|].
  eapply fades_trans; [exact F4 | apply on_free_fades, K5].
Qed.

Lemma set_state_fades st s :
  State.center_id st = State.center_id (state_ s) -> fades s (set_state st s).
Proof.
  intros H. split; [apply pointwise_refl; intros; apply mass_fades_refl|].
  split; [apply pointwise_refl; intros; apply spring_fades_refl|].
  split; [now left | split; reflexivity].
Qed.

Lemma rkf_clamp_fades s : fades s (rkf_clamp s).
Proof.
  unfold rkf_clamp. apply set_state_fades. cbn zeta.
  repeat match goal with |- context [if ?c then _ else _] => destruct c end; reflexivity.
Qed.

Lemma scale_dt_fades f s : fades s (scale_dt f s).
Proof. unfold scale_dt. now apply set_state_fades. Qed.

Lemma rkf_stages_safe M width_ height_ s0 s :
  well_formed s0 = true -> fades s0 s ->
  exists s', rkf_stages M width_ height_ s = Some s' /\ fades s0 s'.
Proof.
  intros Hwf F. unfold rkf_stages.
  set (h := State.cur_dt (state_ (rkf_clamp s))).
  destruct (rkf_kept h) as (K1 & K2 & K3 & K4 & K5 & K6 & _).
  assert (F0 : fades s0 (rkf_clamp s))
    by (eapply fades_trans; [exact F | apply rkf_clamp_fades]).
  destruct (stage_safe M width_ height_ _ s0 _ K1 Hwf F0) as (s1 & -> & F1).
  cbn [mbind option_bind].
  destruct (stage_safe M width_ height_ _ s0 _ K2 Hwf F1) as (s2 & -> & F2).
  cbn [mbind option_bind].
  destruct (stage_safe M width_ height_ _ s0 _ K3 Hwf F2) as (s3 & -> & F3).
  cbn [mbind option_bind].
  destruct (stage_safe M width_ height_ _ s0 _ K4 Hwf F3) as (s4 & -> & F4).
  cbn [mbind option_bind].
  destruct (stage_safe M width_ height_ _ s0 _ K5 Hwf F4) as (s5 & -> & F5).
  cbn [mbind option_bind].
  destruct (stage_safe M width_ height_ _ s0 _ K6 Hwf F5) as (s6 & -> & F6).
  cbn [mbind option_bind].
  eauto.
Qed.

Lemma rkf_rollback_kept a : kept a (rkf_rollback a).
Proof. repeat split. Qed.

Lemma rkf_attempt_safe M width_ height_ s0 s :
  well_formed s0 = true -> fades s0 s ->
  exists a, rkf_attempt M width_ height_ s = Some a
            /\ fades s0 (match a with Accepted t | Rejected t => t end).
Proof.
  intros Hwf F. unfold rkf_attempt.
  destruct (rkf_stages_safe M width_ height_ s0 s Hwf F) as (s1 & -> & F1).
  cbn [mbind option_bind]. eexists. split; [reflexivity|].
  destruct (rkf_kept 0%float) as (_ & _ & _ & _ & _ & _ & Kn).
  unfold rkf_decide. destruct (_ <? _)%float.
  - eapply fades_trans; [exact F1|]. eapply fades_trans; [apply scale_dt_fades|].
    apply on_free_fades, Kn.
  - destruct (D.gtb _ _).
    + eapply fades_trans; [exact F1|].
      eapply fades_trans; [apply on_free_fades, rkf_rollback_kept | apply scale_dt_fades].
    + eapply fades_trans; [exact F1 | apply on_free_fades, Kn].
Qed.

(** The adaptive integrator on a well-formed store: a result is within
    [fades], and no result means that every pass was rejected. *)
Lemma adaptiveRungeKutta_safe M width_ height_ s0 fuel : forall s,
  well_formed s0 = true -> fades s0 s ->
  match adaptiveRungeKutta M width_ height_ fuel s with
  | Some s' => fades s0 s'
  | None => is_Some (rejected_run M width_ height_ fuel s)
  end.
Proof.
  induction fuel as [|fuel IH]; intros s Hwf F; cbn [adaptiveRungeKutta rejected_run].
  - eauto.
  - destruct (rkf_attempt_safe M width_ height_ s0 s Hwf F) as (a & -> & Fa).
    cbn [mbind option_bind]. destruct a as [t|t]; [exact Fa|].
    apply IH; assumption.
Qed.

Lemma on_free_mass_fades f s : (forall a, mass_fades a (f a)) -> fades s (on_free f s).
Proof.
  intros Hf. split; [|split; [apply pointwise_refl; intros; apply spring_fades_refl|]].
  - unfold on_free. cbn. apply pointwise_map. intros j a _.
    destruct (Mass.free a); [apply Hf | apply mass_fades_refl].
  - split; [now left | split; reflexivity].
Qed.

Lemma any_spring_snapshot s : any_spring (on_free snapshot s) = any_spring s.
Proof. reflexivity. Qed.

Lemma integrate_safe M width_ height_ fuel s :
  well_formed s = true ->
  match integrate M width_ height_ fuel s with
  | Some s' => fades s s'
  | None => State.adaptive_step (state_ s) = true /\ any_spring s = true
            /\ is_Some (rejected_run M width_ height_ fuel (on_free snapshot s))
  end.
Proof.
  intros Hwf. unfold integrate.
  assert (F0 : fades s (on_free snapshot s)).
  { apply on_free_mass_fades. intros a. split; [now left | apply incl_refl]. }
  change (State.adaptive_step (state_ (on_free snapshot s)))
    with (State.adaptive_step (state_ s)).
  rewrite any_spring_snapshot.
  destruct (State.adaptive_step (state_ s)).
  - destruct (any_spring s).
    + pose proof (adaptiveRungeKutta_safe M width_ height_ s fuel _ Hwf F0) as H.
      destruct (adaptiveRungeKutta _ _ _ _ _); auto.
    + destruct (rungeKutta_safe M width_ height_ DEF_TSTEP false s
                  (set_state (State.set_cur_dt DEF_TSTEP (state_ (on_free snapshot s)))
                             (on_free snapshot s)) Hwf) as (s' & -> & F); [|exact F].
      eapply fades_trans; [exact F0 | now apply set_state_fades].
  - destruct (rungeKutta_safe M width_ height_
                (State.cur_dt (state_ (on_free snapshot s))) false s
                (on_free snapshot s) Hwf F0) as (s' & -> & F). exact F.
Qed.

(** *** The wall code *)

Lemma pin_kept a : kept a (pin a).
Proof. repeat split. Qed.

Lemma bounce_x_kept width_ mst a : kept a (bounce_x width_ mst a).
Proof.
  unfold bounce_x. cbn zeta.
  repeat match goal with |- context [if ?c then _ else _] => destruct c end;
    repeat split.
Qed.

Lemma bounce_y_kept height_ mst a : kept a (bounce_y height_ mst a).
Proof.
  unfold bounce_y. cbn zeta.
  repeat match goal with |- context [if ?c then _ else _] => destruct c end;
    repeat split.
Qed.

Lemma wall_body_safe width_ height_ stick_mag i t :
  well_formed t = true -> has_mass t i = true ->
  exists t', wall_body width_ height_ stick_mag i t = Some t' /\ fades t t'.
Proof.
  intros Hwf Hi. destruct (proj1 (has_mass_spec _ _) Hi) as [m Hm].
  unfold wall_body. rewrite Hm. cbn [mbind option_bind].
  destruct (Mass.free m); [|exists t; split; [reflexivity | apply fades_refl]].
  destruct (exploded m).
  - destruct (deleteMass_total t i Hwf Hi) as (t' & E). exists t'.
    split; [exact E | eapply deleteMass_fades, E].
  - destruct (stuck _ _ _ _ _).
    + destruct (modMass_total i pin t Hi) as (t' & E). exists t'.
      split; [exact E | eapply modMass_kept_fades; [exact E | apply pin_kept]].
    + destruct (modMass_total i (fun m => bounce_y height_ (state_ t)
                                            (bounce_x width_ (state_ t) m)) t Hi)
        as (t' & E).
      exists t'. split; [exact E|]. eapply modMass_kept_fades; [exact E|].
      intros a. eapply kept_trans; [apply bounce_x_kept | apply bounce_y_kept].
Qed.

Lemma walls_safe width_ height_ s0 s :
  well_formed s0 = true -> fades s0 s ->
  exists s', walls width_ height_ s = Some s' /\ fades s0 s'.
Proof.
  intros Hwf F. unfold walls, for_upto.
  apply (for_each_total (fun t => fades s0 t)); [exact F|].
  intros i t Hi Ft. apply in_map_iff in Hi as (n & <- & Hn). apply in_seq in Hn.
  destruct (wall_body_safe width_ height_
              (STICK_MAG * State.cur_dt (state_ s) * State.cur_stick (state_ s))%float
              (Z.of_nat n) t (fades_well_formed _ _ Hwf Ft)) as (t' & E & Ft').
  - destruct (fades_counts _ _ Ft) as [Ct _]. destruct (fades_counts _ _ F) as [Cs _].
    unfold has_mass. rewrite Ct, <- Cs. unfold massCount.
    destruct (Z.leb_spec 0 (Z.of_nat n)),
      (Z.ltb_spec (Z.of_nat n) (Z.of_nat (length (masses_ s))));
      cbn; try reflexivity; lia.
  - exists t'. split; [exact E | eapply fades_trans; eassumption].
Qed.

(** *** Contact resolution *)

Lemma deflected_refl m : deflected m m.
Proof. unfold deflected. now destruct m. Qed.

Lemma collided_refl m : collided m m.
Proof. split; [apply deflected_refl | reflexivity]. Qed.

Lemma collided_trans a b c : collided a b -> collided b c -> collided a c.
Proof.
  intros [D1 N1] [D2 N2]. split.
  - unfold deflected in *. rewrite D2 at 1. rewrite D1 at 1. reflexivity.
  - intros Hf. rewrite (N1 Hf) in *. auto.
Qed.

Lemma collided_status a b : collided a b -> Mass.status b = Mass.status a.
Proof. intros [D _]. rewrite D. reflexivity. Qed.

Lemma pointwise_collided_refl v : pointwise (fun _ => collided) v v.
Proof. apply pointwise_refl. intros; apply collided_refl. Qed.

Lemma pointwise_collided_trans a b c :
  pointwise (fun _ => collided) a b -> pointwise (fun _ => collided) b c ->
  pointwise (fun _ => collided) a c.
Proof. apply pointwise_trans. intros j. apply collided_trans. Qed.

(** The loops of the contact code write nothing but [masses_]. *)
Lemma collide_pair_collided i r x y j s s' mi :
  getMass s i = Some mi -> Mass.isAlive mi = true ->
  collide_pair i r x y j s = Some s' ->
  pointwise (fun _ => collided) (masses_ s) (masses_ s')
  /\ springs_ s' = springs_ s /\ rest_kept s s'.
Proof.
  intros Hmi Hai.
  assert (Hmod : forall k vx vy t t' mk,
            getMass t k = Some mk -> Mass.free mk = true ->
            modMass k (fun m => Mass.set_vy vy (Mass.set_vx vx m)) t = Some t' ->
            pointwise (fun _ => collided) (masses_ t) (masses_ t')
            /\ springs_ t' = springs_ t /\ rest_kept t t').
  { intros k vx vy t t' mk Hk Hf Et.
    destruct (modMass_rest _ _ _ _ Et) as (S & K & _). split; [|auto].
    eapply modMass_pointwise; [exact Et| |intros; apply collided_refl].
    intros a Ha. assert (a = mk) by congruence. subst a.
    split; [reflexivity | congruence]. }
  unfold collide_pair. rewrite Hmi. cbn [mbind option_bind].
  destruct (getMass s j) as [m2|] eqn:H2; [|discriminate]. cbn [mbind option_bind].
  assert (Hrefl : pointwise (fun _ => collided) (masses_ s) (masses_ s)
                  /\ springs_ s = springs_ s /\ rest_kept s s)
    by (split; [apply pointwise_collided_refl | split; [reflexivity | apply rest_kept_refl]]).
  destruct (has_bit (Mass.status m2) S_ALIVE) eqn:A2; [|intros [= <-]; exact Hrefl].
  destruct (_ <? _)%float; [|intros [= <-]; exact Hrefl].
  destruct (D.gtb _ _ || D.gtb _ _); [|intros [= <-]; exact Hrefl].
  destruct (has_bit (Mass.status mi) S_FIXED) eqn:F1; cbn [negb mbind option_bind].
  - destruct (has_bit (Mass.status m2) S_FIXED) eqn:F2; cbn [negb].
    + intros [= <-]. exact Hrefl.
    + intros E. eapply Hmod; [exact H2| |exact E].
      unfold Mass.free, Mass.isAlive, Mass.isFixed. now rewrite A2, F2.
  - destruct (modMass i _ s) as [t|] eqn:Et; [|discriminate]. cbn [mbind option_bind].
    pose proof Et as Et0.
    eapply Hmod in Et as (P1 & S1 & K1); [|exact Hmi|].
    2:{ unfold Mass.free, Mass.isFixed. now rewrite Hai, F1. }
    destruct (has_bit (Mass.status m2) S_FIXED) eqn:F2; cbn [negb].
    + intros [= <-]. auto.
    + intros E.
      destruct P1 as [L1 P1']. destruct (P1' j m2 H2) as (m2' & H2' & C2).
      eapply Hmod in E as (P2 & S2 & K2); [|exact H2'|].
      * split; [eapply pointwise_collided_trans; [split; eassumption | exact P2]|].
        split; [congruence | eapply rest_kept_trans; eassumption].
      * unfold Mass.free, Mass.isAlive, Mass.isFixed.
        rewrite (collided_status _ _ C2). now rewrite A2, F2.
Qed.

Lemma collide_pair_total i r x y j s :
  has_mass s i = true -> has_mass s j = true ->
  exists s', collide_pair i r x y j s = Some s'.
Proof.
  intros Hi Hj.
  destruct (proj1 (has_mass_spec _ _) Hi) as [m1 H1].
  destruct (proj1 (has_mass_spec _ _) Hj) as [m2 H2].
  unfold collide_pair. rewrite H1, H2. cbn [mbind option_bind].
  destruct (has_bit (Mass.status m2) S_ALIVE); [|eauto].
  destruct (_ <? _)%float; [|eauto].
  destruct (D.gtb _ _ || D.gtb _ _); [|eauto].
  destruct (negb (has_bit (Mass.status m1) S_FIXED)).
  - match goal with
    | |- context [modMass i ?f s] => destruct (modMass_total i f s Hi) as (t & Et)
    end.
    rewrite Et. cbn [mbind option_bind].
    destruct (negb (has_bit (Mass.status m2) S_FIXED)); [|eauto].
    apply modMass_total. apply modMass_rest in Et as (_ & _ & L).
    unfold has_mass, massCount in *. now rewrite L.
  - cbn [mbind option_bind].
    destruct (negb (has_bit (Mass.status m2) S_FIXED)); [|eauto].
    now apply modMass_total.
Qed.

Lemma collide_from_safe n i s :
  n = length (masses_ s) -> (i < n)%nat ->
  exists s', collide_from n i s = Some s'
    /\ pointwise (fun _ => collided) (masses_ s) (masses_ s')
    /\ springs_ s' = springs_ s /\ rest_kept s s'.
Proof.
  intros Hn Hi. unfold collide_from.
  assert (Hm : has_mass s (Z.of_nat i) = true).
  { unfold has_mass, massCount.
    destruct (Z.leb_spec 0 (Z.of_nat i)),
      (Z.ltb_spec (Z.of_nat i) (Z.of_nat (length (masses_ s))));
      cbn; try reflexivity; lia. }
  destruct (proj1 (has_mass_spec _ _) Hm) as [m1 H1]. rewrite H1.
  cbn [mbind option_bind]. fold (Mass.isAlive m1).
  destruct (Mass.isAlive m1) eqn:A1.
  2:{ exists s. split; [reflexivity|]. split; [apply pointwise_collided_refl|].
      split; [reflexivity | apply rest_kept_refl]. }
  apply (for_each_total (fun t => pointwise (fun _ => collided) (masses_ s) (masses_ t)
                                  /\ springs_ t = springs_ s /\ rest_kept s t)).
  - split; [apply pointwise_collided_refl | split; [reflexivity | apply rest_kept_refl]].
  - intros j t Hj (P & S & K). apply in_map_iff in Hj as (k & <- & Hk). apply in_seq in Hk.
    destruct P as [L P']. destruct (P' _ m1 H1) as (m1' & H1' & C1).
    assert (Et : forall z, has_mass t z = has_mass s z)
      by (intros z; unfold has_mass, massCount; now rewrite L).
    destruct (collide_pair_total (Z.of_nat i) (collide_radius m1) (Mass.x m1) (Mass.y m1)
                (Z.of_nat k) t) as (t' & E).
    + now rewrite Et.
    + rewrite Et. unfold has_mass, massCount.
      destruct (Z.leb_spec 0 (Z.of_nat k)),
        (Z.ltb_spec (Z.of_nat k) (Z.of_nat (length (masses_ s))));
        cbn; try reflexivity; lia.
    + exists t'. split; [exact E|].
      eapply collide_pair_collided in E as (P2 & S2 & K2); [|exact H1'|].
      * split; [eapply pointwise_collided_trans; [split; eassumption | exact P2]|].
        split; [congruence | eapply rest_kept_trans; eassumption].
      * unfold Mass.isAlive. rewrite (collided_status _ _ C1). exact A1.
Qed.

Lemma collisions_safe s :
  exists s', collisions s = Some s'
    /\ pointwise (fun _ => collided) (masses_ s) (masses_ s')
    /\ springs_ s' = springs_ s /\ rest_kept s s'.
Proof.
  unfold collisions. destruct (State.collide (state_ s)).
  2:{ exists s. split; [reflexivity|]. split; [apply pointwise_collided_refl|].
      split; [reflexivity | apply rest_kept_refl]. }
  apply (for_each_total (fun t => pointwise (fun _ => collided) (masses_ s) (masses_ t)
                                  /\ springs_ t = springs_ s /\ rest_kept s t)).
  - split; [apply pointwise_collided_refl | split; [reflexivity | apply rest_kept_refl]].
  - intros i t Hi (P & S & K). apply in_seq in Hi.
    destruct (collide_from_safe (length (masses_ s)) i t) as (t' & E & P2 & S2 & K2).
    + destruct P as [L _]. now rewrite L.
    + lia.
    + exists t'. split; [exact E|].
      split; [eapply pointwise_collided_trans; eassumption|].
      split; [congruence | eapply rest_kept_trans; eassumption].
Qed.

Lemma collided_fades s s' :
  pointwise (fun _ => collided) (masses_ s) (masses_ s') ->
  springs_ s' = springs_ s -> rest_kept s s' -> fades s s'.
Proof.
  intros P S (K1 & K2 & K3).
  split; [|split; [rewrite S; apply pointwise_refl; intros; apply spring_fades_refl|]].
  - eapply pointwise_weaken; [|exact P]. intros j m m' [D _].
    split; rewrite D; [now left | apply incl_refl].
  - rewrite K1. auto.
Qed.

(** X12: on a well-formed store [advance] never leaves the vectors.  In
    fixed-step mode, and in adaptive mode without a live spring, it
    returns; the only way not to return is that every pass of the adaptive
    integrator is rejected.  What it returns is well formed again, with
    the same number of masses and springs. *)
Theorem advance_in_range (M : Libm) (width_ height_ : Z) (fuel : nat)
    (s : System) (p : Pacer) :
  well_formed s = true ->
  match advance M width_ height_ fuel s p with
  | Some (_, s', _) =>
      well_formed s' = true
      /\ massCount s' = massCount s /\ springCount s' = springCount s
  | None =>
      State.adaptive_step (state_ s) = true /\ any_spring s = true
      /\ is_Some (rejected_run M width_ height_ fuel (on_free snapshot s))
  end.
Proof.
  intros Hwf. unfold advance.
  pose proof (integrate_safe M width_ height_ fuel s Hwf) as Hi.
  destruct (integrate M width_ height_ fuel s) as [s1|]; [|exact Hi].
  cbn [mbind option_bind].
  destruct (walls_safe width_ height_ s s1 Hwf Hi) as (s2 & -> & F2).
  cbn [mbind option_bind].
  destruct (collisions_safe s2) as (s3 & -> & P3 & S3 & K3).
  cbn [mbind option_bind].
  destruct (pace (State.cur_dt (state_ s3)) p) as [due p'].
  assert (F3 : fades s s3)
    by (eapply fades_trans; [exact F2 | now apply collided_fades]).
  split; [eapply fades_well_formed; eassumption | apply fades_counts, F3].
Qed.

Lemma advance_in_range_witness :
  match advance Scene.libm 400 400 1 Sample.mesh Pacer0 with
  | Some (_, s', _) =>
      well_formed s' = true
      /\ massCount s' = massCount Sample.mesh /\ springCount s' = springCount Sample.mesh
  | None =>
      State.adaptive_step (state_ Sample.mesh) = true /\ any_spring Sample.mesh = true
      /\ is_Some (rejected_run Scene.libm 400 400 1 (on_free snapshot Sample.mesh))
  end.
Proof. exact (advance_in_range Scene.libm 400 400 1 Sample.mesh Pacer0 eq_refl). Defined.

(** X13: contact resolution always returns, whatever the store holds, and
    writes velocities only: a mass that is not free (dead or FIXED) is
    left exactly as it was, a free mass changes in [vx] and [vy] at most,
    and springs and parameters are untouched. *)
Theorem collisions_deflect (s : System) :
  exists s', collisions s = Some s'
    /\ pointwise (fun _ m m' =>
                    m' = Mass.set_vy (Mass.vy m') (Mass.set_vx (Mass.vx m') m)
                    /\ (Mass.free m = false -> m' = m))
         (masses_ s) (masses_ s')
    /\ springs_ s' = springs_ s /\ state_ s' = state_ s.
Proof.
  destruct (collisions_safe s) as (s' & E & P & S & K & _).
  exists s'. split; [exact E|]. split; [exact P | auto].
Qed.

(** *** The centre *)

Lemma center_alive_kept s s' :
  center_alive s ->
  pointwise (fun _ m m' => Mass.status m' = Mass.status m) (masses_ s) (masses_ s') ->
  center_cleared (state_ s) (state_ s') ->
  center_alive s'.
Proof.
  unfold center_alive. intros Hal [_ P] [E|E]; rewrite E; [|left; cbn; lia].
  destruct Hal as [H|(m & Hm & Ha)]; [now left|].
  right. destruct (P _ m Hm) as (m' & Hm' & St). exists m'. split; [exact Hm'|].
  unfold Mass.isAlive. now rewrite St.
Qed.

Lemma accel_center_idem width_ height_ s cx cy s0 :
  accel_center width_ height_ s = Some (cx, cy, s0) ->
  accel_center width_ height_ s0 = Some (cx, cy, s0) /\ center_alive s0.
Proof.
  unfold accel_center at 1.
  destruct (Z.leb_spec 0 (State.center_id (state_ s))) as [Hc|Hc].
  - destruct (getMass s _) as [m|] eqn:Hm; [|discriminate]. cbn [mbind option_bind].
    destruct (has_bit (Mass.status m) S_ALIVE) eqn:Ha; intros [= <- <- <-].
    + split; [|right; eauto]. unfold accel_center.
      destruct (Z.leb_spec 0 (State.center_id (state_ s))); [|lia].
      rewrite Hm. cbn [mbind option_bind]. now rewrite Ha.
    + split; [reflexivity | left; cbn; lia].
  - intros [= <- <- <-]. split; [|now left]. unfold accel_center.
    destruct (Z.leb_spec 0 (State.center_id (state_ s))); [lia | reflexivity].
Qed.

Lemma kept_status_pointwise (R : Mass -> Mass -> Prop) v v' :
  (forall a b, R a b -> kept a b) ->
  pointwise (fun _ => R) v v' ->
  pointwise (fun _ m m' => Mass.status m' = Mass.status m) v v'.
Proof.
  intros H. apply pointwise_weaken. intros j a b Hab. now destruct (H a b Hab).
Qed.

(** Whatever the centre was, after the accumulator it is no mass or a
    live one. *)
Lemma accumulateAccel_center_alive M width_ height_ s s' :
  accumulateAccel M width_ height_ s = Some s' -> center_alive s'.
Proof.
  intros E.
  destruct (accel_center width_ height_ s) as [[[cx cy] s0]|] eqn:Hc;
    [|unfold accumulateAccel in E; rewrite Hc in E; discriminate].
  destruct (accel_center_idem _ _ _ _ _ _ Hc) as [Hc0 Hal].
  assert (E0 : accumulateAccel M width_ height_ s0 = Some s').
  { unfold accumulateAccel in *. rewrite Hc in E. rewrite Hc0. exact E. }
  destruct (accumulateAccel_frame _ _ _ _ _ E0) as (P & _ & _).
  destruct (accumulateAccel_rest _ _ _ _ _ E0) as (C & _).
  eapply center_alive_kept; [exact Hal| |exact C].
  eapply kept_status_pointwise; [|exact P]. apply accelerated_kept.
Qed.

Lemma on_free_center_alive f s :
  (forall a, kept a (f a)) -> center_alive s -> center_alive (on_free f s).
Proof.
  intros Hf H. eapply center_alive_kept; [exact H| |apply center_cleared_refl].
  eapply kept_status_pointwise; [|apply on_free_stepped].
  intros a b Hs. eapply stepped_kept; [exact Hf | exact Hs].
Qed.

Lemma set_state_center_alive st s :
  State.center_id st = State.center_id (state_ s) ->
  center_alive s -> center_alive (set_state st s).
Proof. unfold center_alive. cbn. now intros ->. Qed.

Lemma rungeKutta_center_alive M width_ height_ h testloc s s' :
  rungeKutta M width_ height_ h testloc s = Some s' -> center_alive s'.
Proof.
  unfold rungeKutta.
  destruct (accumulateAccel M width_ height_ s) as [s1|]; [|discriminate].
  cbn [mbind option_bind].
  destruct (accumulateAccel M width_ height_ _) as [s2|]; [|discriminate].
  cbn [mbind option_bind].
  destruct (accumulateAccel M width_ height_ _) as [s3|]; [|discriminate].
  cbn [mbind option_bind].
  destruct (accumulateAccel M width_ height_ _) as [s4|] eqn:E4; [|discriminate].
  cbn [mbind option_bind]. intros [= <-].
  destruct (rk4_kept h testloc) as (_ & _ & _ & K4 & K5).
  apply on_free_center_alive; [exact K5|]. apply on_free_center_alive; [exact K4|].
  eapply accumulateAccel_center_alive, E4.
Qed.

Lemma rkf_stages_center_alive M width_ height_ s s' :
  rkf_stages M width_ height_ s = Some s' -> center_alive s'.
Proof.
  unfold rkf_stages. cbn zeta. set (h := State.cur_dt (state_ (rkf_clamp s))).
  destruct (accumulateAccel M width_ height_ (rkf_clamp s)) as [s1|]; [|discriminate].
  cbn [mbind option_bind].
  destruct (accumulateAccel M width_ height_ (on_free (rkf_k1 h) s1)) as [s2|];
    [|discriminate].
  cbn [mbind option_bind].
  destruct (accumulateAccel M width_ height_ (on_free (rkf_k2 h) s2)) as [s3|];
    [|discriminate].
  cbn [mbind option_bind].
  destruct (accumulateAccel M width_ height_ (on_free (rkf_k3 h) s3)) as [s4|];
    [|discriminate].
  cbn [mbind option_bind].
  destruct (accumulateAccel M width_ height_ (on_free (rkf_k4 h) s4)) as [s5|];
    [|discriminate].
  cbn [mbind option_bind].
  destruct (accumulateAccel M width_ height_ (on_free (rkf_k5 h) s5)) as [s6|] eqn:E6;
    [|discriminate].
  cbn [mbind option_bind]. intros [= <-].
  apply on_free_center_alive; [apply (rkf_kept h)|].
  eapply accumulateAccel_center_alive, E6.
Qed.

Lemma rkf_decide_center_alive M s :
  center_alive s ->
  center_alive (match rkf_decide M s with Accepted t | Rejected t => t end).
Proof.
  intros H. destruct (rkf_kept 0%float) as (_ & _ & _ & _ & _ & _ & Kn).
  unfold rkf_decide. destruct (_ <? _)%float.
  - apply on_free_center_alive; [exact Kn|]. now apply set_state_center_alive.
  - destruct (D.gtb _ _).
    + apply set_state_center_alive; [reflexivity|].
      apply on_free_center_alive; [apply rkf_rollback_kept | exact H].
    + apply on_free_center_alive; [exact Kn | exact H].
Qed.

Lemma rkf_attempt_center_alive M width_ height_ s a :
  rkf_attempt M width_ height_ s = Some a ->
  center_alive (match a with Accepted t | Rejected t => t end).
Proof.
  unfold rkf_attempt.
  destruct (rkf_stages M width_ height_ s) as [s1|] eqn:E1; [|discriminate].
  cbn [mbind option_bind]. intros [= <-].
  apply rkf_decide_center_alive. eapply rkf_stages_center_alive, E1.
Qed.

Lemma adaptiveRungeKutta_center_alive M width_ height_ fuel : forall s s',
  adaptiveRungeKutta M width_ height_ fuel s = Some s' -> center_alive s'.
Proof.
  induction fuel as [|fuel IH]; intros s s'; cbn [adaptiveRungeKutta]; [discriminate|].
  destruct (rkf_attempt M width_ height_ s) as [a|] eqn:Ea; [|discriminate].
  cbn [mbind option_bind]. apply rkf_attempt_center_alive in Ea.
  destruct a as [t|t]; [intros [= <-]; exact Ea | apply IH].
Qed.

Lemma integrate_center_alive M width_ height_ fuel s s' :
  integrate M width_ height_ fuel s = Some s' -> center_alive s'.
Proof.
  unfold integrate. destruct (State.adaptive_step _).
  - destruct (any_spring _);
      [apply adaptiveRungeKutta_center_alive | apply rungeKutta_center_alive].
  - apply rungeKutta_center_alive.
Qed.

Lemma wall_body_center_alive width_ height_ stick_mag i s s' :
  wall_body width_ height_ stick_mag i s = Some s' -> center_alive s -> center_alive s'.
Proof.
  unfold wall_body. destruct (getMass s i) as [m|] eqn:Hm; [|discriminate].
  cbn [mbind option_bind]. intros E Hal.
  assert (Hmod : forall f t, (forall a, kept a (f a)) -> modMass i f s = Some t ->
                             center_alive t).
  { intros f t Hf Et. destruct (modMass_rest _ _ _ _ Et) as (_ & (K & _) & _).
    eapply center_alive_kept; [exact Hal| |rewrite K; apply center_cleared_refl].
    eapply modMass_pointwise; [exact Et| |reflexivity].
    intros a _. now destruct (Hf a). }
  destruct (Mass.free m); [|now inversion E; subst].
  destruct (exploded m).
  - apply deleteMass_waned in E as (M & _ & St & _).
    destruct (Z.eqb_spec i (State.center_id (state_ s))) as [Hc|Hc].
    + left. rewrite St. cbn. lia.
    + destruct Hal as [Hneg|(c & Hcm & Hca)]; [left; now rewrite St|].
      right. rewrite St. destruct M as [_ M]. destruct (M _ c Hcm) as (c' & Hc' & W).
      exists c'. split; [exact Hc'|]. unfold Mass.isAlive.
      rewrite (mass_waned_to_status _ _ _ W).
      destruct (Z.eqb_spec (State.center_id (state_ s)) i); [congruence | exact Hca].
  - destruct (stuck _ _ _ _ _).
    + eapply Hmod; [apply pin_kept | exact E].
    + eapply Hmod; [|exact E].
      intros a. eapply kept_trans; [apply bounce_x_kept | apply bounce_y_kept].
Qed.

(** X14: when [advance] returns, the centre is no mass or a live one: a
    centre mass that was dead on entry, or that the wall code deleted
    because it exploded, is no longer the centre. *)
Theorem advance_center_alive (M : Libm) (width_ height_ : Z) (fuel : nat)
    (s s' : System) (p p' : Pacer) (due : bool) :
  advance M width_ height_ fuel s p = Some (due, s', p') ->
  State.center_id (state_ s') < 0
  \/ exists m, getMass s' (State.center_id (state_ s')) = Some m
               /\ Mass.isAlive m = true.
Proof.
  unfold advance.
  destruct (integrate M width_ height_ fuel s) as [s1|] eqn:E1; [|discriminate].
  cbn [mbind option_bind].
  destruct (walls width_ height_ s1) as [s2|] eqn:E2; [|discriminate].
  cbn [mbind option_bind].
  destruct (collisions s2) as [s3|] eqn:E3; [|discriminate].
  cbn [mbind option_bind].
  destruct (pace _ p) as [d q]. intros [= _ <- _].
  apply integrate_center_alive in E1.
  assert (H2 : center_alive s2).
  { unfold walls, for_upto in E2.
    eapply (for_each_inv center_alive); [|exact E2|exact E1].
    intros i t t'. apply wall_body_center_alive. }
  destruct (collisions_safe s2) as (s3' & E3' & P & _ & (K & _)).
  rewrite E3 in E3'. injection E3' as <-.
  eapply center_alive_kept; [exact H2| |rewrite K; apply center_cleared_refl].
  eapply pointwise_weaken; [|exact P]. intros j a b. apply collided_status.
Qed.

Lemma advance_center_alive_witness :
  exists due s' p',
    advance Scene.libm 400 400 1 Sample.mesh Pacer0 = Some (due, s', p')
    /\ (State.center_id (state_ s') < 0
        \/ exists m, getMass s' (State.center_id (state_ s')) = Some m
                     /\ Mass.isAlive m = true).
Proof.
  destruct (advance Scene.libm 400 400 1 Sample.mesh Pacer0) as [[[due s'] p']|] eqn:E;
    [|vm_compute in E; discriminate].
  exists due, s', p'. split; [reflexivity|].
  exact (advance_center_alive _ _ _ _ _ _ _ _ _ E).
Defined.

(** *** The accumulator starts from scratch *)

Lemma with_accel_from_fold (a : Z -> float * float) c l : forall k acc,
  fold_left (cmass_add c)
    (combine (map Z.of_nat (seq k (length l)))
       (map (fun im : Z * Mass =>
               if Mass.free (snd im)
               then Mass.set_ay (snd (a (fst im))) (Mass.set_ax (fst (a (fst im))) (snd im))
               else snd im)
            (combine (map Z.of_nat (seq k (length l))) l))) acc
  = fold_left (cmass_add c) (combine (map Z.of_nat (seq k (length l))) l) acc.
Proof.
  induction l as [|m l IH]; intros k acc; [reflexivity|].
  cbn [length seq map combine fold_left fst snd]. rewrite IH. f_equal.
  destruct (Mass.free m); reflexivity.
Qed.

Lemma with_accel_body (a : Z -> float * float) mst gx gy ogx ogy l : forall k,
  map (accel_body mst gx gy ogx ogy)
    (combine (map Z.of_nat (seq k (length l)))
       (map (fun im : Z * Mass =>
               if Mass.free (snd im)
               then Mass.set_ay (snd (a (fst im))) (Mass.set_ax (fst (a (fst im))) (snd im))
               else snd im)
            (combine (map Z.of_nat (seq k (length l))) l)))
  = map (accel_body mst gx gy ogx ogy) (combine (map Z.of_nat (seq k (length l))) l).
Proof.
  induction l as [|m l IH]; intros k; [reflexivity|].
  cbn [length seq map combine fst snd]. rewrite IH. f_equal.
  destruct (Mass.free m) eqn:Hf; [|reflexivity].
  unfold accel_body.
  change (Mass.free (Mass.set_ay ?y (Mass.set_ax ?x m))) with (Mass.free m).
  rewrite Hf. destruct (negb _); reflexivity.
Qed.

Lemma with_accel_length a s : length (masses_ (with_accel a s)) = length (masses_ s).
Proof. unfold with_accel. cbn. now rewrite length_map, indexed_length. Qed.

Lemma with_accel_center (a : Z -> float * float) width_ height_ s :
  accel_center width_ height_ (with_accel a s)
  = match accel_center width_ height_ s with
    | Some (cx, cy, s0) => Some (cx, cy, with_accel a s0)
    | None => None
    end.
Proof.
  unfold accel_center. change (state_ (with_accel a s)) with (state_ s).
  destruct (Z.leb 0 (State.center_id (state_ s))); [|reflexivity].
  unfold getMass, with_accel. cbn [masses_ set_masses]. rewrite at_map_indexed.
  destruct (at_ (masses_ s) (State.center_id (state_ s))) as [m|]; [|reflexivity].
  cbn [fmap option_fmap option_map mbind option_bind fst snd].
  destruct (Mass.free m); cbn; destruct (has_bit (Mass.status m) S_ALIVE); reflexivity.
Qed.

(** X15: the accumulator overwrites the accelerations of the free masses:
    whatever [ax] and [ay] they hold on entry, the result is the same. *)
Theorem accumulateAccel_forgets (M : Libm) (width_ height_ : Z)
    (a : Z -> float * float) (s : System) :
  accumulateAccel M width_ height_ (with_accel a s) = accumulateAccel M width_ height_ s.
Proof.
  unfold accumulateAccel. rewrite with_accel_center.
  destruct (accel_center width_ height_ s) as [[[cx cy] s0]|]; [|reflexivity].
  cbn [mbind option_bind].
  change (state_ (with_accel a s0)) with (state_ s0).
  destruct (accel_gravity M (state_ s0)) as [gx gy].
  assert (Hc : accel_cmass cx cy (with_accel a s0) = accel_cmass cx cy s0).
  { unfold accel_cmass. change (state_ (with_accel a s0)) with (state_ s0).
    destruct (State.force_enabled (state_ s0) FR_CMASS); [|reflexivity].
    assert (Hf : fold_left (cmass_add (State.center_id (state_ s0)))
                   (indexed (masses_ (with_accel a s0))) (mkCMass 0 0 0 0 0)
                 = fold_left (cmass_add (State.center_id (state_ s0)))
                     (indexed (masses_ s0)) (mkCMass 0 0 0 0 0)).
    { unfold indexed at 1. rewrite with_accel_length. unfold with_accel, indexed.
      cbn [masses_ set_masses]. apply with_accel_from_fold. }
    now rewrite Hf. }
  rewrite Hc. destruct (accel_cmass cx cy s0) as [ogx ogy].
  assert (Hb : map (accel_body (state_ s0) gx gy ogx ogy) (indexed (masses_ (with_accel a s0)))
               = map (accel_body (state_ s0) gx gy ogx ogy) (indexed (masses_ s0))).
  { unfold indexed at 1. rewrite with_accel_length. unfold with_accel, indexed.
    cbn [masses_ set_masses]. apply with_accel_body. }
  rewrite Hb. reflexivity.
Qed.

(** X16: the accumulator assigns accelerations and nothing else: every
    mass is its former self up to [ax] and [ay], the springs are
    untouched, and of the parameters only [center_id] may change, to -1. *)
Theorem accumulateAccel_only_accelerations (M : Libm) (width_ height_ : Z)
    (s s' : System) :
  accumulateAccel M width_ height_ s = Some s' ->
  pointwise (fun _ m m' => m' = Mass.set_ay (Mass.ay m') (Mass.set_ax (Mass.ax m') m))
            (masses_ s) (masses_ s')
  /\ springs_ s' = springs_ s
  /\ (state_ s' = state_ s \/ state_ s' = State.set_center_id (-1) (state_ s)).
Proof.
  intros E. destruct (accumulateAccel_frame _ _ _ _ _ E) as (P & S & _).
  destruct (accumulateAccel_rest _ _ _ _ _ E) as (C & _).
  split; [|split; [exact S | exact C]].
  eapply pointwise_weaken; [|exact P]. intros j m m' (ax & ay & ->). reflexivity.
Qed.

Lemma accumulateAccel_only_accelerations_witness :
  exists s', accumulateAccel Scene.libm 400 400 Sample.mesh = Some s'
    /\ pointwise (fun _ m m' => m' = Mass.set_ay (Mass.ay m') (Mass.set_ax (Mass.ax m') m))
         (masses_ Sample.mesh) (masses_ s')
    /\ springs_ s' = springs_ Sample.mesh
    /\ (state_ s' = state_ Sample.mesh
        \/ state_ s' = State.set_center_id (-1) (state_ Sample.mesh)).
Proof.
  destruct (accumulateAccel Scene.libm 400 400 Sample.mesh) as [s'|] eqn:E;
    [|vm_compute in E; discriminate].
  exists s'. split; [reflexivity|].
  exact (accumulateAccel_only_accelerations _ _ _ _ _ E).
Defined.

(** *** The step of the adaptive integrator *)

Lemma rkf_clamp_not_above s :
  D.gtb (State.cur_dt (state_ (rkf_clamp s))) DT_MAX = false.
Proof.
  unfold rkf_clamp. cbn [state_ set_state].
  destruct (D.gtb (State.cur_dt (state_ s)) DT_MAX) eqn:Hmax.
  - change (State.cur_dt (State.set_cur_dt DT_MAX (state_ s))) with DT_MAX.
    change (DT_MAX <? DT_MIN)%float with false. reflexivity.
  - destruct (State.cur_dt (state_ s) <? DT_MIN)%float eqn:Hmin; [reflexivity | exact Hmax].
Qed.

(** X17: every pass of the adaptive integrator runs its six stages with
    the step it leaves in [cur_dt], and that step is not below [DT_MIN]
    and not above [DT_MAX] (a NaN passes both tests); a step that was
    within the bounds on entry is used as it is. *)
Theorem adaptive_step_clamped (M : Libm) (width_ height_ : Z) (s s1 : System) :
  rkf_stages M width_ height_ s = Some s1 ->
  let dt := State.cur_dt (state_ s1) in
  (dt <? DT_MIN)%float = false /\ D.gtb dt DT_MAX = false
  /\ pointwise (fun _ => rkf_trace dt) (masses_ s) (masses_ s1)
  /\ ((State.cur_dt (state_ s) <? DT_MIN)%float = false ->
      D.gtb (State.cur_dt (state_ s)) DT_MAX = false ->
      dt = State.cur_dt (state_ s)).
Proof.
  intros E. destruct (rkf_stages_trace _ _ _ _ _ E) as (P & _ & T).
  cbn zeta. rewrite (same_but_center_dt _ _ T).
  split; [apply rkf_clamp_not_below|]. split; [apply rkf_clamp_not_above|].
  split; [exact P|]. intros Hmin Hmax. unfold rkf_clamp. cbn [state_ set_state].
  now rewrite Hmax, Hmin.
Qed.

Lemma adaptive_step_clamped_witness :
  exists s1, rkf_stages Scene.libm 400 400 Scene.too_coarse = Some s1
    /\ (State.cur_dt (state_ s1) <? DT_MIN)%float = false
    /\ D.gtb (State.cur_dt (state_ s1)) DT_MAX = false.
Proof.
  destruct (rkf_stages Scene.libm 400 400 Scene.too_coarse) as [s1|] eqn:E;
    [|vm_compute in E; discriminate].
  exists s1. split; [reflexivity|].
  destruct (adaptive_step_clamped _ _ _ _ _ E) as (H1 & H2 & _). split; assumption.
Defined.

(** *** What a call of [advance] carries over *)

Lemma params_kept_refl st : params_kept st st.
Proof. unfold params_kept. now destruct st. Qed.

Lemma params_kept_trans a b c : params_kept a b -> params_kept b c -> params_kept a c.
Proof.
  unfold params_kept. intros H1 H2. destruct a, b, c.
  unfold State.set_cur_dt, State.set_center_id in *. cbn in *.
  injection H1. injection H2. intros. subst. reflexivity.
Qed.

Lemma same_but_center_params a b : same_but_center a b -> params_kept a b.
Proof.
  unfold same_but_center, params_kept. intros H. destruct a, b.
  unfold State.set_cur_dt, State.set_center_id in *. cbn in *.
  injection H. intros. subst. reflexivity.
Qed.

Lemma center_cleared_params a b : center_cleared a b -> params_kept a b.
Proof. intros [->| ->]; unfold params_kept; now destruct a. Qed.

Lemma set_cur_dt_params v st : params_kept st (State.set_cur_dt v st).
Proof. unfold params_kept. now destruct st. Qed.

Lemma mass_carried_refl m : mass_carried m m.
Proof. repeat split; try reflexivity; [now left | apply incl_refl]. Qed.

Lemma mass_carried_trans a b c : mass_carried a b -> mass_carried b c -> mass_carried a c.
Proof.
  intros (M1 & E1 & R1 & O1 & S1 & P1) (M2 & E2 & R2 & O2 & S2 & P2).
  repeat split; try congruence; [|eapply incl_tran; eassumption].
  destruct S2 as [S2|S2]; [rewrite S2; exact S1 | now right].
Qed.

Lemma kept_carried a b : kept a b -> mass_carried a b.
Proof.
  intros (S & O & M & E & R & P). repeat split; try assumption; [now left|].
  rewrite P. apply incl_refl.
Qed.

Lemma deflected_carried a b : deflected a b -> mass_carried a b.
Proof.
  unfold deflected. intros D. rewrite D. destruct a.
  repeat split; [now left | apply incl_refl].
Qed.

Lemma pointwise_carried_trans a b c :
  pointwise (fun _ => mass_carried) a b -> pointwise (fun _ => mass_carried) b c ->
  pointwise (fun _ => mass_carried) a c.
Proof. apply pointwise_trans. intros j. apply mass_carried_trans. Qed.

Lemma pointwise_kept_trans a b c :
  pointwise (fun _ => kept) a b -> pointwise (fun _ => kept) b c ->
  pointwise (fun _ => kept) a c.
Proof. apply pointwise_trans. intros j. apply kept_trans. Qed.

Lemma on_free_kept f s :
  (forall a, kept a (f a)) -> pointwise (fun _ => kept) (masses_ s) (masses_ (on_free f s)).
Proof.
  intros Hf. unfold on_free. cbn. apply pointwise_map. intros j a _.
  destruct (Mass.free a); [apply Hf | apply kept_refl].
Qed.

Lemma rkf_attempt_kept M width_ height_ s a :
  rkf_attempt M width_ height_ s = Some a ->
  let t := match a with Accepted t | Rejected t => t end in
  pointwise (fun _ => kept) (masses_ s) (masses_ t)
  /\ springs_ t = springs_ s /\ params_kept (state_ s) (state_ t).
Proof.
  unfold rkf_attempt.
  destruct (rkf_stages M width_ height_ s) as [s1|] eqn:E1; [|discriminate].
  cbn [mbind option_bind]. intros [= <-].
  destruct (rkf_stages_trace _ _ _ _ _ E1) as (P & S & T).
  assert (P1 : pointwise (fun _ => kept) (masses_ s) (masses_ s1))
    by (eapply pointwise_weaken; [|exact P]; intros j x y; apply rkf_trace_kept).
  assert (T1 : params_kept (state_ s) (state_ s1)).
  { eapply params_kept_trans; [|apply same_but_center_params, T].
    unfold rkf_clamp. cbn [state_ set_state].
    destruct (D.gtb _ _); cbn zeta.
    - destruct (_ <? _)%float;
        [eapply params_kept_trans; apply set_cur_dt_params | apply set_cur_dt_params].
    - destruct (_ <? _)%float; [apply set_cur_dt_params | apply params_kept_refl]. }
  destruct (rkf_kept 0%float) as (_ & _ & _ & _ & _ & _ & Kn).
  cbn zeta. unfold rkf_decide. destruct (_ <? _)%float.
  - split; [|split; [exact S|]].
    + eapply pointwise_kept_trans; [exact P1|]. apply (on_free_kept rkf_next (scale_dt _ s1) Kn).
    + eapply params_kept_trans; [exact T1 | apply set_cur_dt_params].
  - destruct (D.gtb _ _).
    + split; [|split; [exact S|]].
      * eapply pointwise_kept_trans; [exact P1|].
        apply (on_free_kept rkf_rollback s1 rkf_rollback_kept).
      * eapply params_kept_trans; [exact T1 | apply set_cur_dt_params].
    + split; [|split; [exact S | exact T1]].
      eapply pointwise_kept_trans; [exact P1 | apply (on_free_kept rkf_next s1 Kn)].
Qed.

Lemma adaptiveRungeKutta_kept M width_ height_ fuel : forall s s',
  adaptiveRungeKutta M width_ height_ fuel s = Some s' ->
  pointwise (fun _ => kept) (masses_ s) (masses_ s')
  /\ springs_ s' = springs_ s /\ params_kept (state_ s) (state_ s').
Proof.
  induction fuel as [|fuel IH]; intros s s'; cbn [adaptiveRungeKutta]; [discriminate|].
  destruct (rkf_attempt M width_ height_ s) as [a|] eqn:Ea; [|discriminate].
  cbn [mbind option_bind]. apply rkf_attempt_kept in Ea. cbn zeta in Ea.
  destruct Ea as (P & S & T). destruct a as [t|t].
  - intros [= <-]. auto.
  - intros E. apply IH in E as (P' & S' & T').
    split; [eapply pointwise_kept_trans; eassumption|].
    split; [congruence | eapply params_kept_trans; eassumption].
Qed.

Lemma rungeKutta_kept M width_ height_ h testloc s s' :
  rungeKutta M width_ height_ h testloc s = Some s' ->
  pointwise (fun _ => kept) (masses_ s) (masses_ s')
  /\ springs_ s' = springs_ s /\ params_kept (state_ s) (state_ s').
Proof.
  intros (P & S & T)%rungeKutta_trace.
  split; [|split; [exact S | apply same_but_center_params, T]].
  eapply pointwise_weaken; [|exact P]. intros j x y. apply rk4_trace_kept.
Qed.

(** The integration step, from the snapshot on. *)
Lemma integrate_kept M width_ height_ fuel s s' :
  integrate M width_ height_ fuel s = Some s' ->
  pointwise (fun _ m m' => kept (snapped m) m') (masses_ s) (masses_ s')
  /\ springs_ s' = springs_ s /\ params_kept (state_ s) (state_ s').
Proof.
  unfold integrate.
  assert (P0 : pointwise (fun _ m m0 => m0 = snapped m) (masses_ s)
                 (masses_ (on_free snapshot s)))
    by (unfold on_free; cbn; apply pointwise_map; reflexivity).
  assert (Hfin : forall t,
            pointwise (fun _ => kept) (masses_ (on_free snapshot s)) (masses_ t)
            /\ springs_ t = springs_ s /\ params_kept (state_ s) (state_ t) ->
            pointwise (fun _ m m' => kept (snapped m) m') (masses_ s) (masses_ t)
            /\ springs_ t = springs_ s /\ params_kept (state_ s) (state_ t)).
  { intros t (P & S & T). split; [|auto].
    eapply pointwise_trans; [|exact P0|exact P]. intros j a b c -> H. exact H. }
  destruct (State.adaptive_step _).
  - destruct (any_spring _).
    + intros (P & S & T)%adaptiveRungeKutta_kept. apply Hfin.
      split; [exact P | split; [exact S | exact T]].
    + intros (P & S & T)%rungeKutta_kept. apply Hfin. split; [exact P|].
      split; [exact S|]. eapply params_kept_trans; [apply set_cur_dt_params | exact T].
  - intros (P & S & T)%rungeKutta_kept. apply Hfin.
    split; [exact P | split; [exact S | exact T]].
Qed.

Lemma mass_waned_to_carried st m m' :
  st = Mass.status m \/ st = 0 -> mass_waned_to st m m' -> mass_carried m m'.
Proof.
  intros Hst [E I]. rewrite E. cbn. repeat split; [exact Hst | exact I].
Qed.

Lemma wall_body_carried width_ height_ stick_mag i s s' :
  wall_body width_ height_ stick_mag i s = Some s' ->
  pointwise (fun _ => mass_carried) (masses_ s) (masses_ s')
  /\ pointwise (fun _ => spring_waned) (springs_ s) (springs_ s')
  /\ center_cleared (state_ s) (state_ s').
Proof.
  unfold wall_body. destruct (getMass s i) as [m|] eqn:Hm; [|discriminate].
  cbn [mbind option_bind].
  assert (Hrefl : pointwise (fun _ => mass_carried) (masses_ s) (masses_ s))
    by (apply pointwise_refl; intros; apply mass_carried_refl).
  assert (Hmod : forall f t, (forall a, kept a (f a)) -> modMass i f s = Some t ->
            pointwise (fun _ => mass_carried) (masses_ s) (masses_ t)
            /\ pointwise (fun _ => spring_waned) (springs_ s) (springs_ t)
            /\ center_cleared (state_ s) (state_ t)).
  { intros f t Hf Et. destruct (modMass_rest _ _ _ _ Et) as (S & (K & _) & _).
    split; [|split; [rewrite S; apply pointwise_waned_refl
                    | rewrite K; apply center_cleared_refl]].
    eapply modMass_pointwise; [exact Et| |intros; apply mass_carried_refl].
    intros a _. apply kept_carried, Hf. }
  destruct (Mass.free m).
  2:{ intros [= <-]. split; [exact Hrefl|].
      split; [apply pointwise_waned_refl | apply center_cleared_refl]. }
  destruct (exploded m).
  - intros (M & S & St & _)%deleteMass_waned. split; [|split; [exact S|]].
    + eapply pointwise_weaken; [|exact M]. intros j a b. apply mass_waned_to_carried.
      destruct (Z.eqb j i && Mass.isAlive a); auto.
    + rewrite St. destruct (Z.eqb i _); [now right | now left].
  - destruct (stuck _ _ _ _ _).
    + apply Hmod, pin_kept.
    + apply Hmod. intros a. eapply kept_trans; [apply bounce_x_kept | apply bounce_y_kept].
Qed.

Lemma walls_carried width_ height_ s s' :
  walls width_ height_ s = Some s' ->
  pointwise (fun _ => mass_carried) (masses_ s) (masses_ s')
  /\ pointwise (fun _ => spring_waned) (springs_ s) (springs_ s')
  /\ center_cleared (state_ s) (state_ s').
Proof.
  unfold walls, for_upto. intros E.
  eapply (for_each_inv (fun t =>
            pointwise (fun _ => mass_carried) (masses_ s) (masses_ t)
            /\ pointwise (fun _ => spring_waned) (springs_ s) (springs_ t)
            /\ center_cleared (state_ s) (state_ t))); [|exact E|].
  - intros i t t' (M & S & C)%wall_body_carried (M0 & S0 & C0).
    split; [eapply pointwise_carried_trans; eassumption|].
    split; [eapply pointwise_waned_trans; eassumption
           | eapply center_cleared_trans; eassumption].
  - split; [apply pointwise_refl; intros; apply mass_carried_refl|].
    split; [apply pointwise_waned_refl | apply center_cleared_refl].
Qed.

(** X18: a call of [advance] changes no constant of the model.  Every mass
    keeps its mass, elasticity and radius; its snapshot [old_*] is its
    position and velocity on entry if it was free and is untouched
    otherwise; its status is kept or becomes 0 and its parent list only
    loses entries.  Every spring is as it was, or deleted (status 0).  Of
    the parameters only [cur_dt] and [center_id] may change. *)
Theorem advance_carries (M : Libm) (width_ height_ : Z) (fuel : nat)
    (s s' : System) (p p' : Pacer) (due : bool) :
  advance M width_ height_ fuel s p = Some (due, s', p') ->
  pointwise (fun _ m m' =>
               Mass.mass m' = Mass.mass m /\ Mass.elastic m' = Mass.elastic m
               /\ Mass.radius m' = Mass.radius m
               /\ Mass.old m' = (if Mass.free m then pv m else Mass.old m)
               /\ (Mass.status m' = Mass.status m \/ Mass.status m' = 0)
               /\ incl (Mass.parents m') (Mass.parents m))
            (masses_ s) (masses_ s')
  /\ pointwise (fun _ sp sp' => sp' = sp \/ sp' = Spring.set_status 0 sp)
       (springs_ s) (springs_ s')
  /\ params_kept (state_ s) (state_ s').
Proof.
  unfold advance.
  destruct (integrate M width_ height_ fuel s) as [s1|] eqn:E1; [|discriminate].
  cbn [mbind option_bind].
  destruct (walls width_ height_ s1) as [s2|] eqn:E2; [|discriminate].
  cbn [mbind option_bind].
  destruct (collisions s2) as [s3|] eqn:E3; [|discriminate].
  cbn [mbind option_bind].
  destruct (pace _ p) as [d q]. intros [= _ <- _].
  apply integrate_kept in E1 as (P1 & S1 & T1).
  apply walls_carried in E2 as (P2 & S2 & C2).
  destruct (collisions_safe s2) as (s3' & E3' & P3 & S3 & (K3 & _)).
  rewrite E3 in E3'. injection E3' as <-.
  split; [|split].
  - eapply pointwise_trans; [|exact P1|].
    2:{ eapply pointwise_carried_trans; [exact P2|].
        eapply pointwise_weaken; [|exact P3]. intros j a b [D _].
        apply deflected_carried, D. }
    intros j a b c K Cr. cbn beta in *.
    pose proof (mass_carried_trans _ _ _ (kept_carried _ _ K) Cr)
      as (Hm & He & Hr & Ho & Hs & Hp).
    unfold snapped in *. destruct (Mass.free a); repeat split; assumption.
  - rewrite S3, <- S1. exact S2.
  - rewrite K3. eapply params_kept_trans; [exact T1 | apply center_cleared_params, C2].
Qed.

Lemma advance_carries_witness :
  exists due s' p',
    advance Scene.libm 400 400 1 Sample.mesh Pacer0 = Some (due, s', p')
    /\ pointwise (fun _ m m' =>
               Mass.mass m' = Mass.mass m /\ Mass.elastic m' = Mass.elastic m
               /\ Mass.radius m' = Mass.radius m
               /\ Mass.old m' = (if Mass.free m then pv m else Mass.old m)
               /\ (Mass.status m' = Mass.status m \/ Mass.status m' = 0)
               /\ incl (Mass.parents m') (Mass.parents m))
            (masses_ Sample.mesh) (masses_ s').
Proof.
  destruct (advance Scene.libm 400 400 1 Sample.mesh Pacer0) as [[[due s'] p']|] eqn:E;
    [|vm_compute in E; discriminate].
  exists due, s', p'. split; [reflexivity|].
  exact (proj1 (advance_carries _ _ _ _ _ _ _ _ _ E)).
Defined.

(** *** The walls hold the masses *)

Section Walls.

Local Open Scope float_scope.

Lemma bounce_x_x width_ mst m :
  Mass.x (bounce_x width_ mst m) =
    let rad := screenRadius (Mass.radius m) in
    if State.w_left mst && (Mass.x m <? D.of_int rad) && D.geb (Mass.old_x m) (D.of_int rad)
    then D.of_int rad
    else if State.w_right mst && D.gtb (Mass.x m) (D.of_int (width_ - rad))
            && (Mass.old_x m <=? D.of_int (width_ - rad))
    then D.of_int (width_ - rad)
    else Mass.x m.
Proof.
  unfold bounce_x. cbn zeta.
  repeat match goal with |- context [if ?c then _ else _] => destruct c end; reflexivity.
Qed.

Lemma bounce_y_y height_ mst m :
  Mass.y (bounce_y height_ mst m) =
    let rad := screenRadius (Mass.radius m) in
    if State.w_bottom mst && (Mass.y m <? D.of_int rad) && D.geb (Mass.old_y m) (D.of_int rad)
    then D.of_int rad
    else if State.w_top mst && D.gtb (Mass.y m) (D.of_int (height_ - rad))
            && (Mass.old_y m <=? D.of_int (height_ - rad))
    then D.of_int (height_ - rad)
    else Mass.y m.
Proof.
  unfold bounce_y. cbn zeta.
  repeat match goal with |- context [if ?c then _ else _] => destruct c end; reflexivity.
Qed.

Lemma bounce_x_y width_ mst m : Mass.y (bounce_x width_ mst m) = Mass.y m.
Proof.
  unfold bounce_x. cbn zeta.
  repeat match goal with |- context [if ?c then _ else _] => destruct c end; reflexivity.
Qed.

Lemma bounce_y_x height_ mst m : Mass.x (bounce_y height_ mst m) = Mass.x m.
Proof.
  unfold bounce_y. cbn zeta.
  repeat match goal with |- context [if ?c then _ else _] => destruct c end; reflexivity.
Qed.

(** One coordinate against its pair of walls: [lo] and [hi] are the two
    bounds, [v0] the old and [v] the new value. *)
Lemma bounce_between (wlo whi : bool) (lo hi v0 v : float) :
  let v' := if wlo && (v <? lo) && D.geb v0 lo then lo
            else if whi && D.gtb v hi && (v0 <=? hi) then hi else v in
  (wlo = true -> D.geb v0 lo = true -> (v' <? lo) = false)
  /\ (whi = true -> (v0 <=? hi) = true -> D.gtb v' hi = false).
Proof.
  cbn zeta. split.
  - intros -> H0. rewrite H0. cbn [andb]. rewrite andb_true_r.
    destruct (v <? lo) eqn:E1; [apply ltb_irrefl|].
    destruct (whi && D.gtb v hi && (v0 <=? hi)) eqn:E2; [|exact E1].
    apply andb_prop in E2 as [_ E2]. apply (geb_not_ltb hi lo).
    unfold D.geb in *. eapply leb_trans; eassumption.
  - intros -> H0. rewrite H0. cbn [andb]. rewrite andb_true_r.
    destruct (wlo && (v <? lo) && D.geb v0 lo) eqn:E1.
    + apply andb_prop in E1 as [_ E1]. unfold D.gtb. apply (geb_not_ltb hi lo).
      unfold D.geb in *. eapply leb_trans; eassumption.
    + destruct (D.gtb v hi) eqn:E2; [apply ltb_irrefl | exact E2].
Qed.

(** The pass of the wall code for a free mass that has not exploded. *)
Lemma wall_pass_contained width_ height_ mst stick_mag m :
  let m' := if stuck width_ height_ mst stick_mag m then pin m
            else bounce_y height_ mst (bounce_x width_ mst m) in
  contained width_ height_ mst (screenRadius (Mass.radius m))
    (Mass.old_x m) (Mass.old_y m) (Mass.x m') (Mass.y m').
Proof.
  cbn zeta. destruct (stuck _ _ _ _ _).
  - unfold contained, D.gtb. cbn.
    repeat split; intros _ H; apply geb_not_ltb; exact H.
  - rewrite bounce_y_x, bounce_x_x, bounce_y_y, bounce_x_y.
    destruct (bounce_x_kept width_ mst m) as (_ & Ho & _ & _ & Hr & _).
    unfold Mass.old_y. rewrite Ho, Hr. fold (Mass.old_y m). cbn zeta.
    destruct (bounce_between (State.w_left mst) (State.w_right mst)
                (D.of_int (screenRadius (Mass.radius m)))
                (D.of_int (width_ - screenRadius (Mass.radius m)))
                (Mass.old_x m) (Mass.x m)) as [X1 X2].
    destruct (bounce_between (State.w_bottom mst) (State.w_top mst)
                (D.of_int (screenRadius (Mass.radius m)))
                (D.of_int (height_ - screenRadius (Mass.radius m)))
                (Mass.old_y m) (Mass.y m)) as [Y1 Y2].
    repeat split; assumption.
Qed.

Lemma contained_params width_ height_ st st' rad x0 y0 x y :
  params_kept st st' ->
  contained width_ height_ st' rad x0 y0 x y -> contained width_ height_ st rad x0 y0 x y.
Proof.
  unfold params_kept, contained. intros E. rewrite E. destruct st. cbn. auto.
Qed.

Lemma wall_body_pass width_ height_ stick_mag i t t' a :
  wall_body width_ height_ stick_mag i t = Some t' ->
  getMass t i = Some a -> Mass.free a = true -> exploded a = false ->
  getMass t' i = Some (if stuck width_ height_ (state_ t) stick_mag a then pin a
                       else bounce_y height_ (state_ t) (bounce_x width_ (state_ t) a)).
Proof.
  unfold wall_body. intros E Ha Hfree Hex. rewrite Ha in E.
  cbn [mbind option_bind] in E. rewrite Hfree, Hex in E.
  assert (Hmod : forall f, modMass i f t = Some t' -> getMass t' i = Some (f a)).
  { intros f (b & Hb & ->)%modMass_inv. unfold getMass in *. cbn.
    rewrite (at_insert _ _ _ _ _ Hb), Z.eqb_refl. congruence. }
  destruct (stuck _ _ _ _ _); apply Hmod in E; exact E.
Qed.

Lemma unlinked_fields j m m' :
  unlinked j m m' ->
  Mass.x m' = Mass.x m /\ Mass.y m' = Mass.y m /\ Mass.old m' = Mass.old m
  /\ Mass.radius m' = Mass.radius m.
Proof. intros [H _]. rewrite H. repeat split. Qed.

(** The wall loop: a free mass is deleted or held by the walls. *)
Lemma walls_contained width_ height_ s s' i m :
  walls width_ height_ s = Some s' ->
  getMass s i = Some m -> Mass.free m = true ->
  exists m', getMass s' i = Some m'
    /\ (Mass.status m' = 0%Z
        \/ contained width_ height_ (state_ s) (screenRadius (Mass.radius m))
             (Mass.old_x m) (Mass.old_y m) (Mass.x m') (Mass.y m')).
Proof.
  unfold walls, for_upto. intros E Hm Hfree.
  set (sm := STICK_MAG * State.cur_dt (state_ s) * State.cur_stick (state_ s)) in E.
  pose proof Hm as Hi. unfold getMass in Hi. apply at_Some in Hi as [Hi0 Hi].
  apply lookup_lt_Some in Hi.
  set (k := Z.to_nat i) in *. set (n := length (masses_ s)) in *.
  replace n with (k + S (n - S k))%nat in E by lia.
  rewrite seq_app, map_app in E. cbn [seq map Nat.add] in E.
  rewrite for_each_app in E.
  destruct (for_each _ (map Z.of_nat (seq 0 k)) s) as [t1|] eqn:E1; [|discriminate].
  cbn [mbind option_bind for_each] in E.
  replace (Z.of_nat k) with i in E by (unfold k; lia).
  destruct (wall_body width_ height_ sm i t1) as [t2|] eqn:E2; [|discriminate].
  cbn [mbind option_bind] in E.
  (* before the pass for [i] *)
  assert (H1 : exists a, getMass t1 i = Some a /\ unlinked i m a
                 /\ center_cleared (state_ s) (state_ t1)).
  { eapply (for_each_inv_in (fun t => exists a, getMass t i = Some a /\ unlinked i m a
                                /\ center_cleared (state_ s) (state_ t)));
      [|exact E1|exists m; split; [assumption|split;
                                    [apply unlinked_refl | apply center_cleared_refl]]].
    intros j t t' Hj Hb (a & Ha & U & C).
    apply in_map_iff in Hj as (j' & <- & Hj'). apply in_seq in Hj'.
    destruct (wall_body_others _ _ _ _ _ _ i a Hb ltac:(unfold k in *; lia) Ha)
      as (a' & Ha' & U').
    exists a'. split; [assumption|]. split; [eapply unlinked_trans; eassumption|].
    eapply center_cleared_trans; [exact C|]. eapply wall_body_carried, Hb. }
  destruct H1 as (a & Ha & U & C).
  destruct (unlinked_fields _ _ _ U) as (Ux & Uy & Uo & Ur).
  (* the pass for [i] *)
  assert (H2 : exists b, getMass t2 i = Some b
                 /\ (Mass.status b = 0%Z
                     \/ contained width_ height_ (state_ s) (screenRadius (Mass.radius m))
                          (Mass.old_x m) (Mass.old_y m) (Mass.x b) (Mass.y b))).
  { destruct (exploded a) eqn:Hex.
    - destruct (wall_body_exploded _ _ _ _ _ _ _ E2 Ha) as (b & Hb & Hst);
        [now rewrite (unlinked_free _ _ _ U) | exact Hex |].
      exists b. auto.
    - eexists. split.
      + eapply wall_body_pass; [exact E2 | exact Ha | | exact Hex].
        now rewrite (unlinked_free _ _ _ U).
      + right. eapply contained_params; [apply center_cleared_params, C|].
        pose proof (wall_pass_contained width_ height_ (state_ t1) sm a) as W.
        cbn zeta in W. unfold Mass.old_x, Mass.old_y in *. rewrite Uo, Ur in W. exact W. }
  (* after it *)
  eapply (for_each_inv_in (fun t => exists b, getMass t i = Some b
            /\ (Mass.status b = 0%Z
                \/ contained width_ height_ (state_ s) (screenRadius (Mass.radius m))
                     (Mass.old_x m) (Mass.old_y m) (Mass.x b) (Mass.y b))));
    [|exact E|exact H2].
  intros j t t' Hj Hb (b & Hb' & Hc).
  apply in_map_iff in Hj as (j' & <- & Hj'). apply in_seq in Hj'.
  destruct (wall_body_others _ _ _ _ _ _ i b Hb ltac:(unfold k in *; lia) Hb')
    as (b' & Hb2 & U').
  exists b'. split; [assumption|].
  destruct (unlinked_fields _ _ _ U') as (Vx & Vy & _).
  destruct Hc as [Hc|Hc]; [left; eapply unlinked_deleted; eassumption|].
  right. rewrite Vx, Vy. exact Hc.
Qed.

(** X19: the walls hold the free masses.  Take a mass that is alive and
    not fixed when [advance] is called, and a wall that is switched on.
    If the mass was on the inner side of the wall, by the test the code
    makes on [old_x] and [old_y], then in the state [advance] returns
    the mass has been deleted (status 0, as exploded) or it does not
    fail the test the code makes on the new position: the step never
    leaves it beyond the wall.  This holds for every value of the
    forces, the step and the velocities. *)
Theorem advance_within_walls (M : Libm) (width_ height_ : Z) (fuel : nat)
    (s s' : System) (p p' : Pacer) (due : bool) (i : Z) (m : Mass) :
  advance M width_ height_ fuel s p = Some (due, s', p') ->
  getMass s i = Some m -> Mass.free m = true ->
  exists m', getMass s' i = Some m'
    /\ (Mass.status m' = 0%Z
        \/ contained width_ height_ (state_ s) (screenRadius (Mass.radius m))
             (Mass.x m) (Mass.y m) (Mass.x m') (Mass.y m')).
Proof.
  unfold advance. intros E Hm Hfree.
  destruct (integrate M width_ height_ fuel s) as [s1|] eqn:E1; [|discriminate].
  cbn [mbind option_bind] in E.
  destruct (walls width_ height_ s1) as [s2|] eqn:E2; [|discriminate].
  cbn [mbind option_bind] in E.
  destruct (collisions s2) as [s3|] eqn:E3; [|discriminate].
  cbn [mbind option_bind] in E.
  destruct (pace _ p) as [d q]. injection E as _ <- _.
  apply integrate_kept in E1 as ([_ P1] & _ & T1).
  destruct (P1 i m Hm) as (m1 & Hm1 & K1). unfold snapped in K1. rewrite Hfree in K1.
  destruct K1 as (Kst & Kold & _ & _ & Krad & _).
  assert (Hfree1 : Mass.free m1 = true).
  { unfold Mass.free, Mass.isAlive, Mass.isFixed in *. rewrite Kst. exact Hfree. }
  destruct (walls_contained _ _ _ _ _ _ E2 Hm1 Hfree1) as (m2 & Hm2 & H2).
  destruct (collisions_safe s2) as (s3' & E3' & [_ P3] & _).
  rewrite E3 in E3'. injection E3' as <-.
  destruct (P3 i m2 Hm2) as (m3 & Hm3 & [D3 _]).
  exists m3. split; [exact Hm3|].
  unfold deflected in D3.
  destruct H2 as [H2|H2]; [left; rewrite D3; exact H2|].
  right. rewrite D3. cbn.
  eapply contained_params; [exact T1|].
  unfold Mass.old_x, Mass.old_y in H2. rewrite Kold, Krad in H2. exact H2.
Qed.

Lemma advance_within_walls_witness :
  exists due s' p' m',
    advance Scene.libm 400 400 1 Sample.thrown Pacer0 = Some (due, s', p')
    /\ getMass s' 1 = Some m'
    /\ (Mass.status m' = 0%Z
        \/ contained 400 400 (state_ Sample.thrown) 15 20 100 (Mass.x m') (Mass.y m')).
Proof.
  destruct (advance Scene.libm 400 400 1 Sample.thrown Pacer0) as [[[due s'] p']|] eqn:E;
    [|vm_compute in E; discriminate].
  destruct (advance_within_walls _ _ _ _ _ _ _ _ _ 1
              (Scene.mass_at 20 100 (-2000) 0 1 S_ALIVE []) E eq_refl eq_refl)
    as (m' & Hm' & H).
  exists due, s', p', m'. split; [reflexivity|]. split; [exact Hm' | exact H].
Defined.

(** *** The walls reflect *)

Ltac bounce_cases :=
  cbn zeta;
  repeat match goal with
         | |- context [if ?c then _ else _] => destruct c eqn:?
         end;
  cbn in *.

Lemma bounce_x_left width_ mst m :
  hits_left mst m = true -> (0 <=? Mass.elastic m) = true ->
  (Mass.vx (bounce_x width_ mst m) <? 0) = false.
Proof.
  unfold hits_left, bounce_x. cbn zeta. intros -> He. bounce_cases;
    try assumption; try reflexivity.
  apply mul_not_neg; [apply opp_not_neg|]; assumption.
Qed.

Lemma bounce_x_right width_ mst m :
  hits_left mst m = false -> hits_right width_ mst m = true ->
  (0 <=? Mass.elastic m) = true ->
  D.gtb (Mass.vx (bounce_x width_ mst m)) 0 = false.
Proof.
  unfold hits_left, hits_right, bounce_x, D.gtb. cbn zeta. intros -> -> He. bounce_cases;
    try assumption; try reflexivity.
  apply mul_not_pos; [apply opp_not_pos|]; assumption.
Qed.

Lemma bounce_y_bottom height_ mst m :
  hits_bottom mst m = true -> (0 <=? Mass.elastic m) = true ->
  (Mass.vy (bounce_y height_ mst m) <? 0) = false.
Proof.
  unfold hits_bottom, bounce_y. cbn zeta. intros -> He. bounce_cases;
    try assumption; try reflexivity.
  apply mul_not_neg; [apply opp_not_neg|]; assumption.
Qed.

Lemma bounce_y_top height_ mst m :
  hits_bottom mst m = false -> hits_top height_ mst m = true ->
  (0 <=? Mass.elastic m) = true ->
  D.gtb (Mass.vy (bounce_y height_ mst m)) 0 = false.
Proof.
  unfold hits_bottom, hits_top, bounce_y, D.gtb. cbn zeta. intros -> -> He. bounce_cases;
    try assumption; try reflexivity.
  apply mul_not_pos; [apply opp_not_pos|]; assumption.
Qed.

(** The vertical bounce scales [vx] by the elasticity or clears it. *)
Lemma bounce_y_vx height_ mst m :
  (0 <=? Mass.elastic m) = true ->
  ((Mass.vx m <? 0) = false -> (Mass.vx (bounce_y height_ mst m) <? 0) = false)
  /\ ((0 <? Mass.vx m) = false -> (0 <? Mass.vx (bounce_y height_ mst m)) = false).
Proof.
  intros He. unfold bounce_y. split; intros Hv; bounce_cases;
    try assumption; try reflexivity;
    first [apply mul_not_neg | apply mul_not_pos]; assumption.
Qed.

Lemma bounce_x_tests width_ height_ mst m :
  hits_bottom mst (bounce_x width_ mst m) = hits_bottom mst m
  /\ hits_top height_ mst (bounce_x width_ mst m) = hits_top height_ mst m
  /\ Mass.elastic (bounce_x width_ mst m) = Mass.elastic m.
Proof.
  destruct (bounce_x_kept width_ mst m) as (_ & Ho & _ & He & Hr & _).
  unfold hits_bottom, hits_top, Mass.old_y. rewrite bounce_x_y, Ho, Hr, He. auto.
Qed.

(** X21: the walls reflect.  When the elasticity of a mass is at least 0,
    the bounce code of [advance] never leaves the mass moving into the
    wall it has just been put back on: after the left-wall branch [vx]
    is not negative, after the right-wall branch it is not positive,
    and the same for [vy] at the bottom and at the top; each of them may
    have been set to 0 ("get stuck if not going fast enough"). *)
Theorem walls_reflect (width_ height_ : Z) (mst : State) (m : Mass) :
  (0 <=? Mass.elastic m) = true ->
  let m' := bounce_y height_ mst (bounce_x width_ mst m) in
  (hits_left mst m = true -> (Mass.vx m' <? 0) = false)
  /\ (hits_left mst m = false -> hits_right width_ mst m = true ->
      D.gtb (Mass.vx m') 0 = false)
  /\ (hits_bottom mst m = true -> (Mass.vy m' <? 0) = false)
  /\ (hits_bottom mst m = false -> hits_top height_ mst m = true ->
      D.gtb (Mass.vy m') 0 = false).
Proof.
  intros He. cbn zeta.
  destruct (bounce_x_tests width_ height_ mst m) as (Tb & Tt & Te).
  assert (He1 : (0 <=? Mass.elastic (bounce_x width_ mst m)) = true) by now rewrite Te.
  destruct (bounce_y_vx height_ mst (bounce_x width_ mst m) He1) as [Vn Vp].
  split; [|split; [|split]].
  - intros H. apply Vn. now apply bounce_x_left.
  - intros H1 H2. apply Vp. now apply bounce_x_right.
  - intros H. apply bounce_y_bottom; [now rewrite Tb | exact He1].
  - intros H1 H2. apply bounce_y_top; [now rewrite Tb | now rewrite Tt | exact He1].
Qed.

Lemma walls_reflect_witness :
  hits_left (state_ Sample.thrown)
    (Mass.set_x (-30) (snapshot (Scene.mass_at 20 100 (-2000) 0 1 S_ALIVE []))) = true
  /\ (Mass.vx (bounce_y 400 (state_ Sample.thrown)
                 (bounce_x 400 (state_ Sample.thrown)
                    (Mass.set_x (-30)
                       (snapshot (Scene.mass_at 20 100 (-2000) 0 1 S_ALIVE [])))))
       <? 0) = false.
Proof.
  split; [reflexivity|].
  exact (proj1 (walls_reflect 400 400 (state_ Sample.thrown)
                  (Mass.set_x (-30) (snapshot (Scene.mass_at 20 100 (-2000) 0 1 S_ALIVE [])))
                  eq_refl) eq_refl).
Defined.

End Walls.

(** ** The wall loop of [advance], mass by mass *)

Lemma exploded_on_scale m : exploded m = negb (on_scale m).
Proof.
  destruct (on_scale m) eqn:H; [|now apply exploded_off_scale].
  unfold on_scale in H. apply andb_prop in H as [H Hay].
  apply andb_prop in H as [H Hax]. apply andb_prop in H as [Hx Hy].
  unfold exploded.
  now rewrite (sub_self_finite _ Hx), (sub_self_finite _ Hy),
    (sub_self_finite _ Hax), (sub_self_finite _ Hay).
Qed.

Lemma erase_first_In p q l : In q l -> In q (erase_first p l) \/ q = p.
Proof.
  induction l as [|x l IH]; cbn; [contradiction|].
  destruct (Z.eqb_spec x p) as [->|Hne].
  - intros [<-|H]; auto.
  - intros [<-|H]; [left; now left|]. destruct (IH H); [left; now right | now right].
Qed.

Lemma spring_dead_waned s s' q :
  pointwise (fun _ => spring_waned) (springs_ s) (springs_ s') ->
  spring_dead s q -> spring_dead s' q.
Proof.
  intros [_ P] (sp & Hsp & Hd). destruct (P q sp Hsp) as (sp' & Hsp' & W).
  exists sp'. split; [exact Hsp'|]. eapply spring_waned_dead; eassumption.
Qed.

(** What [deleteMassParent], [deleteSpring] and [deleteMass] do to the
    parent list of the mass [i]: an entry that goes is that of a spring
    that is dead afterwards. *)
Lemma deleteMassParent_trace which q s s' i a :
  deleteMassParent which q s = Some s' -> getMass s i = Some a ->
  exists a', getMass s' i = Some a'
    /\ forall x, In x (Mass.parents a) -> In x (Mass.parents a') \/ x = q.
Proof.
  unfold deleteMassParent. destruct (getMass s which) as [m|] eqn:Hm; [|discriminate].
  cbn [mbind option_bind]. intros E Ha. destruct (Mass.isAlive m).
  - rewrite (modMass_Some _ _ _ _ Hm) in E. injection E as <-.
    unfold getMass in *. cbn [masses_ set_masses]. rewrite (at_insert _ _ _ _ _ Hm).
    destruct (Z.eqb_spec i which) as [->|_].
    + assert (a = m) by congruence. subst a. eexists. split; [reflexivity|].
      cbn. intros x. apply erase_first_In.
    + exists a. auto.
  - injection E as <-. exists a. auto.
Qed.

Lemma deleteSpring_trace p s s' i a :
  deleteSpring p s = Some s' -> getMass s i = Some a ->
  exists a', getMass s' i = Some a'
    /\ forall x, In x (Mass.parents a) -> In x (Mass.parents a') \/ spring_dead s' x.
Proof.
  intros E Ha. pose proof (deleteSpring_pruned _ _ _ E) as (_ & [_ S] & _).
  unfold deleteSpring in E. destruct (getSpring s p) as [c|] eqn:Hc; [|discriminate].
  cbn [mbind option_bind] in E.
  assert (Hdead : spring_dead s' p).
  { destruct (S p c Hc) as (c' & Hc' & Ec). exists c'. split; [exact Hc'|].
    rewrite Ec, Z.eqb_refl. apply killed_dead. }
  destruct (Spring.isAlive c).
  - rewrite (modSpring_Some _ _ _ _ Hc) in E. cbn [mbind option_bind] in E.
    set (s1 := set_springs _ s) in E.
    destruct (deleteMassParent (Spring.m1 c) p s1) as [s2|] eqn:E2; [|discriminate].
    cbn [mbind option_bind] in E.
    destruct (deleteMassParent_trace _ _ _ _ i a E2 Ha) as (a2 & Ha2 & P2).
    destruct (deleteMassParent_trace _ _ _ _ i a2 E Ha2) as (a3 & Ha3 & P3).
    exists a3. split; [exact Ha3|]. intros x Hx.
    destruct (P2 x Hx) as [H| ->]; [|now right].
    destruct (P3 x H) as [H'| ->]; [now left | now right].
  - injection E as <-. exists a. auto.
Qed.

Lemma deleteSprings_trace l : forall s s' i a,
  for_each deleteSpring l s = Some s' -> getMass s i = Some a ->
  exists a', getMass s' i = Some a'
    /\ forall x, In x (Mass.parents a) -> In x (Mass.parents a') \/ spring_dead s' x.
Proof.
  induction l as [|p l IH]; intros s s' i a; cbn [for_each].
  - intros [= <-] Ha. exists a. auto.
  - destruct (deleteSpring p s) as [s1|] eqn:E1; [|discriminate].
    cbn [mbind option_bind]. intros E Ha.
    destruct (deleteSpring_trace _ _ _ _ _ E1 Ha) as (a1 & Ha1 & P1).
    destruct (IH _ _ _ _ E Ha1) as (a' & Ha' & P').
    exists a'. split; [exact Ha'|]. intros x Hx.
    destruct (P1 x Hx) as [H|H]; [apply P', H|].
    right. eapply spring_dead_waned; [|exact H]. eapply deleteSprings_waned, E.
Qed.

Lemma deleteSprings_dead l : forall s s',
  for_each deleteSpring l s = Some s' -> forall p, In p l -> spring_dead s' p.
Proof.
  induction l as [|q l IH]; intros s s'; cbn [for_each]; [intros _ p []|].
  destruct (deleteSpring q s) as [s1|] eqn:E1; [|discriminate].
  cbn [mbind option_bind]. intros E p [<-|Hp]; [|eapply IH; eassumption].
  eapply spring_dead_waned; [eapply deleteSprings_waned, E|].
  pose proof (deleteSpring_pruned _ _ _ E1) as (_ & [_ S] & _).
  unfold deleteSpring in E1. destruct (getSpring s q) as [c|] eqn:Hc; [|discriminate].
  destruct (S q c Hc) as (c' & Hc' & Ec). exists c'. split; [exact Hc'|].
  rewrite Ec, Z.eqb_refl. apply killed_dead.
Qed.

Lemma deleteMass_trace which s s' i a :
  deleteMass which s = Some s' -> getMass s i = Some a ->
  exists a', getMass s' i = Some a'
    /\ forall x, In x (Mass.parents a) -> In x (Mass.parents a') \/ spring_dead s' x.
Proof.
  unfold deleteMass. destruct (getMass s which) as [m|] eqn:Hm; [|discriminate].
  cbn [mbind option_bind]. intros E Ha.
  assert (Hfin : forall t, (exists a', getMass t i = Some a'
              /\ forall x, In x (Mass.parents a) -> In x (Mass.parents a') \/ spring_dead t x) ->
            exists a', getMass (if Z.eqb which (State.center_id (state_ t))
                                then set_state (State.set_center_id (-1) (state_ t)) t
                                else t) i = Some a'
              /\ forall x, In x (Mass.parents a) ->
                   In x (Mass.parents a')
                   \/ spring_dead (if Z.eqb which (State.center_id (state_ t))
                                   then set_state (State.set_center_id (-1) (state_ t)) t
                                   else t) x).
  { intros t H. destruct (Z.eqb which _); exact H. }
  destruct (Mass.isAlive m).
  - rewrite (modMass_Some _ _ _ _ Hm) in E. cbn [mbind option_bind] in E.
    set (s0 := set_masses _ s) in E.
    destruct (for_each deleteSpring (Mass.parents m) s0) as [t|] eqn:Et; [|discriminate].
    cbn [mbind option_bind] in E. injection E as <-. apply Hfin.
    assert (Ha0 : exists a0, getMass s0 i = Some a0 /\ Mass.parents a0 = Mass.parents a).
    { unfold getMass, s0 in *. cbn [masses_ set_masses]. rewrite (at_insert _ _ _ _ _ Hm).
      destruct (Z.eqb_spec i which) as [->|_]; [|eauto].
      assert (a = m) by congruence. subst a. eauto. }
    destruct Ha0 as (a0 & Ha0 & Ep).
    destruct (deleteSprings_trace _ _ _ _ _ Et Ha0) as (a' & Ha' & P).
    exists a'. split; [exact Ha'|]. intros x Hx. apply P. now rewrite Ep.
  - cbn [mbind option_bind] in E. injection E as <-. apply Hfin. exists a. auto.
Qed.

(** [deleteMass] on a live mass: every spring of its parent list is
    dead afterwards. *)
Lemma deleteMass_kills which s s' m :
  deleteMass which s = Some s' -> getMass s which = Some m -> Mass.isAlive m = true ->
  forall p, In p (Mass.parents m) -> spring_dead s' p.
Proof.
  unfold deleteMass. intros E Hm Ha. rewrite Hm in E. cbn [mbind option_bind] in E.
  rewrite Ha in E. rewrite (modMass_Some _ _ _ _ Hm) in E. cbn [mbind option_bind] in E.
  destruct (for_each deleteSpring (Mass.parents m) _) as [t|] eqn:Et; [|discriminate].
  cbn [mbind option_bind] in E. injection E as <-. intros p Hp.
  pose proof (deleteSprings_dead _ _ _ Et p Hp) as H.
  destruct (Z.eqb which _); exact H.
Qed.

(** One pass of the wall loop, seen from another mass. *)
Lemma wall_body_trace width_ height_ stick_mag j t t' i a :
  wall_body width_ height_ stick_mag j t = Some t' -> j <> i -> getMass t i = Some a ->
  exists a', getMass t' i = Some a' /\ unlinked i a a'
    /\ (forall x, In x (Mass.parents a) -> In x (Mass.parents a') \/ spring_dead t' x).
Proof.
  intros E Hj Ha.
  destruct (wall_body_others _ _ _ _ _ _ i a E ltac:(congruence) Ha) as (a' & Ha' & U).
  exists a'. split; [exact Ha'|]. split; [exact U|].
  unfold wall_body in E. destruct (getMass t j) as [m|] eqn:Hm; [|discriminate].
  cbn [mbind option_bind] in E.
  assert (Hmod : forall f, modMass j f t = Some t' ->
            forall x, In x (Mass.parents a) -> In x (Mass.parents a') \/ spring_dead t' x).
  { intros f (b & Hb & ->)%modMass_inv x Hx. left.
    unfold getMass in *. cbn [masses_ set_masses] in Ha'.
    rewrite (at_insert _ _ _ _ _ Hb) in Ha'.
    destruct (Z.eqb_spec i j); [congruence|]. congruence. }
  destruct (Mass.free m).
  - destruct (exploded m).
    + destruct (deleteMass_trace _ _ _ _ _ E Ha) as (a2 & Ha2 & P).
      assert (a2 = a') by congruence. subst a2. exact P.
    + destruct (stuck _ _ _ _ _); eapply Hmod; exact E.
  - injection E as <-. assert (a' = a) by congruence. subst a'. auto.
Qed.

(** The wall loop split at the pass for mass [i]: [t] is the store
    before that pass, [t2] the store after it. *)
Lemma walls_own_pass width_ height_ s s2 i m :
  walls width_ height_ s = Some s2 -> getMass s i = Some m ->
  exists t t2 a b m2,
    center_cleared (state_ s) (state_ t)
    /\ getMass t i = Some a /\ unlinked i m a
    /\ (forall x, In x (Mass.parents m) -> In x (Mass.parents a) \/ spring_dead t x)
    /\ wall_body width_ height_ (stick_mag_of s) i t = Some t2
    /\ getMass t2 i = Some b
    /\ pointwise (fun _ => spring_waned) (springs_ t2) (springs_ s2)
    /\ getMass s2 i = Some m2 /\ unlinked i b m2.
Proof.
  unfold walls, for_upto. intros E Hm.
  change (STICK_MAG * State.cur_dt (state_ s) * State.cur_stick (state_ s))%float
    with (stick_mag_of s) in E.
  pose proof Hm as Hi. unfold getMass in Hi. apply at_Some in Hi as [Hi0 Hi].
  apply lookup_lt_Some in Hi.
  set (k := Z.to_nat i) in *. set (n := length (masses_ s)) in *.
  replace n with (k + S (n - S k))%nat in E by lia.
  rewrite seq_app, map_app in E. cbn [seq map Nat.add] in E.
  rewrite for_each_app in E.
  destruct (for_each _ (map Z.of_nat (seq 0 k)) s) as [t|] eqn:E1; [|discriminate].
  cbn [mbind option_bind for_each] in E.
  replace (Z.of_nat k) with i in E by (unfold k; lia).
  destruct (wall_body width_ height_ (stick_mag_of s) i t) as [t2|] eqn:E2; [|discriminate].
  cbn [mbind option_bind] in E.
  assert (H1 : center_cleared (state_ s) (state_ t)
               /\ exists a, getMass t i = Some a /\ unlinked i m a
                  /\ forall x, In x (Mass.parents m) ->
                       In x (Mass.parents a) \/ spring_dead t x).
  { eapply (for_each_inv_in (fun u => center_cleared (state_ s) (state_ u)
               /\ exists a, getMass u i = Some a /\ unlinked i m a
                  /\ forall x, In x (Mass.parents m) ->
                       In x (Mass.parents a) \/ spring_dead u x)); [|exact E1|].
    - intros j u u' Hj Hb (C & a & Ha & U & P).
      apply in_map_iff in Hj as (j' & <- & Hj'). apply in_seq in Hj'.
      pose proof (wall_body_carried _ _ _ _ _ _ Hb) as (_ & Sw & Cw).
      destruct (wall_body_trace _ _ _ _ _ _ i a Hb ltac:(unfold k in *; lia) Ha)
        as (a' & Ha' & U' & P').
      split; [eapply center_cleared_trans; eassumption|].
      exists a'. split; [exact Ha'|]. split; [eapply unlinked_trans; eassumption|].
      intros x Hx. destruct (P x Hx) as [H|H]; [apply P', H|].
      right. eapply spring_dead_waned; eassumption.
    - split; [apply center_cleared_refl|]. exists m.
      split; [exact Hm|]. split; [apply unlinked_refl | auto]. }
  destruct H1 as (C & a & Ha & U & P).
  pose proof (wall_body_carried _ _ _ _ _ _ E2) as ([_ M2] & _ & _).
  destruct (M2 i a Ha) as (b & Hb & _).
  assert (H2 : pointwise (fun _ => spring_waned) (springs_ t2) (springs_ s2)
               /\ exists m2, getMass s2 i = Some m2 /\ unlinked i b m2).
  { eapply (for_each_inv_in (fun u => pointwise (fun _ => spring_waned) (springs_ t2) (springs_ u)
               /\ exists m2, getMass u i = Some m2 /\ unlinked i b m2)); [|exact E|].
    - intros j u u' Hj Hw (Sw & m2 & Hm2 & U2).
      apply in_map_iff in Hj as (j' & <- & Hj'). apply in_seq in Hj'.
      pose proof (wall_body_carried _ _ _ _ _ _ Hw) as (_ & Sw' & _).
      destruct (wall_body_others _ _ _ _ _ _ i m2 Hw ltac:(unfold k in *; lia) Hm2)
        as (m3 & Hm3 & U3).
      split; [eapply pointwise_waned_trans; eassumption|].
      exists m3. split; [exact Hm3 | eapply unlinked_trans; eassumption].
    - split; [apply pointwise_waned_refl|]. exists b. split; [exact Hb | apply unlinked_refl]. }
  destruct H2 as (Sw & m2 & Hm2 & U2).
  exists t, t2, a, b, m2.
  split; [exact C|]. split; [exact Ha|]. split; [exact U|]. split; [exact P|].
  split; [exact E2|]. split; [exact Hb|]. split; [exact Sw|]. split; [exact Hm2 | exact U2].
Qed.

(** ** Exploded masses *)

(** C2, as the code has it.  Take a free mass as the integration step
    inside [advance] leaves it.  If its position or acceleration is NaN
    or infinite (the values [v - v != 0.0] holds of), [deleteMass] is
    called on it: in the state [advance] returns its status is 0 and
    every spring of its parent list is dead.  If its position and
    acceleration are finite, it is not deleted, whatever its velocity
    is: its status is what it was; in particular a mass with a NaN
    velocity and a finite position and acceleration is alive on return.
    Nothing is reported: the flag returned is the frame pacer's. *)
Theorem exploded_masses_deleted (M : Libm) (width_ height_ : Z) (fuel : nat)
    (s s1 s' : System) (p p' : Pacer) (due : bool) (i : Z) (m : Mass) :
  integrate M width_ height_ fuel s = Some s1 ->
  advance M width_ height_ fuel s p = Some (due, s', p') ->
  getMass s1 i = Some m -> Mass.free m = true ->
  (exists m', getMass s' i = Some m'
     /\ (on_scale m = false ->
         Mass.status m' = 0 /\ Mass.isAlive m' = false
         /\ forall q, In q (Mass.parents m) -> spring_dead s' q)
     /\ (on_scale m = true ->
         Mass.status m' = Mass.status m /\ Mass.isAlive m' = true)
     /\ (nan_velocity m = true -> on_scale m = true -> Mass.isAlive m' = true))
  /\ (due, p') = pace (State.cur_dt (state_ s')) p.
Proof.
  intros E1 E Hm Hfree. unfold advance in E. rewrite E1 in E.
  cbn [mbind option_bind] in E.
  destruct (walls width_ height_ s1) as [s2|] eqn:E2; [|discriminate].
  cbn [mbind option_bind] in E.
  destruct (collisions s2) as [s3|] eqn:E3; [|discriminate].
  cbn [mbind option_bind] in E.
  destruct (pace (State.cur_dt (state_ s3)) p) as [d q] eqn:Ep.
  inversion E; subst due s' p'. clear E. split; [|now rewrite Ep].
  destruct (walls_own_pass _ _ _ _ _ _ E2 Hm)
    as (t & t2 & a & b & m2 & C & Ha & U & P & Ew & Hb & Sw & Hm2 & U2).
  destruct (collisions_status _ _ E3) as [_ P3].
  destruct (P3 i m2 Hm2) as (m3 & Hm3 & Hst3).
  destruct (collisions_safe s2) as (s3' & E3' & _ & S3 & _).
  rewrite E3 in E3'. injection E3' as <-.
  assert (Hfa : Mass.free a = true) by now rewrite (unlinked_free _ _ _ U).
  assert (Hxa : exploded a = negb (on_scale m))
    by now rewrite (unlinked_exploded _ _ _ U), exploded_on_scale.
  assert (Hst2 : Mass.status m3 = Mass.status b)
    by now rewrite Hst3, (unlinked_status _ _ _ U2).
  exists m3. split; [exact Hm3|].
  assert (Hcases : if on_scale m
                   then Mass.status m3 = Mass.status m /\ Mass.isAlive m3 = true
                   else Mass.status m3 = 0 /\ Mass.isAlive m3 = false
                        /\ forall q, In q (Mass.parents m) -> spring_dead s3 q).
  2:{ destruct (on_scale m).
      - split; [discriminate|]. split; [intros _; exact Hcases|]. intros _ _. apply Hcases.
      - split; [intros _; exact Hcases|]. split; discriminate. }
  destruct (on_scale m); cbn [negb] in Hxa.
  - pose proof (wall_body_pass _ _ _ _ _ _ _ Ew Ha Hfa Hxa) as Hb'.
    assert (Hsb : Mass.status b = Mass.status a).
    { rewrite Hb in Hb'. injection Hb' as ->. destruct (stuck _ _ _ _ _).
      - apply pin_kept.
      - eapply kept_trans; [apply bounce_x_kept | apply bounce_y_kept]. }
    assert (Hs : Mass.status m3 = Mass.status m)
      by now rewrite Hst2, Hsb, (unlinked_status _ _ _ U).
    split; [exact Hs|]. unfold Mass.isAlive. rewrite Hs.
    unfold Mass.free in Hfree. now apply andb_prop in Hfree as [Hal _].
  - destruct (wall_body_exploded _ _ _ _ _ _ _ Ew Ha Hfa Hxa) as (b' & Hb' & Hst).
    assert (b' = b) by congruence. subst b'.
    assert (H0 : Mass.status m3 = 0) by congruence.
    split; [exact H0|]. split; [unfold Mass.isAlive; now rewrite H0|].
    intros x Hx.
    assert (Hd2 : spring_dead t2 x).
    { destruct (P x Hx) as [Hin|Hd].
      - unfold wall_body in Ew. rewrite Ha in Ew. cbn [mbind option_bind] in Ew.
        rewrite Hfa, Hxa in Ew.
        eapply (deleteMass_kills _ _ _ _ Ew Ha); [|exact Hin].
        unfold Mass.free in Hfa. now apply andb_prop in Hfa as [Hal _].
      - eapply spring_dead_waned; [|exact Hd]. eapply wall_body_carried, Ew. }
    apply (spring_dead_waned _ _ _ Sw) in Hd2.
    destruct Hd2 as (sp & Hsp & Hd). exists sp. split; [|exact Hd].
    unfold getSpring in *. now rewrite S3.
Qed.

(** The mass with the infinite velocity in [Sample.tethered] is deleted,
    and its spring with it. *)
Lemma exploded_masses_deleted_witness :
  exists s', option_map (fun r => snd (fst r))
               (advance Scene.libm 400 400 1 Sample.tethered Pacer0) = Some s'
    /\ (exists m', getMass s' 1 = Some m' /\ Mass.status m' = 0 /\ Mass.isAlive m' = false)
    /\ spring_dead s' 1.
Proof.
  destruct (integrate Scene.libm 400 400 1 Sample.tethered) as [s1|] eqn:E1;
    [|vm_compute in E1; discriminate].
  destruct (advance Scene.libm 400 400 1 Sample.tethered Pacer0) as [[[due s'] p']|] eqn:E;
    [|vm_compute in E; discriminate].
  exists s'. split; [reflexivity|].
  assert (Hm : exists m, getMass s1 1 = Some m /\ Mass.free m = true /\ on_scale m = false
                         /\ In 1 (Mass.parents m)).
  { clear E. vm_compute in E1. injection E1 as <-. eexists. split; [reflexivity|].
    split; [vm_compute; reflexivity|]. split; [vm_compute; reflexivity|]. now left. }
  destruct Hm as (m & Hm & Hfree & Hoff & Hin).
  destruct (proj1 (exploded_masses_deleted _ _ _ _ _ _ _ _ _ _ _ _ E1 E Hm Hfree))
    as (m' & Hm' & H & _).
  destruct (H Hoff) as (H0 & Hd & Hsp).
  split; [exists m'; split; [exact Hm'|]; split; [exact H0 | exact Hd]|].
  exact (Hsp 1 Hin).
Defined.

(** ** Wall stick *)

Lemma stuck_cleared width_ height_ st st' sm m :
  center_cleared st st' -> stuck width_ height_ st' sm m = stuck width_ height_ st sm m.
Proof. intros [->| ->]; reflexivity. Qed.

Lemma bounce_cleared width_ height_ st st' m :
  center_cleared st st' ->
  bounce_y height_ st' (bounce_x width_ st' m) = bounce_y height_ st (bounce_x width_ st m).
Proof. intros [->| ->]; reflexivity. Qed.

Lemma bounce_x_parents width_ st ps m :
  bounce_x width_ st (Mass.set_parents ps m) = Mass.set_parents ps (bounce_x width_ st m).
Proof.
  destruct m.
  cbv beta iota zeta delta [bounce_x Mass.set_parents Mass.set_x Mass.set_vx Mass.set_vy
    Mass.x Mass.y Mass.vx Mass.vy Mass.ax Mass.ay Mass.mass Mass.elastic Mass.radius
    Mass.parents Mass.status Mass.cur Mass.old Mass.test Mass.k1 Mass.k2 Mass.k3 Mass.k4
    Mass.k5 Mass.k6 Mass.old_x Mass.old_y].
  repeat match goal with |- context [if ?c then _ else _] => destruct c end; reflexivity.
Qed.

Lemma bounce_y_parents height_ st ps m :
  bounce_y height_ st (Mass.set_parents ps m) = Mass.set_parents ps (bounce_y height_ st m).
Proof.
  destruct m.
  cbv beta iota zeta delta [bounce_y Mass.set_parents Mass.set_y Mass.set_vx Mass.set_vy
    Mass.x Mass.y Mass.vx Mass.vy Mass.ax Mass.ay Mass.mass Mass.elastic Mass.radius
    Mass.parents Mass.status Mass.cur Mass.old Mass.test Mass.k1 Mass.k2 Mass.k3 Mass.k4
    Mass.k5 Mass.k6 Mass.old_x Mass.old_y].
  repeat match goal with |- context [if ?c then _ else _] => destruct c end; reflexivity.
Qed.

Lemma set_parents_twice ps ps' m :
  Mass.set_parents ps' (Mass.set_parents ps m) = Mass.set_parents ps' m.
Proof. reflexivity. Qed.

(** C4, as the code has it, on one call of [advance]: [s] is the state
    the integrator leaves and [s'] the state returned.  Take a free mass
    that passes the exploded-value test and whose snapshot velocity is
    zero on both axes.  The threshold is [stick_mag / mass] with
    [stick_mag = STICK_MAG * cur_dt * cur_stick], [cur_dt] being the step
    the integrator leaves.  If the snapshot position is within 0.5 of an
    enabled left or right wall, the stick test looks at [vx] only; the
    test on [vy] for the bottom and top walls is made only when the mass
    is not near an enabled left or right wall.  When the tested component
    is below the threshold in magnitude, the mass is put back at its
    snapshot with zero velocity and nothing else of it changes but its
    parent list; otherwise it is not pinned and goes through the bounce
    code.  The position is final; the velocity is final when collisions
    are off, else the contact code that follows may still change it.
    With stickiness 0 the threshold is zero (or NaN) and no mass is
    pinned this way. *)
Theorem wall_stick (M : Libm) (width_ height_ : Z) (fuel : nat)
    (s0 s s' : System) (p p' : Pacer) (due : bool) (i : Z) (m : Mass) :
  integrate M width_ height_ fuel s0 = Some s ->
  advance M width_ height_ fuel s0 p = Some (due, s', p') ->
  getMass s i = Some m ->
  Mass.free m = true ->
  exploded m = false ->
  (Mass.old_vx m =? 0)%float = true ->
  (Mass.old_vy m =? 0)%float = true ->
  let mst := state_ s in
  let threshold :=
    (STICK_MAG * State.cur_dt mst * State.cur_stick mst / Mass.mass m)%float in
  let pinned :=
    if near_wall_x width_ mst m then (abs (Mass.vx m) <? threshold)%float
    else if near_wall_y height_ mst m then (abs (Mass.vy m) <? threshold)%float
         else false in
  let bounced := bounce_y height_ mst (bounce_x width_ mst m) in
  (exists m', getMass s' i = Some m'
     /\ (pinned = true ->
         Mass.x m' = Mass.old_x m /\ Mass.y m' = Mass.old_y m
         /\ (State.collide mst = false ->
             Mass.vx m' = 0%float /\ Mass.vy m' = 0%float
             /\ m' = Mass.set_parents (Mass.parents m') (pin m)))
     /\ (pinned = false ->
         Mass.x m' = Mass.x bounced /\ Mass.y m' = Mass.y bounced
         /\ (State.collide mst = false ->
             m' = Mass.set_parents (Mass.parents m') bounced)))
  /\ ((State.cur_stick mst =? 0)%float = true ->
      D.zero_or_nan threshold = true /\ pinned = false).
Proof.
  intros E1 E Hm Hfree Hexp Hvx Hvy mst threshold pinned bounced.
  assert (Hstuck : stuck width_ height_ mst (stick_mag_of s) m = pinned).
  { unfold stuck. rewrite Hvx, Hvy. reflexivity. }
  split.
  2:{ intros Hzero. pose proof (threshold_zero_or_nan s (Mass.mass m) Hzero) as Ht.
      split; [exact Ht|]. unfold pinned. change threshold with (stick_mag_of s / Mass.mass m)%float.
      rewrite !(abs_ltb_zero_or_nan _ _ Ht).
      destruct (near_wall_x _ _ _); [reflexivity|].
      destruct (near_wall_y _ _ _); reflexivity. }
  unfold advance in E. rewrite E1 in E. cbn [mbind option_bind] in E.
  destruct (walls width_ height_ s) as [s2|] eqn:E2; [|discriminate].
  cbn [mbind option_bind] in E.
  destruct (collisions s2) as [s3|] eqn:E3; [|discriminate].
  cbn [mbind option_bind] in E.
  destruct (pace (State.cur_dt (state_ s3)) p) as [d q].
  inversion E; subst due s' p'. clear E.
  destruct (walls_own_pass _ _ _ _ _ _ E2 Hm)
    as (t & t2 & a & b & m2 & C & Ha & U & _ & Ew & Hb & _ & Hm2 & U2).
  assert (Hfa : Mass.free a = true) by now rewrite (unlinked_free _ _ _ U).
  assert (Hxa : exploded a = false) by now rewrite (unlinked_exploded _ _ _ U).
  pose proof (wall_body_pass _ _ _ _ _ _ _ Ew Ha Hfa Hxa) as Hb'.
  rewrite Hb in Hb'. injection Hb' as Eb.
  destruct U as [Ea _]. destruct U2 as [E2' _].
  rewrite (stuck_cleared _ _ _ _ _ _ C), (bounce_cleared _ _ _ _ _ C) in Eb.
  rewrite Ea in Eb. change (stuck width_ height_ (state_ s) (stick_mag_of s)
                              (Mass.set_parents (Mass.parents a) m))
    with (stuck width_ height_ mst (stick_mag_of s) m) in Eb.
  rewrite Hstuck, bounce_x_parents, bounce_y_parents in Eb. fold mst bounced in Eb.
  assert (Em2 : m2 = Mass.set_parents (Mass.parents m2) (if pinned then pin m else bounced)).
  { rewrite E2', Eb. destruct pinned; reflexivity. }
  (* the contact code *)
  pose proof (walls_carried _ _ _ _ E2) as (_ & _ & C2).
  assert (Hcol : State.collide (state_ s2) = State.collide mst)
    by (unfold mst; destruct C2 as [->| ->]; reflexivity).
  destruct (collisions_safe s2) as (s3' & E3' & [_ P3] & _).
  rewrite E3 in E3'. injection E3' as <-.
  destruct (P3 i m2 Hm2) as (m3 & Hm3 & [D3 _]).
  assert (Hoff : State.collide mst = false -> m3 = m2).
  { intros Hc. unfold collisions in E3. rewrite Hcol, Hc in E3.
    injection E3 as <-. unfold getMass in *. congruence. }
  assert (Hpos : Mass.x m3 = Mass.x m2 /\ Mass.y m3 = Mass.y m2)
    by (unfold deflected in D3; rewrite D3; split; reflexivity).
  destruct Hpos as [Hx Hy].
  exists m3. split; [exact Hm3|]. split; intros Hp; rewrite Hp in Em2.
  - split; [rewrite Hx, Em2; reflexivity|]. split; [rewrite Hy, Em2; reflexivity|].
    intros Hc. rewrite (Hoff Hc).
    split; [rewrite Em2; reflexivity|]. split; [rewrite Em2; reflexivity | exact Em2].
  - split; [rewrite Hx, Em2; reflexivity|]. split; [rewrite Hy, Em2; reflexivity|].
    intros Hc. rewrite (Hoff Hc). exact Em2.
Qed.

(** The mass of [Scene.on_floor] is put back on the floor at rest. *)
Lemma wall_stick_witness :
  exists s m due s' p' m',
    integrate Scene.libm 400 400 1 Scene.on_floor = Some s
    /\ getMass s 1 = Some m
    /\ advance Scene.libm 400 400 1 Scene.on_floor Pacer0 = Some (due, s', p')
    /\ getMass s' 1 = Some m'
    /\ Mass.x m' = Mass.old_x m /\ Mass.y m' = Mass.old_y m
    /\ Mass.vx m' = 0%float /\ Mass.vy m' = 0%float.
Proof.
  destruct (integrate Scene.libm 400 400 1 Scene.on_floor) as [s|] eqn:E;
    [|vm_compute in E; discriminate].
  destruct (advance Scene.libm 400 400 1 Scene.on_floor Pacer0) as [[[due s'] p']|] eqn:Ea;
    [|vm_compute in Ea; discriminate].
  assert (Hm : exists m, getMass s 1 = Some m /\ Mass.free m = true
             /\ exploded m = false
             /\ (Mass.old_vx m =? 0)%float = true /\ (Mass.old_vy m =? 0)%float = true
             /\ near_wall_x 400 (state_ s) m = false
             /\ near_wall_y 400 (state_ s) m = true
             /\ (abs (Mass.vy m)
                 <? STICK_MAG * State.cur_dt (state_ s) * State.cur_stick (state_ s)
                    / Mass.mass m)%float = true
             /\ State.collide (state_ s) = false).
  { clear Ea. vm_compute in E. injection E as <-. eexists. split; [reflexivity|].
    vm_compute. repeat split. }
  destruct Hm as (m & Hm & Hfree & Hexp & Hvx & Hvy & Hnx & Hny & Hthr & Hcol).
  destruct (proj1 (wall_stick _ _ _ _ _ _ _ _ _ _ _ _ E Ea Hm Hfree Hexp Hvx Hvy))
    as (m' & Hm' & Hpin & _).
  rewrite Hnx, Hny, Hthr in Hpin.
  destruct (Hpin eq_refl) as (Hx & Hy & Hv). destruct (Hv Hcol) as (Hvx' & Hvy' & _).
  exists s, m, due, s', p', m'. repeat split; assumption.
Defined.

(** ** Centre-of-mass force, with every other force *)

Section CentreOfMass.

Local Open Scope float_scope.

Lemma accel_center_spec width_ height_ s cx cy s0 :
  accel_center width_ height_ s = Some (cx, cy, s0) ->
  (cx, cy) = center_point width_ height_ s
  /\ State.center_id (state_ s0) = live_center s.
Proof.
  unfold accel_center, center_point, live_center.
  destruct (Z.leb 0 (State.center_id (state_ s))).
  - destruct (getMass s _) as [c|]; [|discriminate]. cbn [mbind option_bind].
    change (has_bit (Mass.status c) S_ALIVE) with (Mass.isAlive c).
    destruct (Mass.isAlive c); intros [= <- <- <-]; split; reflexivity.
  - intros [= <- <- <-]. split; reflexivity.
Qed.

(** The three loops over the masses, seen from one free mass. *)
Lemma accel_ptattract_adds M mst cx cy m :
  Mass.free m = true ->
  accel_ptattract M mst cx cy 1.0 m
  = Mass.set_ay (Mass.ay m + snd (ptattract_pull M mst cx cy m))
      (Mass.set_ax (Mass.ax m + fst (ptattract_pull M mst cx cy m)) m).
Proof. intros H. unfold accel_ptattract. rewrite H. reflexivity. Qed.

Lemma accel_wall_adds M width_ height_ mst m :
  Mass.free m = true ->
  accel_wall M width_ height_ mst m
  = Mass.set_ay (Mass.ay m + snd (wall_pull M width_ height_ mst m))
      (Mass.set_ax (Mass.ax m + fst (wall_pull M width_ height_ mst m)) m).
Proof. intros H. unfold accel_wall. rewrite H. reflexivity. Qed.

(** The spring loop, seen from one mass. *)
Lemma modMass_exact i f s s' :
  modMass i f s = Some s' ->
  pointwise (fun j a a' => a' = if Z.eqb j i then f a else a) (masses_ s) (masses_ s')
  /\ springs_ s' = springs_ s /\ state_ s' = state_ s.
Proof.
  intros (b & Hb & ->)%modMass_inv. split; [|split; reflexivity].
  split; [cbn; apply length_insert|]. intros j a Ha. unfold getMass in Hb. cbn.
  rewrite (at_insert _ _ _ _ _ Hb). destruct (Z.eqb_spec j i) as [->|_].
  - exists (f b). split; [reflexivity|]. congruence.
  - exists a. auto.
Qed.

Lemma accel_spring_adds k t t' sp :
  accel_spring k t = Some t' -> getSpring t k = Some sp ->
  pointwise (fun i m m' =>
               m' = with_acc (spring_adds (masses_ t) i (Mass.ax m, Mass.ay m) sp) m)
    (masses_ t) (masses_ t')
  /\ springs_ t' = springs_ t /\ state_ t' = state_ t.
Proof.
  unfold accel_spring, spring_adds, spring_pull. intros E Hsp. rewrite Hsp in E.
  cbn [mbind option_bind] in E.
  assert (Hrefl : pointwise (fun (i : Z) m m' => m' = with_acc (Mass.ax m, Mass.ay m) m)
                    (masses_ t) (masses_ t))
    by (apply pointwise_refl; intros j a; now destruct a).
  destruct (has_bit (Spring.status sp) S_ALIVE); [|injection E as <-; auto].
  unfold getMass in E.
  destruct (at_ (masses_ t) (Spring.m1 sp)) as [m1|]; [|discriminate].
  cbn [mbind option_bind] in E.
  destruct (at_ (masses_ t) (Spring.m2 sp)) as [m2|]; [|discriminate].
  cbn [mbind option_bind] in E. cbn zeta in E |- *.
  destruct (D.truthy _ || D.truthy _); [|injection E as <-; auto].
  destruct (modMass _ _ t) as [t1|] eqn:E1; [|discriminate]. cbn [mbind option_bind] in E.
  destruct (modMass _ _ t1) as [t2|] eqn:E2; [|discriminate]. cbn [mbind option_bind] in E.
  destruct (modMass _ _ t2) as [t3|] eqn:E3; [|discriminate]. cbn [mbind option_bind] in E.
  apply modMass_exact in E1 as (P1 & S1 & T1). apply modMass_exact in E2 as (P2 & S2 & T2).
  apply modMass_exact in E3 as (P3 & S3 & T3). apply modMass_exact in E as (P4 & S4 & T4).
  split; [|split; congruence].
  destruct P1 as [L1 P1], P2 as [L2 P2], P3 as [L3 P3], P4 as [L4 P4].
  split; [congruence|]. intros j a Ha.
  destruct (P1 j a Ha) as (b1 & Hb1 & ->). destruct (P2 j _ Hb1) as (b2 & Hb2 & ->).
  destruct (P3 j _ Hb2) as (b3 & Hb3 & ->). destruct (P4 j _ Hb3) as (b4 & Hb4 & ->).
  eexists. split; [exact Hb4|]. cbn beta.
  destruct (Z.eqb j (Spring.m1 sp)), (Z.eqb j (Spring.m2 sp)); now destruct a.
Qed.

Lemma spring_pull_same ms ms' sp :
  pointwise (fun _ m m' => pv m' = pv m /\ Mass.mass m' = Mass.mass m) ms ms' ->
  spring_pull ms' sp = spring_pull ms sp.
Proof.
  intros [L P]. unfold spring_pull.
  destruct (has_bit (Spring.status sp) S_ALIVE); [|reflexivity].
  assert (H : forall j, match at_ ms j with
                        | Some m => exists m', at_ ms' j = Some m'
                                      /\ pv m' = pv m /\ Mass.mass m' = Mass.mass m
                        | None => at_ ms' j = None
                        end).
  { intros j. destruct (at_ ms j) as [m|] eqn:E; [apply P, E|].
    destruct (at_ ms' j) eqn:E'; [|reflexivity].
    assert (Hs : is_Some (at_ ms j)) by (apply at_is_Some; rewrite <- L; apply at_is_Some; eauto).
    destruct Hs as [? Hs]. congruence. }
  pose proof (H (Spring.m1 sp)) as H1. pose proof (H (Spring.m2 sp)) as H2.
  destruct (at_ ms (Spring.m1 sp)) as [m1|].
  - destruct H1 as (m1' & -> & Q1 & M1).
    destruct (at_ ms (Spring.m2 sp)) as [m2|].
    + destruct H2 as (m2' & -> & Q2 & M2).
      unfold pv in Q1, Q2. injection Q1 as -> -> -> ->. injection Q2 as -> -> -> ->.
      rewrite M1, M2. reflexivity.
    + rewrite H2. reflexivity.
  - rewrite H1. reflexivity.
Qed.

Lemma with_acc_twice a b m : with_acc b (with_acc a m) = with_acc b m.
Proof. reflexivity. Qed.

Lemma accel_springs_adds n : forall k t t',
  for_each accel_spring (map Z.of_nat (seq k n)) t = Some t' ->
  (k + n <= length (springs_ t))%nat ->
  pointwise (fun i m m' =>
               m' = with_acc (fold_left (spring_adds (masses_ t) i)
                                (firstn n (skipn k (springs_ t)))
                                (Mass.ax m, Mass.ay m)) m)
    (masses_ t) (masses_ t').
Proof.
  induction n as [|n IH]; intros k t t'; cbn [seq map for_each].
  - intros [= <-] _. apply pointwise_refl. intros j a. cbn. now destruct a.
  - destruct (accel_spring (Z.of_nat k) t) as [t1|] eqn:E1; [|discriminate].
    cbn [mbind option_bind]. intros E Hk.
    assert (Hsp : is_Some (springs_ t !! k)) by (apply lookup_lt_is_Some; lia).
    destruct Hsp as [sp Hsp].
    assert (Hget : getSpring t (Z.of_nat k) = Some sp)
      by (unfold getSpring; now rewrite at_of_nat).
    destruct (accel_spring_adds _ _ _ _ E1 Hget) as (P1 & S1 & _).
    assert (Hk1 : (S k + n <= length (springs_ t1))%nat) by (rewrite S1; lia).
    pose proof (IH _ _ _ E Hk1) as P2. rewrite S1 in P2.
    rewrite (skipn_cons_lookup _ _ _ Hsp). cbn [firstn fold_left].
    assert (Hsame : forall q, spring_pull (masses_ t1) q = spring_pull (masses_ t) q).
    { intros q. apply spring_pull_same. eapply pointwise_weaken; [|exact P1].
      intros j a b ->. split; reflexivity. }
    eapply pointwise_trans; [|exact P1|exact P2].
    intros j a b c -> ->. cbn beta. rewrite with_acc_twice. f_equal.
    assert (Hadds : forall x q, spring_adds (masses_ t1) j x q = spring_adds (masses_ t) j x q)
      by (intros x q; unfold spring_adds; now rewrite Hsame).
    set (a1 := spring_adds (masses_ t) j (Mass.ax a, Mass.ay a) sp).
    change (Mass.ax (with_acc a1 a), Mass.ay (with_acc a1 a)) with (fst a1, snd a1).
    replace (fst a1, snd a1) with a1 by now destruct a1.
    assert (Hfold : forall l x, fold_left (spring_adds (masses_ t1) j) l x
                                = fold_left (spring_adds (masses_ t) j) l x).
    { induction l as [|q l IHl]; intros x; cbn [fold_left]; [reflexivity|].
      rewrite Hadds. apply IHl. }
    apply Hfold.
Qed.

(** C6, as the code has it, whatever other forces and springs there
    are.  With the centre-of-mass force enabled, the accumulator assigns
    to every free mass other than the centre mass
    [g + og - cur_visc * v], and to the centre mass [g - cur_visc * v].
    The term [og] is one and the same for all of them: minus (magnitude
    times the offset of the mass-weighted mean position of the moving
    masses from the centre point, plus damping times their
    mass-weighted mean velocity), divided by the total mass of the moving
    masses (when that is non-zero; else 0); it is not divided by the
    mass's own mass.  The centre point is the position of the live centre
    mass, else the middle of the window.  On top of this value the
    point-attraction term and the wall term are added when those forces
    are enabled, and then what each spring adds, in the order of the
    springs; that sum is the acceleration the mass has on return, and
    nothing else of the mass changes. *)
Theorem cmass_pull_uniform (M : Libm) (width_ height_ : Z) (s s' : System) :
  accumulateAccel M width_ height_ s = Some s' ->
  State.force_enabled (state_ s) FR_CMASS = true ->
  let mst := state_ s in
  let center := live_center s in
  let cx := fst (center_point width_ height_ s) in
  let cy := snd (center_point width_ height_ s) in
  let moving := moving_masses center (masses_ s) in
  let tm := total_mass moving in
  let gval := State.cur_grav_val mst FR_CMASS in
  let gmisc := State.cur_misc_val mst FR_CMASS in
  let og (pos vel : Mass -> float) (c : float) : float :=
    if D.truthy tm
    then 0 - (gval * (weighted_sum pos moving / tm - c)
              + gmisc * (weighted_sum vel moving / tm)) / tm
    else 0 in
  let later (a pt wall : float) : float :=
    let a := if State.force_enabled mst FR_PTATTRACT then a + pt else a in
    if State.force_enabled mst FR_WALL then a + wall else a in
  forall i m, getMass s i = Some m -> Mass.free m = true ->
    let ax0 :=
      later (if Z.eqb i center
             then fst (accel_gravity M mst) - State.cur_visc mst * Mass.vx m
             else fst (accel_gravity M mst) + og Mass.x Mass.vx cx
                  - State.cur_visc mst * Mass.vx m)
            (fst (ptattract_pull M mst cx cy m))
            (fst (wall_pull M width_ height_ mst m)) in
    let ay0 :=
      later (if Z.eqb i center
             then snd (accel_gravity M mst) - State.cur_visc mst * Mass.vy m
             else snd (accel_gravity M mst) + og Mass.y Mass.vy cy
                  - State.cur_visc mst * Mass.vy m)
            (snd (ptattract_pull M mst cx cy m))
            (snd (wall_pull M width_ height_ mst m)) in
    getMass s' i
    = Some (with_acc (fold_left (spring_adds (masses_ s) i) (springs_ s) (ax0, ay0)) m).
Proof.
  intros Hacc Hcm mst center cx cy moving tm gval gmisc og later i m Hm Hfree ax0 ay0.
  subst mst.
  unfold accumulateAccel in Hacc.
  destruct (accel_center width_ height_ s) as [[[cx0 cy0] s0]|] eqn:Hcenter; [|discriminate].
  cbn [mbind option_bind] in Hacc.
  destruct (accel_center_inv _ _ _ _ _ _ Hcenter) as (Hms & Hsp & Hst).
  destruct (accel_center_spec _ _ _ _ _ _ Hcenter) as (Hc & Hid).
  assert (Hcx : cx0 = cx) by (unfold cx; now rewrite <- Hc).
  assert (Hcy : cy0 = cy) by (unfold cy; now rewrite <- Hc).
  subst cx0 cy0. fold center in Hid.
  set (mst0 := state_ s0) in Hacc, Hid |- *.
  assert (Hen : State.force_enabled mst0 = State.force_enabled (state_ s))
    by (unfold mst0; destruct Hst as [E|E]; rewrite E; reflexivity).
  assert (Hgv : State.cur_grav_val mst0 = State.cur_grav_val (state_ s))
    by (unfold mst0; destruct Hst as [E|E]; rewrite E; reflexivity).
  assert (Hgm : State.cur_misc_val mst0 = State.cur_misc_val (state_ s))
    by (unfold mst0; destruct Hst as [E|E]; rewrite E; reflexivity).
  assert (Hvisc : State.cur_visc mst0 = State.cur_visc (state_ s))
    by (unfold mst0; destruct Hst as [E|E]; rewrite E; reflexivity).
  assert (Hgrav : accel_gravity M mst0 = accel_gravity M (state_ s))
    by (unfold mst0; destruct Hst as [E|E]; rewrite E; reflexivity).
  assert (Hpt : forall m, ptattract_pull M mst0 cx cy m = ptattract_pull M (state_ s) cx cy m)
    by (intros a; unfold mst0; destruct Hst as [E|E]; rewrite E; reflexivity).
  assert (Hwl : forall m, wall_pull M width_ height_ mst0 m
                          = wall_pull M width_ height_ (state_ s) m)
    by (intros a; unfold mst0; destruct Hst as [E|E]; rewrite E; reflexivity).
  destruct (accel_gravity M mst0) as [gx gy] eqn:Hg.
  destruct (accel_cmass cx cy s0) as [ogx ogy] eqn:Hog.
  assert (Hogx : ogx = og Mass.x Mass.vx cx /\ ogy = og Mass.y Mass.vy cy).
  { unfold accel_cmass in Hog. fold mst0 in Hog. rewrite Hen, Hcm, Hid in Hog.
    rewrite cmass_fold in Hog. cbn [msum mixix mixiy mivix miviy] in Hog.
    rewrite Hms, Hgv, Hgm in Hog. fold (moving_masses center (masses_ s)) in Hog.
    fold moving in Hog. fold (total_mass moving) in Hog. fold tm in Hog.
    unfold og, weighted_sum. fold gval gmisc in Hog.
    destruct (D.truthy tm); inversion Hog; split; reflexivity. }
  destruct Hogx as [-> ->].
  match type of Hacc with for_upto _ _ ?x = _ => set (sb := x) in Hacc end.
  (* the store the spring loop starts from *)
  assert (Hspb : springs_ sb = springs_ s).
  { unfold sb. rewrite <- Hsp.
    destruct (State.force_enabled mst0 FR_PTATTRACT),
             (State.force_enabled mst0 FR_WALL); reflexivity. }
  assert (Hframe : pointwise (fun _ => accelerated) (masses_ s) (masses_ sb)).
  { rewrite <- Hms. unfold sb.
    pose proof (fun j : Z => accelerated_trans) as Ht.
    pose proof (accel_body_frame mst0 gx gy (og Mass.x Mass.vx cx) (og Mass.y Mass.vy cy)
                  (masses_ s0)) as B.
    destruct (State.force_enabled mst0 FR_PTATTRACT),
             (State.force_enabled mst0 FR_WALL); cbn [masses_ set_masses].
    - eapply pointwise_trans; [exact Ht| |apply accel_map_frame, accel_wall_accelerated].
      eapply pointwise_trans; [exact Ht|exact B|].
      apply accel_map_frame, accel_ptattract_accelerated.
    - eapply pointwise_trans; [exact Ht|exact B|].
      apply accel_map_frame, accel_ptattract_accelerated.
    - eapply pointwise_trans; [exact Ht|exact B|].
      apply accel_map_frame, accel_wall_accelerated.
    - exact B. }
  set (m0 := accel_body mst0 gx gy (og Mass.x Mass.vx cx) (og Mass.y Mass.vy cy) (i, m)).
  set (m1 := if State.force_enabled mst0 FR_PTATTRACT
             then accel_ptattract M mst0 cx cy 1.0 m0 else m0).
  set (m2 := if State.force_enabled mst0 FR_WALL
             then accel_wall M width_ height_ mst0 m1 else m1).
  assert (Hsb : getMass sb i = Some m2).
  { unfold getMass in *. unfold sb, m2, m1, m0.
    destruct (State.force_enabled mst0 FR_PTATTRACT),
             (State.force_enabled mst0 FR_WALL);
      cbn [masses_ set_masses];
      rewrite ?(at_map (accel_wall _ _ _ _)), ?(at_map (accel_ptattract _ _ _ _ _)),
        at_map_indexed, Hms, Hm; reflexivity. }
  assert (E0 : m0 = if Z.eqb i center
                    then Mass.set_ay (gy - State.cur_visc (state_ s) * Mass.vy m)
                           (Mass.set_ax (gx - State.cur_visc (state_ s) * Mass.vx m) m)
                    else Mass.set_ay (gy + og Mass.y Mass.vy cy
                                      - State.cur_visc (state_ s) * Mass.vy m)
                           (Mass.set_ax (gx + og Mass.x Mass.vx cx
                                         - State.cur_visc (state_ s) * Mass.vx m) m)).
  { unfold m0, accel_body. rewrite Hfree, Hid, Hvisc. destruct (Z.eqb i center); reflexivity. }
  assert (F0 : Mass.free m0 = true) by (rewrite E0; destruct (Z.eqb i center); exact Hfree).
  assert (P0 : ptattract_pull M (state_ s) cx cy m0 = ptattract_pull M (state_ s) cx cy m)
    by (rewrite E0; destruct (Z.eqb i center); reflexivity).
  assert (E1 : m1 = if State.force_enabled (state_ s) FR_PTATTRACT
                    then Mass.set_ay (Mass.ay m0 + snd (ptattract_pull M (state_ s) cx cy m))
                           (Mass.set_ax (Mass.ax m0 + fst (ptattract_pull M (state_ s) cx cy m))
                              m0)
                    else m0).
  { unfold m1. rewrite Hen. destruct (State.force_enabled (state_ s) FR_PTATTRACT);
      [|reflexivity].
    rewrite (accel_ptattract_adds _ _ _ _ _ F0), Hpt, P0. reflexivity. }
  assert (F1 : Mass.free m1 = true)
    by (rewrite E1; destruct (State.force_enabled (state_ s) FR_PTATTRACT); exact F0).
  assert (W1 : wall_pull M width_ height_ (state_ s) m1 = wall_pull M width_ height_ (state_ s) m).
  { rewrite E1, E0.
    destruct (State.force_enabled (state_ s) FR_PTATTRACT), (Z.eqb i center); reflexivity. }
  assert (E2 : m2 = if State.force_enabled (state_ s) FR_WALL
                    then Mass.set_ay (Mass.ay m1 + snd (wall_pull M width_ height_ (state_ s) m))
                           (Mass.set_ax (Mass.ax m1
                                         + fst (wall_pull M width_ height_ (state_ s) m)) m1)
                    else m1).
  { unfold m2. rewrite Hen. destruct (State.force_enabled (state_ s) FR_WALL); [|reflexivity].
    rewrite (accel_wall_adds _ _ _ _ _ F1), Hwl, W1. reflexivity. }
  assert (Em2 : m2 = with_acc (ax0, ay0) m).
  { unfold ax0, ay0, later. rewrite <- Hgrav. cbn [fst snd].
    rewrite E2, E1, E0.
    destruct (State.force_enabled (state_ s) FR_WALL),
      (State.force_enabled (state_ s) FR_PTATTRACT), (Z.eqb i center); reflexivity. }
  (* the spring loop *)
  unfold for_upto in Hacc.
  pose proof (accel_springs_adds _ _ _ _ Hacc ltac:(lia)) as [_ Ps].
  destruct (Ps i m2 Hsb) as (m' & Hm' & ->).
  rewrite skipn_O, firstn_all, Hspb in Hm'. unfold getMass. rewrite Hm'. f_equal.
  assert (Hsame : forall q, spring_pull (masses_ sb) q = spring_pull (masses_ s) q).
  { intros q. apply spring_pull_same. eapply pointwise_weaken; [|exact Hframe].
    intros j a b Hab. split; [apply accelerated_pv, Hab|].
    destruct Hab as (x & y & ->). reflexivity. }
  assert (Hfold : forall l x, fold_left (spring_adds (masses_ sb) i) l x
                              = fold_left (spring_adds (masses_ s) i) l x).
  { induction l as [|q l IHl]; intros x; cbn [fold_left]; [reflexivity|].
    unfold spring_adds at 2 4. rewrite Hsame. apply IHl. }
  rewrite Hfold, Em2. reflexivity.
Qed.

Lemma cmass_pull_uniform_witness :
  exists s' m1 m2,
    accumulateAccel Scene.libm 400 400 Scene.unequal = Some s'
    /\ getMass s' 1 = Some m1 /\ getMass s' 2 = Some m2
    /\ Mass.ax m1 = 125 /\ Mass.ax m2 = 125.
Proof.
  destruct (accumulateAccel Scene.libm 400 400 Scene.unequal) as [s'|] eqn:E;
    [|vm_compute in E; discriminate].
  pose proof (cmass_pull_uniform Scene.libm 400 400 Scene.unequal s' E eq_refl) as H.
  cbn zeta in H.
  eexists s', _, _. split; [reflexivity|].
  split; [exact (H 1%Z _ eq_refl eq_refl)|]. split; [exact (H 2%Z _ eq_refl eq_refl)|].
  split; vm_compute; reflexivity.
Defined.

End CentreOfMass.

